(** * Operon: expression-tree genome and recombination engine

    A shallow embedding of
      - include/operon/operators/recombinator/plus.hpp
      - include/operon/operators/recombinator/os.hpp
      - include/operon/core/tree.hpp, src/core/tree.cpp
      - include/operon/nnls/tiny_cost_function.hpp
    together with the properties the specification states about them. *)

From Stdlib Require Import ZArith List Bool Lia Arith PeanoNat.
From Stdlib Require Import Permutation Sorted.
From Stdlib Require Import Floats.SpecFloat.
Import ListNotations.

Set Implicit Arguments.
Set Warnings "-notation-for-abbreviation,-register-all".


(* ================================================================= *)
(** * IEEE-754 doubles, as the recombinators use them *)

(** C++ [double] is binary64.  Values are [spec_float]s; the operations
    below are the ones that occur in the sources: [<], [>],
    [std::isfinite], [std::max], [std::min], the three
    [std::numeric_limits<double>] constants, the conversion from [size_t]
    and the division. *)
Module Double.

Definition prec : Z := 53.
Definition emax : Z := 1024.

Definition double := spec_float.

(** A well-formed binary64 datum (canonical mantissa, bounded exponent). *)
Definition valid (x : double) : bool := valid_binary prec emax x.

Definition lt (a b : double) : bool := SFltb a b.
Definition gt (a b : double) : bool := lt b a.
Definition le (a b : double) : bool := SFleb a b.
Definition ge (a b : double) : bool := le b a.

(** [std::isfinite]: neither an infinity nor a NaN. *)
Definition isfinite (x : double) : bool :=
  match x with
  | S754_zero _ | S754_finite _ _ _ => true
  | S754_infinity _ | S754_nan => false
  end.

Definition isnan (x : double) : bool :=
  match x with
  | S754_nan => true
  | _ => false
  end.

(** [std::max(a, b)] is [(a < b) ? b : a]; [std::min(a, b)] is
    [(b < a) ? b : a]. *)
Definition std_max (a b : double) : double := if lt a b then b else a.
Definition std_min (a b : double) : double := if lt b a then b else a.

(** [std::numeric_limits<double>::max()]: the largest finite value,
    (2^53 - 1) * 2^971. *)
Definition numeric_limits_max : double := SFmax_float prec emax.

(** [std::numeric_limits<double>::min()]: the smallest positive normal
    value, 2^-1022. *)
Definition numeric_limits_min : double :=
  S754_finite false (Pos.iter xO xH 52) (-1074).

(** [std::numeric_limits<double>::lowest()]: the most negative finite
    value, [-max()]. *)
Definition numeric_limits_lowest : double := SFopp numeric_limits_max.

(** [static_cast<double>] of an unsigned integer (round to nearest even). *)
Definition of_size_t (z : Z) : double := binary_normalize prec emax z 0 false.

(** A signed integer literal or value converted to [double]. *)
Definition of_Z (z : Z) : double := binary_normalize prec emax z 0 false.

Definition div (a b : double) : double := SFdiv prec emax a b.

(** The literal [0] returned as a [double]. *)
Definition zero : double := S754_zero false.

(** The doubles of the specification's scenarios, mantissa and exponent
    written out: 1, -1, 2, 2.5, 5, 7 and 9. *)
Definition one : double := S754_finite false 4503599627370496 (-52).
Definition minus_one : double := S754_finite true 4503599627370496 (-52).
Definition two : double := S754_finite false 4503599627370496 (-51).
Definition two_and_a_half : double := S754_finite false 5629499534213120 (-51).
Definition five : double := S754_finite false 5629499534213120 (-50).
Definition seven : double := S754_finite false 7881299347898368 (-50).
Definition nine : double := S754_finite false 5066549580791808 (-49).

(** The order embeds into a lexicographic order on integer triples. *)
Definition rank (a : double) : Z * Z * Z :=
  match a with
  | S754_nan => (0, 0, 0)
  | S754_infinity true => (-2, 0, 0)
  | S754_infinity false => (2, 0, 0)
  | S754_zero _ => (0, 0, 0)
  | S754_finite true m e => (-1, - e, - Zpos m)
  | S754_finite false m e => (1, e, Zpos m)
  end%Z.

Definition lex_lt (x y : Z * Z * Z) : Prop :=
  let '(a, b, c) := x in
  let '(a', b', c') := y in
  (a < a' \/ (a = a' /\ (b < b' \/ (b = b' /\ c < c'))))%Z.

Definition lex_le (x y : Z * Z * Z) : Prop :=
  let '(a, b, c) := x in
  let '(a', b', c') := y in
  (a < a' \/ (a = a' /\ (b < b' \/ (b = b' /\ c <= c'))))%Z.

End Double.

(** [size_t] is 64 bits wide; unsigned arithmetic wraps. *)
Definition size_max : Z := 2 ^ 64.
Definition wrap (z : Z) : Z := z mod size_max.

(* ================================================================= *)
(** * The recombinators *)

Module Recombinator.
Import Double.

(** Modelled from the spec: the individual type (core/operator.hpp is
    not in src/): a genotype plus its cached fitness.  [Fitness] is the
    component at [TSelector::SelectableIndex], the only one the
    recombinators read or write. *)
Record Individual (genotype : Type) : Type := mkIndividual {
  Genotype : genotype;
  Fitness : double
}.
Arguments mkIndividual {genotype} _ _.
Arguments Genotype {genotype} _.
Arguments Fitness {genotype} _.

Definition set_Genotype {G} (x : Individual G) (g : G) : Individual G :=
  mkIndividual g (Fitness x).
Definition set_Fitness {G} (x : Individual G) (f : double) : Individual G :=
  mkIndividual (Genotype x) f.

(** The recombinator's private state of os.hpp. *)
Record OSState : Type := mkOSState {
  lastEvaluations : Z;       (* mutable size_t lastEvaluations *)
  maxSelectionPressure : Z   (* size_t maxSelectionPressure *)
}.

(** What one call of [operator()] computed on the way, whether or not
    an offspring came out of it: the two decisions, the indices of the
    contributing parents (one for mutation alone, two for crossover),
    the genotype that was built and the fitness the evaluator gave it. *)
Record Trial (genotype : Type) : Type := mkTrial {
  doCrossover : bool;
  doMutation : bool;
  parents : list nat;
  child_genotype : genotype;
  f : double
}.
Arguments mkTrial {genotype} _ _ _ _ _.
Arguments doCrossover {genotype} _.
Arguments doMutation {genotype} _.
Arguments parents {genotype} _.
Arguments child_genotype {genotype} _.
Arguments f {genotype} _.

Definition triggered {G} (t : Trial G) : bool := doCrossover t || doMutation t.

Section Operators.
(** The generator [operon::rand_t], passed by reference to every
    collaborator: each call consumes it and leaves a new state (the
    generator is written last here, so that a call is an action of
    the state-passing type [M] below). *)
Variable rand_t : Type.
Variable genotype : Type.
Let T : Type := Individual genotype.

(** [std::uniform_real_distribution<double>] applied to the generator. *)
Variable uniformReal : rand_t -> double * rand_t.
(** The selector returns an index into its population view. *)
Variable selector : rand_t -> nat * rand_t.
Variable crossover : genotype -> genotype -> rand_t -> genotype * rand_t.
Variable mutator : genotype -> rand_t -> genotype * rand_t.
Variable evaluator : T -> rand_t -> double * rand_t.

(** [TSelector::Maximization]. *)
Variable Max : bool.
(** [Selector().Population()], frozen for the generation. *)
Variable population : list T.
(** A default-constructed [TSelector::SelectableType]. *)
Variable T_default : T.

(** State passing over the generator. *)
Definition M (A : Type) : Type := rand_t -> A * rand_t.
Definition ret {A} (a : A) : M A := fun r => (a, r).
Definition bind {A B} (c : M A) (k : A -> M B) : M B :=
  fun r => let (a, r') := c r in k a r'.

Notation "x <- c ;; k" := (bind c (fun x => k))
  (at level 61, c at next level, right associativity).
Notation "' p <- c ;; k" := (bind c (fun x => match x with p => k end))
  (at level 61, p pattern, c at next level, right associativity).

(** [population[i]]. *)
Definition at_ (i : nat) : T := nth i population T_default.

(** plus.hpp, line 66: the fitness stored in the child. *)
Definition clamp (f : double) : double :=
  if isfinite f then f
  else if Max then numeric_limits_min else numeric_limits_max.

(** plus.hpp, lines 68-82: which individual survives. *)
Definition Plus_survivor (doCrossover : bool) (first second : nat) (child : T) : T :=
  if doCrossover then
    if Max && lt (Fitness child) (std_max (Fitness (at_ first)) (Fitness (at_ second))) then
      if gt (Fitness (at_ first)) (Fitness (at_ second)) then at_ first else at_ second
    else if negb Max && gt (Fitness child) (std_min (Fitness (at_ first)) (Fitness (at_ second))) then
      if lt (Fitness (at_ first)) (Fitness (at_ second)) then at_ first else at_ second
    else child
  else
    if Max && lt (Fitness child) (Fitness (at_ first)) then at_ first
    else if negb Max && gt (Fitness child) (Fitness (at_ first)) then at_ first
    else child.

(** [PlusRecombinator::operator()]. *)
Definition Plus_call (pCrossover pMutation : double) : M (option T) :=
  u1 <- uniformReal ;;
  let doCrossover := lt u1 pCrossover in
  u2 <- uniformReal ;;
  let doMutation := lt u2 pMutation in
  if negb (doCrossover || doMutation) then ret None
  else
    first <- selector ;;
    second <- selector ;;
    let child := T_default in
    child <- (if doCrossover
              then g <- crossover (Genotype (at_ first)) (Genotype (at_ second)) ;;
                   ret (set_Genotype child g)
              else ret child) ;;
    child <- (if doMutation
              then g <- (if doCrossover
                         then mutator (Genotype child)
                         else mutator (Genotype (at_ first))) ;;
                   ret (set_Genotype child g)
              else ret child) ;;
    f <- evaluator child ;;
    let child := set_Fitness child (clamp f) in
    ret (Some (Plus_survivor doCrossover first second child)).

(** [OffspringSelectionRecombinator::operator()]. *)
Definition OS_call (pCrossover pMutation : double) : M (option T) :=
  u1 <- uniformReal ;;
  let doCrossover := lt u1 pCrossover in
  u2 <- uniformReal ;;
  let doMutation := lt u2 pMutation in
  if negb (doCrossover || doMutation) then ret None
  else
    first <- selector ;;
    let fit := Fitness (at_ first) in
    let child := T_default in
    '(child, fit) <- (if doCrossover
              then second <- selector ;;
                   g <- crossover (Genotype (at_ first)) (Genotype (at_ second)) ;;
                   ret (set_Genotype child g,
                        if Max then std_max fit (Fitness (at_ second))
                        else std_min fit (Fitness (at_ second)))
              else ret (child, fit)) ;;
    child <- (if doMutation
              then g <- (if doCrossover
                         then mutator (Genotype child)
                         else mutator (Genotype (at_ first))) ;;
                   ret (set_Genotype child g)
              else ret child) ;;
    (* comp is std::less when maximizing, std::greater otherwise *)
    let comp := if Max then lt else gt in
    c <- evaluator child ;;
    let child := set_Fitness child c in
    if isfinite (Fitness child) && comp fit (Fitness child)
    then ret (Some child)
    else ret None.

(** The values met on the way through [Plus_call] from the generator
    state [r0]: both parents are drawn before anything is built. *)
Definition Plus_trial (pCrossover pMutation : double) (r0 : rand_t) : Trial genotype :=
  let (u1, r1) := uniformReal r0 in
  let (u2, r2) := uniformReal r1 in
  let dc := lt u1 pCrossover in
  let dm := lt u2 pMutation in
  let (first, r3) := selector r2 in
  let (second, r4) := selector r3 in
  let (g1, r5) := if dc
                  then crossover (Genotype (at_ first)) (Genotype (at_ second)) r4
                  else (Genotype T_default, r4) in
  let (g2, r6) := if dm
                  then mutator (if dc then g1 else Genotype (at_ first)) r5
                  else (g1, r5) in
  let (c, _) := evaluator (mkIndividual g2 (Fitness T_default)) r6 in
  mkTrial dc dm (if dc then [first; second] else [first]) g2 c.

(** The same for [OS_call]: the second parent is drawn only when
    crossover triggers. *)
Definition OS_trial (pCrossover pMutation : double) (r0 : rand_t) : Trial genotype :=
  let (u1, r1) := uniformReal r0 in
  let (u2, r2) := uniformReal r1 in
  let dc := lt u1 pCrossover in
  let dm := lt u2 pMutation in
  let (first, r3) := selector r2 in
  let '(ps, g1, r5) :=
    if dc
    then let (second, r4) := selector r3 in
         let (g, r5) := crossover (Genotype (at_ first)) (Genotype (at_ second)) r4 in
         ([first; second], g, r5)
    else ([first], Genotype T_default, r3) in
  let (g2, r6) := if dm
                  then mutator (if dc then g1 else Genotype (at_ first)) r5
                  else (g1, r5) in
  let (c, _) := evaluator (mkIndividual g2 (Fitness T_default)) r6 in
  mkTrial dc dm ps g2 c.

(** ** Vocabulary of the specification *)

(** [a] is strictly better than [b] in the active direction. *)
Definition better (a b : double) : bool := if Max then gt a b else lt a b.

(** [a] is at least as good as [b] in the active direction. *)
Definition at_least_as_good (a b : double) : bool := if Max then ge a b else le a b.

(** The contributing parents of a trial. *)
Definition contributing (t : Trial genotype) : list T := map at_ (parents t).

(** [p] is a best contributing parent: one of them, and at least as
    good as each of them. *)
Definition best_parent (t : Trial genotype) (p : T) : Prop :=
  In p (contributing t) /\
  forall q, In q (contributing t) -> at_least_as_good (Fitness p) (Fitness q) = true.

(** The candidate of a Plus trial carries the clamped fitness, the
    candidate of an OffspringSelection trial the evaluated one. *)
Definition Plus_candidate (t : Trial genotype) : T :=
  mkIndividual (child_genotype t) (clamp (f t)).
Definition OS_candidate (t : Trial genotype) : T :=
  mkIndividual (child_genotype t) (f t).

End Operators.

Section Pressure.
Variable genotype : Type.

(** [RecombinatorBase::Terminate()] is declared in core/operator.hpp,
    which is not in src/; its result is a parameter. *)
Variable base_Terminate : bool.

(** [Prepare]: the selector takes the population as its view and the
    evaluator's cumulative count becomes the baseline. *)
Definition Prepare (self : OSState) (FitnessEvaluations : Z)
    (pop : list (Individual genotype)) : OSState * list (Individual genotype) :=
  (mkOSState FitnessEvaluations (maxSelectionPressure self), pop).

(** [SelectionPressure()]: the difference is taken in [size_t], then
    converted and divided as [double]s. *)
Definition SelectionPressure (self : OSState) (FitnessEvaluations : Z)
    (population : list (Individual genotype)) : double :=
  match population with
  | [] => zero
  | _ => div (of_size_t (wrap (FitnessEvaluations - lastEvaluations self)))
             (of_size_t (Z.of_nat (length population)))
  end.

(** [Terminate()]. *)
Definition Terminate (self : OSState) (FitnessEvaluations : Z)
    (population : list (Individual genotype)) : bool :=
  base_Terminate
  || gt (SelectionPressure self FitnessEvaluations population)
        (of_size_t (maxSelectionPressure self)).

End Pressure.
End Recombinator.

(** Deterministic stand-ins for the collaborators, to run the
    recombinators on concrete trials: the generator is a counter, a
    genotype is a number, every uniform draw is 0.0, the selector walks
    round a population of [n] individuals, and the evaluator answers a
    fixed fitness [c]. *)
Module Demo.
Import Double Recombinator.

Definition uniformReal (r : nat) : double * nat := (zero, S r).
Definition selector (n : nat) (r : nat) : nat * nat := (Nat.modulo r n, S r).
Definition crossover (a b : nat) (r : nat) : nat * nat := ((a + b)%nat, S r).
Definition mutator (g : nat) (r : nat) : nat * nat := (S g, S r).
Definition evaluator (c : double) (x : Individual nat) (r : nat) : double * nat := (c, S r).
Definition T_default : Individual nat := mkIndividual 0%nat zero.

(** Two parents of fitness 5.0 and 7.0. *)
Definition pop_5_7 : list (Individual nat) := [mkIndividual 10%nat five; mkIndividual 20%nat seven].
(** One parent whose fitness is the largest finite double. *)
Definition pop_max : list (Individual nat) := [mkIndividual 10%nat numeric_limits_max].
(** One parent of fitness -1.0. *)
Definition pop_minus_one : list (Individual nat) := [mkIndividual 10%nat minus_one].
(** Two parents of fitness 5.0 and the largest finite double. *)
Definition pop_5_max : list (Individual nat) :=
  [mkIndividual 10%nat five; mkIndividual 20%nat numeric_limits_max].
(** Two parents one of which has no fitness yet, a NaN, in both orders. *)
Definition pop_nan_5 : list (Individual nat) :=
  [mkIndividual 10%nat S754_nan; mkIndividual 20%nat five].
Definition pop_5_nan : list (Individual nat) :=
  [mkIndividual 10%nat five; mkIndividual 20%nat S754_nan].
Definition pop_nan_7 : list (Individual nat) :=
  [mkIndividual 10%nat S754_nan; mkIndividual 20%nat seven].
Definition pop_7_nan : list (Individual nat) :=
  [mkIndividual 20%nat seven; mkIndividual 10%nat S754_nan].

(** A Plus call and the trial it runs, from generator state 0. *)
Definition Plus (Max : bool) (pop : list (Individual nat)) (c pC pM : double)
    : option (Individual nat) :=
  fst (Plus_call uniformReal (selector (length pop)) crossover mutator (evaluator c)
                 Max pop T_default pC pM 0%nat).
Definition PlusT (pop : list (Individual nat)) (c pC pM : double) : Trial nat :=
  Plus_trial uniformReal (selector (length pop)) crossover mutator (evaluator c)
             pop T_default pC pM 0%nat.
Definition OS (Max : bool) (pop : list (Individual nat)) (c pC pM : double)
    : option (Individual nat) :=
  fst (OS_call uniformReal (selector (length pop)) crossover mutator (evaluator c)
               Max pop T_default pC pM 0%nat).
Definition OST (pop : list (Individual nat)) (c pC pM : double) : Trial nat :=
  OS_trial uniformReal (selector (length pop)) crossover mutator (evaluator c)
           pop T_default pC pM 0%nat.

End Demo.
(* ================================================================= *)
(** * The expression tree: a postfix array of nodes *)

Module Tree.
Import Double.

(** Modelled from the spec: the node descriptor (core/node.hpp is not in
    src/): a tagged operator or terminal with the derived fields the tree
    maintains.  The kinds are the ones the sources name. *)
Inductive NodeType : Type :=
  | Add | Mul | Sub | Div | Aq | Exp | Log | Sin | Cos | Tan | Constant | Var.

Record Node : Type := mkNode {
  Kind : NodeType;              (* Node::Type *)
  Arity : Z;                    (* declared child count *)
  Length : Z;                   (* number of descendants *)
  Depth : Z;
  Parent : Z;
  IsEnabled : bool;
  HashValue : Z;                (* identity hash, fixed at construction *)
  CalculatedHashValue : Z;      (* aggregated content hash *)
  Value : double
}.

Definition set_Arity (n : Node) (a : Z) : Node :=
  mkNode (Kind n) a (Length n) (Depth n) (Parent n) (IsEnabled n)
         (HashValue n) (CalculatedHashValue n) (Value n).
Definition set_Length (n : Node) (l : Z) : Node :=
  mkNode (Kind n) (Arity n) l (Depth n) (Parent n) (IsEnabled n)
         (HashValue n) (CalculatedHashValue n) (Value n).
Definition set_Depth (n : Node) (d : Z) : Node :=
  mkNode (Kind n) (Arity n) (Length n) d (Parent n) (IsEnabled n)
         (HashValue n) (CalculatedHashValue n) (Value n).
Definition set_Parent (n : Node) (p : Z) : Node :=
  mkNode (Kind n) (Arity n) (Length n) (Depth n) p (IsEnabled n)
         (HashValue n) (CalculatedHashValue n) (Value n).
Definition set_CalculatedHashValue (n : Node) (h : Z) : Node :=
  mkNode (Kind n) (Arity n) (Length n) (Depth n) (Parent n) (IsEnabled n)
         (HashValue n) h (Value n).

(** Modelled from the spec: the predicates of node.hpp (not in src/).  A
    terminal has arity 0; constants and variables are told by their kind;
    the commutative operators are addition and multiplication. *)
Definition IsLeaf (n : Node) : bool := (Arity n =? 0)%Z.
Definition IsConstant (n : Node) : bool :=
  match Kind n with Constant => true | _ => false end.
Definition IsVariable (n : Node) : bool :=
  match Kind n with Var => true | _ => false end.
Definition IsCommutative (n : Node) : bool :=
  match Kind n with Add | Mul => true | _ => false end.

(** Modelled from the spec: [Node::operator<] (node.hpp is not in src/),
    the total order children are sorted by: the identity hash first, ties
    broken by the structural hash of the subtree. *)
Definition node_lt (a b : Node) : bool :=
  if (HashValue a =? HashValue b)%Z
  then (CalculatedHashValue a <? CalculatedHashValue b)%Z
  else (HashValue a <? HashValue b)%Z.

Definition default_node : Node :=
  mkNode Constant 0 0 0 0 true 0 0 Double.zero.

(** [nodes_[i]] for a [size_t] index, and the assignment to it. *)
Definition get (nodes : list Node) (i : Z) : Node := nth (Z.to_nat i) nodes default_node.

Fixpoint put_nat (nodes : list Node) (i : nat) (x : Node) : list Node :=
  match nodes, i with
  | [], _ => []
  | _ :: tl, O => x :: tl
  | hd :: tl, S j => hd :: put_nat tl j x
  end.
Definition put (nodes : list Node) (i : Z) (x : Node) : list Node :=
  put_nat nodes (Z.to_nat i) x.

(** The [len] elements from position [lo] on. *)
Definition range (nodes : list Node) (lo len : Z) : list Node :=
  firstn (Z.to_nat len) (skipn (Z.to_nat lo) nodes).

(** [std::copy(src.begin(), src.end(), nodes.begin() + lo)]. *)
Definition copy_to (nodes : list Node) (lo : Z) (src : list Node) : list Node :=
  firstn (Z.to_nat lo) nodes ++ src ++ skipn (Z.to_nat lo + length src) nodes.

(** [Sort] keeps the indices of children in a [std::vector<int>]: the
    [size_t] index is narrowed to [int] when it is stored, and widened
    again where it indexes [nodes]. *)
Definition int_max : Z := 2 ^ 31 - 1.
Definition to_int (z : Z) : Z := (z + 2 ^ 31) mod 2 ^ 32 - 2 ^ 31.
Definition of_int (j : Z) : Z := wrap j.

(** [std::copy_n(start + j - c.Length, c.Length + 1, ...)] with [c] the
    node [nodes[j]] for an [int j]: the subtree rooted at index [j]. *)
Definition extract (nodes : list Node) (j : Z) : list Node :=
  let c := get nodes (of_int j) in
  range nodes (j - Length c) (Length c + 1).

(** ** SubtreeIterator (tree.hpp, lines 30-80) *)

(** The span [nodes_] is the tree the iterator is used on; the cursor is
    the pair of [size_t] indices. *)
Record SubtreeIterator : Type := mkIt {
  parentIndex_ : Z;
  index_ : Z
}.

Definition Children (i : Z) : SubtreeIterator := mkIt i (wrap (i - 1)).

(** [operator++]: [index_ -= nodes_[index_].Length + 1UL]. *)
Definition incr (nodes : list Node) (it : SubtreeIterator) : SubtreeIterator :=
  mkIt (parentIndex_ it) (wrap (index_ it - (Length (get nodes (index_ it)) + 1))).

Definition HasNext (nodes : list Node) (it : SubtreeIterator) : bool :=
  (index_ it <? parentIndex_ it)%Z
  && (wrap (parentIndex_ it - Length (get nodes (parentIndex_ it))) <=? index_ it)%Z.

Definition Index (it : SubtreeIterator) : Z := index_ it.

(** [for (auto it = Children(i); it.HasNext(); ++it) out.push_back(it.Index())],
    at most [fuel] rounds. *)
Fixpoint iterate (fuel : nat) (nodes : list Node) (it : SubtreeIterator) : list Z :=
  match fuel with
  | O => []
  | S k => if HasNext nodes it
           then Index it :: iterate k nodes (incr nodes it)
           else []
  end.

(** The cursor strictly descends below the parent, so as many rounds as
    there are nodes are enough. *)
Definition child_indices (nodes : list Node) (i : Z) : list Z :=
  iterate (length nodes) nodes (Children i).

(** ** Tree::UpdateNodes (tree.cpp, lines 36-57) *)

(** The inner loop over the children of node [i]; [s] is [nodes[i]],
    updated in place, so [HasNext] sees its growing [Length]. *)
Fixpoint UpdateNodes_children (fuel : nat) (i : Z) (nodes : list Node)
    (it : SubtreeIterator) : list Node :=
  match fuel with
  | O => nodes
  | S k =>
      if HasNext nodes it then
        let c := get nodes (Index it) in
        let s := get nodes i in
        let s := set_Length s (Length s + Length c) in
        let s := if (Depth s <? Depth c)%Z then set_Depth s (Depth c) else s in
        let nodes := put nodes i s in
        let nodes := put nodes (Index it) (set_Parent (get nodes (Index it)) i) in
        UpdateNodes_children k i nodes (incr nodes it)
      else nodes
  end.

Definition UpdateNodes_step (nodes : list Node) (i : nat) : list Node :=
  let iz := Z.of_nat i in
  let s := get nodes iz in
  let s := set_Depth s 1 in
  let s := set_Length s (Arity s) in
  if IsLeaf s then
    put nodes iz (set_Length (set_Arity s 0) 0)
  else
    let nodes := put nodes iz s in
    let nodes := UpdateNodes_children (length nodes) iz nodes (Children iz) in
    let s := get nodes iz in
    put nodes iz (set_Depth s (Depth s + 1)).

Definition UpdateNodes (nodes : list Node) : list Node :=
  fold_left UpdateNodes_step (seq 0 (length nodes)) nodes.

(** ** Tree::Subtree (tree.hpp, lines 177-183) *)

(** [std::copy_n(nodes_.begin() + i - n.Length, n.Length, back_inserter(subtree))]
    and then [Tree(subtree).UpdateNodes()]. *)
Definition Subtree (nodes : list Node) (i : Z) : list Node :=
  let n := get nodes i in
  let subtree := range nodes (i - Length n) (Length n) in
  UpdateNodes subtree.

(** ** Sorting *)

(** [std::stable_sort]: insertion from the right keeps equivalent
    elements in their order. *)
Fixpoint insert_sorted {A} (lt : A -> A -> bool) (x : A) (l : list A) : list A :=
  match l with
  | [] => [x]
  | y :: tl => if lt y x then y :: insert_sorted lt x tl else x :: y :: tl
  end.
Definition stable_sort {A} (lt : A -> A -> bool) (l : list A) : list A :=
  fold_right (insert_sorted lt) [] l.

Inductive HashMode : Type := Strict | Relaxed.

Section Hashing.
(** [Operon::Hasher<H>] over an array of hash values, and over the bytes
    of a leaf's [HashValue] and [Value]; [xxh::xxhash<64>] over a list of
    hash values and over a single coefficient. *)
Variable hasher : list Z -> Z.
Variable hasher_leaf : Z -> double -> Z.
Variable xxhash : list Z -> Z.
Variable xxhash_value : double -> Z.
(** [std::sort] leaves the order of equivalent elements unspecified: it
    is some function that returns its input rearranged. *)
Variable std_sort : forall A : Type, (A -> A -> bool) -> list A -> list A.

(** ** Tree::Hash (tree.hpp, lines 126-175) *)

Definition Hash_step (mode : HashMode) (nodes : list Node) (i : nat) : list Node :=
  let iz := Z.of_nat i in
  let n := get nodes iz in
  if IsLeaf n then
    put nodes iz
      (set_CalculatedHashValue n
         (match mode with
          | Strict => hasher_leaf (HashValue n) (Value n)
          | Relaxed => HashValue n
          end))
  else
    let childIndices := child_indices nodes iz in
    (* [begin, begin + n.Arity) *)
    let children := firstn (Z.to_nat (Arity n)) childIndices in
    let children :=
      if IsCommutative n
      then stable_sort (fun a b => node_lt (get nodes a) (get nodes b)) children
      else children in
    let hashes := map (fun j => CalculatedHashValue (get nodes j)) children
                  ++ [HashValue n] in
    put nodes iz (set_CalculatedHashValue n (hasher hashes)).

Definition Hash (mode : HashMode) (nodes : list Node) : list Node :=
  fold_left (Hash_step mode) (seq 0 (length nodes)) nodes.

(** [Tree::HashValue()]: the root's hash. *)
Definition Tree_HashValue (nodes : list Node) : Z :=
  match nodes with
  | [] => 0
  | _ => CalculatedHashValue (last nodes default_node)
  end.

(** ** Tree::Sort (tree.cpp, lines 86-146) *)

Definition Sort_step (strict : bool) (nodes : list Node) (i : nat) : list Node :=
  let iz := Z.of_nat i in
  let s := get nodes iz in
  if IsConstant s then nodes
  else if IsVariable s then
    put nodes iz
      (set_CalculatedHashValue s
         (if strict then xxhash [HashValue s; xxhash_value (Value s)]
          else HashValue s))
  else
    let arity := Arity s in
    let size := Length s in
    let sBegin := (iz - size)%Z in
    let nodes :=
      if IsCommutative s then
        if (arity =? size)%Z then
          copy_to nodes sBegin (std_sort node_lt (range nodes sBegin size))
        else
          let children := map to_int (child_indices nodes iz) in
          let children :=
            std_sort (fun a b => node_lt (get nodes (of_int a)) (get nodes (of_int b)))
                     children in
          let sorted := flat_map (extract nodes) children in
          copy_to nodes sBegin sorted
      else nodes in
    let hashes := map CalculatedHashValue (range nodes sBegin size)
                  ++ [HashValue (get nodes iz)] in
    put nodes iz (set_CalculatedHashValue (get nodes iz) (xxhash hashes)).

Definition Sort (strict : bool) (nodes : list Node) : list Node :=
  UpdateNodes (fold_left (Sort_step strict) (seq 0 (length nodes)) nodes).

End Hashing.

End Tree.

(** ** The subtree-range invariant *)

Module TreeShape.
Import Tree.

(** The tree a postfix array stands for: a node over its children, left
    to right. *)
Inductive rtree : Type := RNode (n : Node) (cs : list rtree).

Definition root (t : rtree) : Node := match t with RNode n _ => n end.
Definition children (t : rtree) : list rtree := match t with RNode _ cs => cs end.

(** Postfix layout: the children's layouts side by side, then the node. *)
Fixpoint flatten (t : rtree) : list Node :=
  match t with
  | RNode n cs => flat_map flatten cs ++ [n]
  end.
Definition flat (ts : list rtree) : list Node := flat_map flatten ts.

Definition zlen {A} (l : list A) : Z := Z.of_nat (length l).

(** Every node's [Arity] is its number of children and its [Length] its
    number of descendants. *)
Inductive rwf : rtree -> Prop :=
  | rwf_node (n : Node) (cs : list rtree) :
      Arity n = zlen cs ->
      Length n = zlen (flat cs) ->
      Forall rwf cs ->
      rwf (RNode n cs).

(** The subtree-range invariant of a node array: it is the postfix layout
    of trees whose derived fields are right, so that the subtree rooted
    at index [i] occupies exactly [i - Length(i), i], the [Arity(i)]
    subtrees of its children side by side in [i - Length(i), i).  The
    array fits the index type. *)
Definition subtree_range_invariant (nodes : list Node) : Prop :=
  (zlen nodes < size_max)%Z /\
  exists ts : list rtree, Forall rwf ts /\ nodes = flat ts.

(** Indices of the roots of trees laid out side by side from offset [o]. *)
Fixpoint root_positions (o : Z) (ts : list rtree) : list Z :=
  match ts with
  | [] => []
  | t :: tl => (o + zlen (flatten t) - 1)%Z :: root_positions (o + zlen (flatten t)) tl
  end.

(** The pair [Node::operator<] compares. *)
Definition key (n : Node) : Z * Z := (HashValue n, CalculatedHashValue n).
Definition key_lt (a b : Z * Z) : bool :=
  if (fst a =? fst b)%Z then (snd a <? snd b)%Z else (fst a <? fst b)%Z.

(** Two nodes that differ at most in their derived or transient fields
    [Depth], [Parent], [CalculatedHashValue]. *)
Definition same_node (n n' : Node) : Prop :=
  Kind n = Kind n' /\ Arity n = Arity n' /\ Length n = Length n'
  /\ IsEnabled n = IsEnabled n' /\ HashValue n = HashValue n' /\ Value n = Value n'.

(** Two trees that differ at most in the order of the children of their
    commutative nodes (and in those fields of their nodes). *)
Inductive similar : rtree -> rtree -> Prop :=
  | similar_node (n n' : Node) (cs ds cs' : list rtree) :
      same_node n n' ->
      Forall2 similar cs ds ->
      (if IsCommutative n then Permutation ds cs' else ds = cs') ->
      similar (RNode n cs) (RNode n' cs').

(** Trees as [Sort] relates them, the second with its derived fields right. *)
Definition rearranged (t t' : rtree) : Prop := similar t t' /\ rwf t'.

(** The fields of a parent the inner loop of [UpdateNodes] leaves alone. *)
Definition same_but_Length_Depth (s s' : Node) : Prop :=
  Kind s = Kind s' /\ Arity s = Arity s' /\ Parent s = Parent s'
  /\ IsEnabled s = IsEnabled s' /\ HashValue s = HashValue s'
  /\ CalculatedHashValue s = CalculatedHashValue s' /\ Value s = Value s'.

(** A loop [step] over the indices of a postfix array has dealt with the
    tree [t] when running it over the range of [t] rewrites [t] into a
    tree [R] relates it to, and nothing else, in an array of fewer than
    [limit] nodes. *)
Definition done_tree (step : list Node -> nat -> list Node)
    (R : rtree -> rtree -> Prop) (limit : Z) (t : rtree) : Prop :=
  forall pre post,
    (zlen (pre ++ flatten t ++ post) < limit)%Z ->
    exists t',
      fold_left step (seq (length pre) (length (flatten t))) (pre ++ flatten t ++ post)
      = pre ++ flatten t' ++ post
      /\ R t t'.

(** A node as it is recognised wherever [Sort] moves it, with the hash
    computed for it. *)
Definition hashed (n : Node) : NodeType * Z * Double.double * Z :=
  (Kind n, HashValue n, Value n, CalculatedHashValue n).

(** The child [c] once [UpdateNodes] has recorded its parent [i]. *)
Definition adopt (i : Z) (c : rtree) : rtree :=
  RNode (set_Parent (root c) i) (children c).

Section HashOfTree.
Variable hasher : list Z -> Z.
Variable hasher_leaf : Z -> Double.double -> Z.

(** What [Tree::Hash] computes for a node from the roots of its hashed
    children, left to right. *)
Definition node_hash (mode : HashMode) (n : Node) (roots : list Node) : Z :=
  if IsLeaf n then
    match mode with
    | Strict => hasher_leaf (HashValue n) (Value n)
    | Relaxed => HashValue n
    end
  else
    let children := rev roots in
    let children := if IsCommutative n then stable_sort node_lt children else children in
    hasher (map CalculatedHashValue children ++ [HashValue n]).

(** The tree with every [CalculatedHashValue] recomputed bottom-up. *)
Fixpoint rhash (mode : HashMode) (t : rtree) : rtree :=
  match t with
  | RNode n cs =>
      let cs' := map (rhash mode) cs in
      RNode (set_CalculatedHashValue n (node_hash mode n (map root cs'))) cs'
  end.

End HashOfTree.

(** An example: the tree of [x + (y - z)], laid out as
    [x y z - +] with its derived fields, and the tree it stands for. *)
Definition ex_x : Node := mkNode Var 0 0 1 4 true 5 5 Double.one.
Definition ex_y : Node := mkNode Var 0 0 1 3 true 3 3 Double.one.
Definition ex_z : Node := mkNode Var 0 0 1 3 true 4 4 Double.one.
Definition ex_sub : Node := mkNode Sub 2 2 2 4 true 100 0 Double.one.
Definition ex_add : Node := mkNode Add 2 4 3 0 true 200 0 Double.one.
Definition ex_nodes : list Node := [ex_x; ex_y; ex_z; ex_sub; ex_add].
Definition ex_tree : rtree :=
  RNode ex_add [RNode ex_x []; RNode ex_sub [RNode ex_y []; RNode ex_z []]].

(** The same sum written [(y - z) + x], laid out as [y z - x +]: [Sort]
    moves [x] to the front.  Stand-ins for the hash functions that depend
    on the order of their input. *)
Definition ex_unsorted : list Node :=
  [set_Parent ex_y 2; set_Parent ex_z 2; ex_sub; ex_x; ex_add].
Definition ex_unsorted_tree : rtree :=
  RNode ex_add [RNode ex_sub [RNode (set_Parent ex_y 2) []; RNode (set_Parent ex_z 2) []];
                RNode ex_x []].
Definition ex_hasher (l : list Z) : Z := fold_left (fun acc h => 31 * acc + h)%Z l 7%Z.
Definition ex_hasher_leaf (h : Z) (v : Double.double) : Z :=
  (if Double.isnan v then h else 31 * h + 1)%Z.
Definition ex_xxhash_value (v : Double.double) : Z := if Double.isnan v then 0%Z else 1%Z.

End TreeShape.

(* ================================================================= *)
(** * The cost-function adapter (tiny_cost_function.hpp) *)

Module CostFunction.

(** Single precision, for the stride count: binary32. *)
Definition fprec : Z := 24.
Definition femax : Z := 128.

(** [static_cast<float>] of an [int]. *)
Definition float_of_int (z : Z) : spec_float := binary_normalize fprec femax z 0 false.

(** [static_cast<int>(std::ceil(x))] of a finite [float]. *)
Definition ceil_to_int (x : spec_float) : Z :=
  match x with
  | S754_finite s m e =>
      let num := if s then Zneg m else Zpos m in
      match e with
      | Zneg k => (- ((- num) / 2 ^ Zpos k))%Z
      | _ => (num * 2 ^ e)%Z
      end
  | _ => 0%Z
  end.

(** [static_cast<int>(std::ceil(static_cast<float>(numParameters) /
    static_cast<float>(Stride)))]. *)
Definition compute_numStrides (numParameters Stride : Z) : Z :=
  ceil_to_int (SFdiv fprec femax (float_of_int numParameters) (float_of_int Stride)).

(** The number of strides the specification names, [ceil(P / S)]. *)
Definition ceil_div (P S : nat) : nat := (P + S - 1) / S.

(** [compute_numStrides] agrees with [ceil_div] for all strides from 1 to
    [Smax] and all parameter counts from 0 to [Pmax]. *)
Definition strides_agree_upto (Pmax Smax : nat) : bool :=
  forallb (fun St =>
    forallb (fun P => (compute_numStrides (Z.of_nat P) (Z.of_nat St)
                       =? Z.of_nat (ceil_div P St))%Z)
            (seq 0 (Pmax + 1)))
    (seq 1 Smax).

Inductive StorageOrder : Type := RowMajor | ColMajor.

(** What [Evaluate] does to the world, in order: a unit tangent is
    stored into lane [lane] of input jet [j]; the functor is evaluated;
    [jMap(k, j)] is assigned lane [lane] of output jet [k]; [residuals[k]]
    is assigned the value part of output jet [k].  Each carries the pass
    in which it happens. *)
Inductive event : Type :=
  | EvSeed (pass j lane : nat)
  | EvCall (pass : nat)
  | EvJacobian (pass k j lane : nat)
  | EvResidual (pass k : nat).

Section Evaluate.
(** [JetT::Scalar] with its 0.0 and 1.0, and [JetT::DIMENSION]. *)
Variable Scalar : Type.
Variable zero one : Scalar.
Variable Stride : nat.
Variable Storage : StorageOrder.

(** A dual number: the value [a] and the [Stride] derivative lanes [v]. *)
Record Jet : Type := mkJet { a : Scalar; v : list Scalar }.

(** The wrapped functor, on scalars and on jets: success flag and
    residuals. *)
Variable functor_scalar : list Scalar -> bool * list Scalar.
Variable functor_jet : list Jet -> bool * list Jet.
Variable NumParameters NumResiduals : nat.

(** The caller's arrays, and the record of what was done. *)
Record memory : Type := mkMemory {
  residuals : list Scalar;
  jacobian : list Scalar;
  trace : list event
}.

Definition log (e : event) (m : memory) : memory :=
  mkMemory (residuals m) (jacobian m) (trace m ++ [e]).

Fixpoint set_nth {A} (l : list A) (i : nat) (x : A) : list A :=
  match l, i with
  | [], _ => []
  | _ :: tl, O => x :: tl
  | hd :: tl, S j => hd :: set_nth tl j x
  end.

(** The place of [jMap(k, j)] in the caller's array. *)
Definition jMap_index (k j : nat) : nat :=
  match Storage with
  | RowMajor => k * NumParameters + j
  | ColMajor => j * NumResiduals + k
  end.

(** Lines 71-77: zero every tangent, and give the first [Stride]
    parameters from the cursor on a unit tangent each. *)
Fixpoint seed_loop (pass : nat) (jets : list Jet) (j activeParameterCount cursor : nat)
    (m : memory) : list Jet * memory :=
  match jets with
  | [] => ([], m)
  | jet :: rest =>
      let v0 := repeat zero Stride in
      if (activeParameterCount <? Stride) && (cursor <=? j) then
        let (rest', m') :=
          seed_loop pass rest (S j) (S activeParameterCount) cursor
                    (log (EvSeed pass j activeParameterCount) m) in
        (mkJet (a jet) (set_nth v0 activeParameterCount one) :: rest', m')
      else
        let (rest', m') := seed_loop pass rest (S j) activeParameterCount cursor m in
        (mkJet (a jet) v0 :: rest', m')
  end.

(** Lines 90-92: one column of the jacobian. *)
Fixpoint column_loop (pass : nat) (outputJets : list Jet) (k j lane : nat) (m : memory)
    : memory :=
  match outputJets with
  | [] => m
  | jet :: rest =>
      let x := nth lane (v jet) zero in
      let m := mkMemory (residuals m) (set_nth (jacobian m) (jMap_index k j) x)
                        (trace m ++ [EvJacobian pass k j lane]) in
      column_loop pass rest (S k) j lane m
  end.

(** Lines 88-96: [n] rounds of the loop over the columns from [j] on. *)
Fixpoint copy_loop (n : nat) (pass : nat) (outputJets : list Jet)
    (j activeParameterCount cursor : nat) (m : memory) : nat * memory :=
  match n with
  | O => (cursor, m)
  | S n' =>
      if activeParameterCount <? Stride then
        let m := column_loop pass outputJets 0 j activeParameterCount m in
        copy_loop n' pass outputJets (S j) (S activeParameterCount) (S cursor) m
      else
        copy_loop n' pass outputJets (S j) activeParameterCount cursor m
  end.

(** Line 100: the residuals are the value parts of the output jets. *)
Fixpoint residual_loop (pass : nat) (outputJets : list Jet) (k : nat) (m : memory)
    : memory :=
  match outputJets with
  | [] => m
  | jet :: rest =>
      let m := mkMemory (set_nth (residuals m) k (a jet)) (jacobian m)
                        (trace m ++ [EvResidual pass k]) in
      residual_loop pass rest (S k) m
  end.

(** Lines 64-102: the passes [pass], [pass + 1], ... of which [n] are
    left; [false] is the early [return false]. *)
Fixpoint pass_loop (n : nat) (pass : nat) (numStrides : Z) (inputJets : list Jet)
    (cursor : nat) (m : memory) : bool * memory :=
  match n with
  | O => (true, m)
  | S n' =>
      let initialDerivativeSectionCursor := cursor in
      let (inputJets, m) := seed_loop pass inputJets 0 0 cursor m in
      let (ok, outputJets) := functor_jet inputJets in
      let m := log (EvCall pass) m in
      if negb ok then (false, m)
      else
        let cursor := initialDerivativeSectionCursor in
        let (cursor, m) :=
          copy_loop (NumParameters - cursor) pass outputJets cursor 0 cursor m in
        let m := if (Z.of_nat pass =? numStrides - 1)%Z
                 then residual_loop pass outputJets 0 m
                 else m in
        pass_loop n' (S pass) numStrides inputJets cursor m
  end.

(** [TinyCostFunction::Evaluate]; [jacobian_is_null] tells whether the
    caller passed [nullptr] for the jacobian. *)
Definition Evaluate (parameters : list Scalar) (jacobian_is_null : bool) (m : memory)
    : bool * memory :=
  if jacobian_is_null then
    let (ok, r) := functor_scalar parameters in
    (ok, mkMemory r (jacobian m) (trace m))
  else
    let numParameters := NumParameters in
    let inputJets := map (fun p => mkJet p (repeat zero Stride)) (firstn numParameters parameters) in
    let numStrides := compute_numStrides (Z.of_nat numParameters) (Z.of_nat Stride) in
    pass_loop (Z.to_nat numStrides) 0 numStrides inputJets 0 m.

End Evaluate.

(** ** Reading a trace *)

(** The evaluations of the functor. *)
Definition calls (tr : list event) : list nat :=
  flat_map (fun e => match e with EvCall p => [p] | _ => [] end) tr.

(** The unit tangents stored: pass, parameter, lane. *)
Definition seeds (tr : list event) : list (nat * nat * nat) :=
  flat_map (fun e => match e with EvSeed p j l => [(p, j, l)] | _ => [] end) tr.

(** The jacobian entries assigned: pass, row, column, lane. *)
Definition jacobian_writes (tr : list event) : list (nat * nat * nat * nat) :=
  flat_map (fun e => match e with EvJacobian p k j l => [(p, k, j, l)] | _ => [] end) tr.

(** The residuals assigned: pass, index. *)
Definition residual_writes (tr : list event) : list (nat * nat) :=
  flat_map (fun e => match e with EvResidual p k => [(p, k)] | _ => [] end) tr.

(** The columns pass [p] is in charge of, and what the pass does. *)
Definition columns (P St p : nat) : list nat := seq (p * St) (Nat.min St (P - p * St)).

Definition pass_events (P St R : nat) (numStrides : Z) (p : nat) : list event :=
  map (fun j => EvSeed p j (j - p * St)) (columns P St p)
  ++ [EvCall p]
  ++ flat_map (fun j => map (fun k => EvJacobian p k j (j - p * St)) (seq 0 R))
              (columns P St p)
  ++ (if (Z.of_nat p =? numStrides - 1)%Z then map (EvResidual p) (seq 0 R) else []).

(** What a pass does in which the functor fails: the tangents are
    stored, the functor is evaluated, and that is all. *)
Definition failed_pass_events (P St : nat) (p : nat) : list event :=
  map (fun j => EvSeed p j (j - p * St)) (columns P St p) ++ [EvCall p].

(** Stand-ins for the functor, to run [Evaluate]: two residuals whose
    jets do not depend on the input, and a functor that fails. *)
Definition demo_functor (js : list (Jet Z)) : bool * list (Jet Z) :=
  (true, [mkJet 10%Z [100; 101; 102; 103]%Z; mkJet 20%Z [200; 201; 202; 203]%Z]).
Definition failing_functor (js : list (Jet Z)) : bool * list (Jet Z) :=
  (false, [mkJet 0%Z [0; 0; 0; 0]%Z; mkJet 0%Z [0; 0; 0; 0]%Z]).
Definition demo_scalar (ps : list Z) : bool * list Z := (true, [10; 20]%Z).
Definition demo_memory : memory Z := mkMemory [0; 0]%Z (repeat 0%Z 10) [].

End CostFunction.
(* ================================================================= *)
(** * More of the tree: flags, coefficients, maintenance, reduction *)

Module TreeOps.
Import Double Tree TreeShape.
Local Open Scope Z_scope.

Definition set_IsEnabled (n : Node) (b : bool) : Node :=
  mkNode (Kind n) (Arity n) (Length n) (Depth n) (Parent n) b
         (HashValue n) (CalculatedHashValue n) (Value n).
Definition set_Value (n : Node) (x : double) : Node :=
  mkNode (Kind n) (Arity n) (Length n) (Depth n) (Parent n) (IsEnabled n)
         (HashValue n) (CalculatedHashValue n) x.

(** ** Tree::SetEnabled (tree.hpp, lines 186-191) *)

(** [for (auto j = i - nodes_[i].Length; j <= i; ++j) nodes_[j].IsEnabled = enabled],
    at most [fuel] rounds; [j] is a [size_t]. *)
Fixpoint SetEnabled_loop (fuel : nat) (nodes : list Node) (i j : Z) (enabled : bool)
    : list Node :=
  match fuel with
  | O => nodes
  | S k =>
      if j <=? i
      then SetEnabled_loop k (put nodes j (set_IsEnabled (get nodes j) enabled))
                           i (wrap (j + 1)) enabled
      else nodes
  end.

Definition SetEnabled (nodes : list Node) (i : Z) (enabled : bool) : list Node :=
  SetEnabled_loop (S (length nodes)) nodes i (wrap (i - Length (get nodes i))) enabled.

(** ** Coefficients (tree.hpp, lines 197-200; tree.cpp, lines 160-179) *)

(** [std::count_if(..., IsLeaf)]. *)
Definition CoefficientsCount (nodes : list Node) : nat :=
  length (filter IsLeaf nodes).

Definition has_coefficient (s : Node) : bool := IsConstant s || IsVariable s.

(** The loop of [GetCoefficients] from the left: the values of the
    constants and variables, in the order of the array. *)
Fixpoint GetCoefficients (nodes : list Node) : list double :=
  match nodes with
  | [] => []
  | s :: rest =>
      if has_coefficient s then Value s :: GetCoefficients rest
      else GetCoefficients rest
  end.

(** The loop of [SetCoefficients] with its cursor [idx];
    [coefficients[idx]] past the end of the vector is undefined: [None]. *)
Fixpoint SetCoefficients_loop (nodes : list Node) (coefficients : list double) (idx : nat)
    : option (list Node) :=
  match nodes with
  | [] => Some []
  | s :: rest =>
      if has_coefficient s then
        match nth_error coefficients idx with
        | Some c =>
            match SetCoefficients_loop rest coefficients (S idx) with
            | Some rest' => Some (set_Value s c :: rest')
            | None => None
            end
        | None => None
        end
      else
        match SetCoefficients_loop rest coefficients idx with
        | Some rest' => Some (s :: rest')
        | None => None
        end
  end.

Definition SetCoefficients (nodes : list Node) (coefficients : list double)
    : option (list Node) :=
  SetCoefficients_loop nodes coefficients 0.

(** ** Tree::Level (tree.cpp, lines 186-199) *)

(** [while (i < root && nodes[i].Parent != root) { i = nodes[i].Parent; ++level; }],
    at most [fuel] rounds; [None] when they do not suffice. *)
Fixpoint Level_loop (fuel : nat) (nodes : list Node) (root i level : Z) : option Z :=
  match fuel with
  | O => None
  | S k =>
      if (i <? root) && negb (Parent (get nodes i) =? root)
      then Level_loop k nodes root (Parent (get nodes i)) (level + 1)
      else Some level
  end.

Definition Level (nodes : list Node) (i : Z) : option Z :=
  Level_loop (S (length nodes)) nodes (zlen nodes - 1) i 0.

(** ** Tree::Reduce (tree.cpp, lines 59-84) *)

(** The inner loop over the children of the commutative node [i]: a
    child with the hash of [i] is disabled and its children are counted
    as children of [i]. *)
Fixpoint Reduce_children (fuel : nat) (i : Z) (nodes : list Node)
    (it : SubtreeIterator) (reduced : bool) : list Node * bool :=
  match fuel with
  | O => (nodes, reduced)
  | S k =>
      if HasNext nodes it then
        if HashValue (get nodes i) =? HashValue (get nodes (Index it)) then
          let nodes := put nodes (Index it)
                           (set_IsEnabled (get nodes (Index it)) false) in
          let s := get nodes i in
          let nodes := put nodes i
                           (set_Arity s (Arity s + (Arity (get nodes (Index it)) - 1))) in
          Reduce_children k i nodes (incr nodes it) true
        else Reduce_children k i nodes (incr nodes it) reduced
      else (nodes, reduced)
  end.

Definition Reduce_step (st : list Node * bool) (i : nat) : list Node * bool :=
  let (nodes, reduced) := st in
  let iz := Z.of_nat i in
  let s := get nodes iz in
  if IsLeaf s || negb (IsCommutative s) then (nodes, reduced)
  else Reduce_children (length nodes) iz nodes (Children iz) reduced.

(** The loop of [Reduce], before the nodes are erased. *)
Definition Reduce_mark (nodes : list Node) : list Node * bool :=
  fold_left Reduce_step (seq 0 (length nodes)) (nodes, false).

(** [nodes.erase(remove_if(..., !IsEnabled), nodes.end())] if anything
    was reduced, then [UpdateNodes]. *)
Definition Reduce (nodes : list Node) : list Node :=
  let (nodes, reduced) := Reduce_mark nodes in
  let nodes := if reduced then filter IsEnabled nodes else nodes in
  UpdateNodes nodes.

(** ** Shapes *)

(** A postfix array before maintenance: every node's [Arity] is its
    number of children; nothing is asked of the derived fields. *)
Inductive awf : rtree -> Prop :=
  | awf_node (n : Node) (cs : list rtree) :
      Arity n = zlen cs -> Forall awf cs -> awf (RNode n cs).

Definition postfix_layout (nodes : list Node) : Prop :=
  exists ts : list rtree, Forall awf ts /\ nodes = flat ts.

(** The postfix array of one tree. *)
Definition one_tree (nodes : list Node) : Prop :=
  exists t : rtree, awf t /\ nodes = flatten t.

(** The fields [UpdateNodes] does not compute. *)
Definition content (n : Node) : NodeType * Z * bool * Z * Z * double :=
  (Kind n, Arity n, IsEnabled n, HashValue n, CalculatedHashValue n, Value n).

(** The largest [Depth] among the roots [cs], or [d]. *)
Definition max_depth (d : Z) (cs : list rtree) : Z :=
  fold_right (fun c acc => Z.max (Depth (root c)) acc) d cs.

(** A forest laid out from offset [o] on, each of its trees with the
    property [P] at the offset where it starts; two forests related
    tree by tree, at the offsets of the first. *)
Inductive forest_at (P : Z -> rtree -> Prop) : Z -> list rtree -> Prop :=
  | forest_at_nil (o : Z) : forest_at P o []
  | forest_at_cons (o : Z) (t : rtree) (ts : list rtree) :
      P o t -> forest_at P (o + zlen (flatten t)) ts -> forest_at P o (t :: ts).

Inductive forest_rel (R : Z -> rtree -> rtree -> Prop)
    : Z -> list rtree -> list rtree -> Prop :=
  | forest_rel_nil (o : Z) : forest_rel R o [] []
  | forest_rel_cons (o : Z) (t t' : rtree) (ts ts' : list rtree) :
      R o t t' -> forest_rel R (o + zlen (flatten t)) ts ts' ->
      forest_rel R o (t :: ts) (t' :: ts').

(** A tree laid out from offset [o] on whose derived fields are all
    right: [Length] and [Depth] of every node, and [Parent] of every
    node but the root. *)
Inductive normal : Z -> rtree -> Prop :=
  | normal_node (o : Z) (n : Node) (cs : list rtree) :
      Arity n = zlen cs ->
      Length n = zlen (flat cs) ->
      Depth n = 1 + max_depth 0 cs ->
      Forall (fun c => Parent (root c) = o + zlen (flat cs)) cs ->
      forest_at normal o cs ->
      normal o (RNode n cs).

(** Trees of the same shape whose nodes agree on their [content]. *)
Inductive same_content : rtree -> rtree -> Prop :=
  | same_content_node (n n' : Node) (cs cs' : list rtree) :
      content n = content n' ->
      Forall2 same_content cs cs' ->
      same_content (RNode n cs) (RNode n' cs').

(** The trees before and after [UpdateNodes]. *)
Definition maintained (o : Z) (t t' : rtree) : Prop := same_content t t' /\ normal o t'.

(** The node [n] over the children [cs] as [UpdateNodes] leaves it. *)
Definition updated (n : Node) (cs : list rtree) : Node :=
  if IsLeaf n
  then set_Length (set_Arity (set_Length (set_Depth n 1) (Arity n)) 0) 0
  else set_Depth (set_Length n (zlen (flat cs))) (max_depth 1 cs + 1).

(** The largest of a list of numbers, 0 if there is none. *)
Definition list_max (l : list Z) : Z := fold_right Z.max 0 l.

(** Trees of the same shape whose nodes are related one by one. *)
Inductive tree_rel (Rn : Node -> Node -> Prop) : rtree -> rtree -> Prop :=
  | tree_rel_node (n n' : Node) (cs cs' : list rtree) :
      Rn n n' -> Forall2 (tree_rel Rn) cs cs' ->
      tree_rel Rn (RNode n cs) (RNode n' cs').

(** The second node is the first with another [Value]. *)
Definition revalued (n n' : Node) : Prop := exists x, n' = set_Value n x.

(** What [Sort] keeps of a node wherever it moves it. *)
Definition identity (n : Node) : NodeType * Z * Z * bool * Z * double :=
  (Kind n, Arity n, Length n, IsEnabled n, HashValue n, Value n).

(** A tree every node of which carries the hash of [Tree::Hash] over
    the hashes its children carry. *)
Inductive hashed_tree (hasher : list Z -> Z) (hasher_leaf : Z -> double -> Z)
    (mode : HashMode) : rtree -> Prop :=
  | hashed_tree_node (n : Node) (cs : list rtree) :
      CalculatedHashValue n = node_hash hasher hasher_leaf mode n (map root cs) ->
      Forall (hashed_tree hasher hasher_leaf mode) cs ->
      hashed_tree hasher hasher_leaf mode (RNode n cs).

(** The range [j - Length(j), j] of the array: the subtree of [j]. *)
Definition subtree_range (nodes : list Node) (j : Z) : list Node :=
  range nodes (j - Length (get nodes j)) (Length (get nodes j) + 1).

(** ** [Reduce] on the trees *)

(** A tree every node of which has its number of descendants as [Length]. *)
Inductive lwf : rtree -> Prop :=
  | lwf_node (n : Node) (cs : list rtree) :
      Length n = zlen (flat cs) -> Forall lwf cs -> lwf (RNode n cs).

(** What the loop of [Reduce] does to a child [c] of a node of hash [h],
    and what the child adds to the arity of the node. *)
Definition same_hash (h : Z) (c : rtree) : bool := h =? HashValue (root c).
Definition mark (h : Z) (c : rtree) : rtree :=
  if same_hash h c then RNode (set_IsEnabled (root c) false) (children c) else c.
Definition gain (h : Z) (cs : list rtree) : Z :=
  fold_right (fun c acc => (if same_hash h c then Arity (root c) - 1 else 0) + acc) 0 cs.

(** [Reduce] looks at the inner commutative nodes. *)
Definition reducible (n : Node) : bool := negb (IsLeaf n || negb (IsCommutative n)).

(** The tree as the loop of [Reduce] leaves it, and whether it has
    disabled a node of it. *)
Fixpoint reduce (t : rtree) : rtree :=
  match t with
  | RNode n cs =>
      let cs' := map reduce cs in
      if reducible n
      then RNode (set_Arity n (Arity n + gain (HashValue n) cs'))
                 (map (mark (HashValue n)) cs')
      else RNode n cs'
  end.

Fixpoint marks (t : rtree) : bool :=
  match t with
  | RNode n cs =>
      existsb marks cs
      || (reducible n && existsb (same_hash (HashValue n)) (map reduce cs))
  end.

(** The trees that are left of a tree when its disabled nodes are
    erased from the array: the children of an erased node take its
    place. *)
Fixpoint splice (t : rtree) : list rtree :=
  match t with
  | RNode n cs =>
      let cs' := flat_map splice cs in
      if IsEnabled n then [RNode n cs'] else cs'
  end.

(** What is known of a reduced tree: its root is enabled, and once the
    disabled nodes below it are gone its arity is its number of
    children, as is that of every node below. *)
Definition spliceable (t' : rtree) : Prop :=
  IsEnabled (root t') = true
  /\ Arity (root t') = zlen (flat_map splice (children t'))
  /\ Forall awf (flat_map splice (children t')).

(** Nodes with the same [HashValue] are of the same kind, as they are
    when the hash of an operator is derived from its kind. *)
Definition hash_tells_kind (l : list Node) : Prop :=
  forall a b, In a l -> In b l -> HashValue a = HashValue b -> Kind a = Kind b.

(** No commutative inner node of the tree has a child with its own
    [HashValue]. *)
Inductive flattened : rtree -> Prop :=
  | flattened_node (n : Node) (cs : list rtree) :
      (reducible n = true ->
       Forall (fun c => HashValue (root c) <> HashValue n) cs) ->
      Forall flattened cs ->
      flattened (RNode n cs).

(** An example: the sum [a + (b + c)] of two additions with the same
    hash, laid out as [a b c + +]. *)
Definition ex_nested : list Node :=
  [mkNode Var 0 0 1 4 true 5 5 Double.one;
   mkNode Var 0 0 1 3 true 3 3 Double.one;
   mkNode Var 0 0 1 3 true 4 4 Double.one;
   mkNode Add 2 2 2 4 true 200 0 Double.one;
   mkNode Add 2 4 3 0 true 200 0 Double.one].

(** An example: the nodes of [x + (y - z)] as a parser leaves them, with
    their arities and nothing else. *)
Definition raw (k : NodeType) (arity hash : Z) : Node :=
  mkNode k arity 0 0 0 true hash 0 Double.one.
Definition ex_raw : list Node :=
  [raw Var 0 5; raw Var 0 3; raw Var 0 4; raw Sub 2 100; raw Add 2 200].
Definition ex_raw_tree : rtree :=
  RNode (raw Add 2 200)
        [RNode (raw Var 0 5) [];
         RNode (raw Sub 2 100) [RNode (raw Var 0 3) []; RNode (raw Var 0 4) []]].

End TreeOps.
(* ================================================================= *)
(** * The cost-function adapter: what a pass hands over and takes back *)

Module CostOps.
Import CostFunction.

Section Passes.
Variable Scalar : Type.
Variable zero one : Scalar.
Variable Stride : nat.
Variable Storage : StorageOrder.
Variable NumParameters NumResiduals : nat.

(** The tangent of parameter [j] in a pass whose cursor stands at
    [cursor] (lines 72-76): a unit in lane [j - cursor] for the [Stride]
    parameters from the cursor on, zero for the others. *)
Definition tangent (cursor j : nat) : list Scalar :=
  if (cursor <=? j) && (j <? cursor + Stride)
  then set_nth (repeat zero Stride) (j - cursor) one
  else repeat zero Stride.

(** The jets of a list of values in such a pass, the first of them
    being parameter [j]. *)
Definition jets_of (cursor j : nat) (xs : list Scalar) : list (Jet Scalar) :=
  map (fun xj => mkJet (fst xj) (tangent cursor (snd xj))) (combine xs (seq j (length xs))).

(** The input jets of pass [p] (lines 49-51 and 71-77): the values are
    the parameters. *)
Definition seeded (parameters : list Scalar) (p : nat) : list (Jet Scalar) :=
  jets_of (p * Stride) 0 (firstn NumParameters parameters).

(** [outputJets[k].v[lane]]. *)
Definition derivative (outputJets : list (Jet Scalar)) (k lane : nat) : Scalar :=
  nth lane (v (nth k outputJets (mkJet zero []))) zero.

(** [jMap(k, j)], read from the caller's array. *)
Definition entry (jacobian : list Scalar) (k j : nat) : Scalar :=
  nth (jMap_index Storage NumParameters NumResiduals k j) jacobian zero.

End Passes.

(** Stand-ins to run [Evaluate]: a functor whose residual 0 is the sum
    of the parameters and whose residual 1 is parameter 0, with their
    derivatives; and one that fails when parameter 4 carries a
    tangent, as in the second pass of five parameters in strides of 4. *)
Definition sum_lanes (js : list (Jet Z)) : list Z :=
  fold_right (fun j acc => map (fun xy => (fst xy + snd xy)%Z) (combine (v j) acc))
             (repeat 0%Z 4) js.
Definition linear_functor (js : list (Jet Z)) : bool * list (Jet Z) :=
  (true, [mkJet (fold_right Z.add 0%Z (map (@a Z) js)) (sum_lanes js);
          mkJet (a (nth 0 js (mkJet 0%Z []))) (v (nth 0 js (mkJet 0%Z (repeat 0%Z 4))))]).
Definition late_failing_functor (js : list (Jet Z)) : bool * list (Jet Z) :=
  (negb (existsb (Z.eqb 1) (v (nth 4 js (mkJet 0%Z [])))), snd (linear_functor js)).

End CostOps.


(* ================================================================= *)
(** * Facts about doubles *)

Module DoubleFacts.
Import Double.

Ltac pos_cmp :=
  repeat match goal with
  | |- context [PosDef.Pos.compare_cont Eq ?p ?q] =>
      change (PosDef.Pos.compare_cont Eq p q) with (Pos.compare p q)
  | H : context [PosDef.Pos.compare_cont Eq ?p ?q] |- _ =>
      change (PosDef.Pos.compare_cont Eq p q) with (Pos.compare p q) in H
  end.

(** Comparison of two doubles is antisymmetric. *)
Lemma SFcompare_antisym (a b : double) :
  SFcompare b a = option_map CompOpp (SFcompare a b).
Proof.
  destruct a as [[]|[]| |[] ma ea], b as [[]|[]| |[] mb eb]; simpl; try reflexivity;
    rewrite (Z.compare_antisym ea eb);
    destruct (ea ?= eb)%Z; simpl; try reflexivity;
    pos_cmp; rewrite (Pos.compare_antisym ma mb);
    destruct (ma ?= mb)%positive; reflexivity.
Qed.

Lemma lt_rank (a b : double) :
  lt a b = true <-> (isnan a = false /\ isnan b = false /\ lex_lt (rank a) (rank b)).
Proof.
  unfold lt, SFltb.
  destruct a as [[]|[]| |[] ma ea], b as [[]|[]| |[] mb eb]; simpl;
    try (split; [discriminate | intros (? & ? & ?); try discriminate; lia]);
    try (split; [intros _; repeat split; lia | reflexivity]);
    pos_cmp;
    destruct (Z.compare_spec ea eb); destruct (Pos.compare_spec ma mb); simpl;
    (split; [ try discriminate; intros _; repeat split; lia
            | intros (_ & _ & ?); try reflexivity; exfalso; lia ]).
Qed.

Lemma le_rank (a b : double) :
  le a b = true <-> (isnan a = false /\ isnan b = false /\ lex_le (rank a) (rank b)).
Proof.
  unfold le, SFleb.
  destruct a as [[]|[]| |[] ma ea], b as [[]|[]| |[] mb eb]; simpl;
    try (split; [discriminate | intros (? & ? & ?); try discriminate; lia]);
    try (split; [intros _; repeat split; lia | reflexivity]);
    pos_cmp;
    destruct (Z.compare_spec ea eb); destruct (Pos.compare_spec ma mb); simpl;
    (split; [ try discriminate; intros _; repeat split; lia
            | intros (_ & _ & ?); try reflexivity; exfalso; lia ]).
Qed.

Lemma lt_false_iff (a b : double) :
  isnan a = false -> isnan b = false -> (lt a b = false <-> le b a = true).
Proof.
  intros Ha Hb. rewrite le_rank. 
  destruct (lt a b) eqn:E.
  - apply lt_rank in E. destruct E as (_ & _ & E).
    split; [discriminate|]. intros (_ & _ & E').
    unfold lex_lt, lex_le in *. destruct (rank a) as [[? ?] ?], (rank b) as [[? ?] ?]. lia.
  - split; [|reflexivity]. intros _. repeat split; trivial.
    assert (~ lex_lt (rank a) (rank b)) as N.
    { intro L. assert (lt a b = true) by (apply lt_rank; auto). congruence. }
    unfold lex_lt, lex_le in *. destruct (rank a) as [[? ?] ?], (rank b) as [[? ?] ?]. lia.
Qed.

Lemma le_refl (a : double) : isnan a = false -> le a a = true.
Proof.
  intros Ha. apply le_rank. repeat split; trivial.
  unfold lex_le. destruct (rank a) as [[? ?] ?]. lia.
Qed.

Lemma ge_refl (a : double) : isnan a = false -> ge a a = true.
Proof. apply le_refl. Qed.

Lemma lt_isnan (a b : double) : lt a b = true -> isnan a = false /\ isnan b = false.
Proof. intros H. apply lt_rank in H. tauto. Qed.

Lemma le_isnan (a b : double) : le a b = true -> isnan a = false /\ isnan b = false.
Proof. intros H. apply le_rank in H. tauto. Qed.

Lemma isfinite_not_nan (a : double) : isfinite a = true -> isnan a = false.
Proof. destruct a; simpl; congruence. Qed.

(** Turn every comparison in sight into a statement on ranks. *)
Ltac to_rank :=
  unfold gt, ge in *;
  repeat match goal with
  | H : lt ?a ?b = true |- _ => apply lt_rank in H; destruct H as (? & ? & H)
  | H : le ?a ?b = true |- _ => apply le_rank in H; destruct H as (? & ? & H)
  | H : lt ?a ?b = false |- _ =>
      apply lt_false_iff in H; [apply le_rank in H; destruct H as (? & ? & H) | assumption | assumption]
  end.

Ltac rank_lia :=
  unfold lex_lt, lex_le in *;
  repeat match goal with
  | |- context [rank ?a] => destruct (rank a) as [[? ?] ?]
  | H : context [rank ?a] |- _ => destruct (rank a) as [[? ?] ?]
  end; lia.

Lemma std_max_ge (a b : double) :
  isnan a = false -> isnan b = false ->
  ge (std_max a b) a = true /\ ge (std_max a b) b = true /\ (std_max a b = a \/ std_max a b = b).
Proof.
  intros Ha Hb. unfold std_max. destruct (lt a b) eqn:E.
  - repeat split; [| apply ge_refl; trivial | auto].
    unfold ge. apply le_rank. to_rank. repeat split; trivial. rank_lia.
  - repeat split; [apply ge_refl; trivial | | auto].
    unfold ge. apply le_rank. to_rank. repeat split; trivial.
Qed.

Lemma std_min_le (a b : double) :
  isnan a = false -> isnan b = false ->
  le (std_min a b) a = true /\ le (std_min a b) b = true /\ (std_min a b = a \/ std_min a b = b).
Proof.
  intros Ha Hb. unfold std_min. destruct (lt b a) eqn:E.
  - repeat split; [| apply le_refl; trivial | auto].
    apply le_rank. to_rank. repeat split; trivial. rank_lia.
  - repeat split; [apply le_refl; trivial | | auto].
    apply le_rank. to_rank. repeat split; trivial.
Qed.

Lemma le_trans (a b c : double) : le a b = true -> le b c = true -> le a c = true.
Proof. intros H1 H2. apply le_rank. to_rank. repeat split; trivial. rank_lia. Qed.

Lemma lt_le_trans (a b c : double) : lt a b = true -> le b c = true -> lt a c = true.
Proof. intros H1 H2. apply lt_rank. to_rank. repeat split; trivial. rank_lia. Qed.

Lemma le_lt_trans (a b c : double) : le a b = true -> lt b c = true -> lt a c = true.
Proof. intros H1 H2. apply lt_rank. to_rank. repeat split; trivial. rank_lia. Qed.

Lemma lt_le_false (a b : double) : lt a b = true -> le b a = false.
Proof.
  intros H. destruct (le b a) eqn:E; trivial. to_rank. exfalso. rank_lia.
Qed.

(** Rounding a magnitude with a positive sign never gives a negative
    double. *)
Lemma binary_round_aux_nonneg (mx ex : Z) (lx : location) :
  lt (binary_round_aux prec emax false mx ex lx) zero = false.
Proof.
  unfold binary_round_aux.
  destruct (shr_fexp prec emax mx ex lx) as [mrs e'].
  destruct (shr_fexp prec emax _ e' loc_Exact) as [mrs' e''].
  destruct (shr_m mrs'); [reflexivity | | reflexivity].
  destruct (e'' <=? emax - prec)%Z; reflexivity.
Qed.

Lemma of_size_t_nonneg (z : Z) : (0 <= z)%Z -> lt (of_size_t z) zero = false.
Proof.
  intros Hz. unfold of_size_t, binary_normalize.
  destruct z as [|p|p]; [reflexivity | | lia].
  unfold binary_round. destruct (shl_align _ _ _) as [mz ez].
  apply binary_round_aux_nonneg.
Qed.

Lemma digits2_pos_lt (m : positive) : (Zpos m < 2 ^ Zpos (digits2_pos m))%Z.
Proof.
  induction m as [m IH|m IH|]; cbn [digits2_pos];
    rewrite ?Pos2Z.inj_succ, ?Z.pow_succ_r by lia; lia.
Qed.

(** No finite double lies above [numeric_limits_max]. *)
Lemma valid_le_max (x : double) :
  valid x = true -> isfinite x = true -> le x numeric_limits_max = true.
Proof.
  intros Hv Hf. apply le_rank. split; [apply isfinite_not_nan; exact Hf|]. split; [reflexivity|].
  destruct x as [s|s| |[] m e]; try discriminate; cbn; try lia.
  unfold valid, valid_binary, bounded, canonical_mantissa, fexp, SpecFloat.emin, prec, emax in Hv.
  apply andb_true_iff in Hv. destruct Hv as (Hc & He).
  apply Z.eqb_eq in Hc. apply Z.leb_le in He.
  pose proof (digits2_pos_lt m) as Hd.
  assert (Hm : (e = 971 -> Zpos m < 2 ^ 53)%Z).
  { intros ->. assert (E : (Zpos (digits2_pos m) = 53)%Z) by lia.
    rewrite E in Hd. exact Hd. }
  change (2 ^ 53)%Z with 9007199254740992%Z in Hm. lia.
Qed.

(** Decide a comparison from the comparisons at hand. *)
Ltac order :=
  unfold gt, ge in *;
  to_rank;
  match goal with
  | |- le _ _ = true => apply le_rank; repeat split; trivial; rank_lia
  | |- lt _ _ = true => apply lt_rank; repeat split; trivial; rank_lia
  | |- lt ?a ?b = false =>
      let E := fresh in destruct (lt a b) eqn:E; [to_rank; exfalso; rank_lia | reflexivity]
  | |- le ?a ?b = false =>
      let E := fresh in destruct (le a b) eqn:E; [to_rank; exfalso; rank_lia | reflexivity]
  | |- False => rank_lia
  end.

End DoubleFacts.

(* ================================================================= *)
(** * Properties of the recombinators *)

Module RecombinatorFacts.
Import Double DoubleFacts Recombinator.

Section Operators.
Variable rand_t : Type.
Variable genotype : Type.
Variable uniformReal : rand_t -> double * rand_t.
Variable selector : rand_t -> nat * rand_t.
Variable crossover : genotype -> genotype -> rand_t -> genotype * rand_t.
Variable mutator : genotype -> rand_t -> genotype * rand_t.
Variable evaluator : Individual genotype -> rand_t -> double * rand_t.
Variable Max : bool.
Variable population : list (Individual genotype).
Variable T_default : Individual genotype.

Local Notation Plus := (Plus_call uniformReal selector crossover mutator evaluator Max population T_default).
Local Notation OS := (OS_call uniformReal selector crossover mutator evaluator Max population T_default).
Local Notation PlusT := (Plus_trial uniformReal selector crossover mutator evaluator population T_default).
Local Notation OST := (OS_trial uniformReal selector crossover mutator evaluator population T_default).
Local Notation at_ := (at_ population T_default).
Local Notation contributing := (contributing population T_default).
Local Notation best_parent := (best_parent Max population T_default).
Local Notation survivor := (Plus_survivor Max population T_default).

(** Run through the calls of the collaborators, one generator state
    after the other, and through the branches between them. *)
Ltac run_calls :=
  cbn beta iota zeta;
  match goal with |- context [uniformReal ?r] => destruct (uniformReal r) as [?u ?r] end;
  cbn beta iota zeta;
  match goal with |- context [uniformReal ?r] => destruct (uniformReal r) as [?u ?r] end;
  cbn beta iota zeta;
  match goal with |- context [lt ?u ?p || lt ?v ?q] => destruct (lt u p), (lt v q) end;
  repeat (cbn [negb orb andb fst snd Genotype Fitness];
    match goal with
    | |- context [selector ?r] => destruct (selector r)
    | |- context [crossover ?a ?b ?r] => destruct (crossover a b r)
    | |- context [mutator ?a ?r] => destruct (mutator a r)
    | |- context [evaluator ?a ?r] => destruct (evaluator a r)
    end);
  cbn [negb orb andb fst snd nth Genotype Fitness doCrossover doMutation parents child_genotype f];
  repeat match goal with
    | |- context [if ?c then _ else _] => destruct c
    end; try reflexivity.

(** [Plus_call] in terms of the trial it runs. *)
Lemma Plus_call_trial (pC pM : double) (r0 : rand_t) :
  let t := PlusT pC pM r0 in
  fst (Plus pC pM r0) =
  if triggered t
  then Some (survivor (doCrossover t) (nth 0 (parents t) 0%nat) (nth 1 (parents t) 0%nat)
                      (Plus_candidate Max t))
  else None.
Proof.
  unfold Plus_call, Plus_trial, bind, ret, triggered, Plus_candidate, set_Genotype, set_Fitness.
  run_calls.
Qed.

(** [OS_call] in terms of the trial it runs. *)
Lemma OS_call_trial (pC pM : double) (r0 : rand_t) :
  let t := OST pC pM r0 in
  let fit := match parents t with
             | [i] => Fitness (at_ i)
             | [i; j] => if Max then std_max (Fitness (at_ i)) (Fitness (at_ j))
                         else std_min (Fitness (at_ i)) (Fitness (at_ j))
             | _ => zero
             end in
  fst (OS pC pM r0) =
  if triggered t && (isfinite (f t) && (if Max then lt else gt) fit (f t))
  then Some (OS_candidate t)
  else None.
Proof.
  unfold OS_call, OS_trial, bind, ret, triggered, OS_candidate, set_Genotype, set_Fitness.
  run_calls.
Qed.

Lemma Plus_parents (pC pM : double) (r0 : rand_t) :
  let t := PlusT pC pM r0 in
  exists i j, parents t = if doCrossover t then [i; j] else [i].
Proof.
  unfold Plus_trial.
  destruct (uniformReal r0) as [u1 r1]. destruct (uniformReal r1) as [u2 r2].
  destruct (selector r2) as [i r3]. destruct (selector r3) as [j r4].
  exists i, j.
  destruct (lt u1 pC), (lt u2 pM);
  repeat (cbn beta iota zeta;
    match goal with
    | |- context [crossover ?a ?b ?r] => destruct (crossover a b r)
    | |- context [mutator ?a ?r] => destruct (mutator a r)
    | |- context [evaluator ?a ?r] => destruct (evaluator a r)
    end); reflexivity.
Qed.

Lemma OS_parents (pC pM : double) (r0 : rand_t) :
  let t := OST pC pM r0 in
  exists i j, parents t = if doCrossover t then [i; j] else [i].
Proof.
  unfold OS_trial.
  destruct (uniformReal r0) as [u1 r1]. destruct (uniformReal r1) as [u2 r2].
  destruct (selector r2) as [i r3]. destruct (selector r3) as [j r4].
  exists i, j.
  destruct (lt u1 pC), (lt u2 pM);
  repeat (cbn beta iota zeta;
    match goal with
    | |- context [crossover ?a ?b ?r] => destruct (crossover a b r)
    | |- context [mutator ?a ?r] => destruct (mutator a r)
    | |- context [evaluator ?a ?r] => destruct (evaluator a r)
    end); reflexivity.
Qed.

Lemma clamp_finite (c : double) : isfinite (clamp Max c) = true.
Proof.
  unfold clamp. destruct (isfinite c) eqn:E; trivial. destruct Max; reflexivity.
Qed.

(** The survivor of plus.hpp among totally ordered fitness values: the
    child when it is at least as good as every contributing parent, a
    best contributing parent otherwise. *)
Lemma Plus_survivor_spec (dc : bool) (i j : nat) (child : Individual genotype) :
  let ps := if dc then [at_ i; at_ j] else [at_ i] in
  let res := survivor dc i j child in
  isnan (Fitness child) = false ->
  (forall p, In p ps -> isnan (Fitness p) = false) ->
  ((forall p, In p ps -> at_least_as_good Max (Fitness child) (Fitness p) = true) -> res = child)
  /\ (~ (forall p, In p ps -> at_least_as_good Max (Fitness child) (Fitness p) = true) ->
      In res ps)
  /\ (forall p, In p ps -> at_least_as_good Max (Fitness res) (Fitness p) = true).
Proof.
  intros ps res Hc Hps.
  assert (Hi : isnan (Fitness (at_ i)) = false) by (apply Hps; destruct dc; simpl; auto).
  assert (Hj : dc = true -> isnan (Fitness (at_ j)) = false)
    by (intros ->; apply Hps; simpl; auto).
  subst ps res. unfold Plus_survivor, at_least_as_good.
  destruct dc; [specialize (Hj eq_refl)|clear Hj]; destruct Max; cbn [andb negb].
  - destruct (std_max_ge _ _ Hi Hj) as (M1 & M2 & M3).
    destruct (lt (Fitness child) (std_max (Fitness (at_ i)) (Fitness (at_ j)))) eqn:E.
    + assert (B : forall p, In p [at_ i; at_ j] ->
                  ge (Fitness (if gt (Fitness (at_ i)) (Fitness (at_ j)) then at_ i else at_ j))
                     (Fitness p) = true).
      { intros p [<-|[<-|[]]]; destruct (gt (Fitness (at_ i)) (Fitness (at_ j))) eqn:G;
          unfold gt in G; order. }
      split; [|split]; trivial.
      * intros A. exfalso.
        assert (A1 := A _ (or_introl eq_refl)). assert (A2 := A _ (or_intror (or_introl eq_refl))).
        destruct M3 as [M3|M3]; rewrite M3 in E; order.
      * intros _. destruct (gt (Fitness (at_ i)) (Fitness (at_ j))); simpl; auto.
    + assert (A : forall p, In p [at_ i; at_ j] -> ge (Fitness child) (Fitness p) = true).
      { intros p [<-|[<-|[]]]; destruct M3 as [M3|M3]; rewrite M3 in *; order. }
      split; [|split]; trivial. intros N. contradiction.
  - destruct (std_min_le _ _ Hi Hj) as (M1 & M2 & M3).
    destruct (gt (Fitness child) (std_min (Fitness (at_ i)) (Fitness (at_ j)))) eqn:E; unfold gt in E.
    + assert (B : forall p, In p [at_ i; at_ j] ->
                  le (Fitness (if lt (Fitness (at_ i)) (Fitness (at_ j)) then at_ i else at_ j))
                     (Fitness p) = true).
      { intros p [<-|[<-|[]]]; destruct (lt (Fitness (at_ i)) (Fitness (at_ j))) eqn:G; order. }
      split; [|split]; trivial.
      * intros A. exfalso.
        assert (A1 := A _ (or_introl eq_refl)). assert (A2 := A _ (or_intror (or_introl eq_refl))).
        destruct M3 as [M3|M3]; rewrite M3 in E; order.
      * intros _. destruct (lt (Fitness (at_ i)) (Fitness (at_ j))); simpl; auto.
    + assert (A : forall p, In p [at_ i; at_ j] -> le (Fitness child) (Fitness p) = true).
      { intros p [<-|[<-|[]]]; destruct M3 as [M3|M3]; rewrite M3 in *; order. }
      split; [|split]; trivial. intros N. contradiction.
  - destruct (lt (Fitness child) (Fitness (at_ i))) eqn:E.
    + split; [|split].
      * intros A. exfalso. assert (A1 := A _ (or_introl eq_refl)). order.
      * intros _. simpl; auto.
      * intros p [<-|[]]. order.
    + assert (A : forall p, In p [at_ i] -> ge (Fitness child) (Fitness p) = true).
      { intros p [<-|[]]. order. }
      split; [|split]; trivial. intros N. contradiction.
  - destruct (gt (Fitness child) (Fitness (at_ i))) eqn:E; unfold gt in E.
    + split; [|split].
      * intros A. exfalso. assert (A1 := A _ (or_introl eq_refl)). order.
      * intros _. simpl; auto.
      * intros p [<-|[]]. order.
    + assert (A : forall p, In p [at_ i] -> le (Fitness child) (Fitness p) = true).
      { intros p [<-|[]]. order. }
      split; [|split]; trivial. intros N. contradiction.
Qed.

(** A triggered Plus trial returns the survivor among the candidate and
    the contributing parents. *)
Lemma Plus_call_survivor (pC pM : double) (r0 : rand_t) :
  let t := PlusT pC pM r0 in
  triggered t = true ->
  exists i j,
    contributing t = (if doCrossover t then [at_ i; at_ j] else [at_ i])
    /\ fst (Plus pC pM r0) = Some (survivor (doCrossover t) i j (Plus_candidate Max t)).
Proof.
  intros t Htr.
  pose proof (Plus_call_trial pC pM r0) as Hcall. cbv zeta in Hcall. fold t in Hcall.
  rewrite Htr in Hcall.
  destruct (Plus_parents pC pM r0) as (i & j & Hp). cbv zeta in Hp. fold t in Hp.
  exists i, j. split.
  - unfold Recombinator.contributing. rewrite Hp. destruct (doCrossover t); reflexivity.
  - rewrite Hcall, Hp. destruct (doCrossover t); reflexivity.
Qed.

(** The same for an OffspringSelection trial: the candidate comes out
    when it is finite and beats the better parent fitness. *)
Lemma OS_call_decision (pC pM : double) (r0 : rand_t) :
  let t := OST pC pM r0 in
  exists i j,
    contributing t = (if doCrossover t then [at_ i; at_ j] else [at_ i])
    /\ fst (OS pC pM r0) =
       let fit := if doCrossover t
                  then if Max then std_max (Fitness (at_ i)) (Fitness (at_ j))
                       else std_min (Fitness (at_ i)) (Fitness (at_ j))
                  else Fitness (at_ i) in
       if triggered t && (isfinite (f t) && (if Max then lt else gt) fit (f t))
       then Some (OS_candidate t) else None.
Proof.
  intros t.
  pose proof (OS_call_trial pC pM r0) as Hcall. cbv zeta in Hcall. fold t in Hcall.
  destruct (OS_parents pC pM r0) as (i & j & Hp). cbv zeta in Hp. fold t in Hp.
  exists i, j. split.
  - unfold Recombinator.contributing. rewrite Hp. destruct (doCrossover t); reflexivity.
  - rewrite Hcall, Hp. destruct (doCrossover t); reflexivity.
Qed.

(** C2 (amended). In a Plus trial in which crossover or mutation triggers
    and no contributing parent's fitness is a NaN, the candidate carries
    the evaluated fitness when that is finite and the sentinel of line
    66 otherwise; the returned individual is the candidate when this
    fitness is at least as good as every contributing parent's, and a
    best contributing parent, unchanged, otherwise; the returned fitness
    is at least as good as every contributing parent's.  Under
    minimization, with two parents of fitness 5.0 and 7.0 and a
    candidate evaluated to 9.0, the returned individual has fitness
    5.0. *)
Theorem Plus_survivor_rule (pC pM : double) (r0 : rand_t) :
  let t := PlusT pC pM r0 in
  let cand := Plus_candidate Max t in
  triggered t = true ->
  (forall p, In p (contributing t) -> isnan (Fitness p) = false) ->
  Genotype cand = child_genotype t
  /\ Fitness cand = (if isfinite (f t) then f t
                     else if Max then numeric_limits_min else numeric_limits_max)
  /\ exists res,
    fst (Plus pC pM r0) = Some res
    /\ ((forall p, In p (contributing t) ->
                   at_least_as_good Max (Fitness cand) (Fitness p) = true) ->
        res = cand)
    /\ (~ (forall p, In p (contributing t) ->
                     at_least_as_good Max (Fitness cand) (Fitness p) = true) ->
        best_parent t res)
    /\ (forall p, In p (contributing t) ->
                  at_least_as_good Max (Fitness res) (Fitness p) = true)
    /\ (Max = false -> doCrossover t = true -> f t = nine ->
        Permutation (map Fitness (contributing t)) [five; seven] ->
        Fitness res = five).
Proof.
  intros t cand Htr Hnan.
  split; [reflexivity|]. split; [reflexivity|].
  destruct (Plus_call_survivor pC pM r0 Htr) as (i & j & Hc & Hcall).
  fold t cand in Hc, Hcall.
  eexists. split; [exact Hcall|].
  assert (Hcn : isnan (Fitness cand) = false).
  { apply isfinite_not_nan. apply clamp_finite. }
  unfold Recombinator.best_parent. rewrite Hc in Hnan |- *.
  destruct (Plus_survivor_spec (doCrossover t) i j cand Hcn Hnan) as (S1 & S2 & S3).
  split; [exact S1|]. split; [|split; [exact S3|]].
  - intros N. split; [apply S2; exact N | exact S3].
  - intros HM Hdc Hf Hperm. rewrite Hdc in *. simpl in Hperm.
    assert (Hfit : Fitness cand = nine).
    { unfold cand, Plus_candidate, clamp. simpl. rewrite Hf. reflexivity. }
    unfold Plus_survivor. rewrite HM, Hfit. cbn [andb negb].
    apply Permutation_sym, Permutation_length_2_inv in Hperm.
    destruct Hperm as [E|E]; injection E as E1 E2; rewrite E1, E2.
    + change (gt nine (std_min five seven)) with true.
      change (lt five seven) with true. exact E1.
    + change (gt nine (std_min seven five)) with true.
      change (lt seven five) with false. exact E2.
Qed.


(** C1 (amended). A candidate whose evaluated fitness is not finite never
    comes out of an OffspringSelection trial, in either direction.  Under
    minimization, in a triggered Plus trial whose contributing parents'
    fitness values are numbers, such a candidate carries the largest
    finite double as its fitness: a best contributing parent, and not
    the candidate, is returned as soon as one contributing parent's
    fitness is strictly below that value, and the candidate is returned
    when none is. *)
Theorem nonfinite_candidate_loses (pC pM : double) (r0 : rand_t) :
  (isfinite (f (OST pC pM r0)) = false -> fst (OS pC pM r0) = None)
  /\ (let t := PlusT pC pM r0 in
      Max = false -> triggered t = true -> isfinite (f t) = false ->
      (forall p, In p (contributing t) -> isnan (Fitness p) = false) ->
      Fitness (Plus_candidate Max t) = numeric_limits_max
      /\ ((exists p, In p (contributing t) /\ lt (Fitness p) numeric_limits_max = true) ->
          exists res, fst (Plus pC pM r0) = Some res /\ best_parent t res
                      /\ res <> Plus_candidate Max t)
      /\ ((forall p, In p (contributing t) -> lt (Fitness p) numeric_limits_max = false) ->
          fst (Plus pC pM r0) = Some (Plus_candidate Max t))).
Proof.
  split.
  - intros Hf. destruct (OS_call_decision pC pM r0) as (i & j & _ & Hcall).
    rewrite Hcall. cbv zeta. rewrite Hf. cbn [andb]. rewrite andb_false_r. reflexivity.
  - intros t HM Htr Hf Hnan.
    destruct (Plus_call_survivor pC pM r0 Htr) as (i & j & Hc & Hcall).
    fold t in Hc, Hcall.
    set (cand := Plus_candidate Max t) in *.
    assert (Hfit : Fitness cand = numeric_limits_max).
    { unfold cand, Plus_candidate, clamp. simpl. rewrite Hf, HM. reflexivity. }
    assert (Hcn : isnan (Fitness cand) = false) by (rewrite Hfit; reflexivity).
    split; [exact Hfit|].
    unfold Recombinator.best_parent. rewrite Hc in Hnan |- *.
    destruct (Plus_survivor_spec (doCrossover t) i j cand Hcn Hnan) as (S1 & S2 & S3).
    split.
    + intros (p & Hp & Hlt). eexists. split; [exact Hcall|].
      apply lt_le_false in Hlt. split; [split; [|exact S3]|].
      * apply S2. intros A. specialize (A _ Hp).
        unfold at_least_as_good in A. rewrite HM, Hfit in A. congruence.
      * intros E. specialize (S3 _ Hp). rewrite E in S3.
        unfold at_least_as_good in S3. rewrite HM, Hfit in S3. congruence.
    + intros Hall. rewrite Hcall. f_equal. apply S1. intros p Hp.
      unfold at_least_as_good. rewrite HM, Hfit.
      apply (lt_false_iff (Fitness p) numeric_limits_max);
        [apply Hnan; exact Hp | reflexivity | apply Hall; exact Hp].
Qed.

End Operators.

Section Pressure.
Variable genotype : Type.
Variable base_Terminate : bool.

Local Notation Terminate := (@Terminate genotype base_Terminate).

(** C4. After [Prepare] has recorded the evaluator's cumulative count as
    the baseline, [SelectionPressure] is the number of evaluations since
    then divided by the population size (as doubles), and [Terminate] is
    true once that exceeds [MaxSelectionPressure]: it is true when the
    pressure is strictly above the maximum, and what the base class
    answers when it is not.  With a population of 10 and a maximum of 2,
    25 evaluations since [Prepare] give a pressure of 2.5 and
    [Terminate] is true; 20 evaluations give a pressure of 2.0, which
    does not exceed the maximum, and [Terminate] is what the base class
    answers. *)
Theorem SelectionPressure_since_Prepare
    (self : OSState) (e0 e1 : Z) (pop : list (Individual genotype)) :
  pop <> [] -> (0 <= e0 <= e1)%Z -> (e1 < size_max)%Z ->
  let self' := fst (Prepare self e0 pop) in
  let view := snd (Prepare self e0 pop) in
  SelectionPressure self' e1 view
    = div (of_size_t (e1 - e0)) (of_size_t (Z.of_nat (length pop)))
  /\ (gt (SelectionPressure self' e1 view) (of_size_t (maxSelectionPressure self)) = true ->
      Terminate self' e1 view = true)
  /\ (gt (SelectionPressure self' e1 view) (of_size_t (maxSelectionPressure self)) = false ->
      Terminate self' e1 view = base_Terminate)
  /\ (length pop = 10%nat -> maxSelectionPressure self = 2%Z -> (e1 - e0 = 25)%Z ->
      SelectionPressure self' e1 view = two_and_a_half
      /\ Terminate self' e1 view = true)
  /\ (length pop = 10%nat -> maxSelectionPressure self = 2%Z -> (e1 - e0 = 20)%Z ->
      SelectionPressure self' e1 view = two
      /\ Terminate self' e1 view = base_Terminate).
Proof.
  intros Hpop He0 He1 self' view.
  assert (Hsp : SelectionPressure self' e1 view
                = div (of_size_t (e1 - e0)) (of_size_t (Z.of_nat (length pop)))).
  { subst self' view. unfold SelectionPressure, Prepare. cbn [fst snd lastEvaluations].
    destruct pop as [|x pop]; [congruence|].
    unfold wrap. rewrite Z.mod_small by (unfold size_max in *; lia). reflexivity. }
  assert (HT : Terminate self' e1 view
               = base_Terminate
                 || gt (SelectionPressure self' e1 view)
                       (of_size_t (maxSelectionPressure self))).
  { unfold Recombinator.Terminate. subst self'. unfold Prepare at 2.
    cbn [fst maxSelectionPressure]. reflexivity. }
  split; [exact Hsp|]. split; [|split; [|split]].
  - intros Hgt. rewrite HT, Hgt. apply orb_true_r.
  - intros Hgt. rewrite HT, Hgt. apply orb_false_r.
  - intros Hlen Hmax Hd.
    assert (Hv : SelectionPressure self' e1 view = two_and_a_half).
    { rewrite Hsp, Hlen, Hd. reflexivity. }
    split; [exact Hv|]. rewrite HT, Hv, Hmax. apply orb_true_r.
  - intros Hlen Hmax Hd.
    assert (Hv : SelectionPressure self' e1 view = two).
    { rewrite Hsp, Hlen, Hd. reflexivity. }
    split; [exact Hv|]. rewrite HT, Hv, Hmax. apply orb_false_r.
Qed.

(** C10. On an empty population view [SelectionPressure] is 0, no
    division takes place, and the pressure condition of [Terminate] does
    not hold for any (non-negative) [MaxSelectionPressure]: [Terminate]
    is what the base class answers. *)
Theorem SelectionPressure_empty (self : OSState) (evals : Z) :
  (0 <= maxSelectionPressure self)%Z ->
  SelectionPressure self evals (@nil (Individual genotype)) = zero
  /\ gt (SelectionPressure self evals (@nil (Individual genotype)))
        (of_size_t (maxSelectionPressure self)) = false
  /\ Terminate self evals [] = base_Terminate.
Proof.
  intros Hmax. split; [reflexivity|].
  assert (G : gt (SelectionPressure self evals (@nil (Individual genotype)))
                 (of_size_t (maxSelectionPressure self)) = false).
  { unfold gt. cbn [SelectionPressure]. apply of_size_t_nonneg. exact Hmax. }
  split; [exact G|]. unfold Recombinator.Terminate. rewrite G. apply orb_false_r.
Qed.

End Pressure.

Lemma SelectionPressure_since_Prepare_witness :
  (SelectionPressure (fst (Prepare (mkOSState 0 2) 100 (repeat Demo.T_default 10)))
                     125 (snd (Prepare (mkOSState 0 2) 100 (repeat Demo.T_default 10)))
   = two_and_a_half
   /\ Terminate false (fst (Prepare (mkOSState 0 2) 100 (repeat Demo.T_default 10)))
                  125 (snd (Prepare (mkOSState 0 2) 100 (repeat Demo.T_default 10)))
     = true)
  /\ (SelectionPressure (fst (Prepare (mkOSState 0 2) 100 (repeat Demo.T_default 10)))
                        120 (snd (Prepare (mkOSState 0 2) 100 (repeat Demo.T_default 10)))
      = two
      /\ Terminate false (fst (Prepare (mkOSState 0 2) 100 (repeat Demo.T_default 10)))
                     120 (snd (Prepare (mkOSState 0 2) 100 (repeat Demo.T_default 10)))
        = false).
Proof.
  split.
  - apply (@SelectionPressure_since_Prepare nat false (mkOSState 0 2) 100 125
             (repeat Demo.T_default 10)).
    + discriminate.
    + lia.
    + reflexivity.
    + reflexivity.
    + reflexivity.
    + reflexivity.
  - apply (@SelectionPressure_since_Prepare nat false (mkOSState 0 2) 100 120
             (repeat Demo.T_default 10)).
    + discriminate.
    + lia.
    + reflexivity.
    + reflexivity.
    + reflexivity.
    + reflexivity.
Defined.

Lemma SelectionPressure_empty_witness :
  SelectionPressure (mkOSState 0 2) 125 (@nil (Individual nat)) = zero
  /\ gt (SelectionPressure (mkOSState 0 2) 125 (@nil (Individual nat))) (of_size_t 2) = false
  /\ Terminate false (mkOSState 0 2) 125 (@nil (Individual nat)) = false.
Proof.
  apply (@SelectionPressure_empty nat false (mkOSState 0 2) 125). simpl. lia.
Defined.


(** ** Concrete trials *)

Lemma Plus_survivor_rule_witness :
  exists res, Demo.Plus false Demo.pop_5_7 nine one zero = Some res /\ Fitness res = five.
Proof.
  destruct (@Plus_survivor_rule nat nat Demo.uniformReal (Demo.selector 2) Demo.crossover
              Demo.mutator (Demo.evaluator nine) false Demo.pop_5_7 Demo.T_default
              one zero 0%nat)
    as (_ & _ & res & H1 & _ & _ & _ & H5).
  - reflexivity.
  - intros p [<-|[<-|[]]]; reflexivity.
  - exists res. split; [exact H1|]. apply H5; reflexivity.
Defined.

(** C2, as stated, fails where a contributing parent's fitness is a
    NaN: under minimization, crossover of a parent without a number and
    a parent of fitness 5.0 with a candidate evaluated to 9.0 returns
    the candidate, which is worse than the parent of fitness 5.0; with
    the parents in the other order it returns the parent without a
    number, not the best one. *)
Lemma Plus_NaN_parent_breaks_survivor_rule :
  triggered (Demo.PlusT Demo.pop_nan_5 nine one zero) = true
  /\ contributing Demo.pop_nan_5 Demo.T_default (Demo.PlusT Demo.pop_nan_5 nine one zero)
     = Demo.pop_nan_5
  /\ Demo.Plus false Demo.pop_nan_5 nine one zero
     = Some (Plus_candidate false (Demo.PlusT Demo.pop_nan_5 nine one zero))
  /\ Fitness (Plus_candidate false (Demo.PlusT Demo.pop_nan_5 nine one zero)) = nine
  /\ at_least_as_good false nine five = false
  /\ contributing Demo.pop_5_nan Demo.T_default (Demo.PlusT Demo.pop_5_nan nine one zero)
     = Demo.pop_5_nan
  /\ Demo.Plus false Demo.pop_5_nan nine one zero
     = Some (mkIndividual 20%nat S754_nan)
  /\ better false five nine = true.
Proof. repeat split; vm_compute; reflexivity. Qed.



Lemma nonfinite_candidate_loses_witness :
  exists p, Demo.Plus false Demo.pop_5_max S754_nan one zero = Some p
            /\ In p Demo.pop_5_max /\ Fitness p = five.
Proof.
  destruct (@nonfinite_candidate_loses nat nat Demo.uniformReal (Demo.selector 2) Demo.crossover
              Demo.mutator (Demo.evaluator S754_nan) false Demo.pop_5_max Demo.T_default
              one zero 0%nat)
    as (_ & H).
  destruct H as (_ & H & _).
  - reflexivity.
  - reflexivity.
  - reflexivity.
  - intros p [<-|[<-|[]]]; reflexivity.
  - destruct H as (p & Hp & Hbest & _).
    + exists (mkIndividual 10%nat five). split; [left; reflexivity | reflexivity].
    + exists p. split; [exact Hp|]. split; [exact (proj1 Hbest)|].
      vm_compute in Hp. injection Hp as <-. reflexivity.
Defined.

(** C1, as stated, fails: under minimization, with a single parent whose
    (finite) fitness is the largest finite double, a mutation-only Plus
    trial whose candidate evaluates to NaN returns that candidate, which
    is no member of the population. *)
Lemma Plus_nonfinite_candidate_returned :
  Forall (fun p => isfinite (Fitness p) = true) Demo.pop_max
  /\ isfinite (f (Demo.PlusT Demo.pop_max S754_nan zero one)) = false
  /\ Demo.Plus false Demo.pop_max S754_nan zero one
       = Some (Plus_candidate false (Demo.PlusT Demo.pop_max S754_nan zero one))
  /\ ~ In (Plus_candidate false (Demo.PlusT Demo.pop_max S754_nan zero one)) Demo.pop_max.
Proof.
  split; [repeat constructor|]. split; [reflexivity|]. split; [reflexivity|].
  intros [H|[]]. discriminate H.
Qed.

(** C6, at the failing input: when maximizing, a NaN fitness is replaced
    by the smallest positive normal double, which is not the lowest
    double and is strictly better than 0 or -1; the candidate then beats
    a parent of fitness -1.  When minimizing, the replacement is the
    largest finite double, which no finite fitness exceeds. *)
Theorem Plus_clamp_when_maximizing :
  clamp true S754_nan = numeric_limits_min
  /\ numeric_limits_min <> numeric_limits_lowest
  /\ better true (clamp true S754_nan) zero = true
  /\ better true (clamp true S754_nan) minus_one = true
  /\ Demo.Plus true Demo.pop_minus_one S754_nan zero one
       = Some (mkIndividual 11%nat numeric_limits_min)
  /\ clamp false S754_nan = numeric_limits_max
  /\ (forall x, valid x = true -> isfinite x = true ->
                better false (clamp false S754_nan) x = false).
Proof.
  split; [reflexivity|]. split; [discriminate|]. split; [reflexivity|].
  split; [reflexivity|]. split; [reflexivity|]. split; [reflexivity|].
  intros x Hv Hf. unfold better. change (clamp false S754_nan) with numeric_limits_max.
  pose proof (valid_le_max x Hv Hf) as Hle.
  assert (Hn := isfinite_not_nan x Hf).
  order.
Qed.

End RecombinatorFacts.

(* ================================================================= *)
(** * Properties of the tree *)

Module TreeFacts.
Import Tree TreeShape.
Local Open Scope Z_scope.

(** *** Lists as arrays *)

Lemma zlen_app {A} (l1 l2 : list A) : zlen (l1 ++ l2) = zlen l1 + zlen l2.
Proof. unfold zlen. rewrite length_app. lia. Qed.

Lemma zlen_nonneg {A} (l : list A) : 0 <= zlen l.
Proof. unfold zlen. lia. Qed.

Lemma zlen_cons {A} (x : A) (l : list A) : zlen (x :: l) = 1 + zlen l.
Proof. unfold zlen. cbn [length]. lia. Qed.

Lemma zlen_nil {A} : zlen (@nil A) = 0.
Proof. reflexivity. Qed.

Lemma get_app_mid (pre post : list Node) (x : Node) :
  get (pre ++ x :: post) (zlen pre) = x.
Proof.
  unfold get, zlen. rewrite Nat2Z.id. rewrite nth_middle. reflexivity.
Qed.

Lemma put_nat_app_mid (pre post : list Node) (x y : Node) :
  put_nat (pre ++ x :: post) (length pre) y = pre ++ y :: post.
Proof. induction pre as [|a pre IH]; cbn; [reflexivity | rewrite IH; reflexivity]. Qed.

Lemma put_app_mid (pre post : list Node) (x y : Node) :
  put (pre ++ x :: post) (zlen pre) y = pre ++ y :: post.
Proof. unfold put, zlen. rewrite Nat2Z.id. apply put_nat_app_mid. Qed.

Lemma length_put_nat (nodes : list Node) (i : nat) (x : Node) :
  length (put_nat nodes i x) = length nodes.
Proof. revert i. induction nodes as [|a l IH]; intros [|i]; cbn; auto. Qed.

Lemma length_put (nodes : list Node) (i : Z) (x : Node) :
  length (put nodes i x) = length nodes.
Proof. apply length_put_nat. Qed.

(** *** Trees and their layout *)

Lemma rtree_induction (P : rtree -> Prop) :
  (forall n cs, Forall P cs -> P (RNode n cs)) -> forall t, P t.
Proof.
  intros step. fix IH 1. intros [n cs]. apply step.
  induction cs as [|c cs IHcs]; constructor; [apply IH | exact IHcs].
Qed.

Lemma flat_app (ts1 ts2 : list rtree) : flat (ts1 ++ ts2) = flat ts1 ++ flat ts2.
Proof. unfold flat. apply flat_map_app. Qed.

Lemma flat_cons (t : rtree) (ts : list rtree) : flat (t :: ts) = flatten t ++ flat ts.
Proof. reflexivity. Qed.

Lemma flatten_RNode (n : Node) (cs : list rtree) : flatten (RNode n cs) = flat cs ++ [n].
Proof. reflexivity. Qed.

Lemma zlen_flatten_RNode (n : Node) (cs : list rtree) :
  zlen (flatten (RNode n cs)) = zlen (flat cs) + 1.
Proof. rewrite flatten_RNode, zlen_app. reflexivity. Qed.

Lemma zlen_flatten_pos (t : rtree) : 1 <= zlen (flatten t).
Proof.
  destruct t as [n cs]. rewrite flatten_RNode, zlen_app, zlen_cons, zlen_nil.
  pose proof (zlen_nonneg (flat cs)). lia.
Qed.

Lemma zlen_flat_ge (ts : list rtree) : zlen ts <= zlen (flat ts).
Proof.
  induction ts as [|t ts IH]; [reflexivity|].
  rewrite flat_cons, zlen_app, zlen_cons. pose proof (zlen_flatten_pos t). lia.
Qed.

Lemma root_positions_app (o : Z) (ts1 ts2 : list rtree) :
  root_positions o (ts1 ++ ts2)
  = root_positions o ts1 ++ root_positions (o + zlen (flat ts1)) ts2.
Proof.
  revert o. induction ts1 as [|t ts1 IH]; intros o; cbn [app root_positions].
  - change (zlen (flat [])) with 0. rewrite Z.add_0_r. reflexivity.
  - rewrite IH, flat_cons, zlen_app. f_equal. f_equal. f_equal. lia.
Qed.

Lemma length_root_positions (o : Z) (ts : list rtree) :
  length (root_positions o ts) = length ts.
Proof. revert o. induction ts as [|t ts IH]; intros o; cbn; auto. Qed.

Lemma root_positions_bounds (o : Z) (ts : list rtree) :
  Forall (fun j => o <= j < o + zlen (flat ts)) (root_positions o ts).
Proof.
  revert o. induction ts as [|t ts IH]; intros o; cbn [root_positions]; constructor.
  - rewrite flat_cons, zlen_app. pose proof (zlen_flatten_pos t).
    pose proof (zlen_nonneg (flat ts)). lia.
  - eapply Forall_impl; [|apply IH]. cbn beta. intros j Hj.
    rewrite flat_cons, zlen_app. pose proof (zlen_flatten_pos t). lia.
Qed.

(** The node at a root position is that root. *)
Lemma get_root_position (pre post : list Node) (ts1 ts2 : list rtree) (t : rtree) :
  get (pre ++ flat (ts1 ++ t :: ts2) ++ post)
      (zlen pre + zlen (flat ts1) + zlen (flatten t) - 1) = root t.
Proof.
  destruct t as [n cs]. rewrite flat_app, flat_cons, flatten_RNode.
  replace (pre ++ (flat ts1 ++ (flat cs ++ [n]) ++ flat ts2) ++ post)
    with ((pre ++ flat ts1 ++ flat cs) ++ n :: (flat ts2 ++ post))
    by (rewrite <- !app_assoc; cbn [app]; reflexivity).
  replace (zlen pre + zlen (flat ts1) + zlen (flat cs ++ [n]) - 1)
    with (zlen (pre ++ flat ts1 ++ flat cs))
    by (rewrite !zlen_app, zlen_cons, zlen_nil; lia).
  apply get_app_mid.
Qed.

(** *** The cursor over the children *)

Lemma wrap_small (z : Z) : 0 <= z < size_max -> wrap z = z.
Proof. intros H. unfold wrap. apply Z.mod_small. exact H. Qed.

Lemma wrap_minus_one : wrap (-1) = size_max - 1.
Proof. reflexivity. Qed.

(** With the cursor on the root of the last of the subtrees [cs] that
    fill [lo, hi), where [lo] is the parent's lower bound, the loop
    yields the roots of [cs] from right to left and stops. *)
Lemma iterate_roots (nodes pre post : list Node) (cs : list rtree) (p : Z) (fuel : nat) :
  nodes = pre ++ flat cs ++ post ->
  Forall rwf cs ->
  zlen pre + zlen (flat cs) <= p < size_max ->
  wrap (p - Length (get nodes p)) = zlen pre ->
  (length cs <= fuel)%nat ->
  iterate fuel nodes (mkIt p (wrap (zlen pre + zlen (flat cs) - 1)))
  = rev (root_positions (zlen pre) cs).
Proof.
  intros Hn Hwf Hp Hlo. revert post fuel Hn Hp.
  induction cs as [|c cs IH] using rev_ind; intros post fuel Hn Hp Hfuel.
  - cbn [root_positions rev]. destruct fuel as [|k]; [reflexivity|].
    cbn [iterate]. unfold HasNext. cbn [index_ parentIndex_]. rewrite Hlo.
    change (zlen (flat [])) with 0 in Hp |- *. rewrite Z.add_0_r in Hp |- *.
    pose proof (zlen_nonneg pre) as Hpre.
    destruct (Z.eq_dec (zlen pre) 0) as [E|E].
    + rewrite E. cbn [Z.sub Z.add Z.opp Z.pos_sub]. rewrite wrap_minus_one.
      replace (size_max - 1 <? p) with false by (symmetry; apply Z.ltb_ge; lia).
      reflexivity.
    + rewrite wrap_small by lia.
      replace (zlen pre <=? zlen pre - 1) with false by (symmetry; apply Z.leb_gt; lia).
      rewrite andb_false_r. reflexivity.
  - rewrite root_positions_app. cbn [root_positions]. rewrite rev_app_distr. cbn [rev app].
    apply Forall_app in Hwf. destruct Hwf as (Hwf & Hc).
    apply Forall_inv in Hc.
    rewrite flat_app, zlen_app in Hp |- *.
    assert (Hflat1 : flat [c] = flatten c) by (unfold flat; cbn; apply app_nil_r).
    rewrite Hflat1 in Hp |- *.
    pose proof (zlen_flatten_pos c) as Hcpos.
    pose proof (zlen_nonneg pre) as Hpre.
    pose proof (zlen_nonneg (flat cs)) as Hcs.
    rewrite length_app in Hfuel. cbn [length] in Hfuel.
    destruct fuel as [|k]; [lia|].
    cbn [iterate]. unfold HasNext, Index. cbn [index_ parentIndex_]. rewrite Hlo.
    rewrite wrap_small by lia.
    replace (zlen pre + (zlen (flat cs) + zlen (flatten c)) - 1 <? p) with true
      by (symmetry; apply Z.ltb_lt; lia).
    replace (zlen pre <=? zlen pre + (zlen (flat cs) + zlen (flatten c)) - 1) with true
      by (symmetry; apply Z.leb_le; lia).
    cbn [andb]. f_equal; [lia|].
    unfold incr. cbn [index_ parentIndex_].
    assert (Hget : get nodes (zlen pre + (zlen (flat cs) + zlen (flatten c)) - 1) = root c).
    { rewrite Hn. replace (cs ++ [c]) with (cs ++ c :: []) by reflexivity.
      replace (zlen pre + (zlen (flat cs) + zlen (flatten c)) - 1)
        with (zlen pre + zlen (flat cs) + zlen (flatten c) - 1) by lia.
      apply get_root_position. }
    rewrite Hget.
    inversion Hc as [n ds Har Hlen Hds E]. subst c. cbn [root].
    rewrite Hlen. rewrite flatten_RNode, zlen_app, zlen_cons, zlen_nil.
    replace (zlen pre + (zlen (flat cs) + (zlen (flat ds) + (1 + 0))) - 1 - (zlen (flat ds) + 1))
      with (zlen pre + zlen (flat cs) - 1) by lia.
    apply IH with (post := flat [RNode n ds] ++ post).
    + exact Hwf.
    + rewrite Hn, flat_app. rewrite <- !app_assoc. reflexivity.
    + lia.
    + lia.
Qed.

(** *** Every index is the root of a subtree *)

Lemma subtree_at_forest (ts : list rtree) :
  Forall (fun t => forall i, 0 <= i < zlen (flatten t) ->
            exists pre cs n post,
              flatten t = pre ++ flat cs ++ n :: post
              /\ zlen pre + zlen (flat cs) = i /\ rwf (RNode n cs)) ts ->
  forall i, 0 <= i < zlen (flat ts) ->
  exists pre cs n post,
    flat ts = pre ++ flat cs ++ n :: post
    /\ zlen pre + zlen (flat cs) = i /\ rwf (RNode n cs).
Proof.
  induction 1 as [|t ts Ht _ IH]; intros i Hi.
  - change (zlen (flat [])) with 0 in Hi. lia.
  - rewrite flat_cons, zlen_app in Hi. rewrite flat_cons.
    destruct (Z.lt_ge_cases i (zlen (flatten t))) as [Hlt|Hge].
    + destruct (Ht i) as (pre & cs & n & post & E & Hlen & Hwf); [lia|].
      exists pre, cs, n, (post ++ flat ts). rewrite E.
      split; [|split]; trivial. rewrite <- !app_assoc. reflexivity.
    + destruct (IH (i - zlen (flatten t))) as (pre & cs & n & post & E & Hlen & Hwf); [lia|].
      exists (flatten t ++ pre), cs, n, post. rewrite E.
      split; [|split]; trivial.
      * rewrite <- !app_assoc. reflexivity.
      * rewrite zlen_app. lia.
Qed.

Lemma subtree_at_tree (t : rtree) :
  rwf t ->
  forall i, 0 <= i < zlen (flatten t) ->
  exists pre cs n post,
    flatten t = pre ++ flat cs ++ n :: post
    /\ zlen pre + zlen (flat cs) = i /\ rwf (RNode n cs).
Proof.
  induction t as [n cs IH] using rtree_induction. intros Hwf i Hi.
  inversion Hwf as [n' cs' Har Hlen Hcs E]. subst n' cs'.
  rewrite zlen_flatten_RNode in Hi. rewrite flatten_RNode.
  destruct (Z.lt_ge_cases i (zlen (flat cs))) as [Hlt|Hge].
  - destruct (subtree_at_forest (ts := cs)) with (i := i)
      as (pre & ds & m & post & E & Hl & Hw); [|lia|].
    + rewrite Forall_forall in IH, Hcs |- *. intros t Ht. apply IH; auto.
    + exists pre, ds, m, (post ++ [n]). rewrite E. split; [|split]; trivial.
      rewrite <- !app_assoc. reflexivity.
  - exists [], cs, n, []. split; [|split]; trivial.
    change (zlen (@nil Node)) with 0. lia.
Qed.

Lemma subtree_at (nodes : list Node) (i : Z) :
  subtree_range_invariant nodes -> 0 <= i < zlen nodes ->
  exists pre cs n post,
    nodes = pre ++ flat cs ++ n :: post
    /\ zlen pre + zlen (flat cs) = i /\ rwf (RNode n cs).
Proof.
  intros (_ & ts & Hwf & ->) Hi. apply subtree_at_forest; [|exact Hi].
  rewrite Forall_forall in Hwf |- *. intros t Ht. apply subtree_at_tree. auto.
Qed.

(** The children of the node at index [i], as the cursor finds them. *)
Lemma child_indices_roots (pre post : list Node) (cs : list rtree) (n : Node) (fuel : nat) :
  let nodes := pre ++ flat cs ++ n :: post in
  zlen nodes < size_max ->
  rwf (RNode n cs) ->
  (length cs <= fuel)%nat ->
  iterate fuel nodes (Children (zlen pre + zlen (flat cs)))
  = rev (root_positions (zlen pre) cs).
Proof.
  intros nodes Hsz Hwf Hfuel.
  inversion Hwf as [n' cs' Har Hlen Hcs E]. subst n' cs'.
  pose proof (zlen_nonneg pre) as Hpre. pose proof (zlen_nonneg (flat cs)) as Hcsz.
  pose proof (zlen_nonneg post) as Hpost.
  assert (Hz : zlen nodes = zlen pre + zlen (flat cs) + 1 + zlen post).
  { unfold nodes. rewrite !zlen_app, zlen_cons. lia. }
  assert (Hget : get nodes (zlen pre + zlen (flat cs)) = n).
  { unfold nodes. rewrite app_assoc, <- zlen_app. apply get_app_mid. }
  unfold Children.
  apply iterate_roots with (post := n :: post); trivial.
  - lia.
  - rewrite Hget, Hlen. rewrite wrap_small by lia. lia.
Qed.

Lemma iterate_stops (nodes : list Node) (fuel : nat) (it : SubtreeIterator) :
  (length (iterate fuel nodes it) < fuel)%nat ->
  HasNext nodes (Nat.iter (length (iterate fuel nodes it)) (incr nodes) it) = false.
Proof.
  revert it. induction fuel as [|k IH]; intros it Hlt; [inversion Hlt|].
  cbn [iterate] in *. destruct (HasNext nodes it) eqn:E; cbn [length] in *.
  - rewrite Nat.iter_succ_r. apply IH. lia.
  - exact E.
Qed.

Lemma ex_nodes_invariant : subtree_range_invariant ex_nodes.
Proof.
  split; [reflexivity|]. exists [ex_tree]. split; [|reflexivity].
  repeat (constructor; try reflexivity).
Qed.

(** C8. In a tree that satisfies the subtree-range invariant, iterating
    [Children(i)] over a node of arity at least 1 until [HasNext()] is
    false yields exactly [Arity(i)] indices, each of them in
    [i - Length(i), i); the loop of the sources, bounded by the number
    of nodes, is that iteration. *)
Theorem Children_yields_Arity (nodes : list Node) (i : Z) (fuel : nat) :
  subtree_range_invariant nodes ->
  0 <= i < zlen nodes ->
  1 <= Arity (get nodes i) ->
  Arity (get nodes i) < Z.of_nat fuel ->
  let out := iterate fuel nodes (Children i) in
  zlen out = Arity (get nodes i)
  /\ Forall (fun j => i - Length (get nodes i) <= j < i) out
  /\ HasNext nodes (Nat.iter (length out) (incr nodes) (Children i)) = false
  /\ child_indices nodes i = out.
Proof.
  intros Hinv Hi Har Hfuel out.
  destruct (subtree_at Hinv Hi) as (pre & cs & n & post & E & Hpos & Hwf).
  destruct Hinv as (Hsz & _).
  assert (Hget : get nodes i = n).
  { rewrite E, <- Hpos. rewrite app_assoc, <- zlen_app. apply get_app_mid. }
  inversion Hwf as [n' cs' Harity Hlen Hcs En]. subst n' cs'.
  rewrite Hget in *.
  assert (Hout : out = rev (root_positions (zlen pre) cs)).
  { subst out. rewrite <- Hpos. rewrite E in Hsz |- *.
    apply child_indices_roots; trivial. unfold zlen in *. lia. }
  assert (Hlenout : zlen out = Arity n).
  { rewrite Hout. unfold zlen. rewrite length_rev, length_root_positions. symmetry. exact Harity. }
  split; [exact Hlenout|]. split; [|split].
  - rewrite Hout. apply Forall_rev.
    eapply Forall_impl; [|apply root_positions_bounds]. cbn beta. intros j Hj. lia.
  - apply iterate_stops. fold out. unfold zlen in Hlenout. lia.
  - rewrite Hout. unfold child_indices. rewrite <- Hpos. rewrite E in Hsz |- *.
    apply child_indices_roots; trivial.
    pose proof (zlen_flat_ge cs) as Hge. rewrite !length_app. cbn [length].
    unfold zlen in Hge. lia.
Qed.

Lemma Children_yields_Arity_witness :
  iterate 5 ex_nodes (Children 4) = [3; 0]
  /\ zlen (iterate 5 ex_nodes (Children 4)) = Arity (get ex_nodes 4)
  /\ Forall (fun j => 4 - Length (get ex_nodes 4) <= j < 4) (iterate 5 ex_nodes (Children 4)).
Proof.
  split; [reflexivity|].
  destruct (@Children_yields_Arity ex_nodes 4 5 ex_nodes_invariant) as (H1 & H2 & _).
  - split; [lia | reflexivity].
  - vm_compute. discriminate.
  - reflexivity.
  - split; [exact H1 | exact H2].
Defined.

(** *** [UpdateNodes] keeps the number of nodes *)

Lemma length_UpdateNodes_children (fuel : nat) (i : Z) (nodes : list Node)
    (it : SubtreeIterator) :
  length (UpdateNodes_children fuel i nodes it) = length nodes.
Proof.
  revert nodes it. induction fuel as [|k IH]; intros nodes it; cbn [UpdateNodes_children];
    [reflexivity|].
  destruct (HasNext nodes it); [|reflexivity].
  rewrite IH, !length_put. reflexivity.
Qed.

Lemma length_UpdateNodes_step (nodes : list Node) (i : nat) :
  length (UpdateNodes_step nodes i) = length nodes.
Proof.
  unfold UpdateNodes_step. destruct (IsLeaf _).
  - apply length_put.
  - rewrite length_put, length_UpdateNodes_children, length_put. reflexivity.
Qed.

Lemma length_fold_left_steps (step : list Node -> nat -> list Node) (l : list nat)
    (nodes : list Node) :
  (forall ns i, length (step ns i) = length ns) ->
  length (fold_left step l nodes) = length nodes.
Proof.
  intros Hstep. revert nodes. induction l as [|i l IH]; intros nodes; cbn [fold_left];
    [reflexivity|]. rewrite IH. apply Hstep.
Qed.

Lemma length_UpdateNodes (nodes : list Node) : length (UpdateNodes nodes) = length nodes.
Proof. apply length_fold_left_steps. apply length_UpdateNodes_step. Qed.

(** [Subtree(i)] has [Length(i)] nodes, whatever the tree. *)
Lemma length_Subtree (nodes : list Node) (i : Z) :
  0 <= Length (get nodes i) <= i -> i <= zlen nodes ->
  zlen (Subtree nodes i) = Length (get nodes i).
Proof.
  intros HL Hi. unfold Subtree, zlen, range in *.
  rewrite length_UpdateNodes, length_firstn, length_skipn. lia.
Qed.

(** C5, at the failing input: on the tree [x y z - +], whose root at
    index 4 has [Length] 4, [Subtree(4)] copies the four nodes of
    [0, 4) and leaves the root out: it returns the sequence [x y z -],
    not the five nodes of [0, 4] ending with node 4. *)
Theorem Subtree_leaves_out_the_root :
  subtree_range_invariant ex_nodes
  /\ Length (get ex_nodes 4) = 4
  /\ map HashValue (Subtree ex_nodes 4) = map HashValue [ex_x; ex_y; ex_z; ex_sub]
  /\ zlen (Subtree ex_nodes 4) = Length (get ex_nodes 4)
  /\ last (Subtree ex_nodes 4) default_node <> get ex_nodes 4.
Proof.
  split; [exact ex_nodes_invariant|]. split; [reflexivity|]. split; [reflexivity|].
  split; [reflexivity|]. discriminate.
Qed.

(** *** Sorting *)

Section Sorting.
Variable A : Type.
Variable lt : A -> A -> bool.

Local Notation le := (fun a b => lt b a = false).

Hypothesis lt_irrefl : forall a, lt a a = false.
Hypothesis lt_trans : forall a b c, lt a b = true -> lt b c = true -> lt a c = true.
Hypothesis lt_total : forall a b, lt a b = false -> lt b a = false -> a = b.

Lemma not_lt_trans (a b c : A) : lt b a = false -> lt c b = false -> lt c a = false.
Proof.
  intros Hab Hbc. destruct (lt c a) eqn:E; [|reflexivity].
  destruct (lt a b) eqn:Eab.
  - rewrite (lt_trans E Eab) in Hbc. discriminate.
  - pose proof (lt_total Eab Hab) as <-. congruence.
Qed.

Lemma insert_sorted_perm (x : A) (l : list A) : Permutation (insert_sorted lt x l) (x :: l).
Proof.
  induction l as [|y l IH]; cbn [insert_sorted]; [reflexivity|].
  destruct (lt y x); [|reflexivity].
  rewrite IH. apply perm_swap.
Qed.

Lemma stable_sort_perm (l : list A) : Permutation (stable_sort lt l) l.
Proof.
  induction l as [|x l IH]; cbn [stable_sort fold_right]; [reflexivity|].
  fold (stable_sort lt l). rewrite insert_sorted_perm. apply perm_skip. exact IH.
Qed.

Lemma insert_sorted_sorted (x : A) (l : list A) :
  StronglySorted le l -> StronglySorted le (insert_sorted lt x l).
Proof.
  induction 1 as [|y l Hl IH Hy]; cbn [insert_sorted].
  - repeat constructor.
  - destruct (lt y x) eqn:E.
    + constructor; [exact IH|].
      rewrite Forall_forall in Hy |- *. intros z Hz.
      apply (Permutation_in _ (insert_sorted_perm x l)) in Hz.
      destruct Hz as [<-|Hz]; [|auto].
      destruct (lt x y) eqn:E'; [|reflexivity].
      pose proof (lt_trans E' E) as F. rewrite lt_irrefl in F. discriminate.
    + constructor; [constructor; assumption|].
      constructor; [exact E|].
      rewrite Forall_forall in Hy |- *. intros z Hz.
      apply (@not_lt_trans x y z); auto.
Qed.

Lemma stable_sort_sorted (l : list A) : StronglySorted le (stable_sort lt l).
Proof.
  induction l as [|x l IH]; cbn [stable_sort fold_right]; [constructor|].
  apply insert_sorted_sorted. exact IH.
Qed.

(** Two sorted arrangements of the same elements are equal. *)
Lemma sorted_perm_eq (l1 l2 : list A) :
  StronglySorted le l1 -> StronglySorted le l2 -> Permutation l1 l2 -> l1 = l2.
Proof.
  intros H1. revert l2. induction H1 as [|x l1 Hl1 IH Hx]; intros l2 H2 Hp.
  - apply Permutation_nil in Hp. congruence.
  - destruct H2 as [|y l2 Hl2 Hy].
    + apply Permutation_sym, Permutation_nil in Hp. discriminate.
    + assert (E : x = y).
      { rewrite Forall_forall in Hx, Hy.
        assert (Hyin : In y (x :: l1)) by (apply (Permutation_in _ (Permutation_sym Hp)); left; reflexivity).
        assert (Hxin : In x (y :: l2)) by (apply (Permutation_in _ Hp); left; reflexivity).
        destruct Hyin as [E|Hyin]; [exact E|]. destruct Hxin as [E|Hxin]; [congruence|].
        apply lt_total; auto. }
      subst y. f_equal. apply IH; [exact Hl2|]. eapply Permutation_cons_inv. exact Hp.
Qed.

Lemma stable_sort_unique (l1 l2 : list A) :
  Permutation l1 l2 -> stable_sort lt l1 = stable_sort lt l2.
Proof.
  intros Hp. apply sorted_perm_eq; try apply stable_sort_sorted.
  rewrite !stable_sort_perm. exact Hp.
Qed.

End Sorting.

(** Sorting through a projection. *)
Lemma insert_sorted_map {A B} (f : A -> B) (lt : B -> B -> bool) (x : A) (l : list A) :
  map f (insert_sorted (fun a b => lt (f a) (f b)) x l) = insert_sorted lt (f x) (map f l).
Proof.
  induction l as [|y l IH]; cbn [insert_sorted map]; [reflexivity|].
  destruct (lt (f y) (f x)); cbn [map]; [rewrite IH|]; reflexivity.
Qed.

Lemma stable_sort_map {A B} (f : A -> B) (lt : B -> B -> bool) (l : list A) :
  map f (stable_sort (fun a b => lt (f a) (f b)) l) = stable_sort lt (map f l).
Proof.
  induction l as [|x l IH]; cbn [stable_sort fold_right map]; [reflexivity|].
  fold (stable_sort (fun a b => lt (f a) (f b)) l). fold (stable_sort lt (map f l)).
  rewrite insert_sorted_map, IH. reflexivity.
Qed.

Lemma key_lt_irrefl (a : Z * Z) : key_lt a a = false.
Proof. unfold key_lt. rewrite Z.eqb_refl. apply Z.ltb_irrefl. Qed.

Lemma key_lt_trans (a b c : Z * Z) :
  key_lt a b = true -> key_lt b c = true -> key_lt a c = true.
Proof.
  unfold key_lt. destruct a as [a1 a2], b as [b1 b2], c as [c1 c2]. cbn [fst snd].
  destruct (Z.eqb_spec a1 b1), (Z.eqb_spec b1 c1), (Z.eqb_spec a1 c1);
    rewrite ?Z.ltb_lt; lia.
Qed.

Lemma key_lt_total (a b : Z * Z) : key_lt a b = false -> key_lt b a = false -> a = b.
Proof.
  unfold key_lt. destruct a as [a1 a2], b as [b1 b2]. cbn [fst snd].
  destruct (Z.eqb_spec a1 b1), (Z.eqb_spec b1 a1); rewrite ?Z.ltb_ge; intros; f_equal; lia.
Qed.

Lemma node_lt_key (a b : Node) : node_lt a b = key_lt (key a) (key b).
Proof. reflexivity. Qed.

(** Sorting nodes by [operator<] sorts their keys. *)
Lemma sort_nodes_keys (l : list Node) :
  map key (stable_sort node_lt l) = stable_sort key_lt (map key l).
Proof. apply (stable_sort_map key key_lt). Qed.

Lemma sorted_hashes_perm (l1 l2 : list Node) :
  Permutation (map key l1) (map key l2) ->
  map CalculatedHashValue (stable_sort node_lt l1)
  = map CalculatedHashValue (stable_sort node_lt l2).
Proof.
  intros Hp.
  assert (E : map key (stable_sort node_lt l1) = map key (stable_sort node_lt l2)).
  { rewrite !sort_nodes_keys.
    apply stable_sort_unique;
      [exact key_lt_irrefl | exact key_lt_trans | exact key_lt_total | exact Hp]. }
  apply (f_equal (map snd)) in E. rewrite !map_map in E. exact E.
Qed.

(** Arithmetic on the lengths of concatenations. *)
Ltac lens :=
  unfold zlen in *;
  repeat (rewrite ?length_app, ?length_rev, ?length_map in *; cbn [length] in *);
  lia.

(** *** A loop over the array, seen on the trees *)

(** A loop [for (i = 0; i < nodes.size(); ++i)] whose round at a node
    rewrites only the subtree of that node, once its children are done,
    rewrites the array tree by tree. *)
Section Postorder.
Variable step : list Node -> nat -> list Node.
Variable R : rtree -> rtree -> Prop.
(** The bound on the size of the array that [step] relies on. *)
Variable limit : Z.

Hypothesis R_size : forall t t', R t t' -> length (flatten t') = length (flatten t).
Hypothesis step_root : forall pre post n cs cs',
  zlen (pre ++ flat cs' ++ n :: post) < limit ->
  rwf (RNode n cs) ->
  Forall2 R cs cs' ->
  exists t',
    step (pre ++ flat cs' ++ n :: post) (length pre + length (flat cs'))%nat
    = pre ++ flatten t' ++ post
    /\ R (RNode n cs) t'.

Lemma R_size_forest (ts ts' : list rtree) :
  Forall2 R ts ts' -> length (flat ts') = length (flat ts).
Proof.
  induction 1 as [|t t' ts ts' Ht _ IH]; [reflexivity|].
  rewrite !flat_cons, !length_app, IH, (R_size Ht). reflexivity.
Qed.

Local Notation done_tree := (done_tree step R limit).

Lemma postorder_forest (ts : list rtree) :
  Forall done_tree ts ->
  forall pre post,
    zlen (pre ++ flat ts ++ post) < limit ->
    exists ts',
      fold_left step (seq (length pre) (length (flat ts))) (pre ++ flat ts ++ post)
      = pre ++ flat ts' ++ post
      /\ Forall2 R ts ts'.
Proof.
  induction 1 as [|t ts Ht _ IH]; intros pre post Hsz.
  - exists []. split; [reflexivity | constructor].
  - rewrite flat_cons in Hsz |- *. rewrite length_app, seq_app, fold_left_app.
    rewrite <- app_assoc in Hsz |- *.
    destruct (Ht pre (flat ts ++ post) Hsz) as (t' & E1 & R1).
    rewrite E1.
    assert (Hlen : length (flatten t') = length (flatten t)) by (apply R_size; exact R1).
    destruct (IH (pre ++ flatten t') post) as (ts' & E2 & R2).
    { lens. }
    rewrite length_app, Hlen in E2. rewrite <- app_assoc in E2. rewrite E2.
    exists (t' :: ts'). split; [|constructor; assumption].
    rewrite flat_cons, <- !app_assoc. reflexivity.
Qed.

Lemma postorder_tree (t : rtree) : rwf t -> done_tree t.
Proof.
  induction t as [n cs IH] using rtree_induction. intros Hwf pre post Hsz.
  inversion Hwf as [n' cs' Har Hlen Hcs E]. subst n' cs'.
  assert (Hdone : Forall done_tree cs).
  { rewrite Forall_forall in IH, Hcs |- *. intros c Hc. apply IH; auto. }
  rewrite flatten_RNode in Hsz |- *. rewrite <- app_assoc in Hsz |- *. cbn [app] in Hsz |- *.
  destruct (postorder_forest Hdone pre (n :: post) Hsz) as (cs' & E1 & R1).
  rewrite length_app. cbn [length]. rewrite seq_app, fold_left_app, E1. cbn [seq fold_left].
  pose proof (R_size_forest R1) as Hsize.
  destruct (@step_root pre post n cs cs') as (t' & E2 & R2); trivial.
  { lens. }
  rewrite <- Hsize, E2. exists t'. auto.
Qed.

Lemma postorder (ts : list rtree) (pre post : list Node) :
  Forall rwf ts ->
  zlen (pre ++ flat ts ++ post) < limit ->
  exists ts',
    fold_left step (seq (length pre) (length (flat ts))) (pre ++ flat ts ++ post)
    = pre ++ flat ts' ++ post
    /\ Forall2 R ts ts'.
Proof.
  intros Hwf. apply postorder_forest.
  rewrite Forall_forall in Hwf |- *. intros t Ht. apply postorder_tree. auto.
Qed.

End Postorder.

(** *** [Tree::Hash] on the trees *)

Lemma get_roots (pre post : list Node) (ts : list rtree) :
  map (get (pre ++ flat ts ++ post)) (root_positions (zlen pre) ts) = map root ts.
Proof.
  revert pre. induction ts as [|t ts IH]; intros pre; [reflexivity|].
  cbn [root_positions map]. f_equal.
  - pose proof (get_root_position pre post [] ts t) as H.
    change (flat []) with (@nil Node) in H. change (zlen (@nil Node)) with 0 in H.
    rewrite Z.add_0_r in H. exact H.
  - specialize (IH (pre ++ flatten t)). rewrite zlen_app in IH.
    rewrite flat_cons.
    replace (pre ++ (flatten t ++ flat ts) ++ post)
      with ((pre ++ flatten t) ++ flat ts ++ post) by (rewrite <- !app_assoc; reflexivity).
    exact IH.
Qed.

Section HashFacts.
Variable hasher : list Z -> Z.
Variable hasher_leaf : Z -> Double.double -> Z.
Variable mode : HashMode.

Local Notation rhash := (rhash hasher hasher_leaf mode).
Local Notation Hash_step := (Hash_step hasher hasher_leaf mode).
Local Notation node_hash := (node_hash hasher hasher_leaf mode).

Lemma root_rhash (t : rtree) :
  root (rhash t)
  = set_CalculatedHashValue (root t) (node_hash (root t) (map root (map rhash (children t)))).
Proof. destruct t as [n cs]. reflexivity. Qed.

Lemma length_flatten_rhash (t : rtree) : length (flatten (rhash t)) = length (flatten t).
Proof.
  induction t as [n cs IH] using rtree_induction.
  cbn [TreeShape.rhash]. rewrite !flatten_RNode, !length_app. f_equal.
  induction IH as [|c cs Hc _ IHcs]; [reflexivity|].
  cbn [map]. rewrite !flat_cons, !length_app, Hc, IHcs. reflexivity.
Qed.

Lemma length_flat_rhash (ts : list rtree) : length (flat (map rhash ts)) = length (flat ts).
Proof.
  induction ts as [|t ts IH]; [reflexivity|].
  cbn [map]. rewrite !flat_cons, !length_app, length_flatten_rhash, IH. reflexivity.
Qed.

Lemma rwf_rhash (t : rtree) : rwf t -> rwf (rhash t).
Proof.
  induction t as [n cs IH] using rtree_induction. intros Hwf.
  inversion Hwf as [n' cs' Har Hlen Hcs E]. subst n' cs'.
  cbn [TreeShape.rhash]. constructor.
  - cbn. unfold zlen in *. rewrite length_map. exact Har.
  - cbn. unfold zlen in *. rewrite length_flat_rhash. exact Hlen.
  - rewrite Forall_forall in IH, Hcs |- *. intros c Hc.
    apply in_map_iff in Hc. destruct Hc as (c0 & <- & Hc0). apply IH; auto.
Qed.

(** One round of the loop of [Hash] at a node whose children are done. *)
Lemma Hash_step_root (pre post : list Node) (n : Node) (cs : list rtree) :
  zlen (pre ++ flat cs ++ n :: post) < size_max ->
  rwf (RNode n cs) ->
  Hash_step (pre ++ flat cs ++ n :: post) (length pre + length (flat cs))%nat
  = pre ++ flat cs ++ set_CalculatedHashValue n (node_hash n (map root cs)) :: post.
Proof.
  intros Hsz Hwf. inversion Hwf as [n' cs' Har Hlen Hcs E]. subst n' cs'.
  unfold Tree.Hash_step. cbv zeta.
  assert (Hi : Z.of_nat (length pre + length (flat cs)) = zlen (pre ++ flat cs)) by lens.
  rewrite Hi.
  assert (Hget : get (pre ++ flat cs ++ n :: post) (zlen (pre ++ flat cs)) = n).
  { rewrite app_assoc. apply get_app_mid. }
  rewrite Hget.
  assert (Hput : forall x, put (pre ++ flat cs ++ n :: post) (zlen (pre ++ flat cs)) x
                           = pre ++ flat cs ++ x :: post).
  { intros x. rewrite app_assoc, put_app_mid, <- app_assoc. reflexivity. }
  rewrite !Hput. unfold TreeShape.node_hash.
  destruct (IsLeaf n); [reflexivity|].
  assert (Hidx : firstn (Z.to_nat (Arity n))
                   (child_indices (pre ++ flat cs ++ n :: post) (zlen (pre ++ flat cs)))
                 = rev (root_positions (zlen pre) cs)).
  { unfold child_indices. rewrite zlen_app, child_indices_roots; trivial.
    - apply firstn_all2. rewrite length_rev, length_root_positions, Har. lens.
    - pose proof (zlen_flat_ge cs). lens. }
  rewrite Hidx.
  assert (Hroots : map (get (pre ++ flat cs ++ n :: post)) (rev (root_positions (zlen pre) cs))
                   = rev (map root cs)).
  { rewrite map_rev. f_equal. apply get_roots. }
  destruct (IsCommutative n).
  - rewrite <- Hroots, <- (stable_sort_map (get (pre ++ flat cs ++ n :: post)) node_lt).
    rewrite map_map. reflexivity.
  - rewrite <- Hroots, map_map. reflexivity.
Qed.

(** [Hash] rewrites the layout of well-formed trees into the layout of
    their hashed trees. *)
Lemma Hash_flat (ts : list rtree) :
  Forall rwf ts -> zlen (flat ts) < size_max ->
  Hash hasher hasher_leaf mode (flat ts) = flat (map rhash ts).
Proof.
  intros Hwf Hsz. unfold Hash.
  destruct (@postorder Hash_step (fun t t' => t' = rhash t) size_max) with (ts := ts)
    (pre := @nil Node) (post := @nil Node) as (ts' & E & HR); trivial.
  - intros t t' ->. apply length_flatten_rhash.
  - intros pre post n cs cs' Hsz' Hwf' HR.
    assert (Ecs : cs' = map rhash cs).
    { clear - HR. induction HR as [|c c' cs cs' Hc _ IH]; [reflexivity|].
      cbn [map]. rewrite Hc, IH. reflexivity. }
    subst cs'. exists (rhash (RNode n cs)). split; [|reflexivity].
    inversion Hwf' as [n' cs' Har Hlen Hcs E]. subst n' cs'.
    rewrite Hash_step_root; trivial.
    + cbn [TreeShape.rhash]. rewrite flatten_RNode, <- app_assoc. reflexivity.
    + constructor.
      * unfold zlen in *. rewrite length_map. exact Har.
      * unfold zlen in *. rewrite length_flat_rhash. exact Hlen.
      * rewrite Forall_forall in Hcs |- *. intros c Hc.
        apply in_map_iff in Hc. destruct Hc as (c0 & <- & Hc0). apply rwf_rhash; auto.
  - cbn [app]. rewrite app_nil_r. exact Hsz.
  - cbn [app length] in E. rewrite app_nil_r in E. rewrite E.
    assert (Ets : ts' = map rhash ts).
    { clear - HR. induction HR as [|c c' cs cs' Hc _ IH]; [reflexivity|].
      cbn [map]. rewrite Hc, IH. reflexivity. }
    rewrite Ets, app_nil_r. reflexivity.
Qed.

(** *** The hash does not see the order of commutative children *)

Lemma Forall2_map_eq {A B C} (f : A -> C) (g : B -> C) (l1 : list A) (l2 : list B) :
  Forall2 (fun a b => f a = g b) l1 l2 -> map f l1 = map g l2.
Proof. induction 1 as [|a b l1 l2 H _ IH]; cbn [map]; [reflexivity | rewrite H, IH; reflexivity]. Qed.

Lemma Forall2_perm_flat_map {A B C} (f : A -> list C) (g : B -> list C)
    (l1 : list A) (l2 : list B) :
  Forall2 (fun a b => Permutation (f a) (g b)) l1 l2 ->
  Permutation (flat_map f l1) (flat_map g l2).
Proof.
  induction 1 as [|a b l1 l2 H _ IH]; cbn [flat_map]; [reflexivity|].
  apply Permutation_app; assumption.
Qed.

Lemma map_flat {B} (f : Node -> B) (ts : list rtree) :
  map f (flat ts) = flat_map (fun t => map f (flatten t)) ts.
Proof.
  induction ts as [|t ts IH]; [reflexivity|].
  rewrite flat_cons, map_app, IH. reflexivity.
Qed.

Lemma same_node_hash (n n' : Node) (roots roots' : list Node) :
  same_node n n' ->
  (if IsCommutative n then Permutation (map key roots) (map key roots')
   else map key roots = map key roots') ->
  node_hash n roots = node_hash n' roots'.
Proof.
  intros (HK & HA & HL & HE & HH & HV) Hroots. unfold TreeShape.node_hash.
  unfold IsLeaf, IsCommutative in *. rewrite <- HK, <- HA, <- HH, <- HV.
  destruct (Arity n =? 0); [reflexivity|].
  f_equal. f_equal.
  destruct (match Kind n with Add | Mul => true | _ => false end).
  - apply sorted_hashes_perm. rewrite !map_rev.
    rewrite <- !Permutation_rev. exact Hroots.
  - apply (f_equal (map snd)) in Hroots. rewrite !map_map in Hroots.
    rewrite !map_rev. f_equal. exact Hroots.
Qed.

Lemma rhash_similar (t t' : rtree) :
  similar t t' ->
  key (root (rhash t)) = key (root (rhash t'))
  /\ Permutation (map hashed (flatten (rhash t)))
                 (map hashed (flatten (rhash t'))).
Proof.
  revert t'. induction t as [n cs IH] using rtree_induction. intros t' Hsim.
  inversion Hsim as [n0 n' cs0 ds cs' Hn Hcs Hperm E1 E2]. subst n0 cs0 t'.
  assert (HF : Forall2 (fun c d =>
                 key (root (rhash c)) = key (root (rhash d))
                 /\ Permutation (map hashed (flatten (rhash c)))
                                (map hashed (flatten (rhash d)))) cs ds).
  { clear - IH Hcs. induction Hcs as [|c d cs ds Hc _ IHcs]; constructor.
    - apply (Forall_inv IH). exact Hc.
    - apply IHcs. exact (Forall_inv_tail IH). }
  assert (Hkeys : map (fun c => key (root (rhash c))) cs = map (fun d => key (root (rhash d))) ds).
  { apply Forall2_map_eq. eapply Forall2_impl; [|exact HF]. cbn beta. tauto. }
  assert (Hall : Permutation
                   (flat_map (fun c => map hashed (flatten (rhash c))) cs)
                   (flat_map (fun d => map hashed (flatten (rhash d))) ds)).
  { apply Forall2_perm_flat_map. eapply Forall2_impl; [|exact HF]. cbn beta. tauto. }
  assert (Hroot : CalculatedHashValue (root (rhash (RNode n cs)))
                  = CalculatedHashValue (root (rhash (RNode n' cs')))).
  { cbn [TreeShape.rhash root]. cbn [CalculatedHashValue set_CalculatedHashValue].
    apply same_node_hash; [exact Hn|]. rewrite !map_map.
    destruct (IsCommutative n).
    - rewrite Hkeys. apply Permutation_map. exact Hperm.
    - rewrite Hkeys, Hperm. reflexivity. }
  split.
  - unfold key. rewrite Hroot. f_equal.
    destruct Hn as (_ & _ & _ & _ & HH & _). exact HH.
  - cbn [TreeShape.rhash]. rewrite !flatten_RNode, !map_app. apply Permutation_app.
    + rewrite !map_flat, !flat_map_concat_map, !map_map, <- !flat_map_concat_map.
      rewrite Hall. destruct (IsCommutative n).
      * apply Permutation_flat_map. exact Hperm.
      * rewrite Hperm. reflexivity.
    + cbn [map]. cbn [TreeShape.rhash root] in Hroot. unfold hashed.
      cbn [Kind HashValue Value set_CalculatedHashValue] in *.
      destruct Hn as (HK & _ & _ & _ & HH & HV).
      cbn [CalculatedHashValue] in *. rewrite Hroot, HK, HH, HV. reflexivity.
Qed.

End HashFacts.

(** *** Similar trees *)

Lemma length_flat_perm (ts ts' : list rtree) :
  Permutation ts ts' -> length (flat ts') = length (flat ts).
Proof.
  intros Hp. symmetry. apply Permutation_length. unfold flat.
  apply Permutation_flat_map. exact Hp.
Qed.

Lemma length_flat_Forall2 (P : rtree -> rtree -> Prop) (ts ts' : list rtree) :
  Forall2 (fun t t' => P t t' /\ length (flatten t') = length (flatten t)) ts ts' ->
  length (flat ts') = length (flat ts).
Proof.
  induction 1 as [|t t' ts ts' (_ & H) _ IH]; [reflexivity|].
  rewrite !flat_cons, !length_app, H, IH. reflexivity.
Qed.

Lemma similar_size (t t' : rtree) : similar t t' -> length (flatten t') = length (flatten t).
Proof.
  revert t'. induction t as [n cs IH] using rtree_induction. intros t' Hsim.
  inversion Hsim as [n0 n' cs0 ds cs' Hn Hcs Hperm E1 E2]. subst n0 cs0 t'.
  rewrite !flatten_RNode, !length_app. f_equal.
  assert (Hds : length (flat ds) = length (flat cs)).
  { apply (@length_flat_Forall2 similar).
    clear - IH Hcs. induction Hcs as [|c d cs ds Hc _ IHcs]; constructor.
    - split; [exact Hc|]. apply (Forall_inv IH). exact Hc.
    - apply IHcs. exact (Forall_inv_tail IH). }
  rewrite <- Hds. destruct (IsCommutative n).
  - apply length_flat_perm. exact Hperm.
  - rewrite Hperm. reflexivity.
Qed.

Lemma same_node_refl (n : Node) : same_node n n.
Proof. repeat split. Qed.

Lemma similar_refl (t : rtree) : similar t t.
Proof.
  induction t as [n cs IH] using rtree_induction.
  apply similar_node with (ds := cs).
  - apply same_node_refl.
  - induction IH; constructor; auto.
  - destruct (IsCommutative n); reflexivity.
Qed.

Lemma Forall2_similar_refl (ts : list rtree) : Forall2 similar ts ts.
Proof. induction ts; constructor; auto using similar_refl. Qed.

(** A processed node over processed children is similar to the node it
    came from. *)
Lemma similar_rebuild (n n' : Node) (cs cs' cs'' : list rtree) :
  same_node n n' ->
  Forall2 similar cs cs' ->
  (if IsCommutative n then Permutation cs' cs'' else cs' = cs'') ->
  similar (RNode n cs) (RNode n' cs'').
Proof. intros. eapply similar_node; eassumption. Qed.

(** Well-formedness of a node over children rearranged or replaced by
    well-formed trees of the same sizes. *)
Lemma rwf_rebuild (n n' : Node) (cs cs' : list rtree) :
  rwf (RNode n cs) ->
  same_node n n' ->
  length cs' = length cs -> length (flat cs') = length (flat cs) -> Forall rwf cs' ->
  rwf (RNode n' cs').
Proof.
  intros Hwf (_ & HA & HL & _) H1 H2 H3.
  inversion Hwf as [n0 cs0 Har Hlen Hcs E]. subst n0 cs0.
  constructor; trivial; unfold zlen in *; congruence.
Qed.

(** *** Pieces of an array *)

Lemma range_app_mid (pre x post : list Node) :
  range (pre ++ x ++ post) (zlen pre) (zlen x) = x.
Proof.
  unfold range, zlen. rewrite !Nat2Z.id.
  rewrite skipn_app, skipn_all, Nat.sub_diag. cbn [app skipn].
  rewrite firstn_app, firstn_all, Nat.sub_diag. cbn [firstn]. apply app_nil_r.
Qed.

Lemma copy_to_app_mid (pre x post src : list Node) :
  length src = length x ->
  copy_to (pre ++ x ++ post) (zlen pre) src = pre ++ src ++ post.
Proof.
  intros Hlen. unfold copy_to, zlen. rewrite !Nat2Z.id.
  rewrite firstn_app, firstn_all, Nat.sub_diag. cbn [firstn]. rewrite app_nil_r.
  f_equal. f_equal. rewrite Hlen.
  rewrite skipn_app, skipn_all2 by lia.
  replace (length pre + length x - length pre)%nat with (length x) by lia.
  rewrite skipn_app, skipn_all, Nat.sub_diag. reflexivity.
Qed.

(** A forest whose trees are as many as its nodes is a row of leaves. *)
Lemma all_leaves (ts : list rtree) :
  length ts = length (flat ts) -> ts = map (fun m => RNode m []) (flat ts).
Proof.
  induction ts as [|[m ds] ts IH]; intros Hlen; [reflexivity|].
  rewrite flat_cons, flatten_RNode in Hlen |- *.
  pose proof (zlen_flat_ge ts) as H1. pose proof (zlen_flat_ge ds) as H2.
  assert (Hds : ds = []).
  { destruct ds as [|d ds]; [reflexivity|]. exfalso. lens. }
  subst ds. change (flat []) with (@nil Node) in *. cbn [app map] in *.
  f_equal. apply IH. lens.
Qed.

Lemma flat_leaves (l : list Node) : flat (map (fun m => RNode m []) l) = l.
Proof. induction l as [|m l IH]; [reflexivity|]. cbn [map]. rewrite flat_cons, IH. reflexivity. Qed.

Lemma to_int_small (j : Z) : 0 <= j <= int_max -> to_int j = j.
Proof.
  unfold int_max, to_int. intros H.
  rewrite Z.mod_small; lia.
Qed.

Lemma of_int_small (j : Z) : 0 <= j <= int_max -> of_int j = j.
Proof.
  unfold of_int. intros H. apply wrap_small.
  unfold int_max, size_max in *. lia.
Qed.

Lemma map_to_int_small (l : list Z) :
  Forall (fun j => 0 <= j <= int_max) l -> map to_int l = l.
Proof.
  induction 1 as [|j l Hj _ IH]; [reflexivity|].
  cbn [map]. rewrite IH, (to_int_small Hj). reflexivity.
Qed.

Lemma extract_roots (pre post : list Node) (ts : list rtree) :
  Forall rwf ts ->
  zlen (pre ++ flat ts) <= int_max ->
  Forall2 (fun j t => extract (pre ++ flat ts ++ post) j = flatten t)
          (root_positions (zlen pre) ts) ts.
Proof.
  intros Hwf. revert pre. induction Hwf as [|t ts Ht _ IH]; intros pre Hsz; [constructor|].
  cbn [root_positions]. constructor.
  - unfold extract. cbv zeta.
    rewrite of_int_small.
    2:{ pose proof (zlen_nonneg pre). pose proof (zlen_flatten_pos t).
        pose proof (zlen_nonneg (flat ts)).
        rewrite flat_cons, !zlen_app in Hsz. lia. }
    pose proof (get_root_position pre post [] ts t) as Hget.
    change (flat []) with (@nil Node) in Hget. change (zlen (@nil Node)) with 0 in Hget.
    rewrite Z.add_0_r in Hget. cbn [app] in Hget. rewrite Hget.
    destruct Ht as [m ds Har Hlen Hds]. cbn [root]. rewrite Hlen.
    rewrite zlen_flatten_RNode.
    replace (zlen pre + (zlen (flat ds) + 1) - 1 - zlen (flat ds)) with (zlen pre) by lia.
    rewrite <- zlen_flatten_RNode with (n := m).
    rewrite flat_cons, <- app_assoc. apply range_app_mid.
  - specialize (IH (pre ++ flatten t)). rewrite !zlen_app in IH.
    rewrite flat_cons.
    replace (pre ++ (flatten t ++ flat ts) ++ post)
      with ((pre ++ flatten t) ++ flat ts ++ post) by (rewrite <- !app_assoc; reflexivity).
    apply IH. rewrite flat_cons, !zlen_app in Hsz. lia.
Qed.

Lemma flat_map_Forall2 {A} (f : A -> list Node) (l : list A) (ts : list rtree) :
  Forall2 (fun j t => f j = flatten t) l ts -> flat_map f l = flat ts.
Proof.
  induction 1 as [|j t l ts H _ IH]; [reflexivity|].
  cbn [flat_map]. rewrite flat_cons, H, IH. reflexivity.
Qed.

(** *** [Tree::Sort] on the trees *)

Section SortFacts.
Variable xxhash : list Z -> Z.
Variable xxhash_value : Double.double -> Z.
Variable std_sort : forall A : Type, (A -> A -> bool) -> list A -> list A.
Variable strict : bool.

(** What [std::sort] is known to do: it rearranges. *)
Hypothesis std_sort_perm :
  forall (A : Type) (lt : A -> A -> bool) (l : list A), Permutation (std_sort lt l) l.

Local Notation Sort_step := (Sort_step xxhash xxhash_value std_sort strict).

Lemma set_same_hash (n : Node) : set_CalculatedHashValue n (CalculatedHashValue n) = n.
Proof. destruct n. reflexivity. Qed.

(** One round of the loop of [Sort] at a node whose children are done:
    the children are rearranged if the node is commutative, and the
    node gets a hash. *)
Lemma Sort_step_root (pre post : list Node) (n : Node) (cs : list rtree) :
  zlen (pre ++ flat cs ++ n :: post) <= int_max ->
  rwf (RNode n cs) ->
  exists (h : Z) (cs' : list rtree),
    Sort_step (pre ++ flat cs ++ n :: post) (length pre + length (flat cs))%nat
    = pre ++ flat cs' ++ set_CalculatedHashValue n h :: post
    /\ (if IsCommutative n then Permutation cs cs' else cs = cs').
Proof.
  intros Hsz Hwf. inversion Hwf as [n' cs0 Har Hlen Hcs E]. subst n' cs0.
  unfold Tree.Sort_step. cbv zeta.
  assert (Hi : Z.of_nat (length pre + length (flat cs)) = zlen (pre ++ flat cs)) by lens.
  rewrite Hi.
  assert (Hget : forall cs', length (flat cs') = length (flat cs) ->
            get (pre ++ flat cs' ++ n :: post) (zlen (pre ++ flat cs)) = n).
  { intros cs' Hl. replace (zlen (pre ++ flat cs)) with (zlen (pre ++ flat cs')) by lens.
    rewrite app_assoc. apply get_app_mid. }
  assert (Hput : forall cs' x, length (flat cs') = length (flat cs) ->
            put (pre ++ flat cs' ++ n :: post) (zlen (pre ++ flat cs)) x
            = pre ++ flat cs' ++ x :: post).
  { intros cs' x Hl. replace (zlen (pre ++ flat cs)) with (zlen (pre ++ flat cs')) by lens.
    rewrite app_assoc, put_app_mid, <- app_assoc. reflexivity. }
  rewrite !(Hget cs eq_refl).
  destruct (IsConstant n).
  { exists (CalculatedHashValue n), cs. rewrite set_same_hash.
    split; [reflexivity | destruct (IsCommutative n); reflexivity]. }
  destruct (IsVariable n).
  { eexists _, cs. rewrite (Hput cs _ eq_refl).
    split; [reflexivity | destruct (IsCommutative n); reflexivity]. }
  assert (Hbegin : zlen (pre ++ flat cs) - Length n = zlen pre) by (rewrite Hlen; lens).
  rewrite !Hbegin.
  set (A := pre ++ flat cs ++ n :: post) in *.
  destruct (IsCommutative n).
  - assert (Hsorted : exists cs', Permutation cs cs' /\
              (if Arity n =? Length n
               then copy_to A (zlen pre) (std_sort node_lt (range A (zlen pre) (Length n)))
               else copy_to A (zlen pre)
                      (flat_map (extract A)
                         (std_sort (fun a b => node_lt (get A (of_int a)) (get A (of_int b)))
                                   (map to_int (child_indices A (zlen (pre ++ flat cs)))))))
              = pre ++ flat cs' ++ n :: post).
    { destruct (Z.eqb_spec (Arity n) (Length n)) as [Eq|Neq].
      - assert (Hleaves : cs = map (fun m => RNode m []) (flat cs)).
        { apply all_leaves. lens. }
        rewrite Hlen. unfold A. rewrite range_app_mid.
        exists (map (fun m => RNode m []) (std_sort node_lt (flat cs))). split.
        + rewrite Hleaves at 1. apply Permutation_map. symmetry. apply std_sort_perm.
        + rewrite flat_leaves. apply copy_to_app_mid.
          apply Permutation_length. apply std_sort_perm.
      - assert (Hidx : child_indices A (zlen (pre ++ flat cs))
                       = rev (root_positions (zlen pre) cs)).
        { unfold child_indices, A. rewrite zlen_app. apply child_indices_roots; trivial.
          - fold A. unfold int_max, size_max in *. lia.
          - pose proof (zlen_flat_ge cs). lens. }
        assert (Hfit : zlen (pre ++ flat cs) <= int_max).
        { pose proof (zlen_nonneg post). unfold A in Hsz.
          rewrite app_assoc, zlen_app, zlen_cons in Hsz. lia. }
        rewrite Hidx, map_to_int_small.
        2:{ apply Forall_rev. eapply Forall_impl; [|apply root_positions_bounds].
            cbn beta. intros j Hj. pose proof (zlen_nonneg pre).
            rewrite zlen_app in Hfit. lia. }
        set (sorted := std_sort (fun a b => node_lt (get A (of_int a)) (get A (of_int b)))
                                (rev (root_positions (zlen pre) cs))).
        assert (Hp : Permutation (root_positions (zlen pre) cs) sorted).
        { subst sorted. rewrite std_sort_perm. apply Permutation_rev. }
        destruct (Permutation_Forall2 Hp (extract_roots pre (n :: post) Hcs Hfit))
          as (cs' & Hp' & HF).
        exists cs'. split; [exact Hp'|].
        fold A in HF. rewrite (flat_map_Forall2 _ HF).
        unfold A. apply copy_to_app_mid. apply length_flat_perm. exact Hp'. }
    destruct Hsorted as (cs' & Hp & ->).
    assert (Hl : length (flat cs') = length (flat cs)) by (apply length_flat_perm; exact Hp).
    rewrite !(Hget cs' Hl), (Hput cs' _ Hl).
    eexists _, cs'. split; [reflexivity | exact Hp].
  - unfold A. rewrite !(Hget cs eq_refl), (Hput cs _ eq_refl).
    eexists _, cs. split; reflexivity.
Qed.

End SortFacts.

(** *** [Tree::UpdateNodes] on the trees *)

Ltac list_eq := repeat rewrite <- app_assoc; cbn [app]; reflexivity.

Lemma get_at (A l1 l2 : list Node) (x : Node) (i : Z) :
  A = l1 ++ x :: l2 -> i = zlen l1 -> get A i = x.
Proof. intros -> ->. apply get_app_mid. Qed.

Lemma put_at (A l1 l2 : list Node) (x y : Node) (i : Z) :
  A = l1 ++ x :: l2 -> i = zlen l1 -> put A i y = l1 ++ y :: l2.
Proof. intros -> ->. apply put_app_mid. Qed.

Lemma flatten_adopt (i : Z) (c : rtree) :
  flatten (adopt i c) = flat (children c) ++ [set_Parent (root c) i].
Proof. destruct c. reflexivity. Qed.

Lemma length_flatten_adopt (i : Z) (c : rtree) :
  length (flatten (adopt i c)) = length (flatten c).
Proof. destruct c as [m ds]. unfold adopt. cbn [root children]. rewrite !flatten_RNode. lens. Qed.

Lemma length_flat_adopt (i : Z) (ts : list rtree) :
  length (flat (map (adopt i) ts)) = length (flat ts).
Proof.
  induction ts as [|t ts IH]; [reflexivity|].
  cbn [map]. rewrite !flat_cons, !length_app, length_flatten_adopt, IH. reflexivity.
Qed.

Lemma zlen_flat_adopt (i : Z) (ts : list rtree) :
  zlen (flat (map (adopt i) ts)) = zlen (flat ts).
Proof. unfold zlen. rewrite length_flat_adopt. reflexivity. Qed.

(** The inner loop of [UpdateNodes], with the cursor on the last of the
    children [left] still to visit: it visits them all, adds their
    lengths to the parent's and records the parent in each. *)
Lemma UpdateNodes_children_spec (pre post : list Node) (left : list rtree) :
  Forall rwf left ->
  forall (done : list rtree) (s : Node) (fuel : nat),
  let i := zlen pre + zlen (flat left) + zlen (flat done) in
  zlen (pre ++ flat left ++ flat done ++ s :: post) < size_max ->
  Length s = zlen left + zlen (flat done) ->
  (length left <= fuel)%nat ->
  exists s',
    UpdateNodes_children fuel i (pre ++ flat left ++ flat done ++ s :: post)
                         (mkIt i (wrap (zlen pre + zlen (flat left) - 1)))
    = pre ++ flat (map (adopt i) left) ++ flat done ++ s' :: post
    /\ Length s' = zlen (flat left) + zlen (flat done)
    /\ same_but_Length_Depth s s'.
Proof.
  intros Hwf. induction left as [|c left IH] using rev_ind;
    intros done s fuel i Hsz HL Hfuel.
  - exists s. change (flat []) with (@nil Node) in *. change (zlen (@nil Node)) with 0 in *.
    change (zlen (@nil rtree)) with 0 in *. cbn [map app] in *.
    split; [|split; [lia | repeat split]].
    destruct fuel as [|k]; [reflexivity|]. cbn [UpdateNodes_children].
    replace (HasNext _ _) with false; [reflexivity|].
    symmetry. unfold HasNext. cbn [index_ parentIndex_].
    assert (Hs : get (pre ++ flat done ++ s :: post) i = s).
    { apply get_at with (l1 := pre ++ flat done) (l2 := post); [list_eq | subst i; lens]. }
    rewrite Hs, HL.
    pose proof (zlen_nonneg pre). pose proof (zlen_nonneg (flat done)).
    assert (Hsz' : zlen pre + zlen (flat done) < size_max) by lens.
    rewrite (@wrap_small (i - (0 + zlen (flat done)))) by (subst i; lia).
    destruct (Z.eq_dec (zlen pre) 0) as [E|E].
    + rewrite E. cbn [Z.add Z.sub Z.opp Z.pos_sub]. rewrite wrap_minus_one.
      replace (size_max - 1 <? i) with false; [reflexivity|].
      symmetry. apply Z.ltb_ge. subst i. lia.
    + rewrite wrap_small by lia.
      replace (i - (0 + zlen (flat done)) <=? zlen pre + 0 - 1) with false;
        [apply andb_false_r|].
      symmetry. apply Z.leb_gt. subst i. lia.
  - apply Forall_app in Hwf. destruct Hwf as (Hleft & Hc). apply Forall_inv in Hc.
    destruct c as [m ds]. inversion Hc as [m0 ds0 Har Hlen Hds E]. subst m0 ds0.
    rewrite length_app in Hfuel. cbn [length] in Hfuel.
    destruct fuel as [|k]; [lia|].
    assert (Hflat : flat (left ++ [RNode m ds]) = flat left ++ flat ds ++ [m]).
    { rewrite flat_app. unfold flat at 2. cbn [flat_map]. rewrite app_nil_r. reflexivity. }
    pose proof (zlen_nonneg pre). pose proof (zlen_nonneg (flat left)).
    pose proof (zlen_nonneg (flat ds)). pose proof (zlen_nonneg (flat done)).
    pose proof (zlen_nonneg post). pose proof (zlen_flat_ge left).
    pose proof (zlen_nonneg left).
    assert (Hzl : zlen (flat (left ++ [RNode m ds])) = zlen (flat left) + zlen (flat ds) + 1)
      by (rewrite Hflat; lens).
    assert (Hzc : zlen (left ++ [RNode m ds]) = zlen left + 1) by lens.
    assert (Hsz' : i + 1 + zlen post < size_max) by (subst i; rewrite Hflat in Hsz; lens).
    set (A := pre ++ flat (left ++ [RNode m ds]) ++ flat done ++ s :: post) in *.
    set (idx := zlen pre + zlen (flat left) + zlen (flat ds)).
    assert (HA : A = (pre ++ flat left ++ flat ds) ++ m :: (flat done ++ s :: post)).
    { unfold A. rewrite Hflat. list_eq. }
    assert (HA' : A = (pre ++ flat (left ++ [RNode m ds]) ++ flat done) ++ s :: post).
    { unfold A. list_eq. }
    assert (Hgi : get A i = s) by (eapply get_at; [exact HA' | subst i; lens]).
    assert (Hgx : get A idx = m) by (eapply get_at; [exact HA | subst idx; lens]).
    cbn [UpdateNodes_children]. unfold HasNext, Index. cbn [index_ parentIndex_].
    rewrite Hgi, HL, Hzl, Hzc.
    replace (zlen pre + (zlen (flat left) + zlen (flat ds) + 1) - 1) with idx by (subst idx; lia).
    rewrite (@wrap_small idx) by (subst idx i; lia).
    rewrite (@wrap_small (i - _)) by (subst i; lia).
    replace (idx <? i) with true by (symmetry; apply Z.ltb_lt; subst idx i; lia).
    replace (i - (zlen left + 1 + zlen (flat done)) <=? idx) with true
      by (symmetry; apply Z.leb_le; subst idx i; lia).
    cbn [andb]. rewrite Hgx.
    set (s1 := set_Length s (zlen left + 1 + zlen (flat done) + Length m)).
    set (s2 := if Depth s1 <? Depth m then set_Depth s1 (Depth m) else s1).
    assert (Hp1 : put A i s2
                  = (pre ++ flat left ++ flat ds) ++ m :: (flat done ++ s2 :: post)).
    { erewrite put_at; [| exact HA' | subst i; lens]. rewrite Hflat. list_eq. }
    rewrite Hp1.
    assert (Eidx : idx = zlen (pre ++ flat left ++ flat ds)) by (subst idx; lens).
    clearbody idx. subst idx. rewrite get_app_mid, put_app_mid.
    unfold incr. cbn [index_ parentIndex_].
    rewrite get_app_mid.
    cbn [Length set_Parent]. rewrite Hlen.
    replace (zlen (pre ++ flat left ++ flat ds) - (zlen (flat ds) + 1))
      with (zlen pre + zlen (flat left) - 1) by lens.
    assert (Harr : (pre ++ flat left ++ flat ds) ++ set_Parent m i :: flat done ++ s2 :: post
                   = pre ++ flat left ++ flat (adopt i (RNode m ds) :: done) ++ s2 :: post).
    { rewrite flat_cons, flatten_adopt. cbn [root children]. list_eq. }
    rewrite Harr.
    assert (Hzad : zlen (flat (adopt i (RNode m ds) :: done))
                   = zlen (flat ds) + 1 + zlen (flat done)).
    { rewrite flat_cons, flatten_adopt. cbn [root children]. lens. }
    assert (Hi' : i = zlen pre + zlen (flat left) + zlen (flat (adopt i (RNode m ds) :: done))).
    { rewrite Hzad. subst i. lia. }
    destruct (IH Hleft (adopt i (RNode m ds) :: done) s2 k) as (s' & E1 & E2 & E3).
    + rewrite <- Harr. lens.
    + assert (HL2 : Length s2 = zlen left + 1 + zlen (flat done) + Length m).
      { subst s2 s1. destruct (_ <? _); reflexivity. }
      rewrite HL2, Hlen, Hzad. lia.
    + lia.
    + cbv zeta in E1. rewrite <- Hi' in E1. exists s'. split; [|split].
      * rewrite E1. rewrite map_app, flat_app. cbn [map].
        rewrite !flat_cons. change (flat []) with (@nil Node). rewrite app_nil_r. list_eq.
      * rewrite E2, Hzad. lia.
      * destruct E3 as (K1 & K2 & K3 & K4 & K5 & K6 & K7).
        assert (Hs2 : same_but_Length_Depth s s2).
        { subst s2 s1. destruct (_ <? _); repeat split. }
        destruct Hs2 as (J1 & J2 & J3 & J4 & J5 & J6 & J7).
        repeat split; congruence.
Qed.

Lemma rwf_adopt (i : Z) (c : rtree) : rwf c -> rwf (adopt i c).
Proof. intros H. destruct H as [n cs H1 H2 H3]. constructor; assumption. Qed.

Lemma similar_adopt (i : Z) (t t' : rtree) : similar t t' -> similar t (adopt i t').
Proof.
  intros H. destruct H as [n n' cs ds cs' Hn Hcs Hp]. unfold adopt. cbn [root children].
  apply similar_node with (ds := ds); trivial.
Qed.

(** One round of the loop of [UpdateNodes] at a node whose children are
    done: [Length] is recomputed from [Arity] and the children, which
    get their [Parent]. *)
Lemma UpdateNodes_step_root (pre post : list Node) (n : Node) (cs : list rtree) :
  zlen (pre ++ flat cs ++ n :: post) < size_max ->
  Arity n = zlen cs ->
  Forall rwf cs ->
  exists n',
    UpdateNodes_step (pre ++ flat cs ++ n :: post) (length pre + length (flat cs))%nat
    = pre ++ flat (map (adopt (zlen pre + zlen (flat cs))) cs) ++ n' :: post
    /\ Length n' = zlen (flat cs)
    /\ same_but_Length_Depth n n'.
Proof.
  intros Hsz Har Hwf. unfold UpdateNodes_step.
  replace (Z.of_nat (length pre + length (flat cs))) with (zlen pre + zlen (flat cs)) by lens.
  set (iz := zlen pre + zlen (flat cs)).
  set (A := pre ++ flat cs ++ n :: post) in *.
  assert (HA : A = (pre ++ flat cs) ++ n :: post) by (unfold A; list_eq).
  assert (Hg : get A iz = n) by (eapply get_at; [exact HA | subst iz; lens]).
  rewrite Hg. unfold IsLeaf. cbn [Arity set_Length set_Depth].
  destruct (Arity n =? 0) eqn:E.
  - apply Z.eqb_eq in E. rewrite E in Har.
    assert (cs = []) by (destruct cs; [reflexivity | unfold zlen in Har; cbn [length] in Har; lia]).
    subst cs. cbn [map]. eexists. split; [|split].
    + erewrite put_at; [| exact HA | subst iz; lens]. list_eq.
    + reflexivity.
    + repeat split. cbn [Arity set_Arity set_Length set_Depth]. exact E.
  - set (s := set_Length (set_Depth n 1) (Arity n)).
    assert (Hp : put A iz s = pre ++ flat cs ++ flat [] ++ s :: post).
    { erewrite put_at; [| exact HA | subst iz; lens]. list_eq. }
    rewrite Hp.
    assert (Hiz : iz = zlen pre + zlen (flat cs) + zlen (flat [])).
    { change (flat []) with (@nil Node). change (zlen (@nil Node)) with 0. subst iz. lia. }
    destruct (@UpdateNodes_children_spec pre post cs Hwf [] s
                (length (pre ++ flat cs ++ flat [] ++ s :: post))) as (s' & E1 & E2 & E3).
    + change (flat []) with (@nil Node). cbn [app]. subst A. lens.
    + change (flat []) with (@nil Node). change (zlen (@nil Node)) with 0.
      subst s. cbn [Length set_Length]. lia.
    + pose proof (zlen_flat_ge cs). lens.
    + cbv zeta in E1. rewrite <- Hiz in E1.
      unfold Children. replace (iz - 1) with (zlen pre + zlen (flat cs) - 1) by (subst iz; lia).
      rewrite E1. change (flat []) with (@nil Node) in *. cbn [app] in *.
      change (zlen (@nil Node)) with 0 in E2.
      assert (Hiz' : iz = zlen (pre ++ flat (map (adopt iz) cs))).
      { rewrite zlen_app, zlen_flat_adopt. reflexivity. }
      assert (HB : pre ++ flat (map (adopt iz) cs) ++ s' :: post
                   = (pre ++ flat (map (adopt iz) cs)) ++ s' :: post) by list_eq.
      rewrite HB.
      rewrite (@get_at _ (pre ++ flat (map (adopt iz) cs)) post s' iz eq_refl Hiz').
      rewrite (@put_at _ (pre ++ flat (map (adopt iz) cs)) post s' _ iz eq_refl Hiz').
      eexists. split; [list_eq|]. split.
      * cbn [Length set_Depth]. lia.
      * destruct E3 as (K1 & K2 & K3 & K4 & K5 & K6 & K7).
        repeat split; cbn [Kind Arity Parent IsEnabled HashValue CalculatedHashValue Value
                           set_Depth]; rewrite <- ?K1, <- ?K2, <- ?K3, <- ?K4, <- ?K5,
                                         <- ?K6, <- ?K7; reflexivity.
Qed.

Lemma rearranged_size (t t' : rtree) :
  rearranged t t' -> length (flatten t') = length (flatten t).
Proof. intros (H & _). apply similar_size. exact H. Qed.

Lemma rearranged_children (cs cs' : list rtree) :
  Forall2 rearranged cs cs' ->
  Forall2 similar cs cs' /\ Forall rwf cs' /\ length cs' = length cs
  /\ length (flat cs') = length (flat cs).
Proof.
  induction 1 as [|c c' cs cs' (H1 & H2) _ (IH1 & IH2 & IH3 & IH4)].
  - repeat split; constructor.
  - repeat split; try (constructor; assumption).
    + cbn [length]. rewrite IH3. reflexivity.
    + rewrite !flat_cons, !length_app, IH4, (similar_size H1). reflexivity.
Qed.

(** [UpdateNodes] keeps a forest of well-formed trees as it is, up to the
    fields [same_node] ignores. *)
Lemma UpdateNodes_flat (ts : list rtree) :
  Forall rwf ts -> zlen (flat ts) < size_max ->
  exists ts', UpdateNodes (flat ts) = flat ts' /\ Forall2 rearranged ts ts'.
Proof.
  intros Hwf Hsz. unfold UpdateNodes.
  destruct (@postorder UpdateNodes_step rearranged size_max) with (ts := ts)
    (pre := @nil Node) (post := @nil Node) as (ts' & E & HR); trivial.
  - apply rearranged_size.
  - intros pre post n cs cs' Hsz' Hwf' HR.
    destruct (rearranged_children HR) as (Hsim & Hwfs & Hl & Hfl).
    inversion Hwf' as [n0 cs0 Har Hlen Hcs E]. subst n0 cs0.
    destruct (@UpdateNodes_step_root pre post n cs') as (n' & E1 & E2 & E3); trivial.
    { rewrite Har. unfold zlen. rewrite Hl. reflexivity. }
    set (iz := zlen pre + zlen (flat cs')) in *.
    clearbody iz.
    exists (RNode n' (map (adopt iz) cs')). split; [rewrite E1, flatten_RNode; list_eq|].
    destruct E3 as (K1 & K2 & K3 & K4 & K5 & K6 & K7).
    assert (Hsame : same_node n n').
    { repeat split; trivial. rewrite E2, Hlen. unfold zlen. rewrite Hfl. reflexivity. }
    split.
    + apply similar_node with (ds := map (adopt iz) cs'); trivial.
      * clear - Hsim. induction Hsim as [|c c' cs cs' Hc _ IH]; cbn [map]; constructor;
          [apply similar_adopt; exact Hc | exact IH].
      * destruct (IsCommutative n); reflexivity.
    + constructor.
      * rewrite <- K2, Har. unfold zlen. rewrite length_map, Hl. reflexivity.
      * rewrite E2, zlen_flat_adopt. reflexivity.
      * clear - Hwfs. induction Hwfs as [|c cs Hc _ IH]; cbn [map]; constructor;
          [apply rwf_adopt; exact Hc | exact IH].
  - rewrite app_nil_r. exact Hsz.
  - cbn [app length] in E. rewrite !app_nil_r in E. exists ts'. split; assumption.
Qed.

(** *** [Tree::Sort] and [Tree::Hash] *)

Lemma last_app_right {A} (l l' : list A) (d : A) :
  l' <> [] -> last (l ++ l') d = last l' d.
Proof.
  intros Hne. induction l as [|a l IH]; [reflexivity|].
  cbn [app last]. destruct (l ++ l') eqn:E; [|exact IH].
  apply app_eq_nil in E. destruct E as (_ & E). contradiction.
Qed.

Lemma Tree_HashValue_nonempty (l : list Node) :
  l <> [] -> Tree_HashValue l = CalculatedHashValue (last l default_node).
Proof. destruct l; [contradiction | reflexivity]. Qed.

Lemma flat_cons_nonempty (t : rtree) (ts : list rtree) : flat (t :: ts) <> [].
Proof.
  destruct t as [n cs]. rewrite flat_cons, flatten_RNode.
  destruct (flat cs); discriminate.
Qed.

Lemma Tree_HashValue_flat_cons (t : rtree) (ts : list rtree) :
  Tree_HashValue (flat (t :: ts))
  = match ts with
    | [] => CalculatedHashValue (root t)
    | _ => Tree_HashValue (flat ts)
    end.
Proof.
  rewrite (Tree_HashValue_nonempty (@flat_cons_nonempty t ts)).
  destruct ts as [|t' ts].
  - destruct t as [n cs]. rewrite flat_cons, flatten_RNode.
    change (flat []) with (@nil Node). rewrite app_nil_r, last_last. reflexivity.
  - rewrite (Tree_HashValue_nonempty (@flat_cons_nonempty t' ts)).
    rewrite (flat_cons t). f_equal. apply last_app_right. apply flat_cons_nonempty.
Qed.

Section SortInvariance.
Variable hasher : list Z -> Z.
Variable hasher_leaf : Z -> Double.double -> Z.
Variable xxhash : list Z -> Z.
Variable xxhash_value : Double.double -> Z.
Variable std_sort : forall A : Type, (A -> A -> bool) -> list A -> list A.
Variable strict : bool.
Variable mode : HashMode.
Hypothesis std_sort_perm :
  forall (A : Type) (lt : A -> A -> bool) (l : list A), Permutation (std_sort lt l) l.

Local Notation Sort_step := (Sort_step xxhash xxhash_value std_sort strict).
Local Notation Sort := (Sort xxhash xxhash_value std_sort strict).
Local Notation Hash := (Hash hasher hasher_leaf mode).
Local Notation rhash := (rhash hasher hasher_leaf mode).

(** The loop of [Sort] rearranges a forest of well-formed trees. *)
Lemma Sort_loop_flat (ts : list rtree) :
  Forall rwf ts -> zlen (flat ts) <= int_max ->
  exists ts',
    fold_left Sort_step (seq 0 (length (flat ts))) (flat ts) = flat ts'
    /\ Forall2 rearranged ts ts'.
Proof.
  intros Hwf Hsz.
  destruct (@postorder Sort_step rearranged (int_max + 1)) with (ts := ts)
    (pre := @nil Node) (post := @nil Node) as (ts' & E & HR); trivial.
  - apply rearranged_size.
  - intros pre post n cs cs' Hsz' Hwf' HR.
    destruct (rearranged_children HR) as (Hsim & Hwfs & Hl & Hfl).
    assert (Hwf1 : rwf (RNode n cs')).
    { apply (rwf_rebuild Hwf' (same_node_refl n)); assumption. }
    apply Z.lt_succ_r in Hsz'.
    destruct (@Sort_step_root xxhash xxhash_value std_sort strict std_sort_perm
                pre post n cs' Hsz' Hwf1) as (h & cs'' & E1 & Hp).
    exists (RNode (set_CalculatedHashValue n h) cs'').
    split; [rewrite E1, flatten_RNode; list_eq|].
    assert (Hsame : same_node n (set_CalculatedHashValue n h)) by (repeat split).
    assert (Hperm : Permutation cs' cs'').
    { destruct (IsCommutative n); [exact Hp | rewrite Hp; reflexivity]. }
    split.
    + eapply similar_rebuild; eassumption.
    + apply (rwf_rebuild Hwf' Hsame).
      * rewrite <- (Permutation_length Hperm). exact Hl.
      * rewrite (length_flat_perm Hperm). exact Hfl.
      * eapply Permutation_Forall; eassumption.
  - rewrite app_nil_r. cbn [app]. lia.
  - cbn [app length] in E. rewrite !app_nil_r in E. exists ts'. split; assumption.
Qed.

(** [Sort] on the trees: the loop, then [UpdateNodes]. *)
Lemma Sort_flat (ts : list rtree) :
  Forall rwf ts -> zlen (flat ts) <= int_max ->
  exists ts1 ts2,
    Sort (flat ts) = flat ts2
    /\ Forall2 rearranged ts ts1 /\ Forall2 rearranged ts1 ts2.
Proof.
  intros Hwf Hsz. unfold Tree.Sort.
  destruct (Sort_loop_flat Hwf Hsz) as (ts1 & E1 & H1). rewrite E1.
  destruct (rearranged_children H1) as (_ & Hwf1 & _ & Hfl1).
  destruct (@UpdateNodes_flat ts1 Hwf1) as (ts2 & E2 & H2).
  { unfold zlen in *. rewrite Hfl1. unfold int_max, size_max in *. lia. }
  exists ts1, ts2. repeat split; assumption.
Qed.

(** Rearranged forests hash alike: the same hash at the root of the last
    tree, and the same hashed nodes overall. *)
Lemma rhash_forest (ts ts' : list rtree) :
  Forall2 rearranged ts ts' ->
  Tree_HashValue (flat (map rhash ts)) = Tree_HashValue (flat (map rhash ts'))
  /\ Permutation (map hashed (flat (map rhash ts))) (map hashed (flat (map rhash ts'))).
Proof.
  induction 1 as [|t t' ts ts' (Ht & _) Hts (IH1 & IH2)]; [split; reflexivity|].
  destruct (rhash_similar hasher hasher_leaf mode Ht) as (Hk & Hp).
  cbn [map]. split.
  - rewrite !Tree_HashValue_flat_cons.
    destruct Hts; cbn [map]; [|exact IH1].
    apply (f_equal snd) in Hk. exact Hk.
  - rewrite !flat_cons, !map_app. apply Permutation_app; assumption.
Qed.

(** [Hash] after [Sort] against [Hash] before, in either mode. *)
Lemma Hash_Sort (nodes : list Node) :
  subtree_range_invariant nodes ->
  zlen nodes <= int_max ->
  Tree_HashValue (Hash (Sort nodes)) = Tree_HashValue (Hash nodes)
  /\ Permutation (map hashed (Hash (Sort nodes))) (map hashed (Hash nodes)).
Proof.
  intros (Hsz & ts & Hwf & ->) Hint.
  destruct (Sort_flat Hwf Hint) as (ts1 & ts2 & E & H1 & H2). rewrite E.
  destruct (rearranged_children H1) as (_ & Hwf1 & _ & Hfl1).
  destruct (rearranged_children H2) as (_ & Hwf2 & _ & Hfl2).
  rewrite (Hash_flat hasher hasher_leaf mode Hwf Hsz).
  rewrite (@Hash_flat hasher hasher_leaf mode ts2 Hwf2)
    by (unfold zlen in *; rewrite Hfl2, Hfl1; exact Hsz).
  destruct (rhash_forest H1) as (A1 & A2). destruct (rhash_forest H2) as (B1 & B2).
  split.
  - rewrite <- B1. symmetry. exact A1.
  - rewrite <- B2. symmetry. exact A2.
Qed.

End SortInvariance.

Lemma ex_unsorted_invariant : subtree_range_invariant ex_unsorted.
Proof.
  split; [reflexivity|]. exists [ex_unsorted_tree]. split; [|reflexivity].
  repeat (constructor; try reflexivity).
Qed.

(** C9. For every tree whose derived fields satisfy the subtree-range
    invariant, and whose indices fit the [int] that [Sort] keeps them
    in, the Relaxed-mode hash computed after [Sort] is the one computed
    before it: the hash of the root is the same, and the nodes with
    their hashes are the same up to the reordering.  [Sort] may use any
    [std::sort] that rearranges its input, with either value of
    [strict]. *)
Theorem Hash_Relaxed_invariant_under_Sort
    (hasher : list Z -> Z) (hasher_leaf : Z -> Double.double -> Z)
    (xxhash : list Z -> Z) (xxhash_value : Double.double -> Z)
    (std_sort : forall A : Type, (A -> A -> bool) -> list A -> list A)
    (strict : bool) (nodes : list Node) :
  (forall (A : Type) (lt : A -> A -> bool) (l : list A),
      Permutation (std_sort A lt l) l) ->
  subtree_range_invariant nodes ->
  zlen nodes <= int_max ->
  Tree_HashValue
    (Hash hasher hasher_leaf Relaxed (Sort xxhash xxhash_value std_sort strict nodes))
  = Tree_HashValue (Hash hasher hasher_leaf Relaxed nodes)
  /\ Permutation
       (map hashed
          (Hash hasher hasher_leaf Relaxed (Sort xxhash xxhash_value std_sort strict nodes)))
       (map hashed (Hash hasher hasher_leaf Relaxed nodes)).
Proof. intros Hsort Hinv Hint. apply Hash_Sort; assumption. Qed.

Lemma Hash_Relaxed_invariant_under_Sort_witness :
  subtree_range_invariant ex_unsorted
  /\ zlen ex_unsorted <= int_max
  /\ Sort ex_hasher ex_xxhash_value (fun A => @stable_sort A) false ex_unsorted
     <> ex_unsorted
  /\ Tree_HashValue
       (Hash ex_hasher ex_hasher_leaf Relaxed
          (Sort ex_hasher ex_xxhash_value (fun A => @stable_sort A) false ex_unsorted))
     = Tree_HashValue (Hash ex_hasher ex_hasher_leaf Relaxed ex_unsorted)
  /\ Permutation
       (map hashed
          (Hash ex_hasher ex_hasher_leaf Relaxed
             (Sort ex_hasher ex_xxhash_value (fun A => @stable_sort A) false ex_unsorted)))
       (map hashed (Hash ex_hasher ex_hasher_leaf Relaxed ex_unsorted)).
Proof.
  split; [exact ex_unsorted_invariant|].
  split; [vm_compute; discriminate|].
  split; [vm_compute; discriminate|].
  apply (@Hash_Relaxed_invariant_under_Sort ex_hasher ex_hasher_leaf ex_hasher
           ex_xxhash_value (fun A => @stable_sort A) false ex_unsorted).
  - intros A lt l. apply stable_sort_perm.
  - exact ex_unsorted_invariant.
  - vm_compute. discriminate.
Defined.

End TreeFacts.

(* ================================================================= *)
(** * Properties of the cost-function adapter *)

Module CostFunctionFacts.
Import CostFunction CostOps.

Lemma strides_agree_upto_spec (Pmax Smax P St : nat) :
  strides_agree_upto Pmax Smax = true ->
  (1 <= St <= Smax)%nat -> (P <= Pmax)%nat ->
  compute_numStrides (Z.of_nat P) (Z.of_nat St) = Z.of_nat (ceil_div P St).
Proof.
  intros H HS HP. unfold strides_agree_upto in H. rewrite forallb_forall in H.
  specialize (H St). rewrite forallb_forall in H.
  apply Z.eqb_eq. apply H; apply in_seq; lia.
Qed.

(** The single-precision stride count is [ceil(P / Stride)] for every
    stride up to 8 and every parameter count up to 512. *)
Lemma strides_agree_512_8 : strides_agree_upto 512 8 = true.
Proof. vm_compute. reflexivity. Qed.

Lemma compute_numStrides_small (P St : nat) :
  (1 <= St <= 8)%nat -> (P <= 512)%nat ->
  compute_numStrides (Z.of_nat P) (Z.of_nat St) = Z.of_nat (ceil_div P St).
Proof. apply strides_agree_upto_spec. exact strides_agree_512_8. Qed.

Lemma filter_all_true {A} (f : A -> bool) (l : list A) :
  (forall x, In x l -> f x = true) -> filter f l = l.
Proof.
  induction l as [|x l IH]; intros H; cbn [filter]; [reflexivity|].
  rewrite (H x (or_introl eq_refl)), IH; [reflexivity|]. intros y Hy. apply H. right. exact Hy.
Qed.

Lemma filter_all_false {A} (f : A -> bool) (l : list A) :
  (forall x, In x l -> f x = false) -> filter f l = [].
Proof.
  induction l as [|x l IH]; intros H; cbn [filter]; [reflexivity|].
  rewrite (H x (or_introl eq_refl)), IH; [reflexivity|]. intros y Hy. apply H. right. exact Hy.
Qed.

Lemma flat_map_ext_on {A B} (f g : A -> list B) (l : list A) :
  (forall x, In x l -> f x = g x) -> flat_map f l = flat_map g l.
Proof.
  induction l as [|x l IH]; intros H; cbn [flat_map]; [reflexivity|].
  rewrite (H x (or_introl eq_refl)), IH; [reflexivity|]. intros y Hy. apply H. right. exact Hy.
Qed.

(** Of the numbers from [lo] on, those in the window of width [w] at [c]. *)
Lemma filter_seq_window (lo n c w : nat) :
  (lo <= c)%nat -> (c <= lo + n)%nat ->
  filter (fun j => (c <=? j) && (j <? c + w)) (seq lo n) = seq c (Nat.min w (lo + n - c)).
Proof.
  intros Hlo Hc.
  replace n with ((c - lo) + (Nat.min w (lo + n - c) + (n - (c - lo) - Nat.min w (lo + n - c))))
    at 1 by lia.
  rewrite !seq_app, !filter_app.
  rewrite (filter_all_false _ (seq lo (c - lo))).
  2:{ intros x Hx. apply in_seq in Hx. apply andb_false_iff. left. apply Nat.leb_gt. lia. }
  rewrite filter_all_true.
  2:{ intros x Hx. apply in_seq in Hx. apply andb_true_iff. split;
      [apply Nat.leb_le | apply Nat.ltb_lt]; lia. }
  rewrite filter_all_false.
  2:{ intros x Hx. apply in_seq in Hx. apply andb_false_iff. right. apply Nat.ltb_ge. lia. }
  cbn [app]. rewrite app_nil_r. f_equal. lia.
Qed.

Lemma flat_map_flat_map {A B C} (g : B -> list C) (f : A -> list B) (l : list A) :
  flat_map g (flat_map f l) = flat_map (fun x => flat_map g (f x)) l.
Proof.
  induction l as [|x l IH]; cbn [flat_map]; [reflexivity|].
  rewrite flat_map_app, IH. reflexivity.
Qed.

Lemma flat_map_single {A B} (f : A -> B) (l : list A) :
  flat_map (fun x => [f x]) l = map f l.
Proof. induction l as [|x l IH]; cbn; [reflexivity | rewrite IH; reflexivity]. Qed.

Lemma flat_map_of_map {A B C} (g : B -> list C) (f : A -> B) (l : list A) :
  flat_map g (map f l) = flat_map (fun x => g (f x)) l.
Proof. induction l as [|x l IH]; cbn; [reflexivity | rewrite IH; reflexivity]. Qed.

Lemma flat_map_nil {A B} (l : list A) : flat_map (fun _ => @nil B) l = [].
Proof. induction l as [|x l IH]; cbn; auto. Qed.

Lemma ceil_div_covers (P St : nat) : (1 <= St)%nat -> (P <= ceil_div P St * St)%nat.
Proof.
  intros HS. unfold ceil_div.
  pose proof (Nat.div_mod_eq (P + St - 1) St) as E.
  pose proof (Nat.mod_upper_bound (P + St - 1) St) as U. nia.
Qed.

Lemma ceil_div_tight (P St : nat) :
  (1 <= St)%nat -> (1 <= P)%nat -> ((ceil_div P St - 1) * St < P)%nat /\ (1 <= ceil_div P St)%nat.
Proof.
  intros HS HP. unfold ceil_div.
  pose proof (Nat.div_mod_eq (P + St - 1) St) as E.
  pose proof (Nat.mod_upper_bound (P + St - 1) St) as U.
  assert (1 <= (P + St - 1) / St)%nat by (apply Nat.div_le_lower_bound; lia).
  nia.
Qed.

(** The columns of the passes, one pass after the other, are the
    columns in order; column [j] falls to pass [j / St]. *)
Lemma columns_tile {B} (h : nat -> nat -> list B) (P St n : nat) :
  (1 <= St)%nat ->
  flat_map (fun p => flat_map (h p) (columns P St p)) (seq 0 n)
  = flat_map (fun j => h (j / St) j) (seq 0 (Nat.min (n * St) P)).
Proof.
  intros HS. induction n as [|n IH]; [reflexivity|].
  rewrite seq_S, flat_map_app, IH. cbn [flat_map plus]. rewrite app_nil_r.
  replace (Nat.min (S n * St) P)
    with (Nat.min (n * St) P + Nat.min St (P - n * St))%nat by lia.
  rewrite seq_app, flat_map_app. f_equal. cbn [plus]. unfold columns.
  destruct (Nat.le_gt_cases P (n * St)) as [Hge|Hlt].
  - replace (Nat.min St (P - n * St)) with 0%nat by lia. reflexivity.
  - replace (Nat.min (n * St) P) with (n * St)%nat by lia.
    apply flat_map_ext_on. intros j Hj. apply in_seq in Hj.
    replace (j / St) with n; [reflexivity|].
    apply Nat.div_unique with (r := (j - n * St)%nat); lia.
Qed.

Lemma column_lane (P St p j : nat) :
  (1 <= St)%nat -> In j (columns P St p) -> (j / St = p /\ j - p * St = j mod St)%nat.
Proof.
  intros HS Hj. unfold columns in Hj. apply in_seq in Hj.
  assert (E : (j / St = p)%nat).
  { symmetry. apply Nat.div_unique with (r := (j - p * St)%nat); lia. }
  split; [exact E|]. pose proof (Nat.div_mod_eq j St) as D. rewrite E in D. lia.
Qed.

Section Evaluate.
Variable Scalar : Type.
Variable zero one : Scalar.
Variable Stride : nat.
Variable Storage : StorageOrder.
Variable functor_scalar : list Scalar -> bool * list Scalar.
Variable functor_jet : list (Jet Scalar) -> bool * list (Jet Scalar).
Variable NumParameters NumResiduals : nat.

Local Notation seed_loop := (@seed_loop Scalar zero one Stride).
Local Notation column_loop := (@column_loop Scalar zero Storage NumParameters NumResiduals).
Local Notation copy_loop := (@copy_loop Scalar zero Stride Storage NumParameters NumResiduals).
Local Notation residual_loop := (@residual_loop Scalar).
Local Notation pass_loop :=
  (@pass_loop Scalar zero one Stride Storage functor_jet NumParameters NumResiduals).
Local Notation jets_of := (@jets_of Scalar zero one Stride).

Lemma seed_loop_trace (pass : nat) (jets : list (Jet Scalar)) (j act cursor : nat)
    (m : memory Scalar) :
  act = Nat.min (j - cursor) Stride ->
  trace (snd (seed_loop pass jets j act cursor m))
  = trace m ++ map (fun j' => EvSeed pass j' (j' - cursor))
                   (filter (fun j' => (cursor <=? j') && (j' <? cursor + Stride))
                           (seq j (length jets)))
  /\ length (fst (seed_loop pass jets j act cursor m)) = length jets.
Proof.
  revert j act m. induction jets as [|jet rest IH]; intros j act m Hact; cbn [seed_loop].
  - cbn. rewrite app_nil_r. auto.
  - cbn [length seq filter].
    destruct (Nat.leb_spec cursor j) as [Hc|Hc].
    + destruct (Nat.ltb_spec act Stride) as [Ha|Ha]; cbn [andb].
      * replace (j <? cursor + Stride) with true by (symmetry; apply Nat.ltb_lt; lia).
        specialize (IH (S j) (S act) (log (EvSeed pass j act) m)).
        destruct (seed_loop pass rest (S j) (S act) cursor _) as [rest' m'].
        cbn [fst snd length map] in *. destruct IH as (IH1 & IH2); [lia|].
        rewrite IH1. cbn [log trace]. rewrite <- app_assoc. cbn [app].
        replace (j - cursor) with act by lia. auto.
      * replace (j <? cursor + Stride) with false by (symmetry; apply Nat.ltb_ge; lia).
        specialize (IH (S j) act m).
        destruct (seed_loop pass rest (S j) act cursor m) as [rest' m'].
        cbn [fst snd length] in *. destruct IH as (IH1 & IH2); [lia|]. auto.
    + rewrite andb_false_r. cbn [andb].
      specialize (IH (S j) act m).
      destruct (seed_loop pass rest (S j) act cursor m) as [rest' m'].
      cbn [fst snd length] in *. destruct IH as (IH1 & IH2); [lia|]. auto.
Qed.

Lemma seed_loop_jets (pass : nat) (jets : list (Jet Scalar)) (j act cursor : nat)
    (m : memory Scalar) :
  act = Nat.min (j - cursor) Stride ->
  fst (seed_loop pass jets j act cursor m) = jets_of cursor j (map (@a Scalar) jets)
  /\ residuals (snd (seed_loop pass jets j act cursor m)) = residuals m
  /\ jacobian (snd (seed_loop pass jets j act cursor m)) = jacobian m.
Proof.
  unfold CostOps.jets_of.
  revert j act m. induction jets as [|jet rest IH]; intros j act m Hact; cbn [seed_loop].
  - cbn. auto.
  - cbn [map length seq combine fst snd]. unfold CostOps.tangent at 1.
    destruct (Nat.leb_spec cursor j) as [Hc|Hc].
    + destruct (Nat.ltb_spec act Stride) as [Ha|Ha]; cbn [andb].
      * replace (j <? cursor + Stride)%nat with true by (symmetry; apply Nat.ltb_lt; lia).
        specialize (IH (S j) (S act) (log (EvSeed pass j act) m)).
        destruct (seed_loop pass rest (S j) (S act) cursor _) as [rest' m'].
        cbn [fst snd] in *. destruct IH as (IH1 & IH2 & IH3); [lia|].
        rewrite IH1, IH2, IH3. replace (j - cursor)%nat with act by lia. auto.
      * replace (j <? cursor + Stride)%nat with false by (symmetry; apply Nat.ltb_ge; lia).
        specialize (IH (S j) act m).
        destruct (seed_loop pass rest (S j) act cursor m) as [rest' m'].
        cbn [fst snd] in *. destruct IH as (IH1 & IH2 & IH3); [lia|].
        rewrite IH1, IH2, IH3. auto.
    + rewrite andb_false_r. cbn [andb].
      specialize (IH (S j) act m).
      destruct (seed_loop pass rest (S j) act cursor m) as [rest' m'].
      cbn [fst snd] in *. destruct IH as (IH1 & IH2 & IH3); [lia|].
      rewrite IH1, IH2, IH3. auto.
Qed.

Lemma map_a_jets_of (cursor j : nat) (xs : list Scalar) :
  map (@a Scalar) (jets_of cursor j xs) = xs.
Proof.
  unfold CostOps.jets_of. revert j. induction xs as [|x xs IH]; intros j; [reflexivity|].
  cbn [length seq combine map fst a]. rewrite IH. reflexivity.
Qed.

Lemma column_loop_trace (pass : nat) (out : list (Jet Scalar)) (k j lane : nat)
    (m : memory Scalar) :
  trace (column_loop pass out k j lane m)
  = trace m ++ map (fun k' => EvJacobian pass k' j lane) (seq k (length out))
  /\ residuals (column_loop pass out k j lane m) = residuals m.
Proof.
  revert k m. induction out as [|jet rest IH]; intros k m; cbn [column_loop length seq map].
  - rewrite app_nil_r. auto.
  - destruct (IH (S k) (mkMemory (residuals m)
                 (set_nth (jacobian m) (jMap_index Storage NumParameters NumResiduals k j)
                          (nth lane (v jet) zero))
                 (trace m ++ [EvJacobian pass k j lane]))) as (IH1 & IH2).
    rewrite IH1, IH2. cbn [trace residuals]. rewrite <- app_assoc. auto.
Qed.

Lemma residual_loop_trace (pass : nat) (out : list (Jet Scalar)) (k : nat)
    (m : memory Scalar) :
  trace (residual_loop pass out k m)
  = trace m ++ map (EvResidual pass) (seq k (length out)).
Proof.
  revert k m. induction out as [|jet rest IH]; intros k m; cbn [residual_loop length seq map].
  - rewrite app_nil_r. auto.
  - rewrite IH. cbn [trace]. rewrite <- app_assoc. reflexivity.
Qed.

Lemma copy_loop_trace (n pass : nat) (out : list (Jet Scalar)) (j act cursor c0 : nat)
    (m : memory Scalar) :
  (c0 <= j)%nat -> act = Nat.min (j - c0) Stride -> cursor = (c0 + act)%nat ->
  fst (copy_loop n pass out j act cursor m) = (c0 + Nat.min (j + n - c0) Stride)%nat
  /\ trace (snd (copy_loop n pass out j act cursor m))
     = trace m ++ flat_map (fun j' => map (fun k => EvJacobian pass k j' (j' - c0))
                                        (seq 0 (length out)))
                          (filter (fun j' => (c0 <=? j') && (j' <? c0 + Stride)) (seq j n))
  /\ residuals (snd (copy_loop n pass out j act cursor m)) = residuals m.
Proof.
  revert j act cursor m. induction n as [|n IH]; intros j act cursor m Hj Hact Hcur;
    cbn [copy_loop seq filter].
  - cbn [fst snd flat_map]. rewrite app_nil_r, Nat.add_0_r. subst. auto.
  - replace (c0 <=? j) with true by (symmetry; apply Nat.leb_le; lia). cbn [andb].
    destruct (Nat.ltb_spec act Stride) as [Ha|Ha].
    + replace (j <? c0 + Stride) with true by (symmetry; apply Nat.ltb_lt; lia).
      destruct (column_loop_trace pass out 0 j act m) as (C1 & C2).
      destruct (IH (S j) (S act) (S cursor) (column_loop pass out 0 j act m))
        as (I1 & I2 & I3); [lia | lia | lia |].
      rewrite I1, I2, I3, C1, C2. cbn [flat_map]. rewrite <- app_assoc.
      replace (j - c0) with act by lia.
      split; [f_equal; lia | auto].
    + replace (j <? c0 + Stride) with false by (symmetry; apply Nat.ltb_ge; lia).
      destruct (IH (S j) act cursor m) as (I1 & I2 & I3); [lia | lia | lia |].
      rewrite I1, I2, I3. split; [f_equal; lia | auto].
Qed.

(** One pass: it stops after the call when the functor fails on the
    jets it has seeded, and goes on to the next pass when it succeeds. *)
Lemma pass_step (xs : list Scalar) (n p : nat) (numStrides : Z)
    (inputs : list (Jet Scalar)) (cursor : nat) (m : memory Scalar) :
  (1 <= Stride)%nat -> length xs = NumParameters ->
  map (@a Scalar) inputs = xs ->
  cursor = Nat.min (p * Stride) NumParameters ->
  (fst (functor_jet (jets_of cursor 0 xs)) = false ->
   fst (pass_loop (S n) p numStrides inputs cursor m) = false
   /\ trace (snd (pass_loop (S n) p numStrides inputs cursor m))
      = trace m ++ failed_pass_events NumParameters Stride p)
  /\ (fst (functor_jet (jets_of cursor 0 xs)) = true ->
      length (snd (functor_jet (jets_of cursor 0 xs))) = NumResiduals ->
      exists m3,
        pass_loop (S n) p numStrides inputs cursor m
        = pass_loop n (S p) numStrides (jets_of cursor 0 xs)
                    (Nat.min (S p * Stride) NumParameters) m3
        /\ trace m3
           = trace m ++ pass_events NumParameters Stride NumResiduals numStrides p).
Proof.
  intros HS Hxs Ha Hcur. cbn [pass_loop].
  assert (Hlen : length inputs = NumParameters).
  { rewrite <- Hxs, <- Ha. symmetry. apply length_map. }
  destruct (@seed_loop_trace p inputs 0 0 cursor m) as (S1 & S2); [lia|].
  destruct (@seed_loop_jets p inputs 0 0 cursor m) as (J1 & _); [lia|].
  destruct (seed_loop p inputs 0 0 cursor m) as [inputs' m1]. cbn [fst snd] in S1, S2, J1.
  rewrite Ha in J1. subst inputs'.
  assert (Hcols : forall lo, lo = cursor \/ lo = 0%nat ->
            filter (fun j' => (cursor <=? j') && (j' <? cursor + Stride))
                   (seq lo (NumParameters - lo))
            = seq cursor (Nat.min Stride (NumParameters - cursor))).
  { intros lo Hlo. rewrite filter_seq_window by lia. f_equal. lia. }
  pose proof (Hcols 0%nat (or_intror eq_refl)) as H0. rewrite Nat.sub_0_r in H0.
  assert (Hseq : seq cursor (Nat.min Stride (NumParameters - cursor))
                 = seq (p * Stride) (Nat.min Stride (NumParameters - p * Stride))).
  { destruct (Nat.le_gt_cases NumParameters (p * Stride)) as [Hge|Hlt].
    - replace (Nat.min Stride (NumParameters - cursor)) with 0%nat by lia.
      replace (Nat.min Stride (NumParameters - p * Stride)) with 0%nat by lia.
      reflexivity.
    - replace cursor with (p * Stride)%nat by lia. reflexivity. }
  assert (Hlane : forall j, In j (seq cursor (Nat.min Stride (NumParameters - cursor))) ->
                    (j - cursor = j - p * Stride)%nat).
  { intros j Hj. apply in_seq in Hj.
    destruct (Nat.le_gt_cases NumParameters (p * Stride)); lia. }
  assert (Hseeds : trace m1
                   = trace m ++ map (fun j => EvSeed p j (j - p * Stride))
                                    (columns NumParameters Stride p)).
  { rewrite S1, Hlen, H0. unfold columns. rewrite <- Hseq. f_equal.
    apply map_ext_in. intros j Hj. rewrite (Hlane j Hj). reflexivity. }
  destruct (functor_jet (jets_of cursor 0 xs)) as [ok out]. cbn [fst snd].
  split.
  - intros ->. cbn [negb fst snd log trace]. split; [reflexivity|].
    rewrite Hseeds. unfold failed_pass_events. rewrite <- app_assoc. reflexivity.
  - intros -> Hout. cbn [negb].
    destruct (@copy_loop_trace (NumParameters - cursor) p out cursor 0 cursor cursor
                (log (EvCall p) m1)) as (C1 & C2 & C3); [lia | lia | lia |].
    destruct (copy_loop (NumParameters - cursor) p out cursor 0 cursor (log (EvCall p) m1))
      as [cursor' m2]. cbn [fst snd] in C1, C2, C3.
    exists (if (Z.of_nat p =? numStrides - 1)%Z then residual_loop p out 0 m2 else m2).
    split.
    + f_equal. rewrite C1. cbn [Nat.mul]. lia.
    + assert (Hm3 : trace (if (Z.of_nat p =? numStrides - 1)%Z
                           then residual_loop p out 0 m2 else m2)
                    = trace m2 ++
                      (if (Z.of_nat p =? numStrides - 1)%Z
                       then map (EvResidual p) (seq 0 NumResiduals) else [])).
      { destruct (Z.of_nat p =? numStrides - 1)%Z.
        - rewrite residual_loop_trace, Hout. reflexivity.
        - rewrite app_nil_r. reflexivity. }
      rewrite Hm3, C2. cbn [log trace]. rewrite Hseeds, Hout.
      rewrite (Hcols cursor) by auto.
      unfold pass_events, columns. rewrite <- !app_assoc. cbn [app].
      f_equal. f_equal. f_equal. f_equal. rewrite <- Hseq.
      apply flat_map_ext_on. intros j Hj. rewrite (Hlane j Hj). reflexivity.
Qed.

(** The passes one after the other: [k] passes in which the functor
    succeeds on the jets of the pass, and then, if passes are left, one
    in which it fails. *)
Lemma pass_loop_run (xs : list Scalar) (numStrides : Z) (n : nat) :
  (1 <= Stride)%nat -> length xs = NumParameters ->
  forall (k p : nat) (inputs : list (Jet Scalar)) (cursor : nat) (m : memory Scalar),
    map (@a Scalar) inputs = xs ->
    cursor = Nat.min (p * Stride) NumParameters ->
    (k <= n)%nat ->
    (forall q, (p <= q < p + k)%nat ->
       fst (functor_jet (jets_of (Nat.min (q * Stride) NumParameters) 0 xs)) = true
       /\ length (snd (functor_jet (jets_of (Nat.min (q * Stride) NumParameters) 0 xs)))
          = NumResiduals) ->
    ((k < n)%nat ->
       fst (functor_jet (jets_of (Nat.min ((p + k) * Stride) NumParameters) 0 xs)) = false) ->
    fst (pass_loop n p numStrides inputs cursor m) = (n <=? k)%nat
    /\ trace (snd (pass_loop n p numStrides inputs cursor m))
       = trace m
         ++ flat_map (pass_events NumParameters Stride NumResiduals numStrides) (seq p k)
         ++ (if (k <? n)%nat then failed_pass_events NumParameters Stride (p + k) else []).
Proof.
  intros HS Hxs. induction n as [|n IH]; intros k p inputs cursor m Ha Hcur Hk Hok Hfail.
  - assert (k = 0%nat) by lia. subst k. cbn. rewrite app_nil_r. auto.
  - destruct (@pass_step xs n p numStrides inputs cursor m HS Hxs Ha Hcur) as (Hf & Hs).
    destruct k as [|k].
    + rewrite Nat.add_0_r, <- Hcur in Hfail.
      destruct (Hf (Hfail ltac:(lia))) as (F1 & F2).
      rewrite F1, F2, Nat.add_0_r. cbn [seq flat_map app Nat.leb Nat.ltb]. auto.
    + destruct (Hok p ltac:(lia)) as (O1 & O2). rewrite <- Hcur in O1, O2.
      destruct (Hs O1 O2) as (m3 & E & T). rewrite E.
      destruct (IH k (S p) (jets_of cursor 0 xs) (Nat.min (S p * Stride) NumParameters) m3)
        as (I1 & I2).
      * apply map_a_jets_of.
      * reflexivity.
      * lia.
      * intros q Hq. apply Hok. lia.
      * intros Hlt. replace (S p + k)%nat with (p + S k)%nat by lia. apply Hfail. lia.
      * rewrite I1, I2, T. cbn [seq flat_map]. rewrite <- !app_assoc.
        replace (S p + k)%nat with (p + S k)%nat by lia.
        split; reflexivity.
Qed.

End Evaluate.

(** *** What the passes amount to *)

Section Passes.
Variable P St R : nat.
Variable numStrides : Z.
Hypothesis St_pos : (1 <= St)%nat.

Local Notation pass_events := (pass_events P St R numStrides).

(** A reading of the events of one pass, part by part. *)
Lemma read_pass (A : Type) (g : event -> list A) (p : nat) :
  flat_map g (pass_events p)
  = flat_map (fun j => g (EvSeed p j (j - p * St))) (columns P St p)
    ++ g (EvCall p)
    ++ flat_map (fun j => flat_map (fun k => g (EvJacobian p k j (j - p * St))) (seq 0 R))
                (columns P St p)
    ++ (if (Z.of_nat p =? numStrides - 1)%Z
        then flat_map (fun k => g (EvResidual p k)) (seq 0 R) else []).
Proof.
  unfold CostFunction.pass_events.
  rewrite !flat_map_app, flat_map_flat_map, flat_map_of_map.
  cbn [flat_map]. rewrite app_nil_r. f_equal. f_equal. f_equal.
  - apply flat_map_ext_on. intros j _. apply flat_map_of_map.
  - destruct (_ =? _)%Z; [apply flat_map_of_map | reflexivity].
Qed.

Lemma calls_pass (p : nat) : calls (pass_events p) = [p].
Proof.
  unfold calls. rewrite read_pass. cbn beta iota.
  rewrite flat_map_nil.
  rewrite (flat_map_ext_on _ (fun _ => @nil nat)) by (intros; apply flat_map_nil).
  rewrite flat_map_nil. destruct (_ =? _)%Z; [rewrite flat_map_nil|]; reflexivity.
Qed.

Lemma seeds_pass (p : nat) :
  seeds (pass_events p) = map (fun j => (j / St, j, j mod St)%nat) (columns P St p).
Proof.
  unfold seeds. rewrite read_pass. cbn beta iota.
  rewrite (flat_map_ext_on (fun j => flat_map _ (seq 0 R)) (fun _ => @nil (nat * nat * nat)))
    by (intros; apply flat_map_nil).
  rewrite flat_map_nil.
  replace (if (Z.of_nat p =? numStrides - 1)%Z
           then flat_map (fun _ : nat => @nil (nat * nat * nat)) (seq 0 R) else [])
    with (@nil (nat * nat * nat)) by (destruct (_ =? _)%Z; [rewrite flat_map_nil|]; reflexivity).
  cbn [app]. rewrite app_nil_r. rewrite <- flat_map_single.
  apply flat_map_ext_on. intros j Hj.
  destruct (@column_lane P St p j St_pos Hj) as (-> & ->). reflexivity.
Qed.

Lemma jacobian_writes_pass (p : nat) :
  jacobian_writes (pass_events p)
  = flat_map (fun j => map (fun k => (j / St, k, j, j mod St)%nat) (seq 0 R)) (columns P St p).
Proof.
  unfold jacobian_writes. rewrite read_pass. cbn beta iota.
  rewrite flat_map_nil.
  replace (if (Z.of_nat p =? numStrides - 1)%Z
           then flat_map (fun _ : nat => @nil (nat * nat * nat * nat)) (seq 0 R) else [])
    with (@nil (nat * nat * nat * nat))
    by (destruct (_ =? _)%Z; [rewrite flat_map_nil|]; reflexivity).
  cbn [app]. rewrite app_nil_r.
  apply flat_map_ext_on. intros j Hj.
  destruct (@column_lane P St p j St_pos Hj) as (E1 & E2).
  rewrite <- flat_map_single. apply flat_map_ext_on. intros k _.
  rewrite E1, E2. reflexivity.
Qed.

Lemma residual_writes_pass (p : nat) :
  residual_writes (pass_events p)
  = if (Z.of_nat p =? numStrides - 1)%Z then map (fun k => (p, k)) (seq 0 R) else [].
Proof.
  unfold residual_writes. rewrite read_pass. cbn beta iota.
  rewrite flat_map_nil.
  rewrite (flat_map_ext_on (fun j => flat_map _ (seq 0 R)) (fun _ => @nil (nat * nat)))
    by (intros; apply flat_map_nil).
  rewrite flat_map_nil. cbn [app].
  destruct (_ =? _)%Z; [apply flat_map_single | reflexivity].
Qed.

(** The same readings of the first [n] passes. *)
Lemma calls_passes (n : nat) : calls (flat_map pass_events (seq 0 n)) = seq 0 n.
Proof.
  unfold calls. rewrite flat_map_flat_map.
  rewrite (flat_map_ext_on _ (fun p => [p])) by (intros p _; apply (calls_pass p)).
  rewrite flat_map_single. apply map_id.
Qed.

Lemma seeds_passes (n : nat) :
  seeds (flat_map pass_events (seq 0 n))
  = map (fun j => (j / St, j, j mod St)%nat) (seq 0 (Nat.min (n * St) P)).
Proof.
  unfold seeds. rewrite flat_map_flat_map.
  rewrite (flat_map_ext_on _ (fun p => flat_map (fun j => [(j / St, j, j mod St)%nat])
                                         (columns P St p))).
  2:{ intros p _. rewrite flat_map_single. apply (seeds_pass p). }
  rewrite (@columns_tile _ (fun _ j => [(j / St, j, j mod St)%nat]) P St n St_pos).
  apply flat_map_single.
Qed.

Lemma jacobian_writes_passes (n : nat) :
  jacobian_writes (flat_map pass_events (seq 0 n))
  = flat_map (fun j => map (fun k => (j / St, k, j, j mod St)%nat) (seq 0 R))
             (seq 0 (Nat.min (n * St) P)).
Proof.
  unfold jacobian_writes. rewrite flat_map_flat_map.
  rewrite (flat_map_ext_on _
             (fun p => flat_map (fun j => map (fun k => (j / St, k, j, j mod St)%nat)
                                              (seq 0 R))
                                (columns P St p)))
    by (intros p _; apply (jacobian_writes_pass p)).
  apply (@columns_tile _ (fun _ j => map (fun k => (j / St, k, j, j mod St)%nat) (seq 0 R))
                       P St n St_pos).
Qed.

Lemma residual_writes_passes (n : nat) :
  (Z.of_nat n <= numStrides - 1)%Z ->
  residual_writes (flat_map pass_events (seq 0 n)) = [].
Proof.
  intros Hn. unfold residual_writes. rewrite flat_map_flat_map.
  rewrite (flat_map_ext_on _ (fun _ => @nil (nat * nat))); [apply flat_map_nil|].
  intros p Hp. apply in_seq in Hp.
  etransitivity; [apply (residual_writes_pass p)|].
  replace (Z.of_nat p =? numStrides - 1)%Z with false; [reflexivity|].
  symmetry. apply Z.eqb_neq. lia.
Qed.

(** A pass in which the functor fails calls it once and writes nothing. *)
Lemma read_failed_pass (p : nat) :
  calls (failed_pass_events P St p) = [p]
  /\ jacobian_writes (failed_pass_events P St p) = []
  /\ residual_writes (failed_pass_events P St p) = [].
Proof.
  unfold failed_pass_events, calls, jacobian_writes, residual_writes.
  rewrite !flat_map_app, !flat_map_of_map, !flat_map_nil. auto.
Qed.

End Passes.

Section Adapter.
Variable Scalar : Type.
Variable zero one : Scalar.
Variable Stride : nat.
Variable Storage : StorageOrder.
Variable functor_scalar : list Scalar -> bool * list Scalar.
Variable functor_jet : list (Jet Scalar) -> bool * list (Jet Scalar).
Variable NumParameters NumResiduals : nat.

Local Notation Evaluate :=
  (@Evaluate Scalar zero one Stride Storage functor_scalar functor_jet
             NumParameters NumResiduals).

Local Notation seeded := (@seeded Scalar zero one Stride NumParameters).


End Adapter.



End CostFunctionFacts.
(* ================================================================= *)
(** * Properties of the maintenance pass, flags and coefficients *)

Module TreeOpsFacts.
Import Double Tree TreeShape TreeFacts TreeOps.
Local Open Scope Z_scope.

(** *** Forests with offsets *)

Lemma forest_at_const (P : rtree -> Prop) (o : Z) (ts : list rtree) :
  Forall P ts <-> forest_at (fun _ => P) o ts.
Proof.
  split.
  - intros H. revert o. induction H as [|t ts Ht _ IH]; intros o; constructor; auto.
  - induction 1; constructor; auto.
Qed.

Lemma forest_at_impl (P Q : Z -> rtree -> Prop) (o : Z) (ts : list rtree) :
  (forall o t, P o t -> Q o t) -> forest_at P o ts -> forest_at Q o ts.
Proof. intros H. induction 1; constructor; auto. Qed.

Lemma forest_rel_size (R : Z -> rtree -> rtree -> Prop) (o : Z) (ts ts' : list rtree) :
  (forall o t t', R o t t' -> length (flatten t') = length (flatten t)) ->
  forest_rel R o ts ts' ->
  length (flat ts') = length (flat ts) /\ length ts' = length ts.
Proof.
  intros HR. induction 1 as [|o t t' ts ts' Ht _ (IH1 & IH2)]; [split; reflexivity|].
  rewrite !flat_cons, !length_app, IH1, (HR _ _ _ Ht). cbn [length]. rewrite IH2.
  split; reflexivity.
Qed.

Lemma forest_rel_impl (R Q : Z -> rtree -> rtree -> Prop) (o : Z) (ts ts' : list rtree) :
  (forall o t t', R o t t' -> Q o t t') -> forest_rel R o ts ts' -> forest_rel Q o ts ts'.
Proof. intros H. induction 1; constructor; auto. Qed.

Lemma forest_rel_Forall2 (R : rtree -> rtree -> Prop) (o : Z) (ts ts' : list rtree) :
  forest_rel (fun _ => R) o ts ts' <-> Forall2 R ts ts'.
Proof.
  split.
  - induction 1; constructor; auto.
  - intros H. revert o. induction H; intros o; constructor; auto.
Qed.

Lemma forest_rel_right (R : Z -> rtree -> rtree -> Prop) (P : Z -> rtree -> Prop)
    (o : Z) (ts ts' : list rtree) :
  (forall o t t', R o t t' -> P o t' /\ zlen (flatten t') = zlen (flatten t)) ->
  forest_rel R o ts ts' -> forest_at P o ts'.
Proof.
  intros H. induction 1 as [|o t t' ts ts' Ht _ IH]; constructor.
  - apply (H _ _ _ Ht).
  - destruct (H _ _ _ Ht) as (_ & E). rewrite E. exact IH.
Qed.

(** *** A loop over the indices of a postfix array, tree by tree, with
    the offset of each tree at hand *)

Section PostorderAt.
Variable step : list Node -> nat -> list Node.
Variable W : Z -> rtree -> Prop.
Variable R : Z -> rtree -> rtree -> Prop.
Variable limit : Z.

Hypothesis W_children : forall o n cs, W o (RNode n cs) -> forest_at W o cs.
Hypothesis R_size : forall o t t', R o t t' -> length (flatten t') = length (flatten t).
Hypothesis step_root : forall pre post n cs cs',
  zlen (pre ++ flat cs' ++ n :: post) < limit ->
  W (zlen pre) (RNode n cs) ->
  forest_rel R (zlen pre) cs cs' ->
  exists t',
    step (pre ++ flat cs' ++ n :: post) (length pre + length (flat cs'))%nat
    = pre ++ flatten t' ++ post
    /\ R (zlen pre) (RNode n cs) t'.

Local Notation done_at := (fun t : rtree =>
  forall pre post,
    W (zlen pre) t ->
    zlen (pre ++ flatten t ++ post) < limit ->
    exists t',
      fold_left step (seq (length pre) (length (flatten t))) (pre ++ flatten t ++ post)
      = pre ++ flatten t' ++ post
      /\ R (zlen pre) t t').

Lemma postorder_at_forest (ts : list rtree) :
  Forall done_at ts ->
  forall pre post,
    forest_at W (zlen pre) ts ->
    zlen (pre ++ flat ts ++ post) < limit ->
    exists ts',
      fold_left step (seq (length pre) (length (flat ts))) (pre ++ flat ts ++ post)
      = pre ++ flat ts' ++ post
      /\ forest_rel R (zlen pre) ts ts'.
Proof.
  induction 1 as [|t ts Ht _ IH]; intros pre post HW Hsz.
  - exists []. split; [reflexivity | constructor].
  - inversion HW as [|o t0 ts0 HWt HWts]. subst o t0 ts0.
    rewrite flat_cons in Hsz |- *. rewrite length_app, seq_app, fold_left_app.
    rewrite <- app_assoc in Hsz |- *.
    destruct (Ht pre (flat ts ++ post) HWt Hsz) as (t' & E1 & R1).
    rewrite E1.
    assert (Hlen : length (flatten t') = length (flatten t)) by (apply (R_size R1)).
    destruct (IH (pre ++ flatten t') post) as (ts' & E2 & R2).
    { replace (zlen (pre ++ flatten t')) with (zlen pre + zlen (flatten t)) by lens.
      exact HWts. }
    { lens. }
    rewrite length_app, Hlen in E2. rewrite <- app_assoc in E2. rewrite E2.
    exists (t' :: ts'). split.
    + rewrite flat_cons, <- !app_assoc. reflexivity.
    + constructor; [exact R1|].
      replace (zlen pre + zlen (flatten t)) with (zlen (pre ++ flatten t')) by lens.
      exact R2.
Qed.

Lemma postorder_at_tree (t : rtree) : done_at t.
Proof.
  induction t as [n cs IH] using rtree_induction. intros pre post HW Hsz.
  pose proof (W_children HW) as HWcs.
  rewrite flatten_RNode in Hsz |- *. rewrite <- app_assoc in Hsz |- *. cbn [app] in Hsz |- *.
  destruct (postorder_at_forest IH pre (n :: post) HWcs Hsz) as (cs' & E1 & R1).
  rewrite length_app. cbn [length]. rewrite seq_app, fold_left_app, E1. cbn [seq fold_left].
  destruct (forest_rel_size R_size R1) as (Hsize & _).
  destruct (@step_root pre post n cs cs') as (t' & E2 & R2); trivial.
  { lens. }
  rewrite <- Hsize, E2. exists t'. auto.
Qed.

Lemma postorder_at (ts : list rtree) (pre post : list Node) :
  forest_at W (zlen pre) ts ->
  zlen (pre ++ flat ts ++ post) < limit ->
  exists ts',
    fold_left step (seq (length pre) (length (flat ts))) (pre ++ flat ts ++ post)
    = pre ++ flat ts' ++ post
    /\ forest_rel R (zlen pre) ts ts'.
Proof.
  apply postorder_at_forest.
  rewrite Forall_forall. intros t _. apply postorder_at_tree.
Qed.

End PostorderAt.

(** *** Every index is the root of a subtree with the property of the forest *)

Section SubtreeAt.
Variable P : Z -> rtree -> Prop.
Hypothesis P_children : forall o n cs, P o (RNode n cs) -> forest_at P o cs.

Local Notation found_in := (fun (l : list Node) (o i : Z) =>
  exists pre cs n post,
    l = pre ++ flat cs ++ n :: post
    /\ zlen pre + zlen (flat cs) = i /\ P (o + zlen pre) (RNode n cs)).

Lemma subtree_in_forest (ts : list rtree) :
  Forall (fun t => forall o i, P o t -> 0 <= i < zlen (flatten t) ->
                    found_in (flatten t) o i) ts ->
  forall o i, forest_at P o ts -> 0 <= i < zlen (flat ts) -> found_in (flat ts) o i.
Proof.
  induction 1 as [|t ts Ht _ IH]; intros o i HP Hi.
  - change (zlen (flat [])) with 0 in Hi. lia.
  - inversion HP as [|o0 t0 ts0 HPt HPts]. subst o0 t0 ts0.
    rewrite flat_cons, zlen_app in Hi. rewrite flat_cons.
    destruct (Z.lt_ge_cases i (zlen (flatten t))) as [Hlt|Hge].
    + destruct (Ht o i HPt) as (pre & cs & n & post & E & Hlen & Hwf); [lia|].
      exists pre, cs, n, (post ++ flat ts). rewrite E.
      split; [|split]; trivial. rewrite <- !app_assoc. reflexivity.
    + destruct (IH (o + zlen (flatten t)) (i - zlen (flatten t)) HPts)
        as (pre & cs & n & post & E & Hlen & Hwf); [lia|].
      exists (flatten t ++ pre), cs, n, post. rewrite E.
      split; [|split].
      * rewrite <- !app_assoc. reflexivity.
      * rewrite zlen_app. lia.
      * rewrite zlen_app. rewrite Z.add_assoc. exact Hwf.
Qed.

Lemma subtree_in_tree (t : rtree) (o i : Z) :
  P o t -> 0 <= i < zlen (flatten t) -> found_in (flatten t) o i.
Proof.
  revert o i. induction t as [n cs IH] using rtree_induction. intros o i HP Hi.
  rewrite zlen_flatten_RNode in Hi. rewrite flatten_RNode.
  destruct (Z.lt_ge_cases i (zlen (flat cs))) as [Hlt|Hge].
  - destruct (@subtree_in_forest cs IH o i (P_children HP))
      as (pre & ds & m & post & E & Hl & Hw); [lia|].
    exists pre, ds, m, (post ++ [n]). rewrite E. split; [|split]; trivial.
    rewrite <- !app_assoc. reflexivity.
  - exists [], cs, n, []. split; [|split].
    + reflexivity.
    + change (zlen (@nil Node)) with 0. lia.
    + change (zlen (@nil Node)) with 0. rewrite Z.add_0_r. exact HP.
Qed.

Lemma subtree_in (ts : list rtree) (o i : Z) :
  forest_at P o ts -> 0 <= i < zlen (flat ts) -> found_in (flat ts) o i.
Proof.
  apply subtree_in_forest. rewrite Forall_forall. intros t _ o' i'. apply subtree_in_tree.
Qed.

End SubtreeAt.

(** *** [Tree::UpdateNodes], exactly *)

Lemma set_Length_Depth_same (s s2 : Node) (L D : Z) :
  same_but_Length_Depth s s2 ->
  set_Depth (set_Length s2 L) D = set_Depth (set_Length s L) D.
Proof.
  intros (K1 & K2 & K3 & K4 & K5 & K6 & K7). unfold set_Depth, set_Length.
  cbn [Kind Arity Length Depth Parent IsEnabled HashValue CalculatedHashValue Value].
  rewrite K1, K2, K3, K4, K5, K6, K7. reflexivity.
Qed.

Lemma max_depth_snoc (d : Z) (cs : list rtree) (c : rtree) :
  max_depth d (cs ++ [c]) = max_depth (Z.max d (Depth (root c))) cs.
Proof.
  unfold max_depth. rewrite fold_right_app. cbn [fold_right].
  rewrite Z.max_comm. reflexivity.
Qed.

(** The inner loop of [UpdateNodes], with the cursor on the last of the
    children [left] still to visit: the array it leaves. *)
Lemma UpdateNodes_children_exact (pre post : list Node) (left : list rtree) :
  Forall rwf left ->
  forall (done : list rtree) (s : Node) (fuel : nat),
  let i := zlen pre + zlen (flat left) + zlen (flat done) in
  zlen (pre ++ flat left ++ flat done ++ s :: post) < size_max ->
  Length s = zlen left + zlen (flat done) ->
  (length left <= fuel)%nat ->
  UpdateNodes_children fuel i (pre ++ flat left ++ flat done ++ s :: post)
                       (mkIt i (wrap (zlen pre + zlen (flat left) - 1)))
  = pre ++ flat (map (adopt i) left) ++ flat done
    ++ set_Depth (set_Length s (zlen (flat left) + zlen (flat done)))
                 (max_depth (Depth s) left) :: post.
Proof.
  intros Hwf. induction left as [|c left IH] using rev_ind;
    intros done s fuel i Hsz HL Hfuel.
  - change (flat []) with (@nil Node) in *. change (zlen (@nil Node)) with 0 in *.
    change (zlen (@nil rtree)) with 0 in *. cbn [map app max_depth fold_right] in *.
    replace (set_Depth (set_Length s (0 + zlen (flat done))) (Depth s)) with s
      by (rewrite <- HL; destruct s; reflexivity).
    destruct fuel as [|k]; [reflexivity|]. cbn [UpdateNodes_children].
    replace (HasNext _ _) with false; [reflexivity|].
    symmetry. unfold HasNext. cbn [index_ parentIndex_].
    assert (Hs : get (pre ++ flat done ++ s :: post) i = s).
    { apply get_at with (l1 := pre ++ flat done) (l2 := post); [list_eq | subst i; lens]. }
    rewrite Hs, HL.
    pose proof (zlen_nonneg pre). pose proof (zlen_nonneg (flat done)).
    assert (Hsz' : zlen pre + zlen (flat done) < size_max) by lens.
    rewrite (@wrap_small (i - (0 + zlen (flat done)))) by (subst i; lia).
    destruct (Z.eq_dec (zlen pre) 0) as [E|E].
    + rewrite E. cbn [Z.add Z.sub Z.opp Z.pos_sub]. rewrite wrap_minus_one.
      replace (size_max - 1 <? i) with false; [reflexivity|].
      symmetry. apply Z.ltb_ge. subst i. lia.
    + rewrite wrap_small by lia.
      replace (i - (0 + zlen (flat done)) <=? zlen pre + 0 - 1) with false;
        [apply andb_false_r|].
      symmetry. apply Z.leb_gt. subst i. lia.
  - apply Forall_app in Hwf. destruct Hwf as (Hleft & Hc). apply Forall_inv in Hc.
    destruct c as [m ds]. inversion Hc as [m0 ds0 Har Hlen Hds E]. subst m0 ds0.
    rewrite length_app in Hfuel. cbn [length] in Hfuel.
    destruct fuel as [|k]; [lia|].
    assert (Hflat : flat (left ++ [RNode m ds]) = flat left ++ flat ds ++ [m]).
    { rewrite flat_app. unfold flat at 2. cbn [flat_map]. rewrite app_nil_r. reflexivity. }
    pose proof (zlen_nonneg pre). pose proof (zlen_nonneg (flat left)).
    pose proof (zlen_nonneg (flat ds)). pose proof (zlen_nonneg (flat done)).
    pose proof (zlen_nonneg post). pose proof (zlen_flat_ge left).
    pose proof (zlen_nonneg left).
    assert (Hzl : zlen (flat (left ++ [RNode m ds])) = zlen (flat left) + zlen (flat ds) + 1)
      by (rewrite Hflat; lens).
    assert (Hzc : zlen (left ++ [RNode m ds]) = zlen left + 1) by lens.
    assert (Hsz' : i + 1 + zlen post < size_max) by (subst i; rewrite Hflat in Hsz; lens).
    set (A := pre ++ flat (left ++ [RNode m ds]) ++ flat done ++ s :: post) in *.
    set (idx := zlen pre + zlen (flat left) + zlen (flat ds)).
    assert (HA : A = (pre ++ flat left ++ flat ds) ++ m :: (flat done ++ s :: post)).
    { unfold A. rewrite Hflat. list_eq. }
    assert (HA' : A = (pre ++ flat (left ++ [RNode m ds]) ++ flat done) ++ s :: post).
    { unfold A. list_eq. }
    assert (Hgi : get A i = s) by (eapply get_at; [exact HA' | subst i; lens]).
    assert (Hgx : get A idx = m) by (eapply get_at; [exact HA | subst idx; lens]).
    cbn [UpdateNodes_children]. unfold HasNext, Index. cbn [index_ parentIndex_].
    rewrite Hgi, HL, Hzl, Hzc.
    replace (zlen pre + (zlen (flat left) + zlen (flat ds) + 1) - 1) with idx by (subst idx; lia).
    rewrite (@wrap_small idx) by (subst idx i; lia).
    rewrite (@wrap_small (i - _)) by (subst i; lia).
    replace (idx <? i) with true by (symmetry; apply Z.ltb_lt; subst idx i; lia).
    replace (i - (zlen left + 1 + zlen (flat done)) <=? idx) with true
      by (symmetry; apply Z.leb_le; subst idx i; lia).
    cbn [andb]. rewrite Hgx.
    set (s1 := set_Length s (zlen left + 1 + zlen (flat done) + Length m)).
    set (s2 := if Depth s1 <? Depth m then set_Depth s1 (Depth m) else s1).
    assert (Hp1 : put A i s2
                  = (pre ++ flat left ++ flat ds) ++ m :: (flat done ++ s2 :: post)).
    { erewrite put_at; [| exact HA' | subst i; lens]. rewrite Hflat. list_eq. }
    rewrite Hp1.
    assert (Eidx : idx = zlen (pre ++ flat left ++ flat ds)) by (subst idx; lens).
    clearbody idx. subst idx. rewrite get_app_mid, put_app_mid.
    unfold incr. cbn [index_ parentIndex_].
    rewrite get_app_mid.
    cbn [Length set_Parent]. rewrite Hlen.
    replace (zlen (pre ++ flat left ++ flat ds) - (zlen (flat ds) + 1))
      with (zlen pre + zlen (flat left) - 1) by lens.
    assert (Harr : (pre ++ flat left ++ flat ds) ++ set_Parent m i :: flat done ++ s2 :: post
                   = pre ++ flat left ++ flat (adopt i (RNode m ds) :: done) ++ s2 :: post).
    { rewrite flat_cons, flatten_adopt. cbn [root children]. list_eq. }
    rewrite Harr.
    assert (Hzad : zlen (flat (adopt i (RNode m ds) :: done))
                   = zlen (flat ds) + 1 + zlen (flat done)).
    { rewrite flat_cons, flatten_adopt. cbn [root children]. lens. }
    assert (Hi' : i = zlen pre + zlen (flat left) + zlen (flat (adopt i (RNode m ds) :: done))).
    { rewrite Hzad. subst i. lia. }
    assert (HL2 : Length s2 = zlen left + 1 + zlen (flat done) + Length m).
    { subst s2 s1. destruct (_ <? _); reflexivity. }
    assert (HD2 : Depth s2 = Z.max (Depth s) (Depth m)).
    { subst s2 s1. cbn [Depth set_Length]. destruct (Z.ltb_spec (Depth s) (Depth m));
        cbn [Depth set_Depth set_Length]; lia. }
    assert (Hs2 : same_but_Length_Depth s s2).
    { subst s2 s1. destruct (_ <? _); repeat split. }
    pose proof (IH Hleft (adopt i (RNode m ds) :: done) s2 k) as E1.
    cbv zeta in E1. rewrite <- Hi' in E1. rewrite E1.
    + rewrite map_app, flat_app. cbn [map].
      rewrite !flat_cons. change (flat []) with (@nil Node). rewrite app_nil_r.
      rewrite (set_Length_Depth_same _ _ Hs2), max_depth_snoc, HD2. cbn [root].
      rewrite flatten_adopt. cbn [root children].
      replace (zlen (flat left) + zlen ((flat ds ++ [set_Parent m i]) ++ flat done))
        with (zlen (flat left) + zlen (flat ds) + 1 + zlen (flat done)) by lens.
      list_eq.
    + rewrite <- Harr. lens.
    + rewrite HL2, Hlen, Hzad. lia.
    + lia.
Qed.

Lemma updated_leaf (n : Node) (cs : list rtree) :
  Arity n = 0 -> updated n cs = set_Length (set_Depth n 1) 0.
Proof.
  intros H. unfold updated, IsLeaf. rewrite H. cbn [Z.eqb].
  unfold set_Length, set_Arity, set_Depth.
  cbn [Kind Arity Length Depth Parent IsEnabled HashValue CalculatedHashValue Value].
  rewrite H. reflexivity.
Qed.

(** One round of the loop of [UpdateNodes] at a node whose children are
    done. *)
Lemma UpdateNodes_step_exact (pre post : list Node) (n : Node) (cs : list rtree) :
  zlen (pre ++ flat cs ++ n :: post) < size_max ->
  Arity n = zlen cs ->
  Forall rwf cs ->
  UpdateNodes_step (pre ++ flat cs ++ n :: post) (length pre + length (flat cs))%nat
  = pre ++ flat (map (adopt (zlen pre + zlen (flat cs))) cs) ++ updated n cs :: post.
Proof.
  intros Hsz Har Hwf. unfold UpdateNodes_step, updated.
  replace (Z.of_nat (length pre + length (flat cs))) with (zlen pre + zlen (flat cs)) by lens.
  set (iz := zlen pre + zlen (flat cs)).
  set (A := pre ++ flat cs ++ n :: post) in *.
  assert (HA : A = (pre ++ flat cs) ++ n :: post) by (unfold A; list_eq).
  assert (Hg : get A iz = n) by (eapply get_at; [exact HA | subst iz; lens]).
  rewrite Hg. unfold IsLeaf. cbn [Arity set_Length set_Depth].
  destruct (Arity n =? 0) eqn:E.
  - apply Z.eqb_eq in E. rewrite E in Har.
    assert (cs = []) by (destruct cs; [reflexivity | unfold zlen in Har; cbn [length] in Har; lia]).
    subst cs. cbn [map].
    erewrite put_at; [| exact HA | subst iz; lens]. list_eq.
  - set (s := set_Length (set_Depth n 1) (Arity n)).
    assert (Hp : put A iz s = pre ++ flat cs ++ flat [] ++ s :: post).
    { erewrite put_at; [| exact HA | subst iz; lens]. list_eq. }
    rewrite Hp.
    assert (Hiz : iz = zlen pre + zlen (flat cs) + zlen (flat [])).
    { change (flat []) with (@nil Node). change (zlen (@nil Node)) with 0. subst iz. lia. }
    pose proof (@UpdateNodes_children_exact pre post cs Hwf [] s
                (length (pre ++ flat cs ++ flat [] ++ s :: post))) as E1.
    cbv zeta in E1. rewrite <- Hiz in E1.
    unfold Children. replace (iz - 1) with (zlen pre + zlen (flat cs) - 1) by (subst iz; lia).
    rewrite E1.
    + change (flat []) with (@nil Node) in *. cbn [app] in *.
      change (zlen (@nil Node)) with 0.
      assert (Hiz' : iz = zlen (pre ++ flat (map (adopt iz) cs))).
      { rewrite zlen_app, zlen_flat_adopt. reflexivity. }
      match goal with
      | |- context [ ?l ++ ?x :: post ] =>
          match l with
          | flat (map (adopt iz) cs) =>
              replace (pre ++ l ++ x :: post) with ((pre ++ l) ++ x :: post) by list_eq;
              rewrite (@get_at _ (pre ++ l) post x iz eq_refl Hiz');
              rewrite (@put_at _ (pre ++ l) post x _ iz eq_refl Hiz')
          end
      end.
      rewrite <- app_assoc. do 2 f_equal.
      subst s. unfold set_Depth, set_Length.
      cbn [Kind Arity Length Depth Parent IsEnabled HashValue CalculatedHashValue Value].
      rewrite Z.add_0_r. reflexivity.
    + change (flat []) with (@nil Node). cbn [app]. subst A. lens.
    + change (flat []) with (@nil Node). change (zlen (@nil Node)) with 0.
      subst s. cbn [Length set_Length]. lia.
    + pose proof (zlen_flat_ge cs). lens.
Qed.

(** *** What [UpdateNodes] establishes *)

Lemma forest_at_Forall (P : Z -> rtree -> Prop) (Q : rtree -> Prop)
    (o : Z) (ts : list rtree) :
  Forall (fun t => forall o, P o t -> Q t) ts -> forest_at P o ts -> Forall Q ts.
Proof.
  intros H. revert o. induction H as [|t ts Ht _ IH]; intros o HP; [constructor|].
  inversion HP as [|o0 t0 ts0 HPt HPts]. subst. constructor; eauto.
Qed.

Lemma normal_rwf (o : Z) (t : rtree) : normal o t -> rwf t.
Proof.
  revert o. induction t as [n cs IH] using rtree_induction. intros o H.
  inversion H as [o0 n0 cs0 Har Hlen H3 H4 Hcs]. subst o0 n0 cs0.
  constructor; trivial.
  eapply forest_at_Forall; eassumption.
Qed.

Lemma normal_children (o : Z) (n : Node) (cs : list rtree) :
  normal o (RNode n cs) -> forest_at normal o cs.
Proof. intros H. inversion H. assumption. Qed.

Lemma forest_normal_rwf (o : Z) (ts : list rtree) : forest_at normal o ts -> Forall rwf ts.
Proof.
  apply forest_at_Forall. rewrite Forall_forall. intros t _ o'. apply normal_rwf.
Qed.

Lemma max_depth_ge (d : Z) (cs : list rtree) : d <= max_depth d cs.
Proof. induction cs as [|c cs IH]; cbn [max_depth fold_right]; [lia|]. fold (max_depth d cs). lia. Qed.

Lemma normal_Depth_pos (o : Z) (t : rtree) : normal o t -> 1 <= Depth (root t).
Proof.
  intros H. inversion H as [o0 n cs H1 H2 HD H4 H5]. cbn [root].
  pose proof (max_depth_ge 0 cs). lia.
Qed.

Lemma max_depth_normal (o : Z) (cs : list rtree) :
  forest_at normal o cs -> cs <> [] -> max_depth 1 cs = max_depth 0 cs.
Proof.
  induction 1 as [|o t ts Ht Hts IH]; intros Hne; [contradiction|].
  cbn [max_depth fold_right]. fold (max_depth 1 ts). fold (max_depth 0 ts).
  pose proof (normal_Depth_pos Ht).
  destruct ts as [|t' ts].
  - cbn [max_depth fold_right]. lia.
  - rewrite IH by discriminate. reflexivity.
Qed.

Lemma max_depth_adopt (d i : Z) (cs : list rtree) :
  max_depth d (map (adopt i) cs) = max_depth d cs.
Proof.
  induction cs as [|c cs IH]; [reflexivity|].
  cbn [map max_depth fold_right]. fold (max_depth d (map (adopt i) cs)). fold (max_depth d cs).
  rewrite IH. destruct c. reflexivity.
Qed.

Lemma normal_adopt (o i : Z) (t : rtree) : normal o t -> normal o (adopt i t).
Proof.
  intros H. inversion H as [o0 n cs H1 H2 H3 H4 H5]. subst.
  unfold adopt. cbn [root children]. constructor; assumption.
Qed.

Lemma forest_normal_adopt (o i : Z) (ts : list rtree) :
  forest_at normal o ts -> forest_at normal o (map (adopt i) ts).
Proof.
  induction 1 as [|o t ts Ht _ IH]; cbn [map]; constructor.
  - apply normal_adopt. exact Ht.
  - replace (zlen (flatten (adopt i t))) with (zlen (flatten t))
      by (unfold zlen; rewrite length_flatten_adopt; reflexivity).
    exact IH.
Qed.

Lemma same_content_size (t t' : rtree) :
  same_content t t' -> length (flatten t') = length (flatten t).
Proof.
  revert t'. induction t as [n cs IH] using rtree_induction. intros t' H.
  inversion H as [n0 n' cs0 cs' Hn Hcs]. subst n0 cs0 t'.
  rewrite !flatten_RNode, !length_app. f_equal.
  clear - IH Hcs. induction Hcs as [|c c' cs cs' Hc _ IHcs]; [reflexivity|].
  rewrite !flat_cons, !length_app, (Forall_inv IH _ Hc), (IHcs (Forall_inv_tail IH)).
  reflexivity.
Qed.

Lemma same_content_flatten (t t' : rtree) :
  same_content t t' -> map content (flatten t') = map content (flatten t).
Proof.
  revert t'. induction t as [n cs IH] using rtree_induction. intros t' H.
  inversion H as [n0 n' cs0 cs' Hn Hcs]. subst n0 cs0 t'.
  rewrite !flatten_RNode, !map_app. cbn [map]. rewrite Hn. f_equal.
  clear - IH Hcs. induction Hcs as [|c c' cs cs' Hc _ IHcs]; [reflexivity|].
  rewrite !flat_cons, !map_app, (Forall_inv IH _ Hc), (IHcs (Forall_inv_tail IH)).
  reflexivity.
Qed.

Lemma same_content_adopt (i : Z) (t t' : rtree) :
  same_content t t' -> same_content t (adopt i t').
Proof. intros H. destruct H as [n n' cs cs' Hn Hcs]. constructor; assumption. Qed.

Lemma awf_children (n : Node) (cs : list rtree) : awf (RNode n cs) -> Forall awf cs.
Proof. intros H. inversion H. assumption. Qed.

Lemma Forall2_same_content_adopt (i : Z) (cs cs' : list rtree) :
  Forall2 same_content cs cs' -> Forall2 same_content cs (map (adopt i) cs').
Proof.
  induction 1 as [|c c' cs cs' Hc _ IH]; cbn [map]; constructor;
    [apply same_content_adopt; exact Hc | exact IH].
Qed.

Lemma zlen_zero_nil {A} (l : list A) : zlen l = 0 -> l = [].
Proof. destruct l; [reflexivity|]. unfold zlen. cbn [length]. lia. Qed.

Lemma content_updated (n : Node) (cs : list rtree) : content (updated n cs) = content n.
Proof.
  unfold updated, IsLeaf. destruct (Z.eqb_spec (Arity n) 0) as [E0|E0]; [|reflexivity].
  unfold content. cbn. rewrite E0. reflexivity.
Qed.

Lemma Arity_updated (n : Node) (cs : list rtree) : Arity (updated n cs) = Arity n.
Proof.
  unfold updated, IsLeaf. destruct (Z.eqb_spec (Arity n) 0) as [E0|E0]; [|reflexivity].
  cbn. symmetry. exact E0.
Qed.

Lemma Length_updated (n : Node) (cs : list rtree) :
  Arity n = zlen cs -> Length (updated n cs) = zlen (flat cs).
Proof.
  intros Har. unfold updated, IsLeaf.
  destruct (Z.eqb_spec (Arity n) 0) as [E0|E0]; [|reflexivity].
  rewrite E0 in Har. symmetry in Har. apply zlen_zero_nil in Har. subst cs. reflexivity.
Qed.

Lemma Depth_updated (o : Z) (n : Node) (cs : list rtree) :
  Arity n = zlen cs -> forest_at normal o cs ->
  Depth (updated n cs) = 1 + max_depth 0 cs.
Proof.
  intros Har Hn. unfold updated, IsLeaf.
  destruct (Z.eqb_spec (Arity n) 0) as [E0|E0].
  - rewrite E0 in Har. symmetry in Har. apply zlen_zero_nil in Har. subst cs. reflexivity.
  - cbn [Depth set_Depth]. rewrite (max_depth_normal Hn); [lia|].
    intros ->. apply E0. rewrite Har. reflexivity.
Qed.

Lemma maintained_children (o : Z) (cs cs' : list rtree) :
  forest_rel maintained o cs cs' ->
  Forall2 same_content cs cs' /\ forest_at normal o cs'.
Proof.
  intros H. split.
  - apply (forest_rel_Forall2 same_content o).
    eapply forest_rel_impl; [|exact H]. cbn beta. intros ? ? ? (? & _). assumption.
  - eapply forest_rel_right; [|exact H]. cbn beta. intros o' t t' (Hc & Hn).
    split; [exact Hn|]. unfold zlen. rewrite (same_content_size Hc). reflexivity.
Qed.

Lemma UpdateNodes_forest (ts : list rtree) :
  Forall awf ts -> zlen (flat ts) < size_max ->
  exists ts', UpdateNodes (flat ts) = flat ts' /\ forest_rel maintained 0 ts ts'.
Proof.
  intros Hwf Hsz. unfold UpdateNodes.
  destruct (@postorder_at UpdateNodes_step (fun _ => awf) maintained size_max)
    with (ts := ts) (pre := @nil Node) (post := @nil Node) as (ts' & E & HR).
  - intros o n cs H. apply forest_at_const. apply (awf_children H).
  - intros o t t' (H & _). apply same_content_size. exact H.
  - intros pre post n cs cs' Hsz' Hwf' HR.
    destruct (maintained_children HR) as (Hsame & Hnorm).
    inversion Hwf' as [n0 cs0 Har Hcs]. subst n0 cs0.
    pose proof (Forall2_length Hsame) as Hl.
    assert (Har' : Arity n = zlen cs') by (rewrite Har; unfold zlen; rewrite Hl; reflexivity).
    rewrite (@UpdateNodes_step_exact pre post n cs' Hsz' Har' (forest_normal_rwf Hnorm)).
    exists (RNode (updated n cs') (map (adopt (zlen pre + zlen (flat cs'))) cs')). split.
    { rewrite flatten_RNode. list_eq. }
    split.
    + constructor; [symmetry; apply content_updated | apply Forall2_same_content_adopt; exact Hsame].
    + constructor.
      * rewrite Arity_updated, Har'. unfold zlen. rewrite length_map. reflexivity.
      * rewrite (@Length_updated n cs' Har'), zlen_flat_adopt. reflexivity.
      * rewrite (@Depth_updated (zlen pre) n cs' Har' Hnorm), max_depth_adopt. reflexivity.
      * rewrite zlen_flat_adopt. apply Forall_forall. intros c Hc.
        apply in_map_iff in Hc. destruct Hc as (c0 & <- & _). reflexivity.
      * apply forest_normal_adopt. exact Hnorm.
  - apply forest_at_const. exact Hwf.
  - rewrite app_nil_r. exact Hsz.
  - cbn [app length] in E. rewrite !app_nil_r in E. exists ts'. split; assumption.
Qed.

Lemma forest_rel_eq (o : Z) (ts ts' : list rtree) :
  forest_rel (fun _ t t' => t' = t) o ts ts' -> ts' = ts.
Proof. induction 1 as [|o t t' ts ts' Ht _ IH]; [reflexivity|]. rewrite Ht, IH. reflexivity. Qed.

Lemma adopt_own_parent (i : Z) (c : rtree) : Parent (root c) = i -> adopt i c = c.
Proof. destruct c as [m ds]. cbn [root]. intros <-. unfold adopt. cbn [root children]. destruct m. reflexivity. Qed.

Lemma map_adopt_own_parent (i : Z) (cs : list rtree) :
  Forall (fun c => Parent (root c) = i) cs -> map (adopt i) cs = cs.
Proof.
  induction 1 as [|c cs Hc _ IH]; [reflexivity|].
  cbn [map]. rewrite IH, (adopt_own_parent _ Hc). reflexivity.
Qed.

Lemma updated_normal (o : Z) (n : Node) (cs : list rtree) :
  normal o (RNode n cs) -> updated n cs = n.
Proof.
  intros H. inversion H as [o0 n0 cs0 Har Hlen HD HP Hcs]. subst o0 n0 cs0.
  unfold updated, IsLeaf. destruct (Z.eqb_spec (Arity n) 0) as [E0|E0].
  - rewrite E0 in Har. symmetry in Har. apply zlen_zero_nil in Har. subst cs.
    change (zlen (flat [])) with 0 in Hlen. cbn [max_depth fold_right] in HD.
    destruct n. cbn in *. subst. reflexivity.
  - rewrite (max_depth_normal Hcs) by (intros ->; apply E0; rewrite Har; reflexivity).
    rewrite <- Hlen. replace (max_depth 0 cs + 1) with (Depth n) by lia.
    destruct n. reflexivity.
Qed.

(** [UpdateNodes] changes nothing in an array whose derived fields are
    right already. *)
Lemma UpdateNodes_fixes_normal (ts : list rtree) :
  forest_at normal 0 ts -> zlen (flat ts) < size_max ->
  UpdateNodes (flat ts) = flat ts.
Proof.
  intros Hn Hsz. unfold UpdateNodes.
  destruct (@postorder_at UpdateNodes_step normal (fun _ t t' => t' = t) size_max)
    with (ts := ts) (pre := @nil Node) (post := @nil Node) as (ts' & E & HR).
  - apply normal_children.
  - intros o t t' ->. reflexivity.
  - intros pre post n cs cs' Hsz' Hwf' HR.
    apply forest_rel_eq in HR. subst cs'.
    inversion Hwf' as [o0 n0 cs0 Har Hlen HD HP Hcs]. subst o0 n0 cs0.
    rewrite (@UpdateNodes_step_exact pre post n cs Hsz' Har (forest_normal_rwf Hcs)).
    rewrite (map_adopt_own_parent HP), (updated_normal Hwf').
    exists (RNode n cs). split; [rewrite flatten_RNode; list_eq | reflexivity].
  - exact Hn.
  - rewrite app_nil_r. exact Hsz.
  - cbn [app length] in E. rewrite !app_nil_r in E. apply forest_rel_eq in HR.
    subst ts'. exact E.
Qed.

Lemma maintained_flat (o : Z) (ts ts' : list rtree) :
  forest_rel maintained o ts ts' ->
  map content (flat ts') = map content (flat ts) /\ forest_at normal o ts'.
Proof.
  intros H. destruct (maintained_children H) as (Hs & Hn). split; [|exact Hn].
  clear - Hs. induction Hs as [|t t' ts ts' Ht _ IH]; [reflexivity|].
  rewrite !flat_cons, !map_app, IH, (same_content_flatten Ht). reflexivity.
Qed.

(** The node at an index of a maintained array, with its children as
    the cursor finds them. *)
Lemma node_of_normal (ts : list rtree) (i : Z) :
  forest_at normal 0 ts -> zlen (flat ts) < size_max -> 0 <= i < zlen (flat ts) ->
  exists (o : Z) (n : Node) (cs : list rtree),
    get (flat ts) i = n
    /\ normal o (RNode n cs)
    /\ o + zlen (flat cs) = i
    /\ child_indices (flat ts) i = rev (root_positions o cs)
    /\ map (get (flat ts)) (root_positions o cs) = map root cs.
Proof.
  intros Hn Hsz Hi.
  destruct (@subtree_in normal normal_children ts 0 i Hn Hi)
    as (pre & cs & n & post & E & Hpos & Hnorm).
  rewrite Z.add_0_l in Hnorm.
  exists (zlen pre), n, cs. rewrite E in Hsz |- *.
  split; [|split; [exact Hnorm | split; [exact Hpos | split]]].
  - rewrite <- Hpos. rewrite app_assoc, <- zlen_app. apply get_app_mid.
  - unfold child_indices. rewrite <- Hpos.
    apply child_indices_roots; [exact Hsz | apply (normal_rwf Hnorm) |].
    pose proof (zlen_flat_ge cs). lens.
  - apply get_roots.
Qed.

(** In a maintained array every child that [Children(i)] yields lies
    before [i] and has [i] as its [Parent]. *)
Lemma normal_array_parent (ts : list rtree) (i j : Z) :
  forest_at normal 0 ts -> zlen (flat ts) < size_max -> 0 <= i < zlen (flat ts) ->
  In j (child_indices (flat ts) i) -> Parent (get (flat ts) j) = i /\ j < i.
Proof.
  intros Hn Hsz Hi.
  destruct (node_of_normal Hn Hsz Hi) as (o & n & cs & Hg & Hnorm & Hpos & Hch & Hroots).
  rewrite Hch. intros Hj. apply in_rev in Hj. split.
  - apply (in_map (get (flat ts))) in Hj. rewrite Hroots in Hj.
    apply in_map_iff in Hj. destruct Hj as (c & Hc & Hin). rewrite <- Hc.
    inversion Hnorm as [o0 n0 cs0 Har HL HD HP Hcs]. subst o0 n0 cs0.
    rewrite Forall_forall in HP. rewrite (HP c Hin). exact Hpos.
  - pose proof (root_positions_bounds o cs) as Hb. rewrite Forall_forall in Hb.
    specialize (Hb j Hj). lia.
Qed.

Lemma list_max_rev (l : list Z) : list_max (rev l) = list_max l.
Proof.
  unfold list_max. induction l as [|x l IH]; [reflexivity|].
  cbn [rev fold_right]. rewrite fold_right_app. cbn [fold_right].
  rewrite <- IH. clear IH. generalize (rev l). intros r.
  induction r as [|y r IHr]; cbn [fold_right]; [lia|]. rewrite IHr. lia.
Qed.

Lemma max_depth_list_max (cs : list rtree) :
  max_depth 0 cs = list_max (map Depth (map root cs)).
Proof. induction cs as [|c cs IH]; [reflexivity|]. cbn. fold (max_depth 0 cs). rewrite IH. reflexivity. Qed.

Lemma ex_raw_layout : postfix_layout ex_raw.
Proof.
  exists [ex_raw_tree]. split; [|reflexivity].
  repeat (constructor; try reflexivity).
Qed.

(** X1. [UpdateNodes] establishes the subtree-range invariant: on every
    postfix array whose nodes carry their number of children as
    [Arity], whatever their derived fields, it leaves an array that
    satisfies the invariant, with the same nodes in the same places as
    far as kind, arity, flag, hashes and value go. *)
Theorem UpdateNodes_establishes_invariant (nodes : list Node) :
  postfix_layout nodes -> zlen nodes < size_max ->
  subtree_range_invariant (UpdateNodes nodes)
  /\ map content (UpdateNodes nodes) = map content nodes.
Proof.
  intros (ts & Hwf & ->) Hsz.
  destruct (UpdateNodes_forest Hwf Hsz) as (ts' & E & HR).
  destruct (maintained_flat HR) as (Hc & Hn). rewrite E.
  split; [|exact Hc]. split.
  - rewrite <- E. unfold zlen. rewrite length_UpdateNodes. exact Hsz.
  - exists ts'. split; [apply (forest_normal_rwf Hn) | reflexivity].
Qed.

Lemma UpdateNodes_establishes_invariant_witness :
  postfix_layout ex_raw /\ zlen ex_raw < size_max
  /\ subtree_range_invariant (UpdateNodes ex_raw)
  /\ map content (UpdateNodes ex_raw) = map content ex_raw.
Proof.
  split; [exact ex_raw_layout|]. split; [reflexivity|].
  apply (@UpdateNodes_establishes_invariant ex_raw ex_raw_layout). reflexivity.
Defined.

(** X2. After [UpdateNodes], the [Depth] of every node is one more than
    the largest [Depth] among its children as [Children(i)] yields
    them, and 1 for a node without children. *)
Theorem UpdateNodes_Depth (nodes : list Node) (i : Z) :
  postfix_layout nodes -> zlen nodes < size_max -> 0 <= i < zlen nodes ->
  let res := UpdateNodes nodes in
  Depth (get res i)
  = 1 + list_max (map (fun j => Depth (get res j)) (child_indices res i)).
Proof.
  intros (ts & Hwf & ->) Hsz Hi res.
  destruct (UpdateNodes_forest Hwf Hsz) as (ts' & E & HR).
  destruct (maintained_flat HR) as (_ & Hn).
  assert (Hlen : zlen (flat ts') = zlen (flat ts)).
  { rewrite <- E. unfold zlen. rewrite length_UpdateNodes. reflexivity. }
  subst res. rewrite E. rewrite <- Hlen in Hsz, Hi.
  destruct (node_of_normal Hn Hsz Hi) as (o & n & cs & Hg & Hnorm & Hpos & Hch & Hroots).
  rewrite Hg, Hch.
  inversion Hnorm as [o0 n0 cs0 Har HL HD HP Hcs]. subst o0 n0 cs0.
  rewrite HD, max_depth_list_max. f_equal.
  rewrite <- (map_map (get (flat ts')) Depth), map_rev, Hroots, map_rev.
  symmetry. apply list_max_rev.
Qed.

Lemma UpdateNodes_Depth_witness :
  Depth (get (UpdateNodes ex_raw) 4) = 3
  /\ Depth (get (UpdateNodes ex_raw) 4)
     = 1 + list_max (map (fun j => Depth (get (UpdateNodes ex_raw) j))
                         (child_indices (UpdateNodes ex_raw) 4)).
Proof.
  split; [reflexivity|].
  apply (@UpdateNodes_Depth ex_raw 4 ex_raw_layout); [reflexivity|].
  split; [lia | reflexivity].
Defined.

(** X3. After [UpdateNodes], every child that [Children(i)] yields has
    [i] as its [Parent]. *)
Theorem UpdateNodes_Parent (nodes : list Node) (i j : Z) :
  postfix_layout nodes -> zlen nodes < size_max -> 0 <= i < zlen nodes ->
  let res := UpdateNodes nodes in
  In j (child_indices res i) -> Parent (get res j) = i.
Proof.
  intros (ts & Hwf & ->) Hsz Hi res.
  destruct (UpdateNodes_forest Hwf Hsz) as (ts' & E & HR).
  destruct (maintained_flat HR) as (_ & Hn).
  assert (Hlen : zlen (flat ts') = zlen (flat ts)).
  { rewrite <- E. unfold zlen. rewrite length_UpdateNodes. reflexivity. }
  subst res. rewrite E. rewrite <- Hlen in Hsz, Hi.
  intros Hj. apply (@normal_array_parent ts' i j Hn Hsz Hi Hj).
Qed.

Lemma UpdateNodes_Parent_witness :
  child_indices (UpdateNodes ex_raw) 3 = [2; 1]
  /\ Parent (get (UpdateNodes ex_raw) 1) = 3.
Proof.
  split; [reflexivity|].
  apply (@UpdateNodes_Parent ex_raw 3 1 ex_raw_layout); [reflexivity | |].
  - split; [lia | reflexivity].
  - vm_compute. right. left. reflexivity.
Defined.

(** X4. [UpdateNodes] is idempotent: a second pass changes nothing. *)
Theorem UpdateNodes_idempotent (nodes : list Node) :
  postfix_layout nodes -> zlen nodes < size_max ->
  UpdateNodes (UpdateNodes nodes) = UpdateNodes nodes.
Proof.
  intros (ts & Hwf & ->) Hsz.
  destruct (UpdateNodes_forest Hwf Hsz) as (ts' & E & HR).
  destruct (maintained_flat HR) as (_ & Hn). rewrite E.
  apply UpdateNodes_fixes_normal; [exact Hn|].
  rewrite <- E. unfold zlen. rewrite length_UpdateNodes. exact Hsz.
Qed.

Lemma UpdateNodes_idempotent_witness :
  UpdateNodes ex_raw <> ex_raw
  /\ UpdateNodes (UpdateNodes ex_raw) = UpdateNodes ex_raw.
Proof.
  split; [vm_compute; discriminate|].
  apply (@UpdateNodes_idempotent ex_raw ex_raw_layout). reflexivity.
Defined.

(** *** [Tree::SetEnabled] *)

Lemma SetEnabled_loop_spec (b : bool) (B : list Node) :
  forall (A C : list Node) (fuel : nat),
  zlen (A ++ B) < size_max ->
  (length B < fuel)%nat ->
  SetEnabled_loop fuel (A ++ B ++ C) (zlen A + zlen B - 1) (zlen A) b
  = A ++ map (fun n => set_IsEnabled n b) B ++ C.
Proof.
  induction B as [|x B IH]; intros A C fuel Hsz Hfuel.
  - destruct fuel as [|k]; [reflexivity|]. cbn [SetEnabled_loop map app].
    change (zlen (@nil Node)) with 0.
    replace (zlen A <=? zlen A + 0 - 1) with false by (symmetry; apply Z.leb_gt; lia).
    reflexivity.
  - destruct fuel as [|k]; [inversion Hfuel|]. cbn [length] in Hfuel.
    cbn [SetEnabled_loop]. rewrite zlen_cons.
    pose proof (zlen_nonneg A). pose proof (zlen_nonneg B).
    replace (zlen A <=? zlen A + (1 + zlen B) - 1) with true by (symmetry; apply Z.leb_le; lia).
    cbn [app]. rewrite get_app_mid, put_app_mid.
    rewrite zlen_app, zlen_cons in Hsz.
    rewrite wrap_small by lia.
    replace (A ++ set_IsEnabled x b :: B ++ C) with ((A ++ [set_IsEnabled x b]) ++ B ++ C)
      by list_eq.
    replace (zlen A + 1) with (zlen (A ++ [set_IsEnabled x b])) by lens.
    replace (zlen A + (1 + zlen B) - 1) with (zlen (A ++ [set_IsEnabled x b]) + zlen B - 1)
      by lens.
    rewrite IH; [cbn [map]; list_eq | lens | lia].
Qed.

Lemma split_range (nodes : list Node) (lo len : Z) :
  0 <= lo -> 0 <= len -> lo + len <= zlen nodes ->
  nodes = firstn (Z.to_nat lo) nodes ++ range nodes lo len
          ++ skipn (Z.to_nat (lo + len)) nodes
  /\ zlen (firstn (Z.to_nat lo) nodes) = lo
  /\ zlen (range nodes lo len) = len.
Proof.
  intros Hlo Hlen Hle. unfold range, zlen in *. split; [|split].
  - rewrite Z2Nat.inj_add by lia.
    rewrite (Nat.add_comm (Z.to_nat lo)), <- skipn_skipn.
    rewrite firstn_skipn, firstn_skipn. reflexivity.
  - rewrite length_firstn. lia.
  - rewrite length_firstn, length_skipn. lia.
Qed.

(** X5. [SetEnabled(i, enabled)] sets the flag of the [Length(i) + 1]
    nodes of the range [i - Length(i), i], the subtree of [i], and
    leaves every other node and every other field as it was. *)
Theorem SetEnabled_marks_subtree (nodes : list Node) (i : Z) (enabled : bool) :
  0 <= Length (get nodes i) <= i -> i < zlen nodes -> zlen nodes < size_max ->
  let lo := i - Length (get nodes i) in
  SetEnabled nodes i enabled
  = firstn (Z.to_nat lo) nodes
    ++ map (fun n => set_IsEnabled n enabled) (range nodes lo (Length (get nodes i) + 1))
    ++ skipn (Z.to_nat (i + 1)) nodes.
Proof.
  intros HL Hi Hsz lo. unfold SetEnabled. fold lo.
  rewrite wrap_small by (subst lo; lia).
  destruct (@split_range nodes lo (Length (get nodes i) + 1)) as (E & E1 & E2);
    try (subst lo; lia).
  replace (lo + (Length (get nodes i) + 1)) with (i + 1) in E by (subst lo; lia).
  pose proof (@SetEnabled_loop_spec enabled
                (range nodes lo (Length (get nodes i) + 1))
                (firstn (Z.to_nat lo) nodes) (skipn (Z.to_nat (i + 1)) nodes)
                (S (length nodes))) as H.
  rewrite <- E, E1, E2 in H.
  replace (lo + (Length (get nodes i) + 1) - 1) with i in H by (subst lo; lia).
  apply H.
  - rewrite zlen_app, E1, E2. subst lo. lia.
  - unfold zlen in *. lia.
Qed.

Lemma SetEnabled_marks_subtree_witness :
  map IsEnabled (SetEnabled ex_nodes 3 false) = [true; false; false; false; true]
  /\ SetEnabled ex_nodes 3 false
     = firstn 1 ex_nodes
       ++ map (fun n => set_IsEnabled n false) (range ex_nodes 1 3)
       ++ skipn 4 ex_nodes.
Proof.
  split; [reflexivity|].
  apply (@SetEnabled_marks_subtree ex_nodes 3 false).
  - split; vm_compute; discriminate.
  - reflexivity.
  - reflexivity.
Defined.

(** *** Coefficients *)

Lemma has_coefficient_set_Value (s : Node) (c : double) :
  has_coefficient (set_Value s c) = has_coefficient s.
Proof. reflexivity. Qed.

Lemma set_Value_same (s : Node) : set_Value s (Value s) = s.
Proof. destruct s. reflexivity. Qed.

Lemma nth_error_app_mid {A} (l1 l2 : list A) (x : A) :
  nth_error (l1 ++ x :: l2) (length l1) = Some x.
Proof. induction l1 as [|a l1 IH]; [reflexivity | exact IH]. Qed.

Lemma SetCoefficients_loop_get (nodes : list Node) :
  forall pre post : list double,
  SetCoefficients_loop nodes (pre ++ GetCoefficients nodes ++ post) (length pre) = Some nodes.
Proof.
  induction nodes as [|s nodes IH]; intros pre post; [reflexivity|].
  cbn [SetCoefficients_loop GetCoefficients].
  destruct (has_coefficient s) eqn:E.
  - cbn [app]. rewrite nth_error_app_mid.
    replace (pre ++ Value s :: GetCoefficients nodes ++ post)
      with ((pre ++ [Value s]) ++ GetCoefficients nodes ++ post)
      by (rewrite <- app_assoc; reflexivity).
    replace (S (length pre)) with (length (pre ++ [Value s]))
      by (rewrite length_app; cbn [length]; lia).
    rewrite IH, set_Value_same. reflexivity.
  - rewrite IH. reflexivity.
Qed.

(** X6. Writing back the coefficients just read changes nothing:
    [SetCoefficients(GetCoefficients())] succeeds and leaves the tree
    as it was. *)
Theorem SetCoefficients_GetCoefficients (nodes : list Node) :
  SetCoefficients nodes (GetCoefficients nodes) = Some nodes.
Proof.
  unfold SetCoefficients.
  pose proof (SetCoefficients_loop_get nodes [] []) as H.
  cbn [app length] in H. rewrite app_nil_r in H. exact H.
Qed.

Lemma SetCoefficients_loop_set (nodes : list Node) :
  forall pre c : list double,
  (length (GetCoefficients nodes) <= length c)%nat ->
  exists nodes',
    SetCoefficients_loop nodes (pre ++ c) (length pre) = Some nodes'
    /\ GetCoefficients nodes' = firstn (length (GetCoefficients nodes)) c
    /\ Forall2 (fun n n' => exists x, n' = set_Value n x) nodes nodes'.
Proof.
  induction nodes as [|s nodes IH]; intros pre c Hlen.
  - exists []. repeat split; constructor.
  - cbn [SetCoefficients_loop GetCoefficients] in *.
    destruct (has_coefficient s) eqn:E.
    + cbn [length] in Hlen. destruct c as [|x c]; [inversion Hlen|].
      cbn [length] in Hlen. rewrite nth_error_app_mid.
      destruct (IH (pre ++ [x]) c) as (nodes' & E1 & E2 & E3); [lia|].
      rewrite <- app_assoc in E1. cbn [app] in E1.
      rewrite length_app in E1. cbn [length] in E1. rewrite Nat.add_1_r in E1.
      rewrite E1. exists (set_Value s x :: nodes'). split; [reflexivity|]. split.
      * cbn [GetCoefficients]. rewrite has_coefficient_set_Value, E.
        cbn [length firstn Value set_Value]. rewrite E2. reflexivity.
      * constructor; [exists x; reflexivity | exact E3].
    + destruct (IH pre c Hlen) as (nodes' & E1 & E2 & E3).
      rewrite E1. exists (s :: nodes'). split; [reflexivity|]. split.
      * cbn [GetCoefficients]. rewrite E. exact E2.
      * constructor; [|exact E3]. exists (Value s). symmetry. apply set_Value_same.
Qed.

(** X7. With at least as many coefficients as the tree has constants
    and variables, [SetCoefficients] succeeds, [GetCoefficients] then
    returns the coefficients that were written (all of them when the
    sizes match), and nothing but the [Value] of a node has changed. *)
Theorem GetCoefficients_SetCoefficients (nodes : list Node) (c : list double) :
  (length (GetCoefficients nodes) <= length c)%nat ->
  exists nodes',
    SetCoefficients nodes c = Some nodes'
    /\ GetCoefficients nodes' = firstn (length (GetCoefficients nodes)) c
    /\ (length c = length (GetCoefficients nodes) -> GetCoefficients nodes' = c)
    /\ Forall2 (fun n n' => exists x, n' = set_Value n x) nodes nodes'.
Proof.
  intros Hlen. destruct (@SetCoefficients_loop_set nodes [] c Hlen) as (nodes' & E1 & E2 & E3).
  exists nodes'. split; [exact E1|]. split; [exact E2|]. split; [|exact E3].
  intros Heq. rewrite E2, <- Heq. apply firstn_all.
Qed.

Lemma GetCoefficients_SetCoefficients_witness :
  exists nodes',
    SetCoefficients ex_nodes [five; seven; nine] = Some nodes'
    /\ GetCoefficients nodes' = [five; seven; nine].
Proof.
  destruct (@GetCoefficients_SetCoefficients ex_nodes [five; seven; nine])
    as (nodes' & E1 & _ & E3 & _).
  - cbn. lia.
  - exists nodes'. split; [exact E1 | apply E3; reflexivity].
Defined.

(** X8. When the leaves of a tree are its constants and variables,
    [CoefficientsCount()] is the number of coefficients that
    [GetCoefficients] returns and [SetCoefficients] consumes. *)
Theorem CoefficientsCount_GetCoefficients (nodes : list Node) :
  Forall (fun n => IsLeaf n = has_coefficient n) nodes ->
  CoefficientsCount nodes = length (GetCoefficients nodes).
Proof.
  unfold CoefficientsCount. induction 1 as [|s nodes Hs _ IH]; [reflexivity|].
  cbn [filter GetCoefficients]. rewrite Hs.
  destruct (has_coefficient s); cbn [length]; rewrite IH; reflexivity.
Qed.

Lemma CoefficientsCount_GetCoefficients_witness :
  CoefficientsCount ex_nodes = 3%nat
  /\ CoefficientsCount ex_nodes = length (GetCoefficients ex_nodes).
Proof.
  split; [reflexivity|].
  apply (@CoefficientsCount_GetCoefficients ex_nodes).
  repeat constructor.
Defined.

(** *** More about [Tree::Hash] *)

Section HashMore.
Variable hasher : list Z -> Z.
Variable hasher_leaf : Z -> Double.double -> Z.
Variable mode : HashMode.

Local Notation rhash := (rhash hasher hasher_leaf mode).
Local Notation Hash := (Hash hasher hasher_leaf mode).
Local Notation node_hash := (node_hash hasher hasher_leaf mode).
Local Notation hashed := (hashed_tree hasher hasher_leaf mode).

Lemma node_hash_set_hash (n : Node) (h : Z) (roots : list Node) :
  node_hash (set_CalculatedHashValue n h) roots = node_hash n roots.
Proof. reflexivity. Qed.

Lemma map_root_rhash_key (cs : list rtree) :
  Forall (fun c => rhash (rhash c) = rhash c) cs ->
  map rhash (map rhash cs) = map rhash cs.
Proof. induction 1 as [|c cs Hc _ IH]; [reflexivity|]. cbn [map]. rewrite Hc, IH. reflexivity. Qed.

Lemma rhash_idempotent (t : rtree) : rhash (rhash t) = rhash t.
Proof.
  induction t as [n cs IH] using rtree_induction.
  cbn [TreeShape.rhash]. rewrite (map_root_rhash_key IH), node_hash_set_hash.
  reflexivity.
Qed.

Lemma hashed_rhash (t : rtree) : hashed (rhash t).
Proof.
  induction t as [n cs IH] using rtree_induction.
  cbn [TreeShape.rhash]. constructor.
  - rewrite node_hash_set_hash. reflexivity.
  - rewrite Forall_map. exact IH.
Qed.

Lemma unhashed_flatten (t : rtree) :
  map (fun n => set_CalculatedHashValue n 0) (flatten (rhash t))
  = map (fun n => set_CalculatedHashValue n 0) (flatten t).
Proof.
  induction t as [n cs IH] using rtree_induction.
  cbn [TreeShape.rhash]. rewrite !flatten_RNode, !map_app. cbn [map]. f_equal.
  induction IH as [|c cs Hc _ IHcs]; [reflexivity|].
  cbn [map]. rewrite !flat_cons, !map_app, Hc, IHcs. reflexivity.
Qed.

Lemma Forall_rwf_rhash (ts : list rtree) : Forall rwf ts -> Forall rwf (map rhash ts).
Proof. intros H. rewrite Forall_map. eapply Forall_impl; [|exact H]. apply rwf_rhash. Qed.

(** X9. [Hash] computes [CalculatedHashValue] and touches nothing
    else: every other field of every node is as before, in the same
    place. *)
Theorem Hash_changes_only_the_hash (nodes : list Node) :
  subtree_range_invariant nodes ->
  map (fun n => set_CalculatedHashValue n 0) (Hash nodes)
  = map (fun n => set_CalculatedHashValue n 0) nodes.
Proof.
  intros (Hsz & ts & Hwf & ->). rewrite (Hash_flat hasher hasher_leaf mode Hwf Hsz).
  clear Hsz Hwf. induction ts as [|t ts IH]; [reflexivity|].
  cbn [map]. rewrite !flat_cons, !map_app, IH, unhashed_flatten. reflexivity.
Qed.

(** X10. [Hash] is idempotent: hashing a hashed tree again, in the
    same mode, gives the same array. *)
Theorem Hash_idempotent (nodes : list Node) :
  subtree_range_invariant nodes ->
  Hash (Hash nodes) = Hash nodes.
Proof.
  intros (Hsz & ts & Hwf & ->). rewrite (Hash_flat hasher hasher_leaf mode Hwf Hsz).
  rewrite (@Hash_flat hasher hasher_leaf mode (map rhash ts) (Forall_rwf_rhash Hwf)).
  - f_equal. rewrite map_map. apply map_ext. intros t. apply rhash_idempotent.
  - unfold zlen in *. rewrite length_flat_rhash. exact Hsz.
Qed.

Lemma hashed_children (o : Z) (n : Node) (cs : list rtree) :
  rwf (RNode n cs) /\ hashed (RNode n cs) ->
  forest_at (fun _ t => rwf t /\ hashed t) o cs.
Proof.
  intros (Hwf & Hh). inversion Hwf as [n0 cs0 H1 H2 Hcs E]. subst.
  inversion Hh as [n0 cs0 H3 Hhs]. subst.
  apply (forest_at_const (fun t => rwf t /\ hashed t) o).
  rewrite Forall_forall in *. intros c Hc. split; auto.
Qed.

(** X11. After [Hash], the hash of every node is the hash of its kind
    of node over the hashes its children have in the same array: a
    leaf's own, and for an inner node the digest of its children's
    hashes, sorted if the node is commutative, followed by its own
    [HashValue]. *)
Theorem Hash_node_equation (nodes : list Node) (i : Z) :
  subtree_range_invariant nodes -> 0 <= i < zlen nodes ->
  let res := Hash nodes in
  CalculatedHashValue (get res i)
  = node_hash (get res i) (rev (map (get res) (child_indices res i))).
Proof.
  intros (Hsz & ts & Hwf & ->) Hi res. subst res.
  rewrite (Hash_flat hasher hasher_leaf mode Hwf Hsz).
  assert (Hlen : zlen (flat (map rhash ts)) = zlen (flat ts)).
  { unfold zlen. rewrite length_flat_rhash. reflexivity. }
  rewrite <- Hlen in Hi, Hsz.
  assert (HP : forest_at (fun _ t => rwf t /\ hashed t) 0 (map rhash ts)).
  { apply (forest_at_const (fun t => rwf t /\ hashed t) 0). rewrite Forall_map.
    eapply Forall_impl; [|exact Hwf]. cbn beta. intros t Ht.
    split; [apply rwf_rhash; exact Ht | apply hashed_rhash]. }
  destruct (@subtree_in (fun _ t => rwf t /\ hashed t) hashed_children
              (map rhash ts) 0 i HP Hi)
    as (pre & cs & n & post & E & Hpos & Hrwf & Hh).
  rewrite E in Hsz |- *.
  assert (Hg : get (pre ++ flat cs ++ n :: post) i = n).
  { rewrite <- Hpos. rewrite app_assoc, <- zlen_app. apply get_app_mid. }
  rewrite Hg. unfold child_indices. rewrite <- Hpos.
  rewrite child_indices_roots; [|exact Hsz | exact Hrwf | pose proof (zlen_flat_ge cs); lens].
  rewrite map_rev, rev_involutive, get_roots.
  inversion Hh as [n0 cs0 H3 Hhs]. subst. exact H3.
Qed.

End HashMore.

Lemma Hash_changes_only_the_hash_witness :
  map (fun n => set_CalculatedHashValue n 0)
      (Hash ex_hasher ex_hasher_leaf Strict ex_nodes)
  = map (fun n => set_CalculatedHashValue n 0) ex_nodes.
Proof.
  apply (@Hash_changes_only_the_hash ex_hasher ex_hasher_leaf Strict ex_nodes).
  exact ex_nodes_invariant.
Defined.

Lemma Hash_idempotent_witness :
  Hash ex_hasher ex_hasher_leaf Strict ex_nodes <> ex_nodes
  /\ Hash ex_hasher ex_hasher_leaf Strict (Hash ex_hasher ex_hasher_leaf Strict ex_nodes)
     = Hash ex_hasher ex_hasher_leaf Strict ex_nodes.
Proof.
  split; [vm_compute; discriminate|].
  apply (@Hash_idempotent ex_hasher ex_hasher_leaf Strict ex_nodes).
  exact ex_nodes_invariant.
Defined.

Lemma Hash_node_equation_witness :
  child_indices (Hash ex_hasher ex_hasher_leaf Relaxed ex_nodes) 4 = [3; 0]
  /\ CalculatedHashValue (get (Hash ex_hasher ex_hasher_leaf Relaxed ex_nodes) 4)
     = node_hash ex_hasher ex_hasher_leaf Relaxed
         (get (Hash ex_hasher ex_hasher_leaf Relaxed ex_nodes) 4)
         (rev (map (get (Hash ex_hasher ex_hasher_leaf Relaxed ex_nodes))
                   (child_indices (Hash ex_hasher ex_hasher_leaf Relaxed ex_nodes) 4))).
Proof.
  split; [reflexivity|].
  apply (@Hash_node_equation ex_hasher ex_hasher_leaf Relaxed ex_nodes 4).
  - exact ex_nodes_invariant.
  - split; [lia | reflexivity].
Defined.

(** *** Reading an array that is node by node related to a forest as a forest *)

Section Reshape.
Variable Rn : Node -> Node -> Prop.

Lemma reshape_forest (ts : list rtree) :
  Forall (fun t => forall l, Forall2 Rn (flatten t) l ->
                   exists t', l = flatten t' /\ tree_rel Rn t t') ts ->
  forall l, Forall2 Rn (flat ts) l ->
  exists ts', l = flat ts' /\ Forall2 (tree_rel Rn) ts ts'.
Proof.
  induction 1 as [|t ts Ht _ IH]; intros l Hl.
  - inversion Hl. exists []. split; [reflexivity | constructor].
  - rewrite flat_cons in Hl. apply Forall2_app_inv_l in Hl.
    destruct Hl as (l1 & l2 & H1 & H2 & ->).
    destruct (Ht l1 H1) as (t' & -> & Ht'). destruct (IH l2 H2) as (ts' & -> & Hts').
    exists (t' :: ts'). split; [reflexivity | constructor; assumption].
Qed.

Lemma reshape_tree (t : rtree) :
  forall l, Forall2 Rn (flatten t) l -> exists t', l = flatten t' /\ tree_rel Rn t t'.
Proof.
  induction t as [n cs IH] using rtree_induction. intros l Hl.
  rewrite flatten_RNode in Hl. apply Forall2_app_inv_l in Hl.
  destruct Hl as (l1 & l2 & H1 & H2 & ->).
  destruct (reshape_forest IH H1) as (cs' & -> & Hcs').
  inversion H2 as [|n0 n' l0 l0' Hn Hnil]. subst. inversion Hnil. subst.
  exists (RNode n' cs'). split; [reflexivity | constructor; assumption].
Qed.

Lemma reshape (ts : list rtree) (l : list Node) :
  Forall2 Rn (flat ts) l -> exists ts', l = flat ts' /\ Forall2 (tree_rel Rn) ts ts'.
Proof.
  apply reshape_forest. rewrite Forall_forall. intros t _. apply reshape_tree.
Qed.

End Reshape.

Lemma tree_rel_size (Rn : Node -> Node -> Prop) (t t' : rtree) :
  tree_rel Rn t t' -> length (flatten t') = length (flatten t).
Proof.
  revert t'. induction t as [n cs IH] using rtree_induction. intros t' H.
  inversion H as [n0 n' cs0 cs' Hn Hcs]. subst n0 cs0 t'.
  rewrite !flatten_RNode, !length_app. f_equal.
  clear - IH Hcs. induction Hcs as [|c c' cs cs' Hc _ IHcs]; [reflexivity|].
  rewrite !flat_cons, !length_app, (Forall_inv IH _ Hc), (IHcs (Forall_inv_tail IH)).
  reflexivity.
Qed.

Lemma tree_rel_flat_size (Rn : Node -> Node -> Prop) (ts ts' : list rtree) :
  Forall2 (tree_rel Rn) ts ts' -> length (flat ts') = length (flat ts).
Proof.
  induction 1 as [|t t' ts ts' Ht _ IH]; [reflexivity|].
  rewrite !flat_cons, !length_app, IH, (tree_rel_size Ht). reflexivity.
Qed.

Lemma revalued_rwf (t t' : rtree) : tree_rel revalued t t' -> rwf t -> rwf t'.
Proof.
  revert t'. induction t as [n cs IH] using rtree_induction. intros t' H Hwf.
  inversion H as [n0 n' cs0 cs' (x & Hn) Hcs]. subst n0 cs0 t' n'.
  inversion Hwf as [n0 cs0 Har Hlen Hwfs E]. subst n0 cs0.
  constructor.
  - cbn [Arity set_Value]. rewrite Har. unfold zlen. rewrite (Forall2_length Hcs). reflexivity.
  - cbn [Length set_Value]. rewrite Hlen. unfold zlen.
    rewrite (tree_rel_flat_size Hcs). reflexivity.
  - clear - IH Hcs Hwfs. induction Hcs as [|c c' cs cs' Hc _ IHcs]; constructor.
    + apply (Forall_inv IH _ Hc). exact (Forall_inv Hwfs).
    + apply IHcs; [exact (Forall_inv_tail IH) | exact (Forall_inv_tail Hwfs)].
Qed.

Lemma SetCoefficients_loop_revalued (nodes : list Node) :
  forall (c : list double) (idx : nat) (nodes' : list Node),
  SetCoefficients_loop nodes c idx = Some nodes' -> Forall2 revalued nodes nodes'.
Proof.
  induction nodes as [|s nodes IH]; intros c idx nodes' H; cbn [SetCoefficients_loop] in H.
  - inversion H. constructor.
  - destruct (has_coefficient s).
    + destruct (nth_error c idx) as [x|]; [|discriminate].
      destruct (SetCoefficients_loop nodes c (S idx)) as [rest|] eqn:E; [|discriminate].
      inversion H. constructor; [exists x; reflexivity | eapply IH; exact E].
    + destruct (SetCoefficients_loop nodes c idx) as [rest|] eqn:E; [|discriminate].
      inversion H. constructor; [|eapply IH; exact E].
      exists (Value s). symmetry. apply set_Value_same.
Qed.

Section RelaxedHash.
Variable hasher : list Z -> Z.
Variable hasher_leaf : Z -> Double.double -> Z.

Local Notation rhash := (rhash hasher hasher_leaf Relaxed).
Local Notation Hash := (Hash hasher hasher_leaf Relaxed).
Local Notation node_hash := (node_hash hasher hasher_leaf Relaxed).

Lemma node_hash_Relaxed_keys (n : Node) (x : double) (roots roots' : list Node) :
  map key roots' = map key roots ->
  node_hash (set_Value n x) roots' = node_hash n roots.
Proof.
  intros Hk. unfold TreeShape.node_hash, IsLeaf, IsCommutative.
  cbn [Arity Kind HashValue set_Value].
  destruct (Arity n =? 0); [reflexivity|]. f_equal. f_equal.
  destruct (match Kind n with Add | Mul => true | _ => false end).
  - apply sorted_hashes_perm. rewrite !map_rev, Hk. reflexivity.
  - apply (f_equal (map snd)) in Hk. rewrite !map_map in Hk.
    rewrite !map_rev. f_equal. exact Hk.
Qed.

Lemma rhash_Relaxed_revalued (t t' : rtree) :
  tree_rel revalued t t' ->
  map CalculatedHashValue (flatten (rhash t')) = map CalculatedHashValue (flatten (rhash t))
  /\ key (root (rhash t')) = key (root (rhash t)).
Proof.
  revert t'. induction t as [n cs IH] using rtree_induction. intros t' H.
  inversion H as [n0 n' cs0 cs' (x & Hn) Hcs]. subst n0 cs0 t' n'.
  assert (HF : Forall2 (fun c c' =>
            map CalculatedHashValue (flatten (rhash c'))
            = map CalculatedHashValue (flatten (rhash c))
            /\ key (root (rhash c')) = key (root (rhash c))) cs cs').
  { clear - IH Hcs. induction Hcs as [|c c' cs cs' Hc _ IHcs]; constructor.
    - apply (Forall_inv IH). exact Hc.
    - apply IHcs. exact (Forall_inv_tail IH). }
  assert (Hkeys : map key (map root (map rhash cs')) = map key (map root (map rhash cs))).
  { clear - HF. induction HF as [|c c' cs cs' (_ & Hk) _ IHF]; [reflexivity|].
    cbn [map]. rewrite Hk, IHF. reflexivity. }
  assert (Hall : map CalculatedHashValue (flat (map rhash cs'))
                 = map CalculatedHashValue (flat (map rhash cs))).
  { clear - HF. induction HF as [|c c' cs cs' (Hc & _) _ IHF]; [reflexivity|].
    cbn [map]. rewrite !flat_cons, !map_app, Hc, IHF. reflexivity. }
  cbn [TreeShape.rhash]. rewrite (@node_hash_Relaxed_keys n x _ _ Hkeys). split.
  - rewrite !flatten_RNode, !map_app, Hall. reflexivity.
  - reflexivity.
Qed.

(** X12. The Relaxed hash does not see coefficients: after
    [SetCoefficients], with whatever values, [Hash(Relaxed)] computes
    the same hash for every node as before. *)
Theorem Hash_Relaxed_ignores_coefficients
    (nodes nodes' : list Node) (c : list double) :
  subtree_range_invariant nodes ->
  SetCoefficients nodes c = Some nodes' ->
  map CalculatedHashValue (Hash nodes') = map CalculatedHashValue (Hash nodes).
Proof.
  intros (Hsz & ts & Hwf & ->) Hset.
  apply SetCoefficients_loop_revalued in Hset.
  destruct (@reshape revalued ts nodes' Hset) as (ts' & -> & Hrel).
  assert (Hwf' : Forall rwf ts').
  { clear - Hrel Hwf. induction Hrel as [|t t' ts ts' Ht _ IH]; constructor.
    - apply (revalued_rwf Ht). exact (Forall_inv Hwf).
    - apply IH. exact (Forall_inv_tail Hwf). }
  rewrite (Hash_flat hasher hasher_leaf Relaxed Hwf Hsz).
  rewrite (@Hash_flat hasher hasher_leaf Relaxed ts' Hwf')
    by (unfold zlen in *; rewrite (tree_rel_flat_size Hrel); exact Hsz).
  clear - Hrel. induction Hrel as [|t t' ts ts' Ht _ IH]; [reflexivity|].
  cbn [map]. rewrite !flat_cons, !map_app, IH.
  destruct (rhash_Relaxed_revalued Ht) as (E & _). rewrite E. reflexivity.
Qed.

End RelaxedHash.

Lemma Hash_Relaxed_ignores_coefficients_witness :
  map CalculatedHashValue
      (Hash ex_hasher ex_hasher_leaf Relaxed
            [set_Value ex_x five; set_Value ex_y seven; set_Value ex_z nine; ex_sub; ex_add])
  = map CalculatedHashValue (Hash ex_hasher ex_hasher_leaf Relaxed ex_nodes).
Proof.
  apply (@Hash_Relaxed_ignores_coefficients ex_hasher ex_hasher_leaf ex_nodes
           [set_Value ex_x five; set_Value ex_y seven; set_Value ex_z nine; ex_sub; ex_add]
           [five; seven; nine]).
  - exact ex_nodes_invariant.
  - reflexivity.
Defined.

(** *** More about [Tree::Sort] and the cursor *)

Lemma same_node_identity (n n' : Node) : same_node n n' -> identity n = identity n'.
Proof.
  intros (H1 & H2 & H3 & H4 & H5 & H6). unfold identity.
  rewrite H1, H2, H3, H4, H5, H6. reflexivity.
Qed.

Lemma similar_identity (t t' : rtree) :
  similar t t' ->
  Permutation (map identity (flatten t)) (map identity (flatten t'))
  /\ (Forall (fun n => IsCommutative n = false) (flatten t) ->
      map identity (flatten t') = map identity (flatten t)).
Proof.
  revert t'. induction t as [n cs IH] using rtree_induction. intros t' Hsim.
  inversion Hsim as [n0 n' cs0 ds cs' Hn Hcs Hperm E1 E2]. subst n0 cs0 t'.
  assert (HF : Forall2 (fun c d =>
            Permutation (map identity (flatten c)) (map identity (flatten d))
            /\ (Forall (fun n => IsCommutative n = false) (flatten c) ->
                map identity (flatten d) = map identity (flatten c))) cs ds).
  { clear - IH Hcs. induction Hcs as [|c d cs ds Hc _ IHcs]; constructor.
    - apply (Forall_inv IH). exact Hc.
    - apply IHcs. exact (Forall_inv_tail IH). }
  rewrite !flatten_RNode, !map_app. cbn [map]. rewrite (same_node_identity Hn). split.
  - apply Permutation_app; [|reflexivity].
    transitivity (map identity (flat ds)).
    + clear - HF. induction HF as [|c d cs ds (Hc & _) _ IHF]; [reflexivity|].
      rewrite !flat_cons, !map_app. apply Permutation_app; assumption.
    + apply Permutation_map. unfold flat.
      destruct (IsCommutative n).
      * apply Permutation_flat_map. exact Hperm.
      * rewrite Hperm. reflexivity.
  - intros Hnc. apply Forall_app in Hnc. destruct Hnc as (Hncs & Hn').
    apply Forall_inv in Hn'. rewrite Hn' in Hperm. subst cs'. f_equal.
    clear - HF Hncs. induction HF as [|c d cs ds (_ & Hc) _ IHF]; [reflexivity|].
    rewrite flat_cons in Hncs. apply Forall_app in Hncs. destruct Hncs as (H1 & H2).
    rewrite !flat_cons, !map_app, (Hc H1), (IHF H2). reflexivity.
Qed.

Lemma similar_not_commutative (t t' : rtree) :
  similar t t' -> Forall (fun n => IsCommutative n = false) (flatten t) ->
  Forall (fun n => IsCommutative n = false) (flatten t').
Proof.
  intros Hsim Hnc. destruct (similar_identity Hsim) as (_ & E). specialize (E Hnc).
  assert (Hk : map IsCommutative (flatten t') = map IsCommutative (flatten t)).
  { apply (f_equal (map (fun x => match fst (fst (fst (fst (fst x)))) with
                                    | Add | Mul => true | _ => false end))) in E.
    rewrite !map_map in E. exact E. }
  clear - Hk Hnc. revert Hk Hnc. generalize (flatten t) (flatten t'). intros l.
  induction l as [|a l IH]; intros l' Hk Hnc; destruct l' as [|a' l']; try discriminate;
    constructor.
  - cbn [map] in Hk. inversion Hk as [[Ha Hl]]. rewrite Ha. exact (Forall_inv Hnc).
  - cbn [map] in Hk. inversion Hk as [[Ha Hl]]. apply IH; [exact Hl | exact (Forall_inv_tail Hnc)].
Qed.

Lemma rearranged_identity (ts ts' : list rtree) :
  Forall2 rearranged ts ts' ->
  Permutation (map identity (flat ts)) (map identity (flat ts'))
  /\ (Forall (fun n => IsCommutative n = false) (flat ts) ->
      map identity (flat ts') = map identity (flat ts)
      /\ Forall (fun n => IsCommutative n = false) (flat ts')).
Proof.
  induction 1 as [|t t' ts ts' (Ht & _) _ (IH1 & IH2)].
  - split; [reflexivity|]. intros _. split; [reflexivity | constructor].
  - destruct (similar_identity Ht) as (P1 & P2).
    rewrite !flat_cons, !map_app. split.
    + apply Permutation_app; assumption.
    + intros Hnc. apply Forall_app in Hnc. destruct Hnc as (H1 & H2).
      destruct (IH2 H2) as (E & Hnc'). rewrite (P2 H1), E. split; [reflexivity|].
      apply Forall_app. split; [|exact Hnc'].
      apply (similar_not_commutative Ht H1).
Qed.

Section SortMore.
Variable hasher : list Z -> Z.
Variable hasher_leaf : Z -> Double.double -> Z.
Variable xxhash : list Z -> Z.
Variable xxhash_value : Double.double -> Z.
Variable std_sort : forall A : Type, (A -> A -> bool) -> list A -> list A.
Variable strict : bool.
Hypothesis std_sort_perm :
  forall (A : Type) (lt : A -> A -> bool) (l : list A), Permutation (std_sort lt l) l.

Local Notation Sort := (Sort xxhash xxhash_value std_sort strict).

(** X13. [Sort] keeps the subtree-range invariant, and the nodes of the
    sorted tree are the nodes of the tree, rearranged: kind, arity,
    length, flag, identity hash and value of each are as before. *)
Theorem Sort_keeps_the_invariant (nodes : list Node) :
  subtree_range_invariant nodes -> zlen nodes <= int_max ->
  subtree_range_invariant (Sort nodes)
  /\ Permutation (map identity (Sort nodes)) (map identity nodes).
Proof.
  intros (Hsz & ts & Hwf & ->) Hint.
  destruct (@Sort_flat xxhash xxhash_value std_sort strict std_sort_perm ts Hwf Hint)
    as (ts1 & ts2 & E & H1 & H2).
  rewrite E.
  destruct (rearranged_children H1) as (_ & Hwf1 & _ & Hfl1).
  destruct (rearranged_children H2) as (_ & Hwf2 & _ & Hfl2).
  destruct (rearranged_identity H1) as (P1 & _).
  destruct (rearranged_identity H2) as (P2 & _).
  split.
  - split; [unfold zlen in *; rewrite Hfl2, Hfl1; exact Hsz|].
    exists ts2. split; [exact Hwf2 | reflexivity].
  - symmetry. transitivity (map identity (flat ts1)); assumption.
Qed.

(** X14. [Sort] does not move a node of a tree without commutative
    nodes: the nodes stay where they are. *)
Theorem Sort_fixes_noncommutative_trees (nodes : list Node) :
  subtree_range_invariant nodes -> zlen nodes <= int_max ->
  Forall (fun n => IsCommutative n = false) nodes ->
  map identity (Sort nodes) = map identity nodes.
Proof.
  intros (Hsz & ts & Hwf & ->) Hint Hnc.
  destruct (@Sort_flat xxhash xxhash_value std_sort strict std_sort_perm ts Hwf Hint)
    as (ts1 & ts2 & E & H1 & H2).
  rewrite E.
  destruct (rearranged_identity H1) as (_ & P1). destruct (P1 Hnc) as (E1 & Hnc1).
  destruct (rearranged_identity H2) as (_ & P2). destruct (P2 Hnc1) as (E2 & _).
  rewrite E2, E1. reflexivity.
Qed.

(** X15. The hash that [Hash] computes in Strict mode, too, is the same
    after [Sort] as before it: the same at the root, and the same
    hashed nodes up to the reordering. *)
Theorem Hash_Strict_invariant_under_Sort (nodes : list Node) :
  subtree_range_invariant nodes -> zlen nodes <= int_max ->
  Tree_HashValue (Hash hasher hasher_leaf Strict (Sort nodes))
  = Tree_HashValue (Hash hasher hasher_leaf Strict nodes)
  /\ Permutation (map hashed (Hash hasher hasher_leaf Strict (Sort nodes)))
                 (map hashed (Hash hasher hasher_leaf Strict nodes)).
Proof. intros Hinv Hint. apply Hash_Sort; assumption. Qed.

End SortMore.
Lemma Sort_keeps_the_invariant_witness :
  subtree_range_invariant ex_unsorted /\ zlen ex_unsorted <= int_max
  /\ subtree_range_invariant
       (Sort ex_hasher ex_xxhash_value (fun A => @stable_sort A) false ex_unsorted)
  /\ Permutation
       (map identity (Sort ex_hasher ex_xxhash_value (fun A => @stable_sort A) false ex_unsorted))
       (map identity ex_unsorted).
Proof.
  split; [exact ex_unsorted_invariant|]. split; [vm_compute; discriminate|].
  apply (@Sort_keeps_the_invariant ex_hasher ex_xxhash_value (fun A => @stable_sort A) false).
  - intros A lt l. apply stable_sort_perm.
  - exact ex_unsorted_invariant.
  - vm_compute. discriminate.
Defined.

Lemma Sort_fixes_noncommutative_trees_witness :
  map identity (Sort ex_hasher ex_xxhash_value (fun A => @stable_sort A) true
                     [ex_y; ex_z; ex_sub])
  = map identity [ex_y; ex_z; ex_sub].
Proof.
  apply (@Sort_fixes_noncommutative_trees ex_hasher ex_xxhash_value
           (fun A => @stable_sort A) true).
  - intros A lt l. apply stable_sort_perm.
  - split; [reflexivity|]. exists [RNode ex_sub [RNode ex_y []; RNode ex_z []]].
    split; [|reflexivity]. repeat (constructor; try reflexivity).
  - vm_compute. discriminate.
  - repeat constructor.
Defined.

Lemma Hash_Strict_invariant_under_Sort_witness :
  Tree_HashValue
    (Hash ex_hasher ex_hasher_leaf Strict
       (Sort ex_hasher ex_xxhash_value (fun A => @stable_sort A) false ex_unsorted))
  = Tree_HashValue (Hash ex_hasher ex_hasher_leaf Strict ex_unsorted)
  /\ Permutation
       (map hashed
          (Hash ex_hasher ex_hasher_leaf Strict
             (Sort ex_hasher ex_xxhash_value (fun A => @stable_sort A) false ex_unsorted)))
       (map hashed (Hash ex_hasher ex_hasher_leaf Strict ex_unsorted)).
Proof.
  apply (@Hash_Strict_invariant_under_Sort ex_hasher ex_hasher_leaf ex_hasher
           ex_xxhash_value (fun A => @stable_sort A) false).
  - intros A lt l. apply stable_sort_perm.
  - exact ex_unsorted_invariant.
  - vm_compute. discriminate.
Defined.

Lemma subtree_range_roots (pre post : list Node) (ts : list rtree) :
  Forall rwf ts ->
  Forall2 (fun j t => subtree_range (pre ++ flat ts ++ post) j = flatten t)
          (root_positions (zlen pre) ts) ts.
Proof.
  intros Hwf. revert pre. induction Hwf as [|t ts Ht _ IH]; intros pre; [constructor|].
  cbn [root_positions]. constructor.
  - unfold subtree_range.
    pose proof (get_root_position pre post [] ts t) as Hget.
    change (flat []) with (@nil Node) in Hget. change (zlen (@nil Node)) with 0 in Hget.
    rewrite Z.add_0_r in Hget. cbn [app] in Hget. rewrite Hget.
    destruct Ht as [m ds Har Hlen Hds]. cbn [root]. rewrite Hlen.
    rewrite zlen_flatten_RNode.
    replace (zlen pre + (zlen (flat ds) + 1) - 1 - zlen (flat ds)) with (zlen pre) by lia.
    rewrite <- zlen_flatten_RNode with (n := m).
    rewrite flat_cons, <- app_assoc. apply range_app_mid.
  - specialize (IH (pre ++ flatten t)). rewrite !zlen_app in IH.
    rewrite flat_cons.
    replace (pre ++ (flatten t ++ flat ts) ++ post)
      with ((pre ++ flatten t) ++ flat ts ++ post) by (rewrite <- !app_assoc; reflexivity).
    exact IH.
Qed.

(** X16. In a tree that satisfies the subtree-range invariant, the
    subtrees of the children that [Children(i)] yields lie side by
    side and fill the range [i - Length(i), i) of the descendants of
    [i]: read from left to right, they are that range. *)
Theorem Children_tile_the_range (nodes : list Node) (i : Z) :
  subtree_range_invariant nodes -> 0 <= i < zlen nodes ->
  flat_map (subtree_range nodes) (rev (child_indices nodes i))
  = range nodes (i - Length (get nodes i)) (Length (get nodes i)).
Proof.
  intros Hinv Hi.
  destruct (subtree_at Hinv Hi) as (pre & cs & n & post & E & Hpos & Hwf).
  destruct Hinv as (Hsz & _). subst nodes.
  assert (Hg : get (pre ++ flat cs ++ n :: post) i = n).
  { rewrite <- Hpos. rewrite app_assoc, <- zlen_app. apply get_app_mid. }
  rewrite Hg. unfold child_indices. rewrite <- Hpos.
  rewrite child_indices_roots; [|exact Hsz | exact Hwf | pose proof (zlen_flat_ge cs); lens].
  rewrite rev_involutive.
  inversion Hwf as [n0 cs0 Har Hlen Hcs E0]. subst n0 cs0.
  rewrite (flat_map_Forall2 _ (subtree_range_roots pre (n :: post) Hcs)).
  rewrite Hlen.
  replace (zlen pre + zlen (flat cs) - zlen (flat cs)) with (zlen pre) by lia.
  symmetry. apply range_app_mid.
Qed.

Lemma Children_tile_the_range_witness :
  flat_map (subtree_range ex_nodes) (rev (child_indices ex_nodes 4))
  = [ex_x; ex_y; ex_z; ex_sub].
Proof.
  rewrite (@Children_tile_the_range ex_nodes 4 ex_nodes_invariant).
  - reflexivity.
  - split; [lia | reflexivity].
Defined.

(** *** [Tree::Reduce] *)

Lemma gain_snoc (h : Z) (cs : list rtree) (c : rtree) :
  gain h (cs ++ [c]) = gain h cs + (if same_hash h c then Arity (root c) - 1 else 0).
Proof.
  unfold gain. induction cs as [|d cs IH]; cbn [app fold_right]; [lia|].
  rewrite IH. lia.
Qed.

Lemma flatten_mark (h : Z) (c : rtree) :
  flatten (mark h c)
  = flat (children c)
    ++ [if same_hash h c then set_IsEnabled (root c) false else root c].
Proof. unfold mark. destruct c as [m ds]. destruct (same_hash h (RNode m ds)); reflexivity. Qed.

Lemma zlen_flatten_mark (h : Z) (c : rtree) : zlen (flatten (mark h c)) = zlen (flatten c).
Proof. rewrite flatten_mark. destruct c as [m ds]. cbn [children]. rewrite flatten_RNode. lens. Qed.

Lemma zlen_flat_mark (h : Z) (cs : list rtree) :
  zlen (flat (map (mark h) cs)) = zlen (flat cs).
Proof.
  induction cs as [|c cs IH]; [reflexivity|].
  cbn [map]. rewrite !flat_cons, !zlen_app, IH, zlen_flatten_mark. reflexivity.
Qed.

Lemma set_Arity_twice (s : Node) (a b : Z) : set_Arity (set_Arity s a) b = set_Arity s b.
Proof. reflexivity. Qed.

Lemma set_Arity_same (s : Node) : set_Arity s (Arity s) = s.
Proof. destruct s. reflexivity. Qed.

(** The inner loop of [Reduce], with the cursor on the last of the
    children [left] still to visit: the array and the flag it leaves. *)
Lemma Reduce_children_exact (pre post : list Node) (left : list rtree) :
  Forall (fun c => Length (root c) = zlen (flat (children c))) left ->
  forall (done : list rtree) (s : Node) (fuel : nat) (r : bool),
  let i := zlen pre + zlen (flat left) + zlen (flat done) in
  zlen (pre ++ flat left ++ flat done ++ s :: post) < size_max ->
  Length s = zlen (flat left) + zlen (flat done) ->
  (length left <= fuel)%nat ->
  Reduce_children fuel i (pre ++ flat left ++ flat done ++ s :: post)
                  (mkIt i (wrap (zlen pre + zlen (flat left) - 1))) r
  = (pre ++ flat (map (mark (HashValue s)) left) ++ flat done
     ++ set_Arity s (Arity s + gain (HashValue s) left) :: post,
     r || existsb (same_hash (HashValue s)) left).
Proof.
  intros Hwf. induction left as [|c left IH] using rev_ind;
    intros done s fuel r i Hsz HL Hfuel.
  - change (flat []) with (@nil Node) in *. change (zlen (@nil Node)) with 0 in *.
    cbn [map app gain fold_right existsb] in *.
    replace (Arity s + 0) with (Arity s) by lia. rewrite set_Arity_same, orb_false_r.
    destruct fuel as [|k]; [reflexivity|]. cbn [Reduce_children].
    replace (HasNext _ _) with false; [reflexivity|].
    symmetry. unfold HasNext. cbn [index_ parentIndex_].
    assert (Hs : get (pre ++ flat done ++ s :: post) i = s).
    { apply get_at with (l1 := pre ++ flat done) (l2 := post); [list_eq | subst i; lens]. }
    rewrite Hs, HL.
    pose proof (zlen_nonneg pre). pose proof (zlen_nonneg (flat done)).
    assert (Hsz' : zlen pre + zlen (flat done) < size_max) by lens.
    rewrite (@wrap_small (i - (0 + zlen (flat done)))) by (subst i; lia).
    destruct (Z.eq_dec (zlen pre) 0) as [E|E].
    + rewrite E. cbn [Z.add Z.sub Z.opp Z.pos_sub]. rewrite wrap_minus_one.
      replace (size_max - 1 <? i) with false; [reflexivity|].
      symmetry. apply Z.ltb_ge. subst i. lia.
    + rewrite wrap_small by lia.
      replace (i - (0 + zlen (flat done)) <=? zlen pre + 0 - 1) with false;
        [apply andb_false_r|].
      symmetry. apply Z.leb_gt. subst i. lia.
  - apply Forall_app in Hwf. destruct Hwf as (Hleft & Hc). apply Forall_inv in Hc.
    destruct c as [m ds]. cbn [root children] in Hc.
    rewrite length_app in Hfuel. cbn [length] in Hfuel.
    destruct fuel as [|k]; [lia|].
    assert (Hflat : flat (left ++ [RNode m ds]) = flat left ++ flat ds ++ [m]).
    { rewrite flat_app. unfold flat at 2. cbn [flat_map]. rewrite app_nil_r. reflexivity. }
    pose proof (zlen_nonneg pre). pose proof (zlen_nonneg (flat left)).
    pose proof (zlen_nonneg (flat ds)). pose proof (zlen_nonneg (flat done)).
    pose proof (zlen_nonneg post).
    assert (Hzl : zlen (flat (left ++ [RNode m ds])) = zlen (flat left) + zlen (flat ds) + 1)
      by (rewrite Hflat; lens).
    assert (Hsz' : i + 1 + zlen post < size_max) by (subst i; rewrite Hflat in Hsz; lens).
    set (A := pre ++ flat (left ++ [RNode m ds]) ++ flat done ++ s :: post) in *.
    set (idx := zlen pre + zlen (flat left) + zlen (flat ds)).
    assert (HA : A = (pre ++ flat left ++ flat ds) ++ m :: (flat done ++ s :: post)).
    { unfold A. rewrite Hflat. list_eq. }
    assert (HA' : A = (pre ++ flat (left ++ [RNode m ds]) ++ flat done) ++ s :: post).
    { unfold A. list_eq. }
    assert (Hgi : get A i = s) by (eapply get_at; [exact HA' | subst i; lens]).
    assert (Hgx : get A idx = m) by (eapply get_at; [exact HA | subst idx; lens]).
    cbn [Reduce_children]. unfold HasNext, Index. cbn [index_ parentIndex_].
    rewrite Hgi, HL, Hzl.
    replace (zlen pre + (zlen (flat left) + zlen (flat ds) + 1) - 1) with idx by (subst idx; lia).
    rewrite (@wrap_small idx) by (subst idx i; lia).
    rewrite (@wrap_small (i - _)) by (subst i; lia).
    replace (idx <? i) with true by (symmetry; apply Z.ltb_lt; subst idx i; lia).
    replace (i - (zlen (flat left) + zlen (flat ds) + 1 + zlen (flat done)) <=? idx) with true
      by (symmetry; apply Z.leb_le; subst idx i; lia).
    cbn [andb]. rewrite Hgx.
    assert (Eidx : idx = zlen (pre ++ flat left ++ flat ds)) by (subst idx; lens).
    set (m' := if same_hash (HashValue s) (RNode m ds) then set_IsEnabled m false else m).
    set (s2 := if same_hash (HashValue s) (RNode m ds)
               then set_Arity s (Arity s + (Arity m - 1)) else s).
    set (r2 := if same_hash (HashValue s) (RNode m ds) then true else r).
    assert (Harr : (pre ++ flat left ++ flat ds) ++ m' :: flat done ++ s2 :: post
                   = pre ++ flat left ++ flat (mark (HashValue s) (RNode m ds) :: done)
                     ++ s2 :: post).
    { rewrite flat_cons, flatten_mark. cbn [root children]. fold m'. list_eq. }
    assert (Hzad : zlen (flat (mark (HashValue s) (RNode m ds) :: done))
                   = zlen (flat ds) + 1 + zlen (flat done)).
    { rewrite flat_cons, zlen_app, zlen_flatten_mark, zlen_flatten_RNode. lia. }
    assert (Hi' : i = zlen pre + zlen (flat left)
                      + zlen (flat (mark (HashValue s) (RNode m ds) :: done))).
    { rewrite Hzad. subst i. lia. }
    assert (Hs2 : HashValue s2 = HashValue s /\ Length s2 = Length s).
    { subst s2. destruct (same_hash _ _); split; reflexivity. }
    destruct Hs2 as (Hh2 & Hl2).
    assert (Hlm' : Length m' = Length m) by (subst m'; destruct (same_hash _ _); reflexivity).
    pose proof (IH Hleft (mark (HashValue s) (RNode m ds) :: done) s2 k r2) as E1.
    cbv zeta in E1. rewrite <- Hi', Hh2 in E1.
    assert (Hgoal : Reduce_children k i
              ((pre ++ flat left ++ flat ds) ++ m' :: flat done ++ s2 :: post)
              (mkIt i (wrap (zlen pre + zlen (flat left) - 1))) r2
            = (pre ++ flat (map (mark (HashValue s)) (left ++ [RNode m ds])) ++ flat done
               ++ set_Arity s (Arity s + gain (HashValue s) (left ++ [RNode m ds])) :: post,
               r || existsb (same_hash (HashValue s)) (left ++ [RNode m ds]))).
    { rewrite Harr, E1.
      - rewrite map_app, flat_app. cbn [map].
        rewrite !flat_cons. change (flat []) with (@nil Node). rewrite app_nil_r.
        rewrite gain_snoc, existsb_app. cbn [existsb root].
        f_equal.
        + replace (set_Arity s2 (Arity s2 + gain (HashValue s) left))
            with (set_Arity s (Arity s + (gain (HashValue s) left
                    + (if same_hash (HashValue s) (RNode m ds) then Arity m - 1 else 0)))).
          * list_eq.
          * subst s2. destruct (same_hash _ _).
            -- rewrite set_Arity_twice. cbn [Arity set_Arity]. f_equal. lia.
            -- f_equal. lia.
        + subst r2.
          destruct (same_hash (HashValue s) (RNode m ds)), r,
                   (existsb (same_hash (HashValue s)) left); reflexivity.
      - rewrite <- Harr. subst m' s2. destruct (same_hash _ _); rewrite HA in Hsz; lens.
      - rewrite Hl2, HL, Hzl, Hzad. lia.
      - lia. }
    unfold same_hash in m', s2, r2. cbn [root] in m', s2, r2.
    destruct (HashValue s =? HashValue m) eqn:Eh.
    + (* the child has the hash of the node *)
      assert (Hp1 : put A idx (set_IsEnabled m false)
                    = (pre ++ flat left ++ flat ds) ++ set_IsEnabled m false
                      :: (flat done ++ s :: post)).
      { erewrite put_at; [| exact HA | exact Eidx]. reflexivity. }
      rewrite Hp1.
      assert (Hgi2 : get ((pre ++ flat left ++ flat ds) ++ set_IsEnabled m false
                          :: flat done ++ s :: post) i = s).
      { eapply get_at with (l1 := pre ++ flat left ++ flat ds ++ set_IsEnabled m false
                                  :: flat done) (l2 := post); [list_eq|].
        subst i. rewrite Hzl. lens. }
      rewrite Hgi2.
      assert (Hgx1 : get ((pre ++ flat left ++ flat ds) ++ set_IsEnabled m false
                          :: flat done ++ s :: post) idx = set_IsEnabled m false).
      { rewrite Eidx. apply get_app_mid. }
      rewrite !Hgx1. cbn [Arity set_IsEnabled].
      assert (Hp2 : put ((pre ++ flat left ++ flat ds) ++ set_IsEnabled m false
                         :: flat done ++ s :: post) i
                        (set_Arity s (Arity s + (Arity m - 1)))
                    = (pre ++ flat left ++ flat ds) ++ m' :: flat done ++ s2 :: post).
      { erewrite put_at with (l1 := pre ++ flat left ++ flat ds ++ set_IsEnabled m false
                                    :: flat done) (l2 := post) (x := s);
          [subst m' s2; list_eq | list_eq | subst i; rewrite Hzl; lens]. }
      rewrite !Hp2. unfold incr. cbn [index_ parentIndex_].
      assert (Hgx2 : get ((pre ++ flat left ++ flat ds) ++ m' :: flat done ++ s2 :: post) idx
                     = m').
      { rewrite Eidx. apply get_app_mid. }
      rewrite Hgx2, Hlm', Hc.
      replace (idx - (zlen (flat ds) + 1)) with (zlen pre + zlen (flat left) - 1)
        by (subst idx; lia).
      exact Hgoal.
    + unfold incr. cbn [index_ parentIndex_]. rewrite Hgx, Hc.
      replace (idx - (zlen (flat ds) + 1)) with (zlen pre + zlen (flat left) - 1)
        by (subst idx; lia).
      rewrite HA. exact Hgoal.
Qed.

Lemma root_reduce (t : rtree) :
  Length (root (reduce t)) = Length (root t)
  /\ HashValue (root (reduce t)) = HashValue (root t)
  /\ Kind (root (reduce t)) = Kind (root t)
  /\ IsEnabled (root (reduce t)) = IsEnabled (root t)
  /\ Value (root (reduce t)) = Value (root t).
Proof. destruct t as [n cs]. cbn [reduce]. destruct (reducible n); repeat split. Qed.

Lemma length_flat_mark (h : Z) (cs : list rtree) :
  length (flat (map (mark h) cs)) = length (flat cs).
Proof. pose proof (zlen_flat_mark h cs). unfold zlen in *. lia. Qed.

Lemma length_flatten_reduce (t : rtree) : length (flatten (reduce t)) = length (flatten t).
Proof.
  induction t as [n cs IH] using rtree_induction.
  assert (Hcs : length (flat (map reduce cs)) = length (flat cs)).
  { induction IH as [|c cs Hc _ IHcs]; [reflexivity|].
    cbn [map]. rewrite !flat_cons, !length_app, Hc, IHcs. reflexivity. }
  cbn [reduce]. destruct (reducible n); rewrite !flatten_RNode, !length_app;
    rewrite ?length_flat_mark, Hcs; reflexivity.
Qed.

Lemma length_flat_reduce (ts : list rtree) :
  length (flat (map reduce ts)) = length (flat ts).
Proof.
  induction ts as [|t ts IH]; [reflexivity|].
  cbn [map]. rewrite !flat_cons, !length_app, length_flatten_reduce, IH. reflexivity.
Qed.

Lemma children_reduce_size (t : rtree) :
  length (flat (children (reduce t))) = length (flat (children t)).
Proof.
  destruct t as [n cs]. cbn [reduce]. destruct (reducible n); cbn [children];
    rewrite ?length_flat_mark; apply length_flat_reduce.
Qed.

Lemma lwf_children (n : Node) (cs : list rtree) : lwf (RNode n cs) -> Forall lwf cs.
Proof. intros H. inversion H. assumption. Qed.

Lemma lwf_root (t : rtree) : lwf t -> Length (root t) = zlen (flat (children t)).
Proof. intros H. destruct H. assumption. Qed.

Lemma reduce_forest_step (ts : list rtree) :
  Forall (fun t => forall pre post r,
            zlen (pre ++ flatten t ++ post) < size_max ->
            fold_left Reduce_step (seq (length pre) (length (flatten t)))
                      (pre ++ flatten t ++ post, r)
            = (pre ++ flatten (reduce t) ++ post, r || marks t)) ts ->
  forall pre post r,
    zlen (pre ++ flat ts ++ post) < size_max ->
    fold_left Reduce_step (seq (length pre) (length (flat ts))) (pre ++ flat ts ++ post, r)
    = (pre ++ flat (map reduce ts) ++ post, r || existsb marks ts).
Proof.
  induction 1 as [|t ts Ht _ IH]; intros pre post r Hsz.
  - cbn [existsb]. rewrite orb_false_r. reflexivity.
  - rewrite flat_cons in Hsz |- *. rewrite length_app, seq_app, fold_left_app.
    rewrite <- app_assoc in Hsz |- *.
    rewrite (Ht pre (flat ts ++ post) r Hsz).
    pose proof (length_flatten_reduce t) as Hlen.
    specialize (IH (pre ++ flatten (reduce t)) post (r || marks t)).
    rewrite length_app, Hlen in IH. rewrite <- app_assoc in IH. rewrite IH by lens.
    cbn [map existsb]. rewrite flat_cons, <- !app_assoc, orb_assoc. reflexivity.
Qed.

Lemma reduce_tree_step (t : rtree) :
  lwf t ->
  forall pre post r,
    zlen (pre ++ flatten t ++ post) < size_max ->
    fold_left Reduce_step (seq (length pre) (length (flatten t)))
              (pre ++ flatten t ++ post, r)
    = (pre ++ flatten (reduce t) ++ post, r || marks t).
Proof.
  induction t as [n cs IH] using rtree_induction. intros Hwf pre post r Hsz.
  inversion Hwf as [n0 cs0 Hlen Hcs E]. subst n0 cs0.
  assert (Hdone : Forall (fun t => forall pre post r,
            zlen (pre ++ flatten t ++ post) < size_max ->
            fold_left Reduce_step (seq (length pre) (length (flatten t)))
                      (pre ++ flatten t ++ post, r)
            = (pre ++ flatten (reduce t) ++ post, r || marks t)) cs).
  { rewrite Forall_forall in IH, Hcs |- *. intros c Hc. apply IH; auto. }
  rewrite flatten_RNode in Hsz |- *. rewrite <- app_assoc in Hsz |- *. cbn [app] in Hsz |- *.
  rewrite length_app. cbn [length]. rewrite seq_app, fold_left_app.
  rewrite (reduce_forest_step Hdone pre (n :: post) r Hsz). cbn [seq fold_left].
  pose proof (length_flat_reduce cs) as Hsize.
  set (cs' := map reduce cs) in *.
  unfold Reduce_step.
  replace (Z.of_nat (length pre + length (flat cs))) with (zlen pre + zlen (flat cs')) by lens.
  assert (Hg : get (pre ++ flat cs' ++ n :: post) (zlen pre + zlen (flat cs')) = n).
  { rewrite app_assoc, <- zlen_app. apply get_app_mid. }
  rewrite Hg. cbn [reduce marks]. fold cs'. unfold reducible.
  destruct (IsLeaf n || negb (IsCommutative n)); cbn [negb andb].
  - rewrite orb_false_r, flatten_RNode, <- app_assoc. reflexivity.
  - assert (Hroots : Forall (fun c => Length (root c) = zlen (flat (children c))) cs').
    { subst cs'. rewrite Forall_map. rewrite Forall_forall in Hcs |- *. intros c Hc.
      destruct (root_reduce c) as (HL & _). rewrite HL, (lwf_root (Hcs c Hc)).
      unfold zlen. rewrite children_reduce_size. reflexivity. }
    pose proof (@Reduce_children_exact pre post cs' Hroots [] n
                  (length (pre ++ flat cs' ++ n :: post)) (r || existsb marks cs)) as E.
    cbv zeta in E. change (flat []) with (@nil Node) in E.
    change (zlen (@nil Node)) with 0 in E. cbn [app] in E. rewrite !Z.add_0_r in E.
    unfold Children.
    replace (zlen pre + zlen (flat cs') - 1) with (zlen pre + zlen (flat cs') - 1) in E by lia.
    rewrite E.
    + rewrite flatten_RNode, <- app_assoc, orb_assoc. reflexivity.
    + lens.
    + rewrite Hlen. lens.
    + pose proof (zlen_flat_ge cs'). lens.
Qed.

(** The loop of [Reduce] on a forest. *)
Lemma Reduce_mark_flat (ts : list rtree) :
  Forall lwf ts -> zlen (flat ts) < size_max ->
  Reduce_mark (flat ts) = (flat (map reduce ts), existsb marks ts).
Proof.
  intros Hwf Hsz. unfold Reduce_mark.
  pose proof (@reduce_forest_step ts) as H.
  specialize (H (proj2 (Forall_forall _ _)
                   (fun t Ht => reduce_tree_step (proj1 (Forall_forall _ _) Hwf t Ht)))).
  specialize (H [] [] false). cbn [app length orb] in H. rewrite !app_nil_r in H.
  apply H. exact Hsz.
Qed.

Lemma filter_flatten_splice (t : rtree) : filter IsEnabled (flatten t) = flat (splice t).
Proof.
  induction t as [n cs IH] using rtree_induction.
  assert (Hcs : filter IsEnabled (flat cs) = flat (flat_map splice cs)).
  { clear n. induction IH as [|c cs Hc _ IHcs]; [reflexivity|].
    rewrite flat_cons, filter_app, Hc, IHcs. cbn [flat_map]. rewrite flat_app. reflexivity. }
  rewrite flatten_RNode, filter_app, Hcs. cbn [filter splice].
  destruct (IsEnabled n).
  - rewrite flat_cons. change (flat []) with (@nil Node).
    rewrite app_nil_r, flatten_RNode. reflexivity.
  - rewrite app_nil_r. reflexivity.
Qed.

Lemma filter_flat_splice (ts : list rtree) :
  filter IsEnabled (flat ts) = flat (flat_map splice ts).
Proof.
  induction ts as [|t ts IH]; [reflexivity|].
  rewrite flat_cons, filter_app, filter_flatten_splice, IH. cbn [flat_map].
  rewrite flat_app. reflexivity.
Qed.

Lemma splice_mark (h : Z) (c : rtree) :
  IsEnabled (root c) = true ->
  splice (mark h c)
  = if same_hash h c then flat_map splice (children c)
    else [RNode (root c) (flat_map splice (children c))].
Proof.
  intros He. unfold mark. destruct c as [m ds]. cbn [root children] in *.
  destruct (same_hash h (RNode m ds)); cbn [splice IsEnabled set_IsEnabled];
    [reflexivity | rewrite He; reflexivity].
Qed.

Lemma spliceable_splice (t' : rtree) :
  spliceable t' ->
  splice t' = [RNode (root t') (flat_map splice (children t'))]
  /\ awf (RNode (root t') (flat_map splice (children t'))).
Proof.
  intros (He & Har & Hwf). destruct t' as [n cs]. cbn [root children splice] in *.
  rewrite He. split; [reflexivity | constructor; assumption].
Qed.

Lemma splice_marked_children (h : Z) (cs' : list rtree) :
  Forall spliceable cs' ->
  zlen (flat_map splice (map (mark h) cs')) = zlen cs' + gain h cs'
  /\ Forall awf (flat_map splice (map (mark h) cs')).
Proof.
  induction 1 as [|c cs' Hc _ (IH1 & IH2)]; [split; [reflexivity | constructor]|].
  destruct Hc as (He & Har & Hwf).
  cbn [map flat_map gain fold_right]. fold (gain h cs').
  rewrite (@splice_mark h c He), zlen_app, IH1, (zlen_cons c cs').
  destruct (same_hash h c).
  - split; [lia|]. apply Forall_app. split; assumption.
  - split; [change (zlen [RNode (root c) (flat_map splice (children c))]) with 1; lia|].
    constructor; [constructor; assumption | exact IH2].
Qed.

Lemma splice_reduced_children (cs' : list rtree) :
  Forall spliceable cs' ->
  zlen (flat_map splice cs') = zlen cs' /\ Forall awf (flat_map splice cs').
Proof.
  induction 1 as [|c cs' Hc _ (IH1 & IH2)]; [split; [reflexivity | constructor]|].
  destruct (spliceable_splice Hc) as (E & Hwf).
  cbn [flat_map]. rewrite E. cbn [app]. rewrite !zlen_cons, IH1.
  split; [reflexivity | constructor; assumption].
Qed.

Lemma enabled_children (n : Node) (cs : list rtree) :
  Forall (fun m => IsEnabled m = true) (flatten (RNode n cs)) ->
  IsEnabled n = true /\ Forall (fun c => Forall (fun m => IsEnabled m = true) (flatten c)) cs.
Proof.
  rewrite flatten_RNode. intros H. apply Forall_app in H. destruct H as (Hcs & Hn).
  split; [exact (Forall_inv Hn)|].
  clear - Hcs. induction cs as [|c cs IH]; constructor.
  - rewrite flat_cons in Hcs. apply Forall_app in Hcs. tauto.
  - apply IH. rewrite flat_cons in Hcs. apply Forall_app in Hcs. tauto.
Qed.

Lemma reduce_spliceable (t : rtree) :
  awf t -> Forall (fun m => IsEnabled m = true) (flatten t) -> spliceable (reduce t).
Proof.
  induction t as [n cs IH] using rtree_induction. intros Hwf Hen.
  inversion Hwf as [n0 cs0 Har Hcs]. subst n0 cs0.
  destruct (@enabled_children n cs Hen) as (Hn & Hens).
  assert (Hsp : Forall spliceable (map reduce cs)).
  { rewrite Forall_map. rewrite Forall_forall in IH, Hcs, Hens |- *. intros c Hc.
    apply IH; auto. }
  assert (Hz : zlen (map reduce cs) = zlen cs) by (unfold zlen; rewrite length_map; reflexivity).
  unfold spliceable. cbn [reduce]. destruct (reducible n); cbn [root children].
  - destruct (@splice_marked_children (HashValue n) _ Hsp) as (E1 & E2).
    cbn [IsEnabled Arity set_Arity]. rewrite E1, Hz, Har. auto.
  - destruct (splice_reduced_children Hsp) as (E1 & E2). rewrite E1, Hz. auto.
Qed.

Lemma rwf_awf (t : rtree) : rwf t -> awf t.
Proof.
  induction t as [n cs IH] using rtree_induction. intros H.
  inversion H as [n0 cs0 Har Hlen Hcs E]. subst. constructor; [exact Har|].
  rewrite Forall_forall in *. auto.
Qed.

Lemma rwf_lwf (t : rtree) : rwf t -> lwf t.
Proof.
  induction t as [n cs IH] using rtree_induction. intros H.
  inversion H as [n0 cs0 Har Hlen Hcs E]. subst. constructor; [exact Hlen|].
  rewrite Forall_forall in *. auto.
Qed.

Lemma reduce_RNode (n : Node) (cs : list rtree) :
  reduce (RNode n cs)
  = if reducible n
    then RNode (set_Arity n (Arity n + gain (HashValue n) (map reduce cs)))
               (map (mark (HashValue n)) (map reduce cs))
    else RNode n (map reduce cs).
Proof. reflexivity. Qed.

Lemma marks_RNode (n : Node) (cs : list rtree) :
  marks (RNode n cs)
  = existsb marks cs
    || (reducible n && existsb (same_hash (HashValue n)) (map reduce cs)).
Proof. reflexivity. Qed.

Lemma marks_false_reduce (t : rtree) : marks t = false -> reduce t = t.
Proof.
  induction t as [n cs IH] using rtree_induction. rewrite marks_RNode, reduce_RNode. intros H.
  apply orb_false_iff in H. destruct H as (H1 & H2).
  assert (Hcs : map reduce cs = cs).
  { clear - IH H1. induction IH as [|c cs Hc _ IHcs]; [reflexivity|].
    cbn [existsb] in H1. apply orb_false_iff in H1. destruct H1 as (Ha & Hb).
    cbn [map]. rewrite (Hc Ha), (IHcs Hb). reflexivity. }
  rewrite Hcs in H2 |- *. destruct (reducible n); [|reflexivity]. cbn [andb] in H2.
  assert (Hg : gain (HashValue n) cs = 0 /\ map (mark (HashValue n)) cs = cs).
  { clear - H2. induction cs as [|c cs IH]; [split; reflexivity|].
    cbn [existsb] in H2. apply orb_false_iff in H2. destruct H2 as (Ha & Hb).
    destruct (IH Hb) as (E1 & E2). cbn [gain fold_right map]. fold (gain (HashValue n) cs).
    rewrite E1, E2. unfold mark. rewrite Ha. split; reflexivity. }
  destruct Hg as (E1 & E2). rewrite E1, E2, Z.add_0_r, set_Arity_same. reflexivity.
Qed.

Lemma existsb_marks_false (ts : list rtree) :
  existsb marks ts = false -> map reduce ts = ts.
Proof.
  induction ts as [|t ts IH]; [reflexivity|]. cbn [existsb map]. intros H.
  apply orb_false_iff in H. destruct H as (Ha & Hb).
  rewrite (@marks_false_reduce t Ha), (IH Hb). reflexivity.
Qed.

Lemma filter_all_enabled (l : list Node) :
  Forall (fun m => IsEnabled m = true) l -> filter IsEnabled l = l.
Proof. induction 1 as [|x l Hx _ IH]; [reflexivity|]. cbn [filter]. rewrite Hx, IH. reflexivity. Qed.

Lemma forest_enabled (ts : list rtree) :
  Forall (fun m => IsEnabled m = true) (flat ts) ->
  Forall (fun t => Forall (fun m => IsEnabled m = true) (flatten t)) ts.
Proof.
  induction ts as [|t ts IH]; intros H; constructor;
    rewrite flat_cons in H; apply Forall_app in H; [tauto | apply IH; tauto].
Qed.

(** [Reduce] on a forest all of whose nodes are enabled: the nodes that
    the loop disables are erased, and [UpdateNodes] runs on a postfix
    array whose arities are right. *)
Lemma Reduce_flat (ts : list rtree) :
  Forall rwf ts -> Forall (fun m => IsEnabled m = true) (flat ts) ->
  zlen (flat ts) < size_max ->
  Reduce (flat ts) = UpdateNodes (flat (flat_map splice (map reduce ts)))
  /\ Forall awf (flat_map splice (map reduce ts))
  /\ flat (flat_map splice (map reduce ts)) = filter IsEnabled (flat (map reduce ts)).
Proof.
  intros Hwf Hen Hsz. unfold Reduce.
  assert (Hl : Forall lwf ts) by (eapply Forall_impl; [|exact Hwf]; apply rwf_lwf).
  rewrite (Reduce_mark_flat Hl Hsz).
  split; [|split].
  - destruct (existsb marks ts) eqn:E.
    + rewrite filter_flat_splice. reflexivity.
    + rewrite <- filter_flat_splice, (@existsb_marks_false ts E), (filter_all_enabled Hen).
      reflexivity.
  - pose proof (@forest_enabled ts Hen) as Hens.
    clear - Hwf Hens. induction ts as [|t ts IH]; [constructor|].
    cbn [map flat_map]. apply Forall_app. split.
    + destruct (spliceable_splice
                  (reduce_spliceable (rwf_awf (Forall_inv Hwf)) (Forall_inv Hens)))
        as (E & Ha).
      rewrite E. constructor; [exact Ha | constructor].
    + apply IH; [exact (Forall_inv_tail Hwf) | exact (Forall_inv_tail Hens)].
  - symmetry. apply filter_flat_splice.
Qed.

Lemma Forall_filter {A} (f : A -> bool) (l : list A) :
  Forall (fun x => f x = true) (filter f l).
Proof.
  induction l as [|x l IH]; [constructor|]. cbn [filter].
  destruct (f x) eqn:E; [constructor; assumption | exact IH].
Qed.

Lemma length_filter_le {A} (f : A -> bool) (l : list A) :
  (length (filter f l) <= length l)%nat.
Proof. induction l as [|x l IH]; [reflexivity|]. cbn [filter]. destruct (f x); cbn [length]; lia. Qed.

Lemma content_enabled (l l' : list Node) :
  map content l' = map content l ->
  Forall (fun m => IsEnabled m = true) l -> Forall (fun m => IsEnabled m = true) l'.
Proof.
  revert l'. induction l as [|x l IH]; intros [|x' l'] E H; try discriminate; constructor.
  - cbn [map] in E. inversion E as [[E1 E2 E3 E4 E5 E6]]. rewrite E3. exact (Forall_inv H).
  - cbn [map] in E. inversion E. apply IH; [assumption | exact (Forall_inv_tail H)].
Qed.

(** X17. [Reduce] keeps the subtree-range invariant: from a tree that
    satisfies it and whose nodes are all enabled it makes a tree that
    satisfies it, whose nodes are all enabled, and that has no more
    nodes than before. *)
Theorem Reduce_keeps_the_invariant (nodes : list Node) :
  subtree_range_invariant nodes ->
  Forall (fun m => IsEnabled m = true) nodes ->
  subtree_range_invariant (Reduce nodes)
  /\ Forall (fun m => IsEnabled m = true) (Reduce nodes)
  /\ zlen (Reduce nodes) <= zlen nodes.
Proof.
  intros (Hsz & ts & Hwf & ->) Hen.
  destruct (Reduce_flat Hwf Hen Hsz) as (E & Hawf & EX). rewrite E.
  assert (HszX : zlen (flat (flat_map splice (map reduce ts))) <= zlen (flat ts)).
  { rewrite EX. unfold zlen.
    pose proof (length_filter_le IsEnabled (flat (map reduce ts))) as H.
    rewrite length_flat_reduce in H. lia. }
  assert (HszX' : zlen (flat (flat_map splice (map reduce ts))) < size_max) by lia.
  destruct (UpdateNodes_forest Hawf HszX') as (ts' & E' & HR).
  destruct (maintained_flat HR) as (Hc & Hn).
  assert (Hlen : zlen (UpdateNodes (flat (flat_map splice (map reduce ts))))
                 = zlen (flat (flat_map splice (map reduce ts)))).
  { unfold zlen. rewrite length_UpdateNodes. reflexivity. }
  split; [|split].
  - split; [lia|]. exists ts'. split; [apply (forest_normal_rwf Hn) | exact E'].
  - rewrite E'. apply (@content_enabled _ _ Hc). rewrite EX. apply Forall_filter.
  - lia.
Qed.

Lemma ex_nested_invariant : subtree_range_invariant ex_nested.
Proof.
  split; [reflexivity|].
  exists [RNode (mkNode Add 2 4 3 0 true 200 0 Double.one)
            [RNode (mkNode Var 0 0 1 4 true 5 5 Double.one) [];
             RNode (mkNode Add 2 2 2 4 true 200 0 Double.one)
               [RNode (mkNode Var 0 0 1 3 true 3 3 Double.one) [];
                RNode (mkNode Var 0 0 1 3 true 4 4 Double.one) []]]].
  split; [|reflexivity]. repeat (constructor; try reflexivity).
Qed.

Lemma Reduce_keeps_the_invariant_witness :
  map Arity (Reduce ex_nested) = [0; 0; 0; 3]
  /\ subtree_range_invariant (Reduce ex_nested)
  /\ Forall (fun m => IsEnabled m = true) (Reduce ex_nested)
  /\ zlen (Reduce ex_nested) <= zlen ex_nested.
Proof.
  split; [reflexivity|].
  apply (@Reduce_keeps_the_invariant ex_nested ex_nested_invariant).
  repeat constructor.
Defined.

(** *** Trees without a commutative node nested in its like *)

Lemma flattened_marks (t : rtree) : flattened t -> marks t = false /\ reduce t = t.
Proof.
  induction t as [n cs IH] using rtree_induction. intros H.
  inversion H as [n0 cs0 Hn Hcs]. subst n0 cs0.
  assert (Hall : existsb marks cs = false /\ map reduce cs = cs).
  { clear - IH Hcs. induction IH as [|c cs Hc _ IHcs]; [split; reflexivity|].
    destruct (Hc (Forall_inv Hcs)) as (E1 & E2).
    destruct (IHcs (Forall_inv_tail Hcs)) as (E3 & E4).
    cbn [existsb map]. rewrite E1, E2, E3, E4. split; reflexivity. }
  destruct Hall as (E1 & E2).
  assert (Hm : marks (RNode n cs) = false).
  { rewrite marks_RNode, E1, E2. cbn [orb].
    destruct (reducible n) eqn:Er; [|reflexivity]. cbn [andb].
    specialize (Hn eq_refl). clear - Hn.
    induction Hn as [|c cs Hc _ IHcs]; [reflexivity|].
    cbn [existsb]. rewrite IHcs, orb_false_r. unfold same_hash.
    apply Z.eqb_neq. congruence. }
  split; [exact Hm | apply marks_false_reduce; exact Hm].
Qed.

Section EverySubtree.
Variable nodes : list Node.
Variable Pn : Node -> list rtree -> Prop.
Hypothesis Pn_everywhere : forall pre cs n post,
  nodes = pre ++ flat cs ++ n :: post -> rwf (RNode n cs) -> Pn n cs.

Local Notation holds_in := (fun t : rtree =>
  forall pre post, nodes = pre ++ flatten t ++ post -> rwf t ->
  forall Q : rtree -> Prop,
    (forall n cs, Pn n cs -> Forall Q cs -> Q (RNode n cs)) -> Q t).

Lemma every_subtree_forest (ts : list rtree) (Q : rtree -> Prop) :
  (forall n cs, Pn n cs -> Forall Q cs -> Q (RNode n cs)) ->
  Forall holds_in ts ->
  forall pre post, nodes = pre ++ flat ts ++ post -> Forall rwf ts -> Forall Q ts.
Proof.
  intros HQ. induction 1 as [|t ts Ht _ IH]; intros pre post E Hwf; constructor.
  - apply (Ht pre (flat ts ++ post)); [|exact (Forall_inv Hwf) | exact HQ].
    rewrite E, flat_cons, <- app_assoc. reflexivity.
  - apply (IH (pre ++ flatten t) post); [|exact (Forall_inv_tail Hwf)].
    rewrite E, flat_cons, <- !app_assoc. reflexivity.
Qed.

Lemma every_subtree (t : rtree) : holds_in t.
Proof.
  induction t as [n cs IH] using rtree_induction. intros pre post E Hwf Q HQ.
  inversion Hwf as [n0 cs0 Har Hlen Hcs E0]. subst n0 cs0.
  rewrite flatten_RNode, <- app_assoc in E. cbn [app] in E.
  apply HQ.
  - apply (@Pn_everywhere pre cs n post E Hwf).
  - apply (every_subtree_forest HQ IH pre (n :: post) E Hcs).
Qed.

End EverySubtree.

Lemma flattened_of_array (ts : list rtree) :
  Forall rwf ts -> zlen (flat ts) < size_max ->
  (forall i j, 0 <= i < zlen (flat ts) -> reducible (get (flat ts) i) = true ->
               In j (child_indices (flat ts) i) ->
               HashValue (get (flat ts) j) <> HashValue (get (flat ts) i)) ->
  Forall flattened ts.
Proof.
  intros Hwf Hsz H.
  apply (@every_subtree_forest (flat ts)
           (fun n cs => reducible n = true ->
                        Forall (fun c => HashValue (root c) <> HashValue n) cs))
    with (pre := @nil Node) (post := @nil Node); trivial.
  - intros n cs Hn Hcs. constructor; assumption.
  - rewrite Forall_forall. intros t _. apply every_subtree.
    intros pre cs n post E Hrwf Hred.
    assert (Hpos : 0 <= zlen pre + zlen (flat cs) < zlen (flat ts)).
    { rewrite E. pose proof (zlen_nonneg pre). pose proof (zlen_nonneg (flat cs)).
      pose proof (zlen_nonneg post). lens. }
    assert (Hg : get (flat ts) (zlen pre + zlen (flat cs)) = n).
    { rewrite E, app_assoc, <- zlen_app. apply get_app_mid. }
    assert (Hch : child_indices (flat ts) (zlen pre + zlen (flat cs))
                  = rev (root_positions (zlen pre) cs)).
    { unfold child_indices. rewrite E in Hsz |- *.
      apply child_indices_roots; [exact Hsz | exact Hrwf |].
      pose proof (zlen_flat_ge cs). lens. }
    pose proof (get_roots pre (n :: post) cs) as Hroots. rewrite <- E in Hroots.
    assert (Hall : Forall (fun j => HashValue (get (flat ts) j) <> HashValue n)
                          (root_positions (zlen pre) cs)).
    { apply Forall_forall. intros j Hj. rewrite <- Hg. apply (H _ j Hpos).
      - rewrite Hg. exact Hred.
      - rewrite Hch. apply in_rev. rewrite rev_involutive. exact Hj. }
    clear - Hall Hroots. revert Hall Hroots. generalize (root_positions (zlen pre) cs).
    induction cs as [|c cs IH]; intros [|j l] Hall Hroots; try discriminate; constructor.
    + cbn [map] in Hroots. injection Hroots as E1 E2. rewrite <- E1.
      exact (Forall_inv Hall).
    + cbn [map] in Hroots. injection Hroots as E1 E2.
      apply (IH l); [exact (Forall_inv_tail Hall) | exact E2].
  - rewrite app_nil_r. reflexivity.
Qed.

(** X18. Where no inner commutative node has a child with its own
    [HashValue], [Reduce] removes nothing: it is [UpdateNodes]. *)
Theorem Reduce_of_a_flat_tree (nodes : list Node) :
  subtree_range_invariant nodes ->
  (forall i j, 0 <= i < zlen nodes -> reducible (get nodes i) = true ->
               In j (child_indices nodes i) ->
               HashValue (get nodes j) <> HashValue (get nodes i)) ->
  Reduce nodes = UpdateNodes nodes.
Proof.
  intros (Hsz & ts & Hwf & ->) H.
  pose proof (flattened_of_array Hwf Hsz H) as Hfl.
  assert (Hl : Forall lwf ts) by (eapply Forall_impl; [|exact Hwf]; apply rwf_lwf).
  unfold Reduce. rewrite (Reduce_mark_flat Hl Hsz).
  assert (E : existsb marks ts = false /\ map reduce ts = ts).
  { clear - Hfl. induction Hfl as [|t ts Ht _ (IH1 & IH2)]; [split; reflexivity|].
    destruct (flattened_marks Ht) as (E1 & E2).
    cbn [existsb map]. rewrite E1, E2, IH1, IH2. split; reflexivity. }
  destruct E as (E1 & E2). rewrite E1, E2. reflexivity.
Qed.


Lemma Reduce_of_a_flat_tree_witness :
  reducible (get ex_nodes 4) = true /\ Reduce ex_nodes = UpdateNodes ex_nodes.
Proof.
  split; [reflexivity|].
  apply (@Reduce_of_a_flat_tree ex_nodes ex_nodes_invariant).
  intros i j Hi Hred Hj. change (zlen ex_nodes) with 5 in Hi.
  assert (Ei : i = 0 \/ i = 1 \/ i = 2 \/ i = 3 \/ i = 4) by lia.
  destruct Ei as [->|[->|[->|[->| ->]]]]; try discriminate Hred.
  vm_compute in Hj. destruct Hj as [<-|[<-|[]]]; vm_compute; discriminate.
Defined.
Lemma hash_tells_kind_incl (l l' : list Node) :
  incl l' l -> hash_tells_kind l -> hash_tells_kind l'.
Proof. intros Hi H a b Ha Hb. apply H; apply Hi; assumption. Qed.

Lemma flattened_children (n : Node) (cs : list rtree) :
  flattened (RNode n cs) -> Forall flattened cs.
Proof. intros H. inversion H. assumption. Qed.

Lemma in_flat (c : rtree) (cs : list rtree) (m : Node) :
  In c cs -> In m (flatten c) -> In m (flat cs).
Proof. intros Hc Hm. unfold flat. apply in_flat_map. exists c. split; assumption. Qed.

Lemma root_in_flatten (t : rtree) : In (root t) (flatten t).
Proof. destruct t as [n cs]. rewrite flatten_RNode. apply in_or_app. right. left. reflexivity. Qed.

(** The tree that is left of a reduced tree. *)
Lemma reduce_flattened (t : rtree) :
  awf t -> Forall (fun m => IsEnabled m = true) (flatten t) ->
  hash_tells_kind (flatten t) ->
  flattened (RNode (root (reduce t)) (flat_map splice (children (reduce t)))).
Proof.
  induction t as [n cs IH] using rtree_induction. intros Hwf Hen HK.
  inversion Hwf as [n0 cs0 Har Hcs]. subst n0 cs0.
  destruct (@enabled_children n cs Hen) as (Hn & Hens).
  assert (Hin : forall c m, In c cs -> In m (flatten c) -> In m (flatten (RNode n cs))).
  { intros c m Hc Hm. rewrite flatten_RNode. apply in_or_app. left.
    apply (in_flat _ _ _ Hc Hm). }
  assert (HKc : forall c, In c cs -> hash_tells_kind (flatten c)).
  { intros c Hc. apply (hash_tells_kind_incl (l := flatten (RNode n cs))); [|exact HK].
    intros m Hm. apply (Hin c m Hc Hm). }
  assert (Hsp : Forall (fun c => spliceable (reduce c)
            /\ flattened (RNode (root (reduce c)) (flat_map splice (children (reduce c))))
            /\ (HashValue (root c) = HashValue n -> Kind (root c) = Kind n)) cs).
  { rewrite Forall_forall in IH, Hcs, Hens |- *. intros c Hc. split; [|split].
    - apply reduce_spliceable; auto.
    - apply IH; auto.
    - apply HK.
      + apply (Hin c _ Hc (root_in_flatten c)).
      + apply (root_in_flatten (RNode n cs)). }
  rewrite reduce_RNode. destruct (reducible n) eqn:Er; cbn [root children].
  - (* the node is looked at: some children are spliced *)
    constructor.
    + intros _. cbn [HashValue set_Arity]. clear - Hsp Er.
      induction Hsp as [|c cs (Hc1 & Hc2 & Hc3) _ IHcs]; [constructor|].
      cbn [map flat_map]. apply Forall_app. split; [|exact IHcs].
      destruct Hc1 as (He & Hara & Hawf).
      rewrite (@splice_mark (HashValue n) (reduce c) He).
      destruct (same_hash (HashValue n) (reduce c)) eqn:Es.
      * unfold same_hash in Es. apply Z.eqb_eq in Es.
        destruct (root_reduce c) as (_ & Hh & Hk & _).
        destruct (reducible (root (reduce c))) eqn:Erc.
        -- inversion Hc2 as [n0 cs0 Hcond Hrest]. subst n0 cs0.
           specialize (Hcond Erc). eapply Forall_impl; [|exact Hcond].
           cbn beta. intros k Hk'. congruence.
        -- (* a child with the hash of the node is of its kind: it is a leaf *)
           unfold reducible in Erc, Er. apply negb_false_iff in Erc. apply negb_true_iff in Er.
           apply orb_false_iff in Er. destruct Er as (_ & Ecomm).
           apply negb_false_iff in Ecomm.
           assert (Ecomm' : IsCommutative (root (reduce c)) = true).
           { unfold IsCommutative in *. rewrite Hk, (Hc3 (eq_trans (eq_sym Hh) (eq_sym Es))).
             exact Ecomm. }
           rewrite Ecomm' in Erc. cbn [negb] in Erc. rewrite orb_false_r in Erc.
           unfold IsLeaf in Erc. apply Z.eqb_eq in Erc. rewrite Erc in Hara.
           symmetry in Hara. apply zlen_zero_nil in Hara. rewrite Hara. constructor.
      * constructor; [|constructor]. cbn [root].
        unfold same_hash in Es. apply Z.eqb_neq in Es. congruence.
    + clear - Hsp.
      induction Hsp as [|c cs (Hc1 & Hc2 & Hc3) _ IHcs]; [constructor|].
      cbn [map flat_map]. apply Forall_app. split; [|exact IHcs].
      destruct Hc1 as (He & Hara & Hawf).
      rewrite (@splice_mark (HashValue n) (reduce c) He).
      destruct (same_hash (HashValue n) (reduce c)).
      * apply (flattened_children Hc2).
      * constructor; [exact Hc2 | constructor].
  - constructor.
    + intros H. rewrite Er in H. discriminate.
    + clear - Hsp.
      induction Hsp as [|c cs (Hc1 & Hc2 & Hc3) _ IHcs]; [constructor|].
      cbn [map flat_map]. apply Forall_app. split; [|exact IHcs].
      destruct (spliceable_splice Hc1) as (E & _). rewrite E.
      constructor; [exact Hc2 | constructor].
Qed.

Lemma forest_at_and (P : Z -> rtree -> Prop) (Q : rtree -> Prop) (o : Z) (ts : list rtree) :
  forest_at P o ts -> Forall Q ts -> forest_at (fun o t => P o t /\ Q t) o ts.
Proof.
  intros H. induction H as [o|o t ts Ht Hts IH]; intros HQ; constructor.
  - split; [exact Ht | exact (Forall_inv HQ)].
  - apply IH. exact (Forall_inv_tail HQ).
Qed.

(** The node at an index of a maintained array whose trees have a
    property that their subtrees inherit. *)
Lemma node_of_normal_with (Q : rtree -> Prop) (ts : list rtree) (i : Z) :
  (forall n cs, Q (RNode n cs) -> Forall Q cs) ->
  forest_at normal 0 ts -> Forall Q ts ->
  zlen (flat ts) < size_max -> 0 <= i < zlen (flat ts) ->
  exists (o : Z) (n : Node) (cs : list rtree),
    get (flat ts) i = n
    /\ normal o (RNode n cs) /\ Q (RNode n cs)
    /\ o + zlen (flat cs) = i
    /\ child_indices (flat ts) i = rev (root_positions o cs)
    /\ map (get (flat ts)) (root_positions o cs) = map root cs.
Proof.
  intros HQ Hn HQts Hsz Hi.
  assert (Hher : forall o n cs, normal o (RNode n cs) /\ Q (RNode n cs) ->
                  forest_at (fun o t => normal o t /\ Q t) o cs).
  { intros o n cs (H1 & H2). apply forest_at_and; [apply (normal_children H1) | apply (HQ _ _ H2)]. }
  destruct (@subtree_in (fun o t => normal o t /\ Q t) Hher ts 0 i
              (forest_at_and Hn HQts) Hi)
    as (pre & cs & n & post & E & Hpos & Hnorm & Hq).
  rewrite Z.add_0_l in Hnorm.
  exists (zlen pre), n, cs. rewrite E in Hsz |- *.
  split; [|split; [exact Hnorm | split; [exact Hq | split; [exact Hpos | split]]]].
  - rewrite <- Hpos. rewrite app_assoc, <- zlen_app. apply get_app_mid.
  - unfold child_indices. rewrite <- Hpos.
    apply child_indices_roots; [exact Hsz | apply (normal_rwf Hnorm) |].
    pose proof (zlen_flat_ge cs). lens.
  - apply get_roots.
Qed.

Lemma content_reducible (n n' : Node) :
  content n = content n' -> reducible n' = reducible n /\ HashValue n' = HashValue n.
Proof.
  unfold content. intros E. injection E as E1 E2 E3 E4 E5 E6.
  unfold reducible, IsLeaf, IsCommutative. rewrite E1, E2, E4. split; reflexivity.
Qed.

Lemma same_content_flattened (t t' : rtree) :
  same_content t t' -> flattened t -> flattened t'.
Proof.
  revert t'. induction t as [n cs IH] using rtree_induction. intros t' Hs Hf.
  inversion Hs as [n0 n' cs0 cs' Hn Hcs]. subst n0 cs0 t'.
  inversion Hf as [n0 cs0 Hcond Hrest]. subst n0 cs0.
  destruct (content_reducible Hn) as (Er & Eh).
  constructor.
  - intros Hred. rewrite Er in Hred. specialize (Hcond Hred). rewrite Eh.
    clear - Hcs Hcond. induction Hcs as [|c c' cs cs' Hc _ IHcs]; constructor.
    + inversion Hc as [m m' ds ds' Hm Hds]. subst. cbn [root].
      destruct (content_reducible Hm) as (_ & Ehm). rewrite Ehm.
      exact (Forall_inv Hcond).
    + apply IHcs. exact (Forall_inv_tail Hcond).
  - clear - IH Hcs Hrest. induction Hcs as [|c c' cs cs' Hc _ IHcs]; constructor.
    + apply (Forall_inv IH _ Hc). exact (Forall_inv Hrest).
    + apply IHcs; [exact (Forall_inv_tail IH) | exact (Forall_inv_tail Hrest)].
Qed.

Lemma reduced_forest_flattened (ts : list rtree) :
  Forall awf ts -> Forall (fun m => IsEnabled m = true) (flat ts) ->
  hash_tells_kind (flat ts) ->
  Forall flattened (flat_map splice (map reduce ts)).
Proof.
  intros Hwf Hen HK. pose proof (@forest_enabled ts Hen) as Hens.
  assert (HKs : Forall (fun t => hash_tells_kind (flatten t)) ts).
  { rewrite Forall_forall. intros t Ht.
    apply (hash_tells_kind_incl (l := flat ts)); [|exact HK].
    intros m Hm. apply (in_flat _ _ _ Ht Hm). }
  clear Hen HK. induction ts as [|t ts IH]; [constructor|].
  cbn [map flat_map]. apply Forall_app. split.
  - destruct (spliceable_splice
                (reduce_spliceable (Forall_inv Hwf) (Forall_inv Hens))) as (E & _).
    rewrite E. constructor; [|constructor].
    apply reduce_flattened;
      [exact (Forall_inv Hwf) | exact (Forall_inv Hens) | exact (Forall_inv HKs)].
  - apply IH; [exact (Forall_inv_tail Hwf) | exact (Forall_inv_tail Hens)
              | exact (Forall_inv_tail HKs)].
Qed.

Lemma ex_nested_hash_tells_kind : hash_tells_kind ex_nested.
Proof.
  intros a b Ha Hb. cbn in Ha, Hb.
  repeat (destruct Ha as [<-|Ha];
          [repeat (destruct Hb as [<-|Hb]; [vm_compute; congruence|]); destruct Hb|]).
  destruct Ha.
Qed.

(** X19. After [Reduce], no inner commutative node has a child with its
    own [HashValue]: commutative nodes nested in their like have been
    merged into them.  (Nodes with the same [HashValue] are taken to be
    of the same kind.) *)
Theorem Reduce_flattens (nodes : list Node) (i j : Z) :
  subtree_range_invariant nodes ->
  Forall (fun m => IsEnabled m = true) nodes ->
  hash_tells_kind nodes ->
  let res := Reduce nodes in
  0 <= i < zlen res -> reducible (get res i) = true ->
  In j (child_indices res i) ->
  HashValue (get res j) <> HashValue (get res i).
Proof.
  intros (Hsz & ts & Hwf & ->) Hen HK res. subst res.
  destruct (Reduce_flat Hwf Hen Hsz) as (E & Hawf & EX). rewrite E.
  assert (HszX : zlen (flat (flat_map splice (map reduce ts))) < size_max).
  { rewrite EX. unfold zlen.
    pose proof (length_filter_le IsEnabled (flat (map reduce ts))) as H.
    rewrite length_flat_reduce in H. unfold zlen in Hsz. lia. }
  assert (Hfl : Forall flattened (flat_map splice (map reduce ts))).
  { apply reduced_forest_flattened; trivial.
    eapply Forall_impl; [|exact Hwf]. apply rwf_awf. }
  destruct (UpdateNodes_forest Hawf HszX) as (ts' & E' & HR).
  destruct (maintained_children HR) as (Hsame & Hn).
  assert (Hfl' : Forall flattened ts').
  { clear - Hsame Hfl. induction Hsame as [|t t' us us' Ht _ IH]; constructor.
    - apply (same_content_flattened Ht). exact (Forall_inv Hfl).
    - apply IH. exact (Forall_inv_tail Hfl). }
  rewrite E'.
  assert (Hsz' : zlen (flat ts') < size_max).
  { rewrite <- E'. unfold zlen. rewrite length_UpdateNodes. exact HszX. }
  intros Hi Hred Hj.
  destruct (@node_of_normal_with flattened ts' i flattened_children Hn Hfl' Hsz' Hi)
    as (o & n & cs & Hg & Hnorm & Hq & Hpos & Hch & Hroots).
  rewrite Hg in Hred |- *. rewrite Hch in Hj. apply in_rev in Hj.
  apply (in_map (get (flat ts'))) in Hj. rewrite Hroots in Hj.
  apply in_map_iff in Hj. destruct Hj as (c & Hc & Hin). rewrite <- Hc.
  inversion Hq as [n0 cs0 Hcond Hrest]. subst n0 cs0.
  specialize (Hcond Hred). rewrite Forall_forall in Hcond. apply Hcond. exact Hin.
Qed.

Lemma Reduce_flattens_witness :
  child_indices (Reduce ex_nested) 3 = [2; 1; 0]
  /\ HashValue (get (Reduce ex_nested) 2) <> HashValue (get (Reduce ex_nested) 3).
Proof.
  split; [reflexivity|].
  apply (@Reduce_flattens ex_nested 3 2 ex_nested_invariant).
  - repeat constructor.
  - exact ex_nested_hash_tells_kind.
  - split; [lia | reflexivity].
  - reflexivity.
  - vm_compute. left. reflexivity.
Defined.

(** *** [Reduce] and the coefficients *)

Lemma GetCoefficients_app (l1 l2 : list Node) :
  GetCoefficients (l1 ++ l2) = GetCoefficients l1 ++ GetCoefficients l2.
Proof.
  induction l1 as [|x l1 IH]; [reflexivity|]. cbn [app GetCoefficients].
  destruct (has_coefficient x); rewrite IH; reflexivity.
Qed.

Lemma GetCoefficients_ext (l l' : list Node) :
  map (fun m => (Kind m, Value m)) l' = map (fun m => (Kind m, Value m)) l ->
  GetCoefficients l' = GetCoefficients l.
Proof.
  revert l'. induction l as [|x l IH]; intros [|x' l'] E; try discriminate; [reflexivity|].
  cbn [map] in E. injection E as E1 E2 E3. cbn [GetCoefficients].
  unfold has_coefficient, IsConstant, IsVariable. rewrite E1, E2, (IH l' E3). reflexivity.
Qed.

Lemma GetCoefficients_filter (l : list Node) :
  Forall (fun m => IsEnabled m = false -> has_coefficient m = false) l ->
  GetCoefficients (filter IsEnabled l) = GetCoefficients l.
Proof.
  induction 1 as [|x l Hx _ IH]; [reflexivity|]. cbn [filter GetCoefficients].
  destruct (IsEnabled x) eqn:E.
  - cbn [GetCoefficients]. rewrite IH. reflexivity.
  - rewrite (Hx eq_refl), IH. reflexivity.
Qed.

Lemma commutative_no_coefficient (m : Node) :
  IsCommutative m = true -> has_coefficient m = false.
Proof. unfold IsCommutative, has_coefficient, IsConstant, IsVariable. destruct (Kind m); intros H; try discriminate H; reflexivity. Qed.

Lemma map_content_kv (l l' : list Node) :
  map content l' = map content l ->
  map (fun m => (Kind m, Value m)) l' = map (fun m => (Kind m, Value m)) l.
Proof.
  revert l'. induction l as [|x l IH]; intros [|x' l'] E; try discriminate; [reflexivity|].
  cbn [map] in E |- *. injection E as E1 E2 E3 E4 E5 E6 E7.
  rewrite E1, E6, (IH l' E7). reflexivity.
Qed.

Lemma mark_coefficients (h : Z) (c : rtree) :
  map (fun m => (Kind m, Value m)) (flatten (mark h c))
  = map (fun m => (Kind m, Value m)) (flatten c)
  /\ (Forall (fun m => IsEnabled m = false -> has_coefficient m = false) (flatten c) ->
      (same_hash h c = true -> has_coefficient (root c) = false) ->
      Forall (fun m => IsEnabled m = false -> has_coefficient m = false)
             (flatten (mark h c))).
Proof.
  rewrite flatten_mark. destruct c as [m ds]. cbn [root children]. rewrite flatten_RNode.
  split.
  - rewrite !map_app. cbn [map]. destruct (same_hash h (RNode m ds)); reflexivity.
  - intros H Hm. apply Forall_app in H. destruct H as (H1 & H2).
    apply Forall_app. split; [exact H1|]. constructor; [|constructor].
    destruct (same_hash h (RNode m ds)); [|exact (Forall_inv H2)].
    intros _. exact (Hm eq_refl).
Qed.

Lemma reducible_commutative (n : Node) : reducible n = true -> IsCommutative n = true.
Proof.
  unfold reducible. destruct (IsLeaf n); [discriminate|].
  destruct (IsCommutative n); [reflexivity | discriminate].
Qed.

Lemma same_kind_no_coefficient (n m : Node) :
  Kind m = Kind n -> IsCommutative n = true -> has_coefficient m = false.
Proof.
  intros E H. apply commutative_no_coefficient. unfold IsCommutative in *.
  rewrite E. exact H.
Qed.

(** The loop of [Reduce] leaves every kind and value as it is, and
    disables no constant and no variable. *)
Lemma reduce_coefficients (t : rtree) :
  Forall (fun m => IsEnabled m = true) (flatten t) ->
  hash_tells_kind (flatten t) ->
  map (fun m => (Kind m, Value m)) (flatten (reduce t))
  = map (fun m => (Kind m, Value m)) (flatten t)
  /\ Forall (fun m => IsEnabled m = false -> has_coefficient m = false)
            (flatten (reduce t)).
Proof.
  induction t as [n cs IH] using rtree_induction. intros Hen HK.
  destruct (@enabled_children n cs Hen) as (Hn & Hcs).
  assert (HKcs : Forall (fun c => hash_tells_kind (flatten c)) cs).
  { rewrite Forall_forall. intros c Hc.
    apply (hash_tells_kind_incl (l := flatten (RNode n cs))); [|exact HK].
    intros m Hm. rewrite flatten_RNode. apply in_or_app. left.
    apply (in_flat _ _ _ Hc Hm). }
  assert (Hroots : reducible n = true ->
            Forall (fun c => same_hash (HashValue n) (reduce c) = true ->
                             has_coefficient (root (reduce c)) = false) cs).
  { intros Hred. rewrite Forall_forall. intros c Hc Hs.
    destruct (root_reduce c) as (_ & Eh & Ek & _ & _).
    apply (@same_kind_no_coefficient n); [|apply (@reducible_commutative n Hred)].
    rewrite Ek. unfold same_hash in Hs. apply Z.eqb_eq in Hs. rewrite Eh in Hs.
    apply HK.
    - rewrite flatten_RNode. apply in_or_app. left.
      apply (in_flat _ _ _ Hc (root_in_flatten c)).
    - apply (root_in_flatten (RNode n cs)).
    - symmetry. exact Hs. }
  rewrite reduce_RNode. destruct (reducible n) eqn:Hred.
  - specialize (Hroots eq_refl). rewrite !flatten_RNode, !map_app. cbn [map].
    assert (H : map (fun m => (Kind m, Value m))
                  (flat (map (mark (HashValue n)) (map reduce cs)))
                = map (fun m => (Kind m, Value m)) (flat cs)
                /\ Forall (fun m => IsEnabled m = false -> has_coefficient m = false)
                     (flat (map (mark (HashValue n)) (map reduce cs)))).
    { clear Hen HK Hn Hred. induction cs as [|c cs IHcs]; [split; [reflexivity | constructor]|].
      cbn [map]. rewrite !flat_cons, !map_app.
      destruct (Forall_inv IH (Forall_inv Hcs) (Forall_inv HKcs)) as (E1 & F1).
      destruct (mark_coefficients (HashValue n) (reduce c)) as (E2 & F2).
      destruct (IHcs (Forall_inv_tail IH) (Forall_inv_tail Hcs) (Forall_inv_tail HKcs)
                  (Forall_inv_tail Hroots)) as (E3 & F3).
      split.
      - rewrite E2, E1, E3. reflexivity.
      - apply Forall_app. split; [|exact F3]. apply F2; [exact F1 | exact (Forall_inv Hroots)]. }
    destruct H as (E & F). split.
    + rewrite E. reflexivity.
    + apply Forall_app. split; [exact F|]. constructor; [|constructor].
      cbn [IsEnabled set_Arity]. rewrite Hn. discriminate.
  - rewrite !flatten_RNode, !map_app. cbn [map].
    assert (H : map (fun m => (Kind m, Value m)) (flat (map reduce cs))
                = map (fun m => (Kind m, Value m)) (flat cs)
                /\ Forall (fun m => IsEnabled m = false -> has_coefficient m = false)
                     (flat (map reduce cs))).
    { clear Hen HK Hn Hred Hroots. induction cs as [|c cs IHcs]; [split; [reflexivity | constructor]|].
      cbn [map]. rewrite !flat_cons, !map_app.
      destruct (Forall_inv IH (Forall_inv Hcs) (Forall_inv HKcs)) as (E1 & F1).
      destruct (IHcs (Forall_inv_tail IH) (Forall_inv_tail Hcs) (Forall_inv_tail HKcs))
        as (E3 & F3).
      split.
      - rewrite E1, E3. reflexivity.
      - apply Forall_app. split; [exact F1 | exact F3]. }
    destruct H as (E & F). split.
    + rewrite E. reflexivity.
    + apply Forall_app. split; [exact F|]. constructor; [|constructor].
      rewrite Hn. discriminate.
Qed.

Lemma reduce_forest_coefficients (ts : list rtree) :
  Forall (fun m => IsEnabled m = true) (flat ts) ->
  hash_tells_kind (flat ts) ->
  GetCoefficients (filter IsEnabled (flat (map reduce ts))) = GetCoefficients (flat ts).
Proof.
  intros Hen HK. pose proof (@forest_enabled ts Hen) as Hens.
  assert (HKs : Forall (fun t => hash_tells_kind (flatten t)) ts).
  { rewrite Forall_forall. intros t Ht.
    apply (hash_tells_kind_incl (l := flat ts)); [|exact HK].
    intros m Hm. apply (in_flat _ _ _ Ht Hm). }
  clear Hen HK. induction ts as [|t ts IH]; [reflexivity|].
  cbn [map]. rewrite !flat_cons, filter_app, !GetCoefficients_app.
  destruct (@reduce_coefficients t (Forall_inv Hens) (Forall_inv HKs)) as (E & F).
  rewrite (GetCoefficients_filter F), (@GetCoefficients_ext _ _ E).
  rewrite (IH (Forall_inv_tail Hens) (Forall_inv_tail HKs)). reflexivity.
Qed.

(** X20. [Reduce] keeps the coefficients of the tree: the values of its
    constants and variables, in the order of the array, are those of
    the tree it was given.  (Nodes with the same [HashValue] are taken
    to be of the same kind.) *)
Theorem Reduce_keeps_the_coefficients (nodes : list Node) :
  subtree_range_invariant nodes ->
  Forall (fun m => IsEnabled m = true) nodes ->
  hash_tells_kind nodes ->
  GetCoefficients (Reduce nodes) = GetCoefficients nodes.
Proof.
  intros (Hsz & ts & Hwf & ->) Hen HK.
  destruct (Reduce_flat Hwf Hen Hsz) as (E & Hawf & EX). rewrite E.
  assert (HszX : zlen (flat (flat_map splice (map reduce ts))) < size_max).
  { rewrite EX. unfold zlen.
    pose proof (length_filter_le IsEnabled (flat (map reduce ts))) as H.
    rewrite length_flat_reduce in H. unfold zlen in Hsz. lia. }
  destruct (UpdateNodes_forest Hawf HszX) as (ts' & E' & HR).
  destruct (maintained_flat HR) as (Hc & _).
  rewrite E', (@GetCoefficients_ext _ _ (@map_content_kv _ _ Hc)), EX.
  apply reduce_forest_coefficients; assumption.
Qed.

Lemma Reduce_keeps_the_coefficients_witness :
  zlen (Reduce ex_nested) = 4
  /\ GetCoefficients (Reduce ex_nested) = GetCoefficients ex_nested.
Proof.
  split; [reflexivity|].
  apply (@Reduce_keeps_the_coefficients ex_nested ex_nested_invariant).
  - repeat constructor.
  - exact ex_nested_hash_tells_kind.
Defined.

(** *** [Level] *)

Lemma get_app_l (l1 l2 : list Node) (i : Z) :
  0 <= i < zlen l1 -> get (l1 ++ l2) i = get l1 i.
Proof. intros H. unfold get. apply app_nth1. unfold zlen in H. lia. Qed.

Lemma get_app_r (l1 l2 : list Node) (i : Z) :
  zlen l1 <= i -> get (l1 ++ l2) i = get l2 (i - zlen l1).
Proof.
  intros H. unfold get. unfold zlen in *. rewrite app_nth2 by lia.
  f_equal. lia.
Qed.

Lemma get_last_root (t : rtree) : get (flatten t) (zlen (flatten t) - 1) = root t.
Proof.
  destruct t as [n cs]. rewrite flatten_RNode, zlen_app, zlen_cons, zlen_nil.
  replace (zlen (flat cs) + (1 + 0) - 1) with (zlen (flat cs)) by lia.
  apply get_app_mid.
Qed.

(** In a maintained tree the [Parent] of every node but the root lies
    behind the node and inside the tree. *)
Lemma forest_parents (cs : list rtree) :
  Forall (fun t => forall o i, normal o t -> 0 <= i < zlen (flatten t) - 1 ->
                     o + i < Parent (get (flatten t) i) <= o + zlen (flatten t) - 1) cs ->
  forall o r i,
    forest_at normal o cs -> Forall (fun c => Parent (root c) = r) cs ->
    o + zlen (flat cs) <= r -> 0 <= i < zlen (flat cs) ->
    o + i < Parent (get (flat cs) i) <= r.
Proof.
  induction 1 as [|c cs Hc _ IH]; intros o r i Hn HP Hr Hi.
  - change (zlen (flat [])) with 0 in Hi. lia.
  - inversion Hn as [|o0 c0 cs0 Hnc Hncs]. subst o0 c0 cs0.
    rewrite flat_cons, zlen_app in Hi, Hr. rewrite flat_cons.
    pose proof (zlen_nonneg (flat cs)) as Hnn.
    destruct (Z.lt_ge_cases i (zlen (flatten c))) as [Hlt|Hge].
    + rewrite get_app_l by lia.
      destruct (Z.eq_dec i (zlen (flatten c) - 1)) as [->|Hne].
      * rewrite get_last_root, (Forall_inv HP). lia.
      * specialize (Hc o i Hnc). lia.
    + rewrite get_app_r by lia.
      specialize (IH (o + zlen (flatten c)) r (i - zlen (flatten c)) Hncs
                     (Forall_inv_tail HP)). lia.
Qed.

Lemma tree_parents (t : rtree) (o i : Z) :
  normal o t -> 0 <= i < zlen (flatten t) - 1 ->
  o + i < Parent (get (flatten t) i) <= o + zlen (flatten t) - 1.
Proof.
  revert o i. induction t as [n cs IH] using rtree_induction. intros o i Hn Hi.
  inversion Hn as [o0 n0 cs0 Har HL HD HP Hcs]. subst o0 n0 cs0.
  rewrite zlen_flatten_RNode in Hi |- *. rewrite flatten_RNode, get_app_l by lia.
  replace (o + (zlen (flat cs) + 1) - 1) with (o + zlen (flat cs)) by lia.
  apply (forest_parents IH Hcs HP); lia.
Qed.

Lemma Level_loop_acc (fuel : nat) (nodes : list Node) (root i level k : Z) :
  Level_loop fuel nodes root i (level + k)
  = option_map (fun x => x + k) (Level_loop fuel nodes root i level).
Proof.
  revert i level. induction fuel as [|fuel IH]; intros i level; [reflexivity|].
  cbn [Level_loop].
  destruct ((i <? root) && negb (Parent (get nodes i) =? root)); [|reflexivity].
  replace (level + k + 1) with (level + 1 + k) by lia. apply IH.
Qed.

Lemma Level_loop_more (fuel : nat) (nodes : list Node) (root i level x : Z) :
  Level_loop fuel nodes root i level = Some x ->
  Level_loop (S fuel) nodes root i level = Some x.
Proof.
  revert i level. induction fuel as [|fuel IH]; intros i level H; [discriminate|].
  cbn [Level_loop] in H. remember (S fuel) as f eqn:Ef. cbn [Level_loop]. subst f.
  destruct ((i <? root) && negb (Parent (get nodes i) =? root)); [|exact H].
  apply IH. exact H.
Qed.

(** The loop of [Level] comes to an end where every [Parent] lies
    behind its node. *)
Lemma Level_loop_returns (nodes : list Node) (root : Z) :
  (forall i, 0 <= i < root -> i < Parent (get nodes i) <= root) ->
  forall (fuel : nat) (i level : Z),
    0 <= i -> Z.max 0 (root - i) < Z.of_nat fuel ->
    exists x, Level_loop fuel nodes root i level = Some x.
Proof.
  intros Hpar. induction fuel as [|fuel IH]; intros i level Hi Hf; [lia|].
  - cbn [Level_loop]. destruct (Z.ltb_spec i root) as [Hlt|Hge]; cbn [andb].
    + destruct (negb (Parent (get nodes i) =? root)); [|eexists; reflexivity].
      specialize (Hpar i (conj Hi Hlt)). apply IH; lia.
    + eexists. reflexivity.
Qed.

(** What [UpdateNodes] makes of the array of one tree. *)
Lemma UpdateNodes_one_tree (nodes : list Node) :
  one_tree nodes -> zlen nodes < size_max ->
  exists t', UpdateNodes nodes = flatten t' /\ normal 0 t'
             /\ zlen (flatten t') = zlen nodes.
Proof.
  intros (t & Hwf & ->) Hsz.
  assert (Hflat : flat [t] = flatten t) by (rewrite flat_cons; apply app_nil_r).
  destruct (@UpdateNodes_forest [t]) as (ts' & E & HR).
  { constructor; [exact Hwf | constructor]. }
  { rewrite Hflat. exact Hsz. }
  rewrite Hflat in E.
  destruct (maintained_children HR) as (Hs & Hn).
  inversion Hs as [|t0 t' ts0 ts1 Ht Hrest]. subst t0 ts0 ts'.
  inversion Hrest. subst ts1.
  exists t'. rewrite flat_cons, app_nil_r in E.
  split; [exact E|]. split.
  - inversion Hn as [|o0 c0 cs0 Hnt _]. exact Hnt.
  - unfold zlen. rewrite (same_content_size Ht). reflexivity.
Qed.

(** X21. [Level] in a tree that [UpdateNodes] has maintained: it is 0
    at the root and at the children of the root, and one more at a
    child than at its parent everywhere else; so it is the distance to
    the root less one, except at the root. *)
Theorem Level_after_UpdateNodes (nodes : list Node) :
  one_tree nodes -> zlen nodes < size_max ->
  let res := UpdateNodes nodes in
  let root := zlen res - 1 in
  Level res root = Some 0
  /\ (forall j, In j (child_indices res root) -> Level res j = Some 0)
  /\ (forall i j, 0 <= i < root -> In j (child_indices res i) ->
        exists x, Level res i = Some x /\ Level res j = Some (x + 1)).
Proof.
  intros Hone Hsz res root.
  destruct (UpdateNodes_one_tree Hone Hsz) as (t' & E & Hn & Hlen).
  assert (Hflat : flat [t'] = flatten t') by (rewrite flat_cons; apply app_nil_r).
  assert (Hfn : forest_at normal 0 [t']) by (constructor; [exact Hn | constructor]).
  assert (Hpos : 1 <= zlen res).
  { subst res. rewrite E. apply zlen_flatten_pos. }
  assert (Hpar : forall i j, 0 <= i < zlen res -> In j (child_indices res i) ->
                   Parent (get res j) = i /\ j < i).
  { intros i j Hi Hj. subst res. rewrite E, <- Hflat in Hi, Hj |- *.
    apply (@normal_array_parent [t'] i j Hfn); [rewrite Hflat; lia | exact Hi | exact Hj]. }
  assert (Hup : forall i, 0 <= i < root -> i < Parent (get res i) <= root).
  { intros i Hi. subst root res. rewrite E in Hi |- *.
    pose proof (@tree_parents t' 0 i Hn) as H. lia. }
  unfold Level. fold (zlen res). fold root.
  split; [|split].
  - cbn [Level_loop]. rewrite Z.ltb_irrefl. reflexivity.
  - intros j Hj. cbn [Level_loop].
    destruct (Hpar root j) as (Hp & _); [subst root; lia | exact Hj |].
    rewrite Hp, Z.eqb_refl, andb_false_r. reflexivity.
  - intros i j Hi Hj.
    destruct (@Level_loop_returns res root Hup (length res) i 0) as (x & Hx).
    { lia. }
    { fold (zlen res). subst root. lia. }
    exists x. split; [apply Level_loop_more; exact Hx|].
    destruct (Hpar i j) as (Hp & Hji); [subst root; lia | exact Hj |].
    remember (length res) as fuel eqn:Ef. cbn [Level_loop]. rewrite Hp.
    replace (j <? root) with true by (symmetry; apply Z.ltb_lt; lia).
    replace (i =? root) with false by (symmetry; apply Z.eqb_neq; lia).
    cbn [andb negb]. rewrite (Level_loop_acc fuel res root i 0 1), Hx. reflexivity.
Qed.

Lemma ex_raw_one_tree : one_tree ex_raw.
Proof.
  exists ex_raw_tree. split; [|reflexivity].
  repeat (constructor; try reflexivity).
Qed.

Lemma Level_after_UpdateNodes_witness :
  map (Level (UpdateNodes ex_raw)) [0; 1; 2; 3; 4]
  = [Some 0; Some 1; Some 1; Some 0; Some 0]
  /\ exists x, Level (UpdateNodes ex_raw) 3 = Some x
               /\ Level (UpdateNodes ex_raw) 1 = Some (x + 1).
Proof.
  split; [reflexivity|].
  destruct (@Level_after_UpdateNodes ex_raw ex_raw_one_tree) as (_ & _ & H); [reflexivity|].
  apply (H 3 1).
  - split; [lia | reflexivity].
  - vm_compute. right. left. reflexivity.
Defined.

End TreeOpsFacts.

(* ================================================================= *)
(** * What the cost-function adapter leaves in the caller's arrays *)

Module CostOpsFacts.
Import CostFunction CostFunctionFacts CostOps.

Lemma length_set_nth {A} (l : list A) (i : nat) (x : A) : length (set_nth l i x) = length l.
Proof.
  revert i. induction l as [|y l IH]; intros [|i]; cbn [set_nth length]; try reflexivity.
  rewrite IH. reflexivity.
Qed.

Lemma nth_set_nth {A} (l : list A) (i i' : nat) (x d : A) :
  (i < length l)%nat ->
  nth i' (set_nth l i x) d = if (i' =? i)%nat then x else nth i' l d.
Proof.
  revert i i'. induction l as [|y l IH]; intros i i' Hi; [cbn in Hi; lia|].
  destruct i as [|i], i' as [|i']; cbn [set_nth nth Nat.eqb]; try reflexivity.
  apply IH. cbn [length] in Hi. lia.
Qed.

Section Evaluate.
Variable Scalar : Type.
Variable zero one : Scalar.
Variable Stride : nat.
Variable Storage : StorageOrder.
Variable functor_scalar : list Scalar -> bool * list Scalar.
Variable functor_jet : list (Jet Scalar) -> bool * list (Jet Scalar).
Variable NumParameters NumResiduals : nat.

Local Notation seed_loop := (@seed_loop Scalar zero one Stride).
Local Notation column_loop := (@column_loop Scalar zero Storage NumParameters NumResiduals).
Local Notation copy_loop := (@copy_loop Scalar zero Stride Storage NumParameters NumResiduals).
Local Notation residual_loop := (@residual_loop Scalar).
Local Notation pass_loop :=
  (@pass_loop Scalar zero one Stride Storage functor_jet NumParameters NumResiduals).
Local Notation Evaluate :=
  (@Evaluate Scalar zero one Stride Storage functor_scalar functor_jet
             NumParameters NumResiduals).
Local Notation jMap_index := (jMap_index Storage NumParameters NumResiduals).
Local Notation entry := (@entry Scalar zero Storage NumParameters NumResiduals).
Local Notation tangent := (@tangent Scalar zero one Stride).
Local Notation jets_of := (@jets_of Scalar zero one Stride).
Local Notation seeded := (@seeded Scalar zero one Stride NumParameters).
Local Notation derivative := (@derivative Scalar zero).

(** *** The places of the jacobian *)

Lemma jMap_index_bound (k j : nat) :
  (k < NumResiduals)%nat -> (j < NumParameters)%nat ->
  (jMap_index k j < NumResiduals * NumParameters)%nat.
Proof. intros Hk Hj. unfold CostFunction.jMap_index. destruct Storage; nia. Qed.

Lemma jMap_index_inj (k j k' j' : nat) :
  (k < NumResiduals)%nat -> (j < NumParameters)%nat ->
  (k' < NumResiduals)%nat -> (j' < NumParameters)%nat ->
  jMap_index k j = jMap_index k' j' -> k = k' /\ j = j'.
Proof.
  intros Hk Hj Hk' Hj'. unfold CostFunction.jMap_index. destruct Storage; intros E.
  - assert (k = k') by nia. subst k'. split; [reflexivity | lia].
  - assert (j = j') by nia. subst j'. split; [lia | reflexivity].
Qed.

Lemma entry_set_nth (J : list Scalar) (k j k' j' : nat) (x : Scalar) :
  length J = (NumResiduals * NumParameters)%nat ->
  (k < NumResiduals)%nat -> (j < NumParameters)%nat ->
  (k' < NumResiduals)%nat -> (j' < NumParameters)%nat ->
  entry (set_nth J (jMap_index k j) x) k' j'
  = if (k' =? k)%nat && (j' =? j)%nat then x else entry J k' j'.
Proof.
  intros HJ Hk Hj Hk' Hj'. unfold CostOps.entry.
  rewrite nth_set_nth by (rewrite HJ; apply jMap_index_bound; assumption).
  destruct (Nat.eqb_spec (jMap_index k' j') (jMap_index k j)) as [E|N].
  - destruct (jMap_index_inj Hk' Hj' Hk Hj E) as (-> & ->).
    rewrite !Nat.eqb_refl. reflexivity.
  - destruct (Nat.eqb_spec k' k) as [->|]; [|reflexivity].
    destruct (Nat.eqb_spec j' j) as [->|]; [|reflexivity].
    contradiction N. reflexivity.
Qed.

(** *** The loops *)

Lemma column_loop_jacobian (pass : nat) (out : list (Jet Scalar)) (k j lane : nat)
    (m : memory Scalar) :
  length (jacobian m) = (NumResiduals * NumParameters)%nat ->
  (k + length out <= NumResiduals)%nat -> (j < NumParameters)%nat ->
  let m' := column_loop pass out k j lane m in
  length (jacobian m') = (NumResiduals * NumParameters)%nat
  /\ forall k' j', (k' < NumResiduals)%nat -> (j' < NumParameters)%nat ->
       entry (jacobian m') k' j'
       = if (j' =? j)%nat && (k <=? k')%nat && (k' <? k + length out)%nat
         then derivative out (k' - k) lane
         else entry (jacobian m) k' j'.
Proof.
  revert k m. induction out as [|jet rest IH]; intros k m HJ Hk Hj; cbn [column_loop length].
  - cbn zeta. split; [exact HJ|]. intros k' j' Hk' Hj'.
    replace ((j' =? j)%nat && (k <=? k')%nat && (k' <? k + 0)%nat) with false; [reflexivity|].
    symmetry. destruct (Nat.ltb_spec k' (k + 0)); [|apply andb_false_r].
    destruct (Nat.leb_spec k k'); [lia|]. rewrite andb_false_r. reflexivity.
  - cbn zeta. cbn [length] in Hk.
    set (m1 := mkMemory (residuals m)
                 (set_nth (jacobian m) (jMap_index k j) (nth lane (v jet) zero))
                 (trace m ++ [EvJacobian pass k j lane])).
    destruct (IH (S k) m1) as (L & Hent); [| lia | exact Hj |].
    { subst m1. cbn [jacobian]. rewrite length_set_nth. exact HJ. }
    split; [exact L|]. intros k' j' Hk' Hj'. rewrite (Hent k' j' Hk' Hj').
    subst m1. cbn [jacobian]. rewrite entry_set_nth by (trivial; lia).
    destruct (Nat.eqb_spec j' j) as [->|Nj]; cbn [andb]; [|rewrite andb_false_r; reflexivity].
    rewrite andb_true_r.
    destruct (Nat.leb_spec (S k) k') as [H1|H1].
    + replace (k <=? k')%nat with true by (symmetry; apply Nat.leb_le; lia).
      replace (k' =? k)%nat with false by (symmetry; apply Nat.eqb_neq; lia).
      cbn [andb].
      replace (k' <? k + S (length rest))%nat with (k' <? S k + length rest)%nat
        by (f_equal; lia).
      destruct (k' <? S k + length rest)%nat; [|reflexivity].
      unfold CostOps.derivative. replace (k' - k)%nat with (S (k' - S k)) by lia.
      reflexivity.
    + cbn [andb]. destruct (Nat.eqb_spec k' k) as [->|Nk].
      * rewrite Nat.leb_refl.
        replace (k <? k + S (length rest))%nat with true by (symmetry; apply Nat.ltb_lt; lia).
        cbn [andb]. unfold CostOps.derivative. rewrite Nat.sub_diag. reflexivity.
      * replace (k <=? k')%nat with false by (symmetry; apply Nat.leb_gt; lia).
        reflexivity.
Qed.

Lemma copy_loop_jacobian (n pass : nat) (out : list (Jet Scalar)) (j act cursor c0 : nat)
    (m : memory Scalar) :
  length (jacobian m) = (NumResiduals * NumParameters)%nat ->
  length out = NumResiduals ->
  (c0 <= j)%nat -> act = Nat.min (j - c0) Stride -> (j + n <= NumParameters)%nat ->
  let m' := snd (copy_loop n pass out j act cursor m) in
  length (jacobian m') = (NumResiduals * NumParameters)%nat
  /\ forall k' j', (k' < NumResiduals)%nat -> (j' < NumParameters)%nat ->
       entry (jacobian m') k' j'
       = if (j <=? j')%nat && (j' <? j + n)%nat && (j' <? c0 + Stride)%nat
         then derivative out k' (j' - c0)
         else entry (jacobian m) k' j'.
Proof.
  revert j act cursor m. induction n as [|n IH]; intros j act cursor m HJ Hout Hj Hact Hn;
    cbn [copy_loop].
  - cbn [snd]. cbn zeta. split; [exact HJ|]. intros k' j' Hk' Hj'.
    replace ((j <=? j')%nat && (j' <? j + 0)%nat) with false; [reflexivity|].
    symmetry. destruct (Nat.leb_spec j j'); [|reflexivity].
    cbn [andb]. apply Nat.ltb_ge. lia.
  - destruct (Nat.ltb_spec act Stride) as [Ha|Ha].
    + destruct (@column_loop_jacobian pass out 0 j act m HJ) as (L1 & E1); [lia | lia |].
      destruct (IH (S j) (S act) (S cursor) (column_loop pass out 0 j act m) L1 Hout)
        as (L2 & E2); [lia | lia | lia |].
      split; [exact L2|]. intros k' j' Hk' Hj'.
      rewrite (E2 k' j' Hk' Hj'), (E1 k' j' Hk' Hj').
      rewrite Hout. change (0 <=? k')%nat with true. rewrite andb_true_r.
      replace (k' <? 0 + NumResiduals)%nat with true by (symmetry; apply Nat.ltb_lt; lia).
      rewrite andb_true_r, Nat.sub_0_r.
      destruct (Nat.eqb_spec j' j) as [->|Nj].
      * replace (S j <=? j)%nat with false by (symmetry; apply Nat.leb_gt; lia).
        rewrite Nat.leb_refl.
        replace (j <? j + S n)%nat with true by (symmetry; apply Nat.ltb_lt; lia).
        replace (j <? c0 + Stride)%nat with true by (symmetry; apply Nat.ltb_lt; lia).
        cbn [andb]. replace (j - c0)%nat with act by lia. reflexivity.
      * replace (j' <? S j + n)%nat with (j' <? j + S n)%nat by (f_equal; lia).
        destruct (Nat.leb_spec (S j) j') as [H1|H1].
        -- replace (j <=? j')%nat with true by (symmetry; apply Nat.leb_le; lia). reflexivity.
        -- replace (j <=? j')%nat with false by (symmetry; apply Nat.leb_gt; lia). reflexivity.
    + destruct (IH (S j) act cursor m HJ Hout) as (L2 & E2); [lia | lia | lia |].
      split; [exact L2|]. intros k' j' Hk' Hj'. rewrite (E2 k' j' Hk' Hj').
      destruct (Nat.eqb_spec j' j) as [->|Nj].
      * replace (S j <=? j)%nat with false by (symmetry; apply Nat.leb_gt; lia).
        replace (j <? c0 + Stride)%nat with false by (symmetry; apply Nat.ltb_ge; lia).
        rewrite !andb_false_r. reflexivity.
      * replace (j' <? S j + n)%nat with (j' <? j + S n)%nat by (f_equal; lia).
        destruct (Nat.leb_spec (S j) j') as [H1|H1].
        -- replace (j <=? j')%nat with true by (symmetry; apply Nat.leb_le; lia). reflexivity.
        -- replace (j <=? j')%nat with false by (symmetry; apply Nat.leb_gt; lia). reflexivity.
Qed.

Lemma residual_loop_memory (pass : nat) (out : list (Jet Scalar)) (k : nat)
    (m : memory Scalar) :
  length (residuals m) = (k + length out)%nat ->
  residuals (residual_loop pass out k m)
  = firstn k (residuals m) ++ map (@a Scalar) out
  /\ jacobian (residual_loop pass out k m) = jacobian m.
Proof.
  revert k m. induction out as [|jet rest IH]; intros k m Hlen;
    cbn [residual_loop length map] in *.
  - rewrite app_nil_r, firstn_all2 by lia. auto.
  - set (m1 := mkMemory (set_nth (residuals m) k (a jet)) (jacobian m)
                        (trace m ++ [EvResidual pass k])).
    destruct (IH (S k) m1) as (I1 & I2).
    { subst m1. cbn [residuals]. rewrite length_set_nth. lia. }
    rewrite I1, I2. subst m1. cbn [residuals jacobian]. split; [|reflexivity].
    assert (H : forall (l : list Scalar) (i : nat) (x : Scalar),
              (i < length l)%nat -> firstn (S i) (set_nth l i x) = firstn i l ++ [x]).
    { clear. induction l as [|y l IHl]; intros [|i] x Hi; cbn [length] in Hi; try lia.
      - reflexivity.
      - cbn [set_nth]. rewrite !firstn_cons. cbn [app]. f_equal. apply IHl. lia. }
    rewrite H by lia. rewrite <- app_assoc. reflexivity.
Qed.

Lemma residual_loop_jacobian (pass : nat) (out : list (Jet Scalar)) (k : nat)
    (m : memory Scalar) :
  jacobian (residual_loop pass out k m) = jacobian m.
Proof.
  revert k m. induction out as [|jet rest IH]; intros k m; cbn [residual_loop]; [reflexivity|].
  rewrite IH. reflexivity.
Qed.

Lemma copy_loop_cursor (n pass : nat) (out : list (Jet Scalar)) (j act cursor c0 : nat)
    (m : memory Scalar) :
  (c0 <= j)%nat -> act = Nat.min (j - c0) Stride -> cursor = (c0 + act)%nat ->
  fst (copy_loop n pass out j act cursor m) = (c0 + Nat.min (j + n - c0) Stride)%nat
  /\ residuals (snd (copy_loop n pass out j act cursor m)) = residuals m.
Proof.
  revert j act cursor m. induction n as [|n IH]; intros j act cursor m Hj Hact Hcur;
    cbn [copy_loop].
  - cbn [fst snd]. rewrite Nat.add_0_r. subst. auto.
  - destruct (Nat.ltb_spec act Stride) as [Ha|Ha].
    + destruct (IH (S j) (S act) (S cursor) (column_loop pass out 0 j act m))
        as (I1 & I2); [lia | lia | lia |].
      rewrite I1, I2.
      split; [f_equal; lia | apply (column_loop_trace zero Storage NumParameters NumResiduals)].
    + destruct (IH (S j) act cursor m) as (I1 & I2); [lia | lia | lia |].
      rewrite I1, I2. split; [f_equal; lia | reflexivity].
Qed.

Lemma lane_of_column (p j : nat) :
  (p * Stride <= j)%nat -> (j < p * Stride + Stride)%nat ->
  (j / Stride = p /\ j mod Stride = j - p * Stride)%nat.
Proof.
  intros H1 H2.
  assert (E : (j / Stride = p)%nat).
  { symmetry. apply Nat.div_unique with (r := (j - p * Stride)%nat); lia. }
  split; [exact E|]. pose proof (Nat.div_mod_eq j Stride) as D. rewrite E in D. lia.
Qed.

(** *** The passes *)

(** What the passes [p], ..., [p + n - 1] leave in the jacobian, when
    the functor succeeds. *)
Lemma pass_loop_jacobian (xs : list Scalar) (numStrides : Z) (n : nat) :
  (1 <= Stride)%nat ->
  (forall js, fst (functor_jet js) = true /\ length (snd (functor_jet js)) = NumResiduals) ->
  length xs = NumParameters ->
  forall (p : nat) (inputs : list (Jet Scalar)) (cursor : nat) (m : memory Scalar),
    map (@a Scalar) inputs = xs ->
    cursor = Nat.min (p * Stride) NumParameters ->
    length (jacobian m) = (NumResiduals * NumParameters)%nat ->
    let m' := snd (pass_loop n p numStrides inputs cursor m) in
    fst (pass_loop n p numStrides inputs cursor m) = true
    /\ length (jacobian m') = (NumResiduals * NumParameters)%nat
    /\ forall k j, (k < NumResiduals)%nat -> (j < NumParameters)%nat ->
         entry (jacobian m') k j
         = if (p * Stride <=? j)%nat && (j <? (p + n) * Stride)%nat
           then derivative (snd (functor_jet (jets_of (j / Stride * Stride) 0 xs)))
                           k (j mod Stride)
           else entry (jacobian m) k j.
Proof.
  intros HS Hf Hxs. induction n as [|n IH]; intros p inputs cursor m Ha Hcur HJ;
    cbn [pass_loop].
  - cbn [fst snd]. cbn zeta. split; [reflexivity|]. split; [exact HJ|].
    intros k j Hk Hj. rewrite Nat.add_0_r.
    destruct (Nat.leb_spec (p * Stride) j) as [H1|H1]; [|reflexivity].
    replace (j <? p * Stride)%nat with false by (symmetry; apply Nat.ltb_ge; lia).
    reflexivity.
  - destruct (@seed_loop_jets Scalar zero one Stride p inputs 0 0 cursor m) as (S1 & S2 & S3); [lia|].
    destruct (seed_loop p inputs 0 0 cursor m) as [inputs' m1]. cbn [fst snd] in S1, S2, S3.
    rewrite Ha in S1.
    destruct (Hf inputs') as (Hok & Hout).
    destruct (functor_jet inputs') as [ok out] eqn:Efun. cbn [fst snd] in Hok, Hout. subst ok.
    cbn [negb].
    assert (HJ1 : length (jacobian (log (EvCall p) m1))
                  = (NumResiduals * NumParameters)%nat).
    { cbn [log jacobian]. rewrite S3. exact HJ. }
    destruct (@copy_loop_jacobian (NumParameters - cursor) p out cursor 0 cursor cursor
                (log (EvCall p) m1) HJ1 Hout) as (L2 & E2); [lia | lia | lia |].
    destruct (@copy_loop_cursor (NumParameters - cursor) p out cursor 0 cursor cursor
                (log (EvCall p) m1)) as (C1 & _); [lia | lia | lia |].
    destruct (copy_loop (NumParameters - cursor) p out cursor 0 cursor (log (EvCall p) m1))
      as [cursor' m2]. cbn [fst snd] in C1, L2, E2.
    set (m3 := if (Z.of_nat p =? numStrides - 1)%Z then residual_loop p out 0 m2 else m2).
    assert (HJ3 : jacobian m3 = jacobian m2).
    { subst m3. destruct (Z.of_nat p =? numStrides - 1)%Z; [|reflexivity].
      apply residual_loop_jacobian. }
    destruct (IH (S p) inputs' cursor' m3) as (I1 & I2 & I3).
    { rewrite S1. apply map_a_jets_of. }
    { rewrite C1. cbn [Nat.mul]. lia. }
    { rewrite HJ3. exact L2. }
    split; [exact I1|]. split; [exact I2|].
    intros k j Hk Hj. rewrite (I3 k j Hk Hj), HJ3, (E2 k j Hk Hj).
    cbn [log jacobian]. rewrite S3.
    replace ((p + S n) * Stride)%nat with ((S p + n) * Stride)%nat by (f_equal; lia).
    destruct (Nat.ltb_spec j ((S p + n) * Stride)) as [Hhi|Hhi].
    + destruct (Nat.leb_spec (S p * Stride) j) as [Hlo|Hlo]; cbn [andb].
      * replace (p * Stride <=? j)%nat with true
          by (symmetry; apply Nat.leb_le; cbn [Nat.mul] in Hlo; lia).
        reflexivity.
      * cbn [Nat.mul] in Hlo.
        destruct (Nat.leb_spec (p * Stride) j) as [Hp|Hp]; cbn [andb].
        -- assert (Ec : cursor = (p * Stride)%nat) by lia.
           destruct (@lane_of_column p j Hp) as (Ed & Em); [lia|].
           rewrite Ed, Em.
           replace (cursor <=? j)%nat with true by (symmetry; apply Nat.leb_le; lia).
           replace (j <? cursor + (NumParameters - cursor))%nat with true
             by (symmetry; apply Nat.ltb_lt; lia).
           replace (j <? cursor + Stride)%nat with true by (symmetry; apply Nat.ltb_lt; lia).
           cbn [andb]. rewrite <- Ec, <- S1, Efun. reflexivity.
        -- replace (cursor <=? j)%nat with false by (symmetry; apply Nat.leb_gt; lia).
           reflexivity.
    + rewrite !andb_false_r.
      replace (j <? cursor + Stride)%nat with false
        by (symmetry; apply Nat.ltb_ge; cbn [Nat.mul] in Hhi; nia).
      rewrite andb_false_r. reflexivity.
Qed.

(** What they leave in the residuals. *)
Lemma pass_loop_residuals (xs : list Scalar) (numStrides : Z) (n : nat) :
  (forall js, fst (functor_jet js) = true /\ length (snd (functor_jet js)) = NumResiduals) ->
  forall (p : nat) (inputs : list (Jet Scalar)) (cursor : nat) (m : memory Scalar),
    map (@a Scalar) inputs = xs ->
    cursor = Nat.min (p * Stride) NumParameters ->
    Z.of_nat (p + n) = numStrides ->
    length (residuals m) = NumResiduals ->
    residuals (snd (pass_loop n p numStrides inputs cursor m))
    = match n with
      | O => residuals m
      | S _ => map (@a Scalar)
                 (snd (functor_jet
                    (jets_of (Nat.min ((p + n - 1) * Stride) NumParameters) 0 xs)))
      end.
Proof.
  intros Hf. induction n as [|n IH]; intros p inputs cursor m Ha Hcur HN HR;
    cbn [pass_loop]; [reflexivity|].
  destruct (@seed_loop_jets Scalar zero one Stride p inputs 0 0 cursor m) as (S1 & S2 & S3); [lia|].
  destruct (seed_loop p inputs 0 0 cursor m) as [inputs' m1]. cbn [fst snd] in S1, S2, S3.
  rewrite Ha in S1.
  destruct (Hf inputs') as (Hok & Hout).
  destruct (functor_jet inputs') as [ok out] eqn:Efun. cbn [fst snd] in Hok, Hout. subst ok.
  cbn [negb].
  destruct (@copy_loop_cursor (NumParameters - cursor) p out cursor 0 cursor cursor
              (log (EvCall p) m1)) as (C1 & C2); [lia | lia | lia |].
  destruct (copy_loop (NumParameters - cursor) p out cursor 0 cursor (log (EvCall p) m1))
    as [cursor' m2]. cbn [fst snd] in C1, C2. cbn [log residuals] in C2.
  assert (Hm2 : residuals m2 = residuals m) by (rewrite C2; exact S2).
  specialize (IH (S p) inputs' cursor'
                 (if (Z.of_nat p =? numStrides - 1)%Z then residual_loop p out 0 m2 else m2)).
  destruct n as [|n].
  - cbn [pass_loop snd].
    replace (Z.of_nat p =? numStrides - 1)%Z with true by (symmetry; apply Z.eqb_eq; lia).
    destruct (@residual_loop_memory p out 0 m2) as (R1 & _).
    { rewrite Hm2, HR, Hout. reflexivity. }
    rewrite R1. cbn [firstn app].
    replace (p + 1 - 1)%nat with p by lia. rewrite <- Hcur, <- S1, Efun. reflexivity.
  - replace (Z.of_nat p =? numStrides - 1)%Z with false in IH |- *
      by (symmetry; apply Z.eqb_neq; lia).
    rewrite IH.
    + replace (S p + S n - 1)%nat with (p + S (S n) - 1)%nat by lia. reflexivity.
    + rewrite S1. apply map_a_jets_of.
    + rewrite C1. cbn [Nat.mul]. lia.
    + lia.
    + rewrite Hm2. exact HR.
Qed.

(** A pass in which the functor fails is not the one that copies the
    residuals, and no later pass takes place. *)
Lemma pass_loop_failure (numStrides : Z) (n : nat) :
  forall (p : nat) (inputs : list (Jet Scalar)) (cursor : nat) (m : memory Scalar),
    (Z.of_nat (p + n) <= numStrides)%Z ->
    fst (pass_loop n p numStrides inputs cursor m) = false ->
    residuals (snd (pass_loop n p numStrides inputs cursor m)) = residuals m.
Proof.
  induction n as [|n IH]; intros p inputs cursor m HN; cbn [pass_loop]; [discriminate|].
  destruct (@seed_loop_jets Scalar zero one Stride p inputs 0 0 cursor m) as (_ & S2 & _); [lia|].
  destruct (seed_loop p inputs 0 0 cursor m) as [inputs' m1]. cbn [fst snd] in S2.
  destruct (functor_jet inputs') as [ok out]. destruct ok; cbn [negb].
  - destruct (@copy_loop_cursor (NumParameters - cursor) p out cursor 0 cursor cursor
                (log (EvCall p) m1)) as (_ & C2); [lia | lia | lia |].
    destruct (copy_loop (NumParameters - cursor) p out cursor 0 cursor (log (EvCall p) m1))
      as [cursor' m2]. cbn [fst snd] in C2. cbn [log residuals] in C2.
    destruct (Z.eqb_spec (Z.of_nat p) (numStrides - 1)) as [Hlast|Hnot].
    + assert (n = 0%nat) by lia. subst n. cbn [pass_loop fst]. discriminate.
    + intros Hfail. rewrite (IH (S p) inputs' cursor' m2) by (trivial; lia).
      rewrite C2. exact S2.
  - intros _. cbn [snd log residuals]. exact S2.
Qed.

(** X22. When [Evaluate] is asked for the jacobian and returns false,
    the functor having failed in some pass, it has not touched the
    caller's residuals. *)
Theorem Evaluate_failure_keeps_residuals (parameters : list Scalar) (m : memory Scalar) :
  fst (Evaluate parameters false m) = false ->
  residuals (snd (Evaluate parameters false m)) = residuals m.
Proof.
  unfold CostFunction.Evaluate.
  set (numStrides := compute_numStrides (Z.of_nat NumParameters) (Z.of_nat Stride)).
  destruct (Z.to_nat numStrides) as [|n] eqn:En; [discriminate|].
  apply pass_loop_failure. lia.
Qed.

(** X23. When the functor succeeds and the stride count computed in
    single precision is [ceil(P / Stride)], [Evaluate] returns true and
    leaves in entry [(k, j)] of the caller's jacobian, row-major or
    column-major, lane [j mod Stride] of output jet [k] of the pass
    [j / Stride], the pass whose input jets carry the parameters as
    values and a unit tangent in lane [j' mod Stride] of each parameter
    [j'] of its stride. *)
Theorem Evaluate_fills_the_jacobian (parameters : list Scalar) (m : memory Scalar)
    (k j : nat) :
  (1 <= Stride)%nat ->
  (NumParameters <= length parameters)%nat ->
  (forall js, fst (functor_jet js) = true /\ length (snd (functor_jet js)) = NumResiduals) ->
  compute_numStrides (Z.of_nat NumParameters) (Z.of_nat Stride)
    = Z.of_nat (ceil_div NumParameters Stride) ->
  length (jacobian m) = (NumResiduals * NumParameters)%nat ->
  (k < NumResiduals)%nat -> (j < NumParameters)%nat ->
  fst (Evaluate parameters false m) = true
  /\ length (jacobian (snd (Evaluate parameters false m))) = length (jacobian m)
  /\ entry (jacobian (snd (Evaluate parameters false m))) k j
     = derivative (snd (functor_jet (seeded parameters (j / Stride)))) k (j mod Stride).
Proof.
  intros HS Hlen Hf HN HJ Hk Hj.
  pose proof (@ceil_div_covers NumParameters Stride HS) as Hcov.
  unfold CostFunction.Evaluate. rewrite HN, Nat2Z.id.
  set (xs := firstn NumParameters parameters).
  assert (Hxs : length xs = NumParameters) by (subst xs; rewrite length_firstn; lia).
  destruct (@pass_loop_jacobian xs (Z.of_nat (ceil_div NumParameters Stride))
              (ceil_div NumParameters Stride) HS Hf Hxs 0
              (map (fun p => mkJet p (repeat zero Stride)) xs) 0 m)
    as (H1 & H2 & H3).
  { rewrite map_map. cbn [a]. apply map_id. }
  { cbn. lia. }
  { exact HJ. }
  split; [exact H1|]. split; [rewrite H2, HJ; reflexivity|].
  rewrite (H3 k j Hk Hj). cbn [Nat.mul Nat.add Nat.leb].
  replace (j <? ceil_div NumParameters Stride * Stride)%nat with true
    by (symmetry; apply Nat.ltb_lt; lia).
  reflexivity.
Qed.

(** X24. Under the same conditions, with at least one parameter, the
    caller's residuals are the values of the output jets of the last
    pass, pass [ceil(P / Stride) - 1]. *)
Theorem Evaluate_residuals_of_the_last_pass (parameters : list Scalar)
    (m : memory Scalar) :
  (1 <= Stride)%nat ->
  (1 <= NumParameters)%nat ->
  (NumParameters <= length parameters)%nat ->
  (forall js, fst (functor_jet js) = true /\ length (snd (functor_jet js)) = NumResiduals) ->
  compute_numStrides (Z.of_nat NumParameters) (Z.of_nat Stride)
    = Z.of_nat (ceil_div NumParameters Stride) ->
  length (residuals m) = NumResiduals ->
  residuals (snd (Evaluate parameters false m))
  = map (@a Scalar)
        (snd (functor_jet (seeded parameters (ceil_div NumParameters Stride - 1)))).
Proof.
  intros HS HP Hlen Hf HN HR.
  destruct (@ceil_div_tight NumParameters Stride HS HP) as (Htight & HN1).
  unfold CostFunction.Evaluate. rewrite HN, Nat2Z.id.
  set (xs := firstn NumParameters parameters).
  rewrite (@pass_loop_residuals xs (Z.of_nat (ceil_div NumParameters Stride))
             (ceil_div NumParameters Stride) Hf 0
             (map (fun p => mkJet p (repeat zero Stride)) xs) 0 m).
  - destruct (ceil_div NumParameters Stride) as [|N] eqn:EN; [lia|].
    unfold CostOps.seeded. fold xs. cbn [Nat.add].
    replace (Nat.min ((S N - 1) * Stride) NumParameters) with ((S N - 1) * Stride)%nat by lia.
    reflexivity.
  - rewrite map_map. cbn [a]. apply map_id.
  - cbn. lia.
  - reflexivity.
  - exact HR.
Qed.

End Evaluate.

Lemma Evaluate_failure_keeps_residuals_witness :
  fst (Evaluate 0%Z 1%Z 4 RowMajor demo_scalar late_failing_functor 5 2 [1; 2; 3; 4; 5]%Z
                false demo_memory) = false
  /\ calls (trace (snd (Evaluate 0%Z 1%Z 4 RowMajor demo_scalar late_failing_functor 5 2
                                  [1; 2; 3; 4; 5]%Z false demo_memory))) = [0; 1]%nat
  /\ residuals (snd (Evaluate 0%Z 1%Z 4 RowMajor demo_scalar late_failing_functor 5 2
                               [1; 2; 3; 4; 5]%Z false demo_memory))
     = residuals demo_memory.
Proof.
  split; [reflexivity|]. split; [reflexivity|].
  apply (@Evaluate_failure_keeps_residuals Z 0%Z 1%Z 4 RowMajor demo_scalar
           late_failing_functor 5 2 [1; 2; 3; 4; 5]%Z demo_memory).
  reflexivity.
Defined.

Lemma Evaluate_fills_the_jacobian_witness :
  jacobian (snd (Evaluate 0%Z 1%Z 4 RowMajor demo_scalar linear_functor 5 2
                          [1; 2; 3; 4; 5]%Z false demo_memory))
  = [1; 1; 1; 1; 1; 1; 0; 0; 0; 0]%Z
  /\ entry 0%Z RowMajor 5 2
        (jacobian (snd (Evaluate 0%Z 1%Z 4 RowMajor demo_scalar linear_functor 5 2
                                 [1; 2; 3; 4; 5]%Z false demo_memory))) 0 4
     = derivative 0%Z (snd (linear_functor (seeded 0%Z 1%Z 4 5 [1; 2; 3; 4; 5]%Z 1))) 0 0.
Proof.
  split; [reflexivity|].
  apply (@Evaluate_fills_the_jacobian Z 0%Z 1%Z 4 RowMajor demo_scalar linear_functor 5 2
           [1; 2; 3; 4; 5]%Z demo_memory 0 4).
  - lia.
  - cbn. lia.
  - intros js. split; reflexivity.
  - reflexivity.
  - reflexivity.
  - lia.
  - lia.
Defined.

Lemma Evaluate_residuals_of_the_last_pass_witness :
  residuals (snd (Evaluate 0%Z 1%Z 4 RowMajor demo_scalar linear_functor 5 2
                           [1; 2; 3; 4; 5]%Z false demo_memory))
  = map (@a Z) (snd (linear_functor (seeded 0%Z 1%Z 4 5 [1; 2; 3; 4; 5]%Z 1)))
  /\ map (@a Z) (snd (linear_functor (seeded 0%Z 1%Z 4 5 [1; 2; 3; 4; 5]%Z 1)))
     = [15; 1]%Z.
Proof.
  split; [|reflexivity].
  apply (@Evaluate_residuals_of_the_last_pass Z 0%Z 1%Z 4 RowMajor demo_scalar
           linear_functor 5 2 [1; 2; 3; 4; 5]%Z demo_memory).
  - lia.
  - lia.
  - cbn. lia.
  - intros js. split; reflexivity.
  - reflexivity.
  - reflexivity.
Defined.

End CostOpsFacts.

(* ================================================================= *)
(** * What a Plus trial hands back *)

Module RecombinatorMore.
Import Double DoubleFacts Recombinator RecombinatorFacts.

Section Operators.
Variable rand_t : Type.
Variable genotype : Type.
Variable uniformReal : rand_t -> double * rand_t.
Variable selector : rand_t -> nat * rand_t.
Variable crossover : genotype -> genotype -> rand_t -> genotype * rand_t.
Variable mutator : genotype -> rand_t -> genotype * rand_t.
Variable evaluator : Individual genotype -> rand_t -> double * rand_t.
Variable Max : bool.
Variable population : list (Individual genotype).
Variable T_default : Individual genotype.

Local Notation Plus := (Plus_call uniformReal selector crossover mutator evaluator Max population T_default).
Local Notation PlusT := (Plus_trial uniformReal selector crossover mutator evaluator population T_default).
Local Notation at_ := (at_ population T_default).
Local Notation contributing := (contributing population T_default).
Local Notation survivor := (Plus_survivor Max population T_default).

(** The survivor is the child or one of the parents it was compared
    with, whatever the fitness values. *)
Lemma Plus_survivor_among (dc : bool) (i j : nat) (child : Individual genotype) :
  survivor dc i j child = child
  \/ In (survivor dc i j child) (if dc then [at_ i; at_ j] else [at_ i]).
Proof.
  unfold Plus_survivor.
  destruct dc;
    repeat match goal with
    | |- context [if ?c then _ else _] => destruct c
    end; cbn [In]; auto.
Qed.

(** X25. A Plus trial returns nothing when neither crossover nor
    mutation triggers; otherwise it returns the candidate or one of the
    contributing parents, whatever their fitness values, NaN included.
    As the candidate's fitness is clamped, the returned fitness is
    finite when the contributing parents' are. *)
Theorem Plus_returns_candidate_or_parent (pC pM : double) (r0 : rand_t) :
  let t := PlusT pC pM r0 in
  let cand := Plus_candidate Max t in
  (triggered t = false -> fst (Plus pC pM r0) = None)
  /\ (triggered t = true ->
      exists res,
        fst (Plus pC pM r0) = Some res
        /\ (res = cand \/ In res (contributing t))
        /\ ((forall p, In p (contributing t) -> isfinite (Fitness p) = true) ->
            isfinite (Fitness res) = true)).
Proof.
  intros t cand. split.
  - intros Htr.
    pose proof (@Plus_call_trial rand_t genotype uniformReal selector crossover mutator
                  evaluator Max population T_default pC pM r0) as Hcall.
    cbv zeta in Hcall. fold t in Hcall. rewrite Htr in Hcall. exact Hcall.
  - intros Htr.
    destruct (@Plus_call_survivor rand_t genotype uniformReal selector crossover mutator
                evaluator Max population T_default pC pM r0 Htr) as (i & j & Hc & Hcall).
    fold t cand in Hc, Hcall.
    eexists. split; [exact Hcall|]. rewrite Hc.
    pose proof (Plus_survivor_among (doCrossover t) i j cand) as Hs.
    split; [exact Hs|]. intros Hfin.
    destruct Hs as [E|Hin].
    + rewrite E. apply clamp_finite.
    + apply Hfin. exact Hin.
Qed.

End Operators.

Lemma Plus_returns_candidate_or_parent_witness :
  exists res,
    Demo.Plus false Demo.pop_5_7 S754_nan one zero = Some res
    /\ isfinite (Fitness res) = true.
Proof.
  destruct (@Plus_returns_candidate_or_parent nat nat Demo.uniformReal (Demo.selector 2)
              Demo.crossover Demo.mutator (Demo.evaluator S754_nan) false Demo.pop_5_7
              Demo.T_default one zero 0%nat) as (_ & H).
  destruct H as (res & H1 & _ & H3).
  - reflexivity.
  - exists res. split; [exact H1|]. apply H3.
    intros p [<-|[<-|[]]]; reflexivity.
Defined.

End RecombinatorMore.
